(* ===== verification/_CoqProject ===== *)
-Q . S2P
Prelude.v
Api.v
Raft.v
Protocol.v
RaftFacts.v
Cluster.v
Frames.v
ClusterSim.v
ClusterLocal.v
Schedule.v
Safety.v
Backup.v
Store.v
Rsm.v
RsmFacts.v
RsmThreads.v
System.v
SystemFacts.v
SystemRun.v
Linear.v
Persist.v
Doubles.v
Network.v
Transport.v
Clerk.v
Config.v
Node.v
Cli.v
