(* ===== verification/Prelude.v ===== *)
(** * kvraft: a verification development

    kvraft is a replicated key-value store: a cluster of nodes agrees on a log of
    operations with the Raft algorithm, and every node applies the log to its
    copy of the store.  The code is under [src/kvraft].

    ** The program

    - The consensus engine ([internal/raft]): [raft.go] has the state of a node
      and the client calls, [ticker.go] elections, [log_replication.go] both
      sides of the three remote calls, [storage.go] persistence and snapshots,
      [disk_persister.go] the files.
    - The replicated state machine ([internal/rsm]): [Submit] logs an operation
      and waits; the reader goroutine applies what the engine delivers on the
      apply channel, answers the waiting calls, takes snapshots.
    - The store ([internal/kvserver/store.go]), the gRPC service
      ([internal/kvserver/grpc.go]), the client library ([pkg/clerk]), the
      transport between nodes ([raftransport]), the configuration ([config]).
    - The assembly of a node ([internal/kvserver/node.go]), the programs
      ([cmd]), the doubles and the network of the tests ([internal/testutils]).

    A request goes clerk, service, [Submit], engine of the leader, engines of the
    followers, apply channel, reader, store, and back to the clerk.

    ** The files

    - [Prelude.v]: handlers as state transformers that may panic and emit
      effects ([M]), slices with Go's index checks, tactics, generic lemmas.
    - [Api.v]: the shared types of [api], [sm] and [raft]; values of type [any];
      gob streams.
    - [Raft.v]: the engine of one node, method by method.  A method runs under
      the node's mutex, so it is one atomic transformer of the record [Raft];
      files saved, goroutines started, signals and timers are effects.  [None]
      is a run-time panic.  Loops with an index bound have that number of
      iterations as fuel, computed from the loop condition, so fuel never ends
      a loop early.
    - [Protocol.v]: abstract Raft.  Whole logs, no messages, no compaction, and
      the history as ghost state (candidacies, votes, elections, the log of
      each term's leader, acknowledged prefixes).  Its invariant [AInv] gives
      election safety, log matching, leader completeness and agreement of
      committed prefixes, by rule induction over [astep].
    - [RaftFacts.v]: what each method of [Raft.v] does to the log a node
      represents ([node_repr]: the slice of entries with the snapshot position
      stands for a whole log), on every branch.
    - [Cluster.v]: [N] nodes and a network that loses, delays, duplicates and
      reorders; events of a node ([exec]), crashes between events and at every
      file write, restarts ([cstep], [reachable]).
    - [ClusterSim.v], [ClusterLocal.v]: the forward simulation from the cluster
      to the protocol ([sim]), event by event.
    - [Schedule.v]: runs computed from a schedule, for concrete examples.
    - [Frames.v]: what each handler of the engine leaves alone: the disk is the
      last save, snapshots come from the replica or from a message.
    - [Safety.v], [Backup.v]: the theorems about every reachable cluster.
    - [Store.v]: the interface [StateMachine] with its laws, the store, the
      specification the linearizability tests use.
    - [Rsm.v], [RsmFacts.v], [RsmThreads.v]: the replicated state machine over
      the interfaces [RaftApi] and [StateMachine]; its sequential behaviour;
      the interleaving of its goroutines at the mutex and the channels.
      [handleCommand] falls into the parts between two points where the reader
      can stop ([applyOp], [notifyOutdated], [checkSnapshot]).
    - [System.v]: the whole system, a replica of [Rsm.v] on every node of
      [Cluster.v] with the apply channel between them and the calls that wait,
      as a step relation ([sstep], [sreachable]); the history of calls and
      answers.  A message to a call is a step the reader and the call take
      together, so the reader waits at a send.  The parameter [saving] says
      whether a crash can come between the two files of a save.
    - [SystemFacts.v]: its invariant [sys_inv]: every snapshot in memory, on
      disk, in a message or in a channel is of the state its index determines,
      and every reader follows the committed log.
    - [SystemRun.v]: runs of the system computed from a schedule, and one of
      them with snapshots and a restart.
    - [Linear.v]: the theorems about every reachable system.
    - [Persist.v]: the interface [Persister], the persister on files with
      interrupted saves, the one in memory; what a torn save does to a system.
    - [Doubles.v]: the tests' consensus layer and state machine as instances of
      [RaftApi] and [StateMachine].
    - [Network.v]: the tests' network, its tables and its call.
    - [Transport.v]: the codec with its 32-bit integers, both ends of a remote
      call.
    - [Clerk.v]: the service handlers and the clerk's retry loops.
    - [Config.v]: loading a configuration, the index of a node.
    - [Node.v]: starting and stopping a node, with what the process holds
      ([Proc]); the main program of the server.
    - [Cli.v]: making and closing a clerk; the command line client.

    ** What the theorems show

    - The replicated state machine is linearizable ([Linear.v]): in every run of
      the whole system, with leader changes, lost and repeated messages,
      snapshots, timeouts, crashes and restarts, one sequence of the submitted
      operations explains all answers and respects the order of calls in time,
      also for operations whose call was never answered; for the store that
      sequence, with the answers received, is accepted by the specification of
      the tests; all replicas are copies of one state machine; no reader panics
      or ends the process, and nodes start again from a completed save.  All
      this is for saves that a crash does not tear ([Atomic]), and
      linearizability for calls with distinct ids other than -1; [Persist.v]
      shows what goes wrong with [TwoFiles].
    - The code of the engine implements Raft: every reachable cluster state is
      simulated by the protocol; at most one leader per term, log matching,
      leader completeness, leader append-only, agreement of committed entries,
      the same command at the same index on every apply channel, across
      crashes; terms grow; votes are given once per term.
    - It does so without run-time panics, nodes stay well formed, what is in
      memory is on disk, and a node restarts from whatever an interrupted save
      leaves.
    - The applier hands out the log in order; the commit rule of the leader, in
      terms of a majority of nodes; exact conflict hints, and where they move
      the search for the common prefix.
    - The replica's state is the one its log determines, snapshots are of that
      state, replies are those of the call's own operation; the store refines
      the tests' specification, versions make [Put] a compare-and-swap,
      snapshots restore the store.
    - Saves on files leave one of three disks; remote calls are the handlers
      while numbers fit in 32 bits; the clerk's results; valid configurations.
    - A node is assembled from its configuration so that the system above is the
      one it runs; what a failed start, [Stop] and a clerk release; the exit
      status of the command line client; the election timeout's range.
    - The tests' network delivers as the cluster's network may, partitions hold;
      replicas over the tests' consensus layer follow its commands.
    - Theorems about defects: a deadlock between a timed-out call and the
      reader, commands lost in any system by a crash between the two files of a
      snapshot's save, a version error for the client's own write, a waiting
      call that can never be answered after another one's deferred removal, a
      division by zero for a setting the configuration
      accepts, an engine left running by a failed start, a metrics server left
      by [Stop], versions with trailing garbage.

    ** What is not modelled

    Time (timers are events that can happen whenever the code would be waiting
    for them), randomness (random ids and draws are chosen freely; the theorems
    about linearizability ask for distinct ids), logging, metrics, the network
    beneath gRPC, generated protobuf code, the helper of the tests that calls
    the porcupine checker, the clients in other languages.  Integers of the
    engine are unbounded; [Transport.v] says where 32 bits are the limit,
    [Store.v] and [Node.v] where 64 are.  The durability of a rename in a power
    failure is assumed.

    [Kill] is a definition of [Raft.v] and part of [Stop], but not an event of
    the cluster: an engine that was killed and still answers calls, without
    saving, is outside the theorems about clusters and systems, where a node goes
    down by crashing.  For the same reason the apply channel is never closed in
    [System.v]; [RsmThreads.v] has the reader's [cleanup].

    ** Plan

    Next: a bound on terms and indices by the number of steps, which says how
    long 32 bits last; progress of an election and of replication under a fair
    schedule; the goroutine-level steps of [RsmThreads.v] as refinements of the
    steps of [System.v]; histories of clerks end to end, and the recording of
    histories by the tests. *)

From stdpp Require Export base tactics numbers option list list_numbers.
From stdpp Require Export gmap strings sets.
From Stdlib Require Export ZArith Lia.

#[export] Set Default Goal Selector "!".

(** The lemmas that close routine goals, and the equations that evaluate
    handlers. *)
Create HintDb kvraft.
Create Rewrite HintDb run.

(** ** Handlers as state transformers

    Every method of the code runs with the receiver's mutex held.  It reads and
    writes the receiver, may fail with a run-time panic (an index out of range,
    a negative [make]) and performs effects that other parts of the system
    observe (a file written, a goroutine started, a condition signalled).
    [M S E A] is that: from a state, either [None] (the panic) or a result, the
    state after, and the effects in order. *)

Definition M (S E A : Type) : Type := S → option (A * S * list E).

Section monad.
Context {S E : Type}.

#[export] Instance M_ret : MRet (M S E) := λ A a s, Some (a, s, []).

#[export] Instance M_bind : MBind (M S E) := λ A B f m s,
  match m s with
  | None => None
  | Some (a, s1, e1) =>
      match f a s1 with
      | None => None
      | Some (b, s2, e2) => Some (b, s2, e1 ++ e2)
      end
  end.

(** The receiver as it is now. *)
Definition get : M S E S := λ s, Some (s, s, []).
(** Assign to fields of the receiver. *)
Definition modify (f : S → S) : M S E unit := λ s, Some (tt, f s, []).
(** Perform one effect. *)
Definition emit (e : E) : M S E unit := λ s, Some (tt, s, [e]).
(** An expression that may panic. *)
Definition try {A} (o : option A) : M S E A := λ s,
  match o with Some a => Some (a, s, []) | None => None end.
End monad.

(** Run [m] for every element of [l] in order. *)
Fixpoint for_each {S E A} (l : list A) (m : A → M S E unit) : M S E unit :=
  match l with
  | [] => mret tt
  | x :: l' => m x ;; for_each l' m
  end.

(** The result, the state and the effects of a run that did not panic. *)
Definition run_val {S A E} (o : option (A * S * list E)) : option A :=
  (λ p, p.1.1) <$> o.
Definition run_st {S A E} (o : option (A * S * list E)) : option S :=
  (λ p, p.1.2) <$> o.

(** *** Running a handler symbolically *)

Definition prepend {S E A} (es : list E) (o : option (A * S * list E)) : option (A * S * list E) :=
  match o with None => None | Some (a, s, es') => Some (a, s, es ++ es') end.

Section run.
Context {S E : Type}.
Implicit Types (s : S) (e : E).

Lemma run_ret {A} (a : A) s : (mret a : M S E A) s = Some (a, s, []).
Proof. done. Qed.
Lemma run_get s : (get : M S E S) s = Some (s, s, []).
Proof. done. Qed.
Lemma run_modify f s : (modify f : M S E unit) s = Some (tt, f s, []).
Proof. done. Qed.
Lemma run_emit e s : (emit e : M S E unit) s = Some (tt, s, [e]).
Proof. done. Qed.
Lemma run_try {A} (a : A) s : (try (Some a) : M S E A) s = Some (a, s, []).
Proof. done. Qed.

Lemma bind_ret {A B} (a : A) (f : A → M S E B) s : (mret a ≫= f) s = f a s.
Proof. unfold mbind, M_bind, mret, M_ret. by destruct (f a s) as [[[??]?]|]. Qed.
Lemma bind_get {B} (f : S → M S E B) s : (get ≫= f) s = f s s.
Proof. unfold mbind, M_bind, get. by destruct (f s s) as [[[??]?]|]. Qed.
Lemma bind_modify {B} g (f : unit → M S E B) s : (modify g ≫= f) s = f tt (g s).
Proof. unfold mbind, M_bind, modify. by destruct (f tt (g s)) as [[[??]?]|]. Qed.
Lemma bind_try {A B} (a : A) (f : A → M S E B) s : (try (Some a) ≫= f) s = f a s.
Proof. unfold mbind, M_bind, try. by destruct (f a s) as [[[??]?]|]. Qed.
Lemma bind_emit {B} e (f : unit → M S E B) s : (emit e ≫= f) s = prepend [e] (f tt s).
Proof. unfold mbind, M_bind, emit. by destruct (f tt s) as [[[??]?]|]. Qed.
Lemma bind_assoc {A B C} (m : M S E A) (f : A → M S E B) (g : B → M S E C) s :
  ((m ≫= f) ≫= g) s = (m ≫= (λ a, f a ≫= g)) s.
Proof.
  unfold mbind, M_bind. destruct (m s) as [[[a s1] e1]|]; [|done].
  destruct (f a s1) as [[[b s2] e2]|]; [|done].
  destruct (g b s2) as [[[c s3] e3]|]; [|done]. by rewrite app_assoc.
Qed.
Lemma bind_run {A B} (m : M S E A) (f : A → M S E B) s a s1 (e1 : list E) :
  m s = Some (a, s1, e1) → (m ≫= f) s = prepend e1 (f a s1).
Proof. intros H. unfold mbind, M_bind. by rewrite H. Qed.

Lemma bind_ext {A B} (m : M S E A) (f g : A → M S E B) s :
  (∀ a s', f a s' = g a s') → (m ≫= f) s = (m ≫= g) s.
Proof. intros Hfg. unfold mbind, M_bind. destruct (m s) as [[[a s'] e]|]; [by rewrite Hfg|done]. Qed.

Lemma bind_panic {A B} (m : M S E A) (f : A → M S E B) s : m s = None → (m ≫= f) s = None.
Proof. intros H. unfold mbind, M_bind. by rewrite H. Qed.

Lemma prepend_nil {A} (o : option (A * S * list E)) : prepend [] o = o.
Proof. by destruct o as [[[??]?]|]. Qed.
Lemma prepend_Some {A} (es : list E) (a : A) s es' : prepend es (Some (a, s, es')) = Some (a, s, es ++ es').
Proof. done. Qed.
Lemma prepend_prepend {A} (es es' : list E) (o : option (A * S * list E)) :
  prepend es (prepend es' o) = prepend (es ++ es') o.
Proof. destruct o as [[[??]?]|]; [|done]. simpl. by rewrite app_assoc. Qed.
End run.

#[export] Hint Rewrite @run_ret @run_get @run_modify @run_emit @run_try @bind_ret @bind_get
  @bind_modify @bind_try @bind_emit @bind_assoc @prepend_nil @prepend_Some
  @prepend_prepend @app_nil_r : run.

(** Evaluate the monadic operations at the head of the goal. *)
Ltac run := repeat (progress (autorewrite with run; cbn beta iota)).
Ltac run_in H := repeat (progress (autorewrite with run in H; cbn beta iota in H)).

(** *** What a handler keeps

    [triple P J m Q]: run from a state in [P], [m] panics or ends with a result
    and state in [Q], and its effects are in [J]. *)
Section triples.
Context {S E : Type}.
Implicit Types (P : S → Prop) (J : E → Prop).

Definition triple {A} P J (m : M S E A) (Q : A → S → Prop) : Prop :=
  ∀ s a s' effs, P s → m s = Some (a, s', effs) → Q a s' ∧ Forall J effs.

(** [m] keeps [P]. *)
Definition keeps {A} P J (m : M S E A) : Prop := triple P J m (λ _, P).

Lemma triple_bind {A B} P J (m : M S E A) (f : A → M S E B) R Q :
  triple P J m R → (∀ a, triple (R a) J (f a) Q) → triple P J (m ≫= f) Q.
Proof.
  intros Hm Hf s b s2 effs HP. unfold mbind, M_bind.
  destruct (m s) as [[[a s1] e1]|] eqn:E1; [|done].
  destruct (f a s1) as [[[b' s2'] e2]|] eqn:E2; [|done]. intros [= <- <- <-].
  destruct (Hm _ _ _ _ HP E1) as [HR H1]. destruct (Hf _ _ _ _ _ HR E2) as [HQ H2].
  split; [done|]. by apply Forall_app.
Qed.

Lemma triple_get {B} P J (f : S → M S E B) Q :
  (∀ s, P s → triple (λ s', s' = s) J (f s) Q) → triple P J (get ≫= f) Q.
Proof. intros Hf s b s' effs HP. rewrite bind_get. by apply (Hf s). Qed.

Lemma keeps_get {B} P J (f : S → M S E B) Q :
  (∀ s, P s → triple P J (f s) Q) → triple P J (get ≫= f) Q.
Proof. intros Hf s b s' effs HP. rewrite bind_get. by apply (Hf s). Qed.

Lemma keeps_bind {A B} P J (m : M S E A) (f : A → M S E B) Q :
  keeps P J m → (∀ a, triple P J (f a) Q) → triple P J (m ≫= f) Q.
Proof. apply (triple_bind P J m f (λ _, P)). Qed.

Lemma triple_ret {A} P J (a : A) (Q : A → S → Prop) :
  (∀ s, P s → Q a s) → triple P J (mret a) Q.
Proof. intros HQ s b s' effs HP [= <- <- <-]. split; [auto|done]. Qed.

Lemma triple_try {A} P J (o : option A) : keeps P J (try o).
Proof. intros s a s' effs HP. destruct o; [|done]. by intros [= <- <- <-]. Qed.

Lemma triple_modify P J f (Q : unit → S → Prop) :
  (∀ s, P s → Q tt (f s)) → triple P J (modify f) Q.
Proof. intros HQ s a s' effs HP [= <- <- <-]. split; [auto|done]. Qed.

Lemma triple_emit P J e : J e → keeps P J (emit e).
Proof. intros HJ s a s' effs HP [= <- <- <-]. split; [done|]. by constructor. Qed.

Lemma triple_for_each {A} P J (l : list A) (m : A → M S E unit) :
  (∀ x, keeps P J (m x)) → keeps P J (for_each l m).
Proof.
  intros Hm. induction l as [|x l IH]; simpl; [by apply triple_ret|].
  by apply keeps_bind; [apply Hm|].
Qed.

Lemma triple_weaken {A} P P' J J' (m : M S E A) (Q Q' : A → S → Prop) :
  (∀ s, P' s → P s) → (∀ e, J e → J' e) → (∀ a s, Q a s → Q' a s) →
  triple P J m Q → triple P' J' m Q'.
Proof.
  intros HP HJ HQ Hm s a s' effs Hs Hr. destruct (Hm _ _ _ _ (HP _ Hs) Hr) as [H1 H2].
  split; [auto|]. eapply Forall_impl; [exact H2|done].
Qed.
End triples.

(** Known [keeps] facts of handlers. *)
Create HintDb keeps.

(** Decompose a handler; assignments and effects are left to [tac]. *)
Ltac keeps_with tac :=
  intros; cbn beta;
  try (lazymatch goal with |- triple ?P ?J ?m (λ _, ?P) => change (keeps P J m) end);
  lazymatch goal with
  | |- triple _ _ (mbind _ get) _ => apply keeps_get; intros ? ?; keeps_with tac
  | |- triple _ _ (mbind _ _) _ => apply keeps_bind; [keeps_with tac|intros ?; keeps_with tac]
  | |- keeps _ _ (mbind _ get) => apply keeps_get; intros ? ?; keeps_with tac
  | |- keeps _ _ (mbind _ _) => apply keeps_bind; [keeps_with tac|intros ?; keeps_with tac]
  | |- triple _ _ (mret _) _ => apply triple_ret; solve [tac]
  | |- keeps _ _ (mret _) => by apply triple_ret
  | |- keeps _ _ (modify _) => apply triple_modify; solve [tac]
  | |- keeps _ _ (emit _) => apply triple_emit; solve [tac]
  | |- keeps _ _ (try _) => apply triple_try
  | |- keeps _ _ (for_each _ _) => apply triple_for_each; keeps_with tac
  | |- keeps _ _ (if ?b then _ else _) => destruct b; keeps_with tac
  | |- triple _ _ (if ?b then _ else _) _ => destruct b; keeps_with tac
  | |- keeps _ _ (match ?x with _ => _ end) => destruct x; keeps_with tac
  | |- triple _ _ (match ?x with _ => _ end) _ => destruct x; keeps_with tac
  | |- _ => solve [auto with keeps | tac]
  end.

(** ** Slices with machine indices

    Go indexes slices with [int]: a negative or too large index panics. *)

(** [len(l)] *)
Abbreviation zlen l := (Z.of_nat (length l)).

(** [l\[i\]] *)
Definition slice_get {A} (l : list A) (i : Z) : option A :=
  if bool_decide (0 ≤ i)%Z then l !! Z.to_nat i else None.

(** [l\[i:\]] *)
Definition slice_from {A} (l : list A) (i : Z) : option (list A) :=
  if bool_decide (0 ≤ i ≤ zlen l)%Z then Some (drop (Z.to_nat i) l) else None.

(** [l\[:i\]]; the capacity of the slice is not modelled: the code never
    re-slices past the length. *)
Definition slice_to {A} (l : list A) (i : Z) : option (list A) :=
  if bool_decide (0 ≤ i ≤ zlen l)%Z then Some (take (Z.to_nat i) l) else None.

(** [l\[i\] = x] *)
Definition slice_set {A} (l : list A) (i : Z) (x : A) : option (list A) :=
  if bool_decide (0 ≤ i < zlen l)%Z then Some (<[Z.to_nat i := x]> l) else None.

(** [for i := range l]: the indices of a slice of length [n]. *)
Definition range (n : Z) : list Z := seqZ 0 n.

(** ** Generic lemmas *)



Section slices.
Context {A : Type}.
Implicit Types (l k : list A) (i : Z).

Lemma slice_get_Some l i x :
  slice_get l i = Some x ↔ (0 ≤ i)%Z ∧ l !! Z.to_nat i = Some x.
Proof. unfold slice_get. case_bool_decide; naive_solver. Qed.

Lemma slice_get_in l i : (0 ≤ i < zlen l)%Z → ∃ x, slice_get l i = Some x.
Proof.
  intros Hi. destruct (lookup_lt_is_Some_2 l (Z.to_nat i)) as [x Hx]; [lia|].
  exists x. apply slice_get_Some. split; [lia|done].
Qed.

Lemma slice_get_bound l i x : slice_get l i = Some x → (0 ≤ i < zlen l)%Z.
Proof. intros [? Hl%lookup_lt_Some]%slice_get_Some. lia. Qed.

Lemma slice_get_nat l (n : nat) : slice_get l (Z.of_nat n) = l !! n.
Proof. unfold slice_get. rewrite bool_decide_true by lia. by rewrite Nat2Z.id. Qed.

Lemma slice_from_eq l i : (0 ≤ i ≤ zlen l)%Z → slice_from l i = Some (drop (Z.to_nat i) l).
Proof. intros. unfold slice_from. by rewrite bool_decide_true. Qed.

Lemma slice_to_eq l i : (0 ≤ i ≤ zlen l)%Z → slice_to l i = Some (take (Z.to_nat i) l).
Proof. intros. unfold slice_to. by rewrite bool_decide_true. Qed.

Lemma slice_set_eq l i x :
  (0 ≤ i < zlen l)%Z → slice_set l i x = Some (<[Z.to_nat i := x]> l).
Proof. intros. unfold slice_set. by rewrite bool_decide_true. Qed.
End slices.

#[export] Hint Resolve slice_get_bound : kvraft.

Section prefixes.
Context {A : Type}.
Implicit Types (l k p : list A).

Lemma prefix_take l n : take n l `prefix_of` l.
Proof. exists (drop n l). by rewrite take_drop. Qed.

Lemma prefix_take_eq p l : p `prefix_of` l → p = take (length p) l.
Proof. intros [k ->]. by rewrite take_app_length. Qed.

Lemma prefix_lookup_lt p l i : p `prefix_of` l → i < length p → l !! i = p !! i.
Proof. intros [k ->] Hi. by rewrite lookup_app_l. Qed.

Lemma prefix_comparable p q l :
  p `prefix_of` l → q `prefix_of` l → length p ≤ length q → p `prefix_of` q.
Proof.
  intros Hp Hq Hle. rewrite (prefix_take_eq p l Hp), (prefix_take_eq q l Hq).
  rewrite <-(Nat.min_l (length p) (length q)) by done.
  rewrite <-take_take. apply prefix_take.
Qed.

Lemma prefix_take_mono l m n : m ≤ n → take m l `prefix_of` take n l.
Proof.
  intros Hle. rewrite <-(Nat.min_l m n) by done. rewrite <-take_take.
  apply prefix_take.
Qed.

Lemma prefix_take_of p l n : p `prefix_of` l → n ≤ length p → take n p = take n l.
Proof. intros [k ->] Hn. by rewrite take_app_le. Qed.
End prefixes.

#[export] Hint Resolve prefix_take prefix_take_mono : kvraft.
