(* ===== verification/Api.v ===== *)
(** * Data types shared by the components

    The request and reply types of the key-value service ([api/kv.go]), the
    operation the replicated state machine logs ([sm/sm.go]), the dynamically
    typed values that flow through Go's [any], the messages and log entries of
    the consensus layer ([raft/raft.go]), and the byte strings the code produces
    with [encoding/gob]. *)

From S2P Require Import Prelude.

(** ** [api/kv.go] *)

(** [type Err string] with its constants; any other string is [ErrOther]. *)
Inductive Err :=
  | OK
  | ErrNoKey
  | ErrVersion
  | ErrMaybe
  | ErrWrongLeader
  | ErrOther (s : string).

(** [type TVersion uint64]: kept in [\[0, 2^64)], sums wrap. *)
Definition TVersion := Z.
Definition uint64 (z : Z) : Z := (z mod 2 ^ 64)%Z.
(** Arithmetic on [int64], and so on [int] and [time.Duration], wraps. *)
Definition int64 (z : Z) : Z := ((z + 2 ^ 63) mod 2 ^ 64 - 2 ^ 63)%Z.

Record GetArgs := { ga_Key : string }.

Record GetReply := { gr_Value : string; gr_Version : TVersion; gr_Err : Err }.

Record PutArgs := { pa_Key : string; pa_Value : string; pa_Version : TVersion }.

Record PutReply := { pr_Err : Err }.

(** ** Values of type [any]

    The dynamic types that reach an [any] in this program: requests and replies
    of the service, the logged operation [sm.Op] (whose [Req] is again an
    [any]), leader ids ([int]), and strings (used as commands by the tests).
    [nil] is the zero interface value. *)
Inductive any :=
  | VNil
  | VInt (z : Z)
  | VString (s : string)
  | VGetArgs (a : GetArgs)
  | VPutArgs (a : PutArgs)
  | VGetReply (r : GetReply)
  | VPutReply (r : PutReply)
  | VOp (Me : Z) (Id : Z) (Req : any).

(** ** [raft/raft.go] *)

Record Entry := mkEntry { Index : Z; Term : Z; Command : any }.

(** The zero value of [Entry], the element of [make(\[\]raft.Entry, 1)]. *)
Definition zeroEntry : Entry := mkEntry 0 0 VNil.

(** ** Byte strings written by [encoding/gob]

    A gob stream is self-describing: each [Encode] appends one value with its
    type, each [Decode] consumes the next value and fails when there is none or
    when its type is not the receiver's.  A byte string is modelled by the
    sequence of typed values it encodes. *)
Inductive gobval :=
  | GInt (z : Z)
  | GEntries (es : list Entry)
  | GMap (kv : gmap string (string * Z))
  | GAny (v : any)
  | GAnys (vs : list any).

Definition bytes := list gobval.

Record RequestVoteArgs := {
  rva_Term : Z; rva_CandidateId : Z; rva_LastLogTerm : Z; rva_LastLogIndex : Z }.

Record RequestVoteReply := { rvr_Term : Z; rvr_VoteGranted : bool }.

Record AppendEntriesArgs := {
  aea_Term : Z; aea_LeaderId : Z; aea_PrevLogIndex : Z; aea_PrevLogTerm : Z;
  aea_Entries : list Entry; aea_LeaderCommit : Z }.

Record AppendEntriesReply := {
  aer_Term : Z; aer_Success : bool; aer_ConflictIndex : Z; aer_ConflictTerm : Z }.

Record InstallSnapshotArgs := {
  isa_Term : Z; isa_LeaderId : Z; isa_LastIncludedIndex : Z;
  isa_LastIncludedTerm : Z; isa_Data : bytes }.

Record InstallSnapshotReply := { isr_Term : Z }.

(** [type ApplyMsg struct]: what the consensus layer hands to its client. *)
Record ApplyMsg := {
  CommandValid : bool; am_Command : any; CommandIndex : Z;
  SnapshotValid : bool; am_Snapshot : bytes; SnapshotTerm : Z; SnapshotIndex : Z }.

(** ** Decidable equality *)

#[export] Instance Err_eq_dec : EqDecision Err.
Proof. solve_decision. Defined.
#[export] Instance GetArgs_eq_dec : EqDecision GetArgs.
Proof. solve_decision. Defined.
#[export] Instance GetReply_eq_dec : EqDecision GetReply.
Proof. solve_decision. Defined.
#[export] Instance PutArgs_eq_dec : EqDecision PutArgs.
Proof. solve_decision. Defined.
#[export] Instance PutReply_eq_dec : EqDecision PutReply.
Proof. solve_decision. Defined.
#[export] Instance any_eq_dec : EqDecision any.
Proof. solve_decision. Defined.
#[export] Instance Entry_eq_dec : EqDecision Entry.
Proof. solve_decision. Defined.
#[export] Instance gobval_eq_dec : EqDecision gobval.
Proof. solve_decision. Defined.

(** ** Decoding *)

(** [Decode(&x)] for [x] an [int], a [\[\]raft.Entry], an [any]. *)
Definition decode_int (d : bytes) : option (Z * bytes) :=
  match d with GInt z :: d' => Some (z, d') | _ => None end.
Definition decode_entries (d : bytes) : option (list Entry * bytes) :=
  match d with GEntries es :: d' => Some (es, d') | _ => None end.
Definition decode_any (d : bytes) : option (any * bytes) :=
  match d with GAny v :: d' => Some (v, d') | _ => None end.
(** [Decode(&l)] for [l] a [\[\]any]: the slice becomes the decoded one. *)
Definition decode_anys (d : bytes) : option (list any * bytes) :=
  match d with GAnys vs :: d' => Some (vs, d') | _ => None end.
(** [Decode(&m)] for [m] a map: gob allocates a map only when the receiver is
    nil and otherwise adds the decoded pairs to the map that is there. *)
Definition decode_map (m : gmap string (string * Z)) (d : bytes)
    : option (gmap string (string * Z) * bytes) :=
  match d with GMap kv :: d' => Some (kv ∪ m, d') | _ => None end.
