(* ===== verification/Raft.v ===== *)
(** * The consensus engine of one node ([internal/raft])

    The state of a [Raft] instance and every method that reads or changes it,
    translated from [raft.go], [log_replication.go], [ticker.go] and
    [storage.go].  Methods run under [rf.mu], so each is one atomic transformer
    of the state ([M Raft Effect]); what leaves the critical section (files
    saved, goroutines started, conditions signalled, timers reset) is the list
    of effects.  Loops of the goroutines ([ticker], [applier], [replicator])
    appear as the body of one iteration.  Logging and metrics are dropped. *)

From S2P Require Import Prelude Api.

Local Open Scope Z_scope.

(** ** State *)

Inductive NodeState := StateFollower | StateCandidate | StateLeader.

#[export] Instance NodeState_eq_dec : EqDecision NodeState.
Proof. solve_decision. Defined.

Definition NodeState_String (s : NodeState) : string :=
  match s with
  | StateFollower => "Follower"
  | StateCandidate => "Candidate"
  | StateLeader => "Leader"
  end.

(** What the node's [Persister] holds: the two byte strings of the last [Save]. *)
Record Disk := mkDisk { d_raftState : bytes; d_snapshot : bytes }.

(** [type Raft struct].  [peers] is [len(rf.peers)]: the transports themselves
    only appear in the effects.  [dead] is the atomic flag. *)
Record Raft := mkRaft {
  peers : Z;
  persister : Disk;
  me : Z;
  dead : bool;
  state : NodeState;
  currentTerm : Z;
  votedFor : Z;
  currentLeader : Z;
  logs : list Entry;
  commitIndex : Z;
  lastApplied : Z;
  nextIndex : list Z;
  matchIndex : list Z;
  lastIncludedIndex : Z;
  lastIncludedTerm : Z
}.

Inductive Effect :=
  | ESave (d : Disk)
  | EGoRequestVote (peer : Z) (args : RequestVoteArgs)
  | EGoReplicate (peer : Z)
  | ESignalReplicator (peer : Z)
  | ESignalApplier
  | EResetElectionTimer
  | EResetHeartbeatTimer
  | EApply (msg : ApplyMsg)
  | ECloseApplyCh.

Abbreviation RaftM := (M Raft Effect).

(** Assignments to single fields. *)
Definition set_persister (d : Disk) (rf : Raft) : Raft :=
  mkRaft rf.(peers) d rf.(me) rf.(dead) rf.(state) rf.(currentTerm) rf.(votedFor)
    rf.(currentLeader) rf.(logs) rf.(commitIndex) rf.(lastApplied) rf.(nextIndex)
    rf.(matchIndex) rf.(lastIncludedIndex) rf.(lastIncludedTerm).
Definition set_dead (b : bool) (rf : Raft) : Raft :=
  mkRaft rf.(peers) rf.(persister) rf.(me) b rf.(state) rf.(currentTerm) rf.(votedFor)
    rf.(currentLeader) rf.(logs) rf.(commitIndex) rf.(lastApplied) rf.(nextIndex)
    rf.(matchIndex) rf.(lastIncludedIndex) rf.(lastIncludedTerm).
Definition set_state (s : NodeState) (rf : Raft) : Raft :=
  mkRaft rf.(peers) rf.(persister) rf.(me) rf.(dead) s rf.(currentTerm) rf.(votedFor)
    rf.(currentLeader) rf.(logs) rf.(commitIndex) rf.(lastApplied) rf.(nextIndex)
    rf.(matchIndex) rf.(lastIncludedIndex) rf.(lastIncludedTerm).
Definition set_currentTerm (t : Z) (rf : Raft) : Raft :=
  mkRaft rf.(peers) rf.(persister) rf.(me) rf.(dead) rf.(state) t rf.(votedFor)
    rf.(currentLeader) rf.(logs) rf.(commitIndex) rf.(lastApplied) rf.(nextIndex)
    rf.(matchIndex) rf.(lastIncludedIndex) rf.(lastIncludedTerm).
Definition set_votedFor (v : Z) (rf : Raft) : Raft :=
  mkRaft rf.(peers) rf.(persister) rf.(me) rf.(dead) rf.(state) rf.(currentTerm) v
    rf.(currentLeader) rf.(logs) rf.(commitIndex) rf.(lastApplied) rf.(nextIndex)
    rf.(matchIndex) rf.(lastIncludedIndex) rf.(lastIncludedTerm).
Definition set_currentLeader (v : Z) (rf : Raft) : Raft :=
  mkRaft rf.(peers) rf.(persister) rf.(me) rf.(dead) rf.(state) rf.(currentTerm)
    rf.(votedFor) v rf.(logs) rf.(commitIndex) rf.(lastApplied) rf.(nextIndex)
    rf.(matchIndex) rf.(lastIncludedIndex) rf.(lastIncludedTerm).
Definition set_logs (l : list Entry) (rf : Raft) : Raft :=
  mkRaft rf.(peers) rf.(persister) rf.(me) rf.(dead) rf.(state) rf.(currentTerm)
    rf.(votedFor) rf.(currentLeader) l rf.(commitIndex) rf.(lastApplied) rf.(nextIndex)
    rf.(matchIndex) rf.(lastIncludedIndex) rf.(lastIncludedTerm).
Definition set_commitIndex (i : Z) (rf : Raft) : Raft :=
  mkRaft rf.(peers) rf.(persister) rf.(me) rf.(dead) rf.(state) rf.(currentTerm)
    rf.(votedFor) rf.(currentLeader) rf.(logs) i rf.(lastApplied) rf.(nextIndex)
    rf.(matchIndex) rf.(lastIncludedIndex) rf.(lastIncludedTerm).
Definition set_lastApplied (i : Z) (rf : Raft) : Raft :=
  mkRaft rf.(peers) rf.(persister) rf.(me) rf.(dead) rf.(state) rf.(currentTerm)
    rf.(votedFor) rf.(currentLeader) rf.(logs) rf.(commitIndex) i rf.(nextIndex)
    rf.(matchIndex) rf.(lastIncludedIndex) rf.(lastIncludedTerm).
Definition set_nextIndex (l : list Z) (rf : Raft) : Raft :=
  mkRaft rf.(peers) rf.(persister) rf.(me) rf.(dead) rf.(state) rf.(currentTerm)
    rf.(votedFor) rf.(currentLeader) rf.(logs) rf.(commitIndex) rf.(lastApplied) l
    rf.(matchIndex) rf.(lastIncludedIndex) rf.(lastIncludedTerm).
Definition set_matchIndex (l : list Z) (rf : Raft) : Raft :=
  mkRaft rf.(peers) rf.(persister) rf.(me) rf.(dead) rf.(state) rf.(currentTerm)
    rf.(votedFor) rf.(currentLeader) rf.(logs) rf.(commitIndex) rf.(lastApplied)
    rf.(nextIndex) l rf.(lastIncludedIndex) rf.(lastIncludedTerm).
Definition set_lastIncludedIndex (i : Z) (rf : Raft) : Raft :=
  mkRaft rf.(peers) rf.(persister) rf.(me) rf.(dead) rf.(state) rf.(currentTerm)
    rf.(votedFor) rf.(currentLeader) rf.(logs) rf.(commitIndex) rf.(lastApplied)
    rf.(nextIndex) rf.(matchIndex) i rf.(lastIncludedTerm).
Definition set_lastIncludedTerm (t : Z) (rf : Raft) : Raft :=
  mkRaft rf.(peers) rf.(persister) rf.(me) rf.(dead) rf.(state) rf.(currentTerm)
    rf.(votedFor) rf.(currentLeader) rf.(logs) rf.(commitIndex) rf.(lastApplied)
    rf.(nextIndex) rf.(matchIndex) rf.(lastIncludedIndex) t.

(** ** Reading the log ([raft.go]) *)

Definition getLen (rf : Raft) : Z := rf.(lastIncludedIndex) + zlen rf.(logs).

Definition getPhysicalIndex (rf : Raft) (index : Z) : Z :=
  index - rf.(lastIncludedIndex).

Definition getLog (rf : Raft) (index : Z) : option Entry :=
  slice_get rf.(logs) (getPhysicalIndex rf index).

Definition getLastLog (rf : Raft) : option Entry :=
  slice_get rf.(logs) (zlen rf.(logs) - 1).

Definition getFirstLog (rf : Raft) : option Entry := slice_get rf.(logs) 0.

Definition hasEntryAt (rf : Raft) (index term : Z) : option bool :=
  if bool_decide (index < rf.(lastIncludedIndex)) || bool_decide (getLen rf ≤ index)
  then Some false
  else e ← getLog rf index; Some (bool_decide (e.(Term) = term)).

Definition State (rf : Raft) : Z * bool :=
  (rf.(currentTerm), bool_decide (rf.(state) = StateLeader)).

Definition Leader (rf : Raft) : Z := rf.(currentLeader).

Definition isStillValidCandidate (rf : Raft) (electionTerm : Z) : bool :=
  bool_decide (rf.(state) = StateCandidate) && bool_decide (rf.(currentTerm) = electionTerm).

Definition isLogUpToDate (rf : Raft) (candidateTerm candidateIndex : Z) : option bool :=
  lastLog ← getLastLog rf;
  if bool_decide (candidateTerm ≠ lastLog.(Term))
  then Some (bool_decide (lastLog.(Term) < candidateTerm))
  else Some (bool_decide (lastLog.(Index) ≤ candidateIndex)).

Definition needsReplication (rf : Raft) (peer : Z) : option bool :=
  if bool_decide (rf.(state) = StateLeader) then
    m ← slice_get rf.(matchIndex) peer;
    lastLog ← getLastLog rf;
    Some (bool_decide (m < lastLog.(Index)))
  else Some false.

(** [countNodesWithLogAt]: the loop over [matchIndex] with its index. *)
Fixpoint countMatches (myself : Z) (index : Z) (i : Z) (ms : list Z) (count : Z) : Z :=
  match ms with
  | [] => count
  | m :: ms' =>
      countMatches myself index (i + 1) ms'
        (if bool_decide (i ≠ myself) && bool_decide (index ≤ m) then count + 1 else count)
  end.

Definition countNodesWithLogAt (rf : Raft) (index : Z) : Z :=
  countMatches rf.(me) index 0 rf.(matchIndex) 1.

(** [findLastIndexOfTerm]: [for i := startSearch; i > lastIncludedIndex; i--];
    [fuel] is the number of iterations that condition allows. *)
Fixpoint findLastIndexOfTerm_loop (rf : Raft) (term : Z) (fuel : nat) (i : Z) : option Z :=
  match fuel with
  | O => Some (-1)
  | S fuel' =>
      e ← getLog rf i;
      if bool_decide (e.(Term) = term) then Some i
      else findLastIndexOfTerm_loop rf term fuel' (i - 1)
  end.

Definition findLastIndexOfTerm (rf : Raft) (term startSearch : Z) : option Z :=
  findLastIndexOfTerm_loop rf term
    (Z.to_nat (startSearch - rf.(lastIncludedIndex))) startSearch.

(** ** Persistence ([storage.go]) *)

Definition encodeState (rf : Raft) : bytes :=
  [GInt rf.(currentTerm); GInt rf.(votedFor); GEntries rf.(logs);
   GInt rf.(lastIncludedIndex); GInt rf.(lastIncludedTerm)].

(** [rf.persister.Save(raftState, snapshot)].  A failing [Save] ends the process
    ([logger.Fatal]); that is a crash of the node, not a result of the call. *)
Definition Save (raftState snapshot : bytes) : RaftM unit :=
  let d := mkDisk raftState snapshot in
  modify (set_persister d) ;; emit (ESave d).

Definition ReadSnapshot (rf : Raft) : bytes := rf.(persister).(d_snapshot).

Definition persist : RaftM unit :=
  rf ← get;
  if rf.(dead) then mret tt
  else Save (encodeState rf) (ReadSnapshot rf).

(** [readPersist]: a decoding error ends the process, modelled as [None]. *)
Definition readPersist (data : bytes) : RaftM unit :=
  if bool_decide (data = []) then mret tt else
  '(ct, d) ← try (decode_int data);
  '(vf, d) ← try (decode_int d);
  '(ls, d) ← try (decode_entries d);
  '(lii, d) ← try (decode_int d);
  '(lit, d) ← try (decode_int d);
  modify (set_currentTerm ct) ;;
  modify (set_votedFor vf) ;;
  modify (set_logs ls) ;;
  modify (set_lastIncludedIndex lii) ;;
  modify (set_lastIncludedTerm lit) ;;
  modify (λ rf, if bool_decide (rf.(commitIndex) < lii) then set_commitIndex lii rf else rf) ;;
  modify (λ rf, if bool_decide (rf.(lastApplied) < lii) then set_lastApplied lii rf else rf).

(** [Make]: the initial fields, then the state read back from the persister. *)
Definition Make_fresh (n : Z) (myself : Z) (d : Disk) : Raft :=
  mkRaft n d myself false StateFollower 0 (-1) (-1) [zeroEntry] 0 0
    (replicate (Z.to_nat n) 0) (replicate (Z.to_nat n) 0) 0 0.

Definition Make (n : Z) (myself : Z) (d : Disk) : option Raft :=
  run_st (readPersist d.(d_raftState) (Make_fresh n myself d)).

Definition PersistBytes (size : bytes → Z) (rf : Raft) : Z :=
  size rf.(persister).(d_raftState).

(** ** Signals and timers *)

Definition resetElectionTimer : RaftM unit := emit EResetElectionTimer.
Definition resetHeartbeatTimer : RaftM unit := emit EResetHeartbeatTimer.
Definition signalApplier : RaftM unit := emit ESignalApplier.
Definition signalReplication (peer : Z) : RaftM unit := emit (ESignalReplicator peer).

Definition signalBroadcastReplication (isHeartbeat : bool) : RaftM unit :=
  rf ← get;
  for_each (range rf.(peers)) (λ peer,
    if bool_decide (peer = rf.(me)) then mret tt
    else if isHeartbeat then emit (EGoReplicate peer)
    else signalReplication peer).

(** ** Client calls ([raft.go]) *)

Definition Start (command : any) : RaftM (Z * Z * bool) :=
  rf ← get;
  if bool_decide (rf.(state) ≠ StateLeader) then mret (-1, -1, false) else
  let newIndex := getLen rf in
  let newTerm := rf.(currentTerm) in
  let entry := mkEntry newIndex newTerm command in
  modify (set_logs (rf.(logs) ++ [entry])) ;;
  persist ;;
  signalBroadcastReplication false ;;
  mret (newIndex, newTerm, true).

Definition Kill : RaftM unit := modify (set_dead true) ;; signalApplier.

Definition handleHigherTerm (term : Z) : RaftM bool :=
  rf ← get;
  if bool_decide (rf.(currentTerm) < term) then
    modify (set_currentTerm term) ;;
    modify (set_votedFor (-1)) ;;
    modify (set_state StateFollower) ;;
    persist ;;
    resetElectionTimer ;;
    mret true
  else mret false.

(** One iteration of [applier] when the node is awake and not killed: [false] is
    the wait on [applyCond]. *)
Definition applier_step : RaftM bool :=
  rf ← get;
  if bool_decide (rf.(commitIndex) ≤ rf.(lastApplied)) then mret false else
  if bool_decide (rf.(lastApplied) < rf.(lastIncludedIndex)) then
    let msg := {| CommandValid := false; am_Command := VNil; CommandIndex := 0;
                  SnapshotValid := true; am_Snapshot := ReadSnapshot rf;
                  SnapshotTerm := rf.(lastIncludedTerm);
                  SnapshotIndex := rf.(lastIncludedIndex) |} in
    modify (set_lastApplied rf.(lastIncludedIndex)) ;;
    emit (EApply msg) ;;
    mret true
  else
    let start := rf.(lastApplied) + 1 in
    let limit := rf.(commitIndex) in
    let pStart := getPhysicalIndex rf start in
    let pLimit := getPhysicalIndex rf limit in
    upto ← try (slice_to rf.(logs) (pLimit + 1));
    entries ← try (slice_from upto pStart);
    modify (set_lastApplied limit) ;;
    for_each entries (λ entry,
      emit (EApply {| CommandValid := true; am_Command := entry.(Command);
                      CommandIndex := entry.(Index);
                      SnapshotValid := false; am_Snapshot := [];
                      SnapshotTerm := 0; SnapshotIndex := 0 |})) ;;
    mret true.

(** ** Elections ([ticker.go]) *)

Definition genRequestVoteArgs (rf : Raft) : option RequestVoteArgs :=
  lastLog ← getLastLog rf;
  Some {| rva_Term := rf.(currentTerm); rva_CandidateId := rf.(me);
          rva_LastLogTerm := lastLog.(Term); rva_LastLogIndex := lastLog.(Index) |}.

Definition startElection : RaftM unit :=
  rf0 ← get;
  modify (set_votedFor rf0.(me)) ;;
  modify (set_currentLeader (-1)) ;;
  persist ;;
  rf ← get;
  args ← try (genRequestVoteArgs rf);
  for_each (range rf.(peers)) (λ peer,
    if bool_decide (peer = rf.(me)) then mret tt
    else emit (EGoRequestVote peer args)).

Definition becomeCandidate : RaftM unit :=
  modify (set_state StateCandidate) ;;
  modify (λ rf, set_currentTerm (rf.(currentTerm) + 1) rf) ;;
  persist ;;
  startElection ;;
  resetElectionTimer.

(** The loop of [becomeLeader] over [range rf.peers]. *)
Definition resetPeerIndices (lastIndex : Z) (i : Z) : RaftM unit :=
  rf ← get;
  ni ← try (slice_set rf.(nextIndex) i (lastIndex + 1));
  mi ← try (slice_set rf.(matchIndex) i rf.(lastIncludedIndex));
  modify (set_nextIndex ni) ;;
  modify (set_matchIndex mi).

Definition becomeLeader : RaftM unit :=
  modify (set_state StateLeader) ;;
  modify (λ rf, set_currentLeader rf.(me) rf) ;;
  rf ← get;
  lastLog ← try (getLastLog rf);
  let lastIndex := lastLog.(Index) in
  for_each (range rf.(peers)) (resetPeerIndices lastIndex) ;;
  rf ← get;
  mi ← try (slice_set rf.(matchIndex) rf.(me) lastIndex);
  modify (set_matchIndex mi) ;;
  signalBroadcastReplication true ;;
  resetHeartbeatTimer.

(** [requestVoteFromPeer] after the call returned [reply] (a failed call changes
    nothing).  [granted] is the value of the shared counter [*grantedVotes]; the
    result is its value afterwards. *)
Definition requestVoteFromPeer (args : RequestVoteArgs) (granted : Z)
    (reply : RequestVoteReply) : RaftM Z :=
  rf ← get;
  if negb (isStillValidCandidate rf args.(rva_Term)) then mret granted else
  isHigher ← handleHigherTerm reply.(rvr_Term);
  if (isHigher : bool) then mret granted else
  if reply.(rvr_VoteGranted) then
    let granted' := granted + 1 in
    (if bool_decide (granted' = rf.(peers) `quot` 2 + 1) then becomeLeader else mret tt) ;;
    mret granted'
  else mret granted.

(** [ticker]: the two cases of the select. *)
Definition ticker_election : RaftM unit :=
  rf ← get;
  if bool_decide (rf.(state) = StateLeader) then resetElectionTimer else becomeCandidate.

Definition ticker_heartbeat : RaftM unit :=
  rf ← get;
  if bool_decide (rf.(state) = StateLeader) then
    signalBroadcastReplication true ;; resetHeartbeatTimer
  else mret tt.

(** ** Vote requests ([log_replication.go]) *)

(** [defer rf.persist()] runs when the handler returns. *)
Definition RequestVote (args : RequestVoteArgs) : RaftM RequestVoteReply :=
  rf ← get;
  let replyTerm := rf.(currentTerm) in
  if bool_decide (args.(rva_Term) < rf.(currentTerm)) then
    mret {| rvr_Term := replyTerm; rvr_VoteGranted := false |}
  else
    (if bool_decide (rf.(currentTerm) < args.(rva_Term)) then
       modify (set_state StateFollower) ;;
       modify (set_currentTerm args.(rva_Term)) ;;
       modify (set_votedFor (-1))
     else mret tt) ;;
    rf ← get;
    let canVote := bool_decide (rf.(votedFor) = -1)
                   || bool_decide (rf.(votedFor) = args.(rva_CandidateId)) in
    logUpToDate ← try (isLogUpToDate rf args.(rva_LastLogTerm) args.(rva_LastLogIndex));
    (if canVote && logUpToDate then
       modify (set_votedFor args.(rva_CandidateId)) ;; resetElectionTimer
     else mret tt) ;;
    persist ;;
    mret {| rvr_Term := replyTerm; rvr_VoteGranted := canVote && logUpToDate |}.

(** ** Log replication ([log_replication.go]) *)

(** The loop of [handleConsistencyConflict] that walks back over the entries of
    the conflicting term; [fuel] is the number of indices above
    [lastIncludedIndex]. *)
Fixpoint skipConflictTerm (rf : Raft) (term : Z) (fuel : nat) (index : Z) : option Z :=
  match fuel with
  | O => Some index
  | S fuel' =>
      e ← getLog rf index;
      if bool_decide (e.(Term) = term) then skipConflictTerm rf term fuel' (index - 1)
      else Some index
  end.

(** [handleConsistencyConflict]: [Some (index, term)] are the reply's conflict
    fields when it returns true, [None] when it returns false. *)
Definition handleConsistencyConflict (rf : Raft) (args : AppendEntriesArgs)
    : option (option (Z * Z)) :=
  let prev := args.(aea_PrevLogIndex) in
  if bool_decide (prev < rf.(lastIncludedIndex)) then
    Some (Some (rf.(lastIncludedIndex) + 1, -1))
  else
  has ← hasEntryAt rf prev args.(aea_PrevLogTerm);
  if (has : bool) then Some None else
  if bool_decide (getLen rf ≤ prev) then Some (Some (getLen rf, -1)) else
  e ← getLog rf prev;
  index ← skipConflictTerm rf e.(Term) (Z.to_nat (prev - rf.(lastIncludedIndex))) prev;
  Some (Some (index + 1, e.(Term))).

Fixpoint appendNewEntries (entries : list Entry) : RaftM unit :=
  match entries with
  | [] => mret tt
  | entry :: rest =>
      rf ← get;
      if bool_decide (entry.(Index) < getLen rf) then
        let pIdx := getPhysicalIndex rf entry.(Index) in
        old ← try (slice_get rf.(logs) pIdx);
        if bool_decide (old.(Term) ≠ entry.(Term)) then
          kept ← try (slice_to rf.(logs) pIdx);
          modify (set_logs (kept ++ entries))
        else appendNewEntries rest
      else modify (set_logs (rf.(logs) ++ entries))
  end.

Definition advanceCommitIndex (leaderCommit : Z) : RaftM unit :=
  rf ← get;
  if bool_decide (rf.(commitIndex) < leaderCommit) then
    let lastIndex := getLen rf - 1 in
    modify (set_commitIndex
      (if bool_decide (leaderCommit < lastIndex) then leaderCommit else lastIndex)) ;;
    signalApplier
  else mret tt.

Definition AppendEntries (args : AppendEntriesArgs) : RaftM AppendEntriesReply :=
  rf ← get;
  let replyTerm := rf.(currentTerm) in
  if bool_decide (args.(aea_Term) < rf.(currentTerm)) then
    mret {| aer_Term := replyTerm; aer_Success := false;
            aer_ConflictIndex := 0; aer_ConflictTerm := 0 |}
  else
    (if bool_decide (rf.(currentTerm) < args.(aea_Term)) then
       modify (set_currentTerm args.(aea_Term)) ;; modify (set_votedFor (-1))
     else mret tt) ;;
    modify (set_currentLeader args.(aea_LeaderId)) ;;
    modify (set_state StateFollower) ;;
    resetElectionTimer ;;
    rf ← get;
    conflict ← try (handleConsistencyConflict rf args);
    match conflict with
    | Some (ci, ct) =>
        persist ;;
        mret {| aer_Term := replyTerm; aer_Success := false;
                aer_ConflictIndex := ci; aer_ConflictTerm := ct |}
    | None =>
        appendNewEntries args.(aea_Entries) ;;
        advanceCommitIndex args.(aea_LeaderCommit) ;;
        persist ;;
        mret {| aer_Term := replyTerm; aer_Success := true;
                aer_ConflictIndex := 0; aer_ConflictTerm := 0 |}
    end.

(** ** The leader's side of replication ([log_replication.go]) *)

Definition genAppendEntriesArgs (rf : Raft) (prevLogIndex : Z) : option AppendEntriesArgs :=
  let pPrev := getPhysicalIndex rf prevLogIndex in
  entries ← slice_from rf.(logs) (pPrev + 1);
  prev ← slice_get rf.(logs) pPrev;
  Some {| aea_Term := rf.(currentTerm); aea_LeaderId := rf.(me);
          aea_PrevLogIndex := prevLogIndex; aea_PrevLogTerm := prev.(Term);
          aea_Entries := entries; aea_LeaderCommit := rf.(commitIndex) |}.

Definition genInstallSnapshotArgs (rf : Raft) : InstallSnapshotArgs :=
  {| isa_Term := rf.(currentTerm); isa_LeaderId := rf.(me);
     isa_LastIncludedIndex := rf.(lastIncludedIndex);
     isa_LastIncludedTerm := rf.(lastIncludedTerm);
     isa_Data := ReadSnapshot rf |}.

(** The three calls a node makes to a peer's transport. *)
Inductive Request :=
  | RequestVoteReq (args : RequestVoteArgs)
  | AppendEntriesReq (args : AppendEntriesArgs)
  | InstallSnapshotReq (args : InstallSnapshotArgs).

(** [replicateToPeer] up to the call: what is sent, if anything.  The reply is
    handled by [handleAppendEntriesReply] or [handleInstallSnapshotReply]. *)
Definition replicateToPeer (rf : Raft) (peer : Z) : option (option Request) :=
  if bool_decide (rf.(state) ≠ StateLeader) then Some None else
  next ← slice_get rf.(nextIndex) peer;
  if bool_decide (next ≤ rf.(lastIncludedIndex)) then
    Some (Some (InstallSnapshotReq (genInstallSnapshotArgs rf)))
  else
    args ← genAppendEntriesArgs rf (next - 1);
    Some (Some (AppendEntriesReq args)).

(** One iteration of [replicator]: [Some None] is the wait on the peer's
    condition variable. *)
Definition replicator_step (rf : Raft) (peer : Z) : option (option Request) :=
  needs ← needsReplication rf peer;
  if (needs : bool) then replicateToPeer rf peer else Some None.

Definition shouldIgnoreReply (argsTerm replyTerm : Z) : RaftM bool :=
  isHigher ← handleHigherTerm replyTerm;
  if (isHigher : bool) then mret true else
  rf ← get;
  mret (bool_decide (rf.(state) ≠ StateLeader) || bool_decide (rf.(currentTerm) ≠ argsTerm)).

Definition setNextIndex (peer i : Z) : RaftM unit :=
  rf ← get;
  ni ← try (slice_set rf.(nextIndex) peer i);
  modify (set_nextIndex ni).

Definition setMatchIndex (peer i : Z) : RaftM unit :=
  rf ← get;
  mi ← try (slice_set rf.(matchIndex) peer i);
  modify (set_matchIndex mi).

Definition resolveConflict (peer : Z) (args : AppendEntriesArgs) (reply : AppendEntriesReply)
    : RaftM unit :=
  rf ← get;
  if bool_decide (args.(aea_PrevLogIndex) < rf.(lastIncludedIndex)) then
    signalReplication peer
  else
    (if bool_decide (reply.(aer_ConflictTerm) = -1) then
       setNextIndex peer reply.(aer_ConflictIndex)
     else
       lastIdx ← try (findLastIndexOfTerm rf reply.(aer_ConflictTerm) args.(aea_PrevLogIndex));
       if bool_decide (0 < lastIdx) then setNextIndex peer (lastIdx + 1)
       else setNextIndex peer reply.(aer_ConflictIndex)) ;;
    signalReplication peer.

Definition advancePeerIndices (peer : Z) (args : AppendEntriesArgs) : RaftM unit :=
  rf ← get;
  let newMatch := args.(aea_PrevLogIndex) + zlen args.(aea_Entries) in
  m ← try (slice_get rf.(matchIndex) peer);
  if bool_decide (m < newMatch) then
    setMatchIndex peer newMatch ;;
    setNextIndex peer (newMatch + 1) ;;
    signalReplication peer
  else mret tt.

(** [updateCommitIndex]: [for n := getLen()-1; n > commitIndex; n--]; the loop
    ends at the first index that can be committed. *)
Fixpoint updateCommitIndex_loop (rf : Raft) (fuel : nat) (n : Z) : option (option Z) :=
  match fuel with
  | O => Some None
  | S fuel' =>
      e ← getLog rf n;
      if bool_decide (e.(Term) = rf.(currentTerm))
         && bool_decide (rf.(peers) `quot` 2 < countNodesWithLogAt rf n)
      then Some (Some n)
      else updateCommitIndex_loop rf fuel' (n - 1)
  end.

Definition updateCommitIndex : RaftM unit :=
  rf ← get;
  let top := getLen rf - 1 in
  found ← try (updateCommitIndex_loop rf (Z.to_nat (top - rf.(commitIndex))) top);
  match found with
  | Some n => modify (set_commitIndex n) ;; signalApplier
  | None => mret tt
  end.

Definition handleAppendEntriesReply (peer : Z) (args : AppendEntriesArgs)
    (reply : AppendEntriesReply) : RaftM unit :=
  ignore ← shouldIgnoreReply args.(aea_Term) reply.(aer_Term);
  if (ignore : bool) then mret tt else
  if negb reply.(aer_Success) then resolveConflict peer args reply
  else advancePeerIndices peer args ;; updateCommitIndex.

Definition handleInstallSnapshotReply (peer : Z) (args : InstallSnapshotArgs)
    (reply : InstallSnapshotReply) : RaftM unit :=
  isHigher ← handleHigherTerm reply.(isr_Term);
  if (isHigher : bool) then mret tt else
  rf ← get;
  if bool_decide (rf.(state) = StateLeader) && bool_decide (rf.(currentTerm) = args.(isa_Term))
  then
    let newMatch := args.(isa_LastIncludedIndex) in
    let newNext := newMatch + 1 in
    next ← try (slice_get rf.(nextIndex) peer);
    (if bool_decide (next < newNext) then setNextIndex peer newNext else mret tt) ;;
    m ← try (slice_get rf.(matchIndex) peer);
    (if bool_decide (m < newMatch) then setMatchIndex peer newMatch else mret tt) ;;
    signalReplication peer
  else mret tt.

(** ** Snapshots ([storage.go]) *)

Definition Snapshot (index : Z) (snapshot : bytes) : RaftM unit :=
  rf ← get;
  if bool_decide (index ≤ rf.(lastIncludedIndex)) || bool_decide (rf.(commitIndex) < index)
  then mret tt
  else
    kept ← try (slice_from rf.(logs) (getPhysicalIndex rf index));
    modify (set_logs kept) ;;
    modify (set_lastIncludedIndex index) ;;
    rf ← get;
    first ← try (getFirstLog rf);
    modify (set_lastIncludedTerm first.(Term)) ;;
    rf ← get;
    Save (encodeState rf) snapshot.

Definition truncateLogWithSnapshot (index term : Z) : RaftM unit :=
  rf ← get;
  keep ← (if bool_decide (index < getLen rf) then
            e ← try (getLog rf index); mret (bool_decide (e.(Term) = term))
          else mret false);
  if (keep : bool) then
    kept ← try (slice_from rf.(logs) (getPhysicalIndex rf index));
    modify (set_logs kept)
  else modify (set_logs [mkEntry index term VNil]).

Definition InstallSnapshot (args : InstallSnapshotArgs) : RaftM InstallSnapshotReply :=
  rf ← get;
  let reply := {| isr_Term := rf.(currentTerm) |} in
  if bool_decide (args.(isa_Term) < rf.(currentTerm)) then mret reply else
    (if bool_decide (rf.(currentTerm) < args.(isa_Term)) then
       modify (set_currentTerm args.(isa_Term)) ;;
       modify (set_votedFor (-1)) ;;
       persist
     else mret tt) ;;
    modify (set_currentLeader args.(isa_LeaderId)) ;;
    modify (set_state StateFollower) ;;
    resetElectionTimer ;;
    rf ← get;
    if bool_decide (args.(isa_LastIncludedIndex) ≤ rf.(lastIncludedIndex)) then mret reply else
    truncateLogWithSnapshot args.(isa_LastIncludedIndex) args.(isa_LastIncludedTerm) ;;
    modify (set_lastIncludedIndex args.(isa_LastIncludedIndex)) ;;
    modify (set_lastIncludedTerm args.(isa_LastIncludedTerm)) ;;
    modify (λ rf, if bool_decide (rf.(commitIndex) < args.(isa_LastIncludedIndex))
                  then set_commitIndex args.(isa_LastIncludedIndex) rf else rf) ;;
    rf ← get;
    Save (encodeState rf) args.(isa_Data) ;;
    signalApplier ;;
    mret reply.
