(* ===== verification/Protocol.v ===== *)
(** * The abstract protocol

    Raft without compaction, messages or persistence: every node has its whole
    log, and the history of the cluster (candidacies, votes, elections, the log
    each leader wrote in its term, the prefixes each node acknowledged) is kept
    as ghost state.  [Cluster.v] shows that the code's steps are steps of this
    protocol; this file proves the protocol safe, once, by rule induction.

    A leader's log of its term, [g_tlog t], is the protocol's central object:
    every log is a prefix of the leader log of its last entry's term
    ([wf_log]), which is the Log Matching property, and the logs that can be
    committed are prefixes of the leader logs of all later terms, which is
    Leader Completeness. *)

From stdpp Require Import functions.
From S2P Require Import Prelude Api Raft.

Local Open Scope Z_scope.

(** ** Logs *)

(** The term at 1-based position [i]; position 0 is the sentinel of term 0. *)
Definition term_at (l : list Entry) (i : nat) : Z :=
  match i with
  | O => 0
  | S j => match l !! j with Some e => e.(Term) | None => 0 end
  end.

Definition lastTerm (l : list Entry) : Z := term_at l (length l).

(** The voter's condition: candidate log [c] against the voter's log [v]. *)
Definition upToDate (c v : list Entry) : Prop :=
  lastTerm v < lastTerm c ∨ (lastTerm c = lastTerm v ∧ (length v ≤ length c)%nat).

(** What an accepted prefix [L] of the leader's log makes of a follower's log:
    nothing if it is there already, otherwise it replaces the log. *)
Definition adopt (L l : list Entry) : list Entry :=
  if decide (L `prefix_of` l) then l else L.

(** ** State *)

Record AState := mkAState {
  a_term : Z → Z;
  a_vote : Z → option Z;
  a_role : Z → NodeState;
  a_log : Z → list Entry;
  a_commit : Z → nat;
  (** (node, term) ↦ the log it stood for election with *)
  g_cand : Z * Z → option (list Entry);
  (** (voter, term) ↦ the candidate it voted for and its own log then *)
  g_vote : Z * Z → option (Z * list Entry);
  (** term ↦ leader, its log when elected, the quorum that elected it *)
  g_elec : Z → option (Z * list Entry * gset Z);
  (** term ↦ the log of the term's leader *)
  g_tlog : Z → list Entry;
  (** (node, term, k): the node's log contained the first [k] entries of the
      leader's log at some moment of the term *)
  g_ack : list (Z * Z * nat)
}.

Definition ainit : AState :=
  mkAState (λ _, 0) (λ _, None) (λ _, StateFollower) (λ _, []) (λ _, 0%nat)
    (λ _, None) (λ _, None) (λ _, None) (λ _, []) [].

Section protocol.
(** The number of nodes; they are 0 .. N-1. *)
Context (N : Z).

Definition nodes : gset Z := list_to_set (seqZ 0 N).

Definition majority (Q : gset Z) : Prop := Q ⊆ nodes ∧ N < 2 * Z.of_nat (size Q).

Definition ack (s : AState) (n t : Z) (k : nat) : Prop :=
  ∃ k', (k ≤ k')%nat ∧ (n, t, k') ∈ s.(g_ack).

(** [p] was committed in term [t]: a majority acknowledged a prefix of the
    leader's log that ends with an entry of the leader's own term. *)
Definition committed_at (s : AState) (t : Z) (p : list Entry) : Prop :=
  is_Some (s.(g_elec) t) ∧
  ∃ k Q, majority Q ∧ (k ≤ length (s.(g_tlog) t))%nat ∧
    term_at (s.(g_tlog) t) k = t ∧ (∀ n, n ∈ Q → ack s n t k) ∧
    p `prefix_of` take k (s.(g_tlog) t).

(** Committed in some term up to [T]. *)
Definition committed (s : AState) (T : Z) (p : list Entry) : Prop :=
  p = [] ∨ ∃ t, t ≤ T ∧ committed_at s t p.

(** ** Steps *)

Inductive astep (s : AState) : AState → Prop :=
| A_term n t :
    s.(a_term) n < t →
    astep s (mkAState (<[n:=t]> s.(a_term)) (<[n:=None]> s.(a_vote))
      (<[n:=StateFollower]> s.(a_role)) s.(a_log) s.(a_commit)
      s.(g_cand) s.(g_vote) s.(g_elec) s.(g_tlog) s.(g_ack))
| A_stepdown n :
    astep s (mkAState s.(a_term) s.(a_vote)
      (<[n:=StateFollower]> s.(a_role)) s.(a_log) s.(a_commit)
      s.(g_cand) s.(g_vote) s.(g_elec) s.(g_tlog) s.(g_ack))
| A_candidate n t :
    t = s.(a_term) n + 1 →
    astep s (mkAState (<[n:=t]> s.(a_term)) (<[n:=Some n]> s.(a_vote))
      (<[n:=StateCandidate]> s.(a_role)) s.(a_log) s.(a_commit)
      (<[(n, t):=Some (s.(a_log) n)]> s.(g_cand))
      (<[(n, t):=Some (n, s.(a_log) n)]> s.(g_vote))
      s.(g_elec) s.(g_tlog) s.(g_ack))
| A_vote n c l :
    s.(g_cand) (c, s.(a_term) n) = Some l →
    upToDate l (s.(a_log) n) →
    s.(a_vote) n = None →
    astep s (mkAState s.(a_term) (<[n:=Some c]> s.(a_vote)) s.(a_role) s.(a_log)
      s.(a_commit) s.(g_cand)
      (<[(n, s.(a_term) n):=Some (c, s.(a_log) n)]> s.(g_vote))
      s.(g_elec) s.(g_tlog) s.(g_ack))
| A_elect c Q t :
    s.(a_role) c = StateCandidate →
    t = s.(a_term) c →
    majority Q →
    (∀ m, m ∈ Q → ∃ v, s.(g_vote) (m, t) = Some (c, v)) →
    astep s (mkAState s.(a_term) s.(a_vote) (<[c:=StateLeader]> s.(a_role)) s.(a_log)
      s.(a_commit) s.(g_cand) s.(g_vote)
      (<[t:=Some (c, s.(a_log) c, Q)]> s.(g_elec))
      (<[t:=s.(a_log) c]> s.(g_tlog))
      ((c, t, length (s.(a_log) c)) :: s.(g_ack)))
| A_append c cmd t l :
    s.(a_role) c = StateLeader →
    t = s.(a_term) c →
    l = s.(a_log) c ++ [mkEntry (zlen (s.(a_log) c) + 1) t cmd] →
    astep s (mkAState s.(a_term) s.(a_vote) s.(a_role) (<[c:=l]> s.(a_log))
      s.(a_commit) s.(g_cand) s.(g_vote) s.(g_elec)
      (<[t:=l]> s.(g_tlog)) ((c, t, length l) :: s.(g_ack)))
| A_replicate n t k :
    t = s.(a_term) n →
    s.(a_role) n = StateFollower →
    is_Some (s.(g_elec) t) →
    (k ≤ length (s.(g_tlog) t))%nat →
    astep s (mkAState s.(a_term) s.(a_vote) s.(a_role)
      (<[n:=adopt (take k (s.(g_tlog) t)) (s.(a_log) n)]> s.(a_log))
      s.(a_commit) s.(g_cand) s.(g_vote) s.(g_elec) s.(g_tlog)
      ((n, t, k) :: s.(g_ack)))
| A_commit n k :
    (k ≤ length (s.(a_log) n))%nat →
    committed s (s.(a_term) n) (take k (s.(a_log) n)) →
    astep s (mkAState s.(a_term) s.(a_vote) s.(a_role) s.(a_log)
      (<[n:=k]> s.(a_commit)) s.(g_cand) s.(g_vote) s.(g_elec) s.(g_tlog) s.(g_ack)).

(** ** Invariant *)

(** Indices are positions, and every nonempty prefix is a prefix of the leader
    log of its last term. *)
Definition wf_log (s : AState) (l : list Entry) : Prop :=
  (∀ i e, l !! i = Some e → e.(Index) = Z.of_nat i + 1) ∧
  (∀ p, p `prefix_of` l → p ≠ [] →
     is_Some (s.(g_elec) (lastTerm p)) ∧ p `prefix_of` s.(g_tlog) (lastTerm p)).

Definition elected (s : AState) (t : Z) (el : list Entry) : Prop :=
  ∃ c Q, s.(g_elec) t = Some (c, el, Q).

(** A leader of a term in the interval whose log does not extend [p]. *)
Definition overruled (s : AState) (lo hi : Z) (p : list Entry) : Prop :=
  ∃ t el, lo < t ≤ hi ∧ elected s t el ∧ ¬ p `prefix_of` el.

Record AInv (s : AState) : Prop := {
  inv_vote_le n t x : s.(g_vote) (n, t) = Some x → t ≤ s.(a_term) n;
  inv_vote_cur n c v :
    s.(g_vote) (n, s.(a_term) n) = Some (c, v) → s.(a_vote) n = Some c;
  inv_vote_rec n c :
    s.(a_vote) n = Some c → ∃ v, s.(g_vote) (n, s.(a_term) n) = Some (c, v);
  inv_cand n t l : s.(g_cand) (n, t) = Some l →
    0 < t ≤ s.(a_term) n ∧ wf_log s l ∧ (∀ e, e ∈ l → e.(Term) < t);
  inv_role_cand n : s.(a_role) n = StateCandidate →
    s.(g_cand) (n, s.(a_term) n) = Some (s.(a_log) n);
  inv_role_leader n : s.(a_role) n = StateLeader →
    (∃ el, ∃ Q, s.(g_elec) (s.(a_term) n) = Some (n, el, Q)) ∧
    s.(a_log) n = s.(g_tlog) (s.(a_term) n);
  inv_vote_upto m t c v : s.(g_vote) (m, t) = Some (c, v) →
    wf_log s v ∧ ∃ l, s.(g_cand) (c, t) = Some l ∧ upToDate l v;
  inv_elec t c el Q : s.(g_elec) t = Some (c, el, Q) →
    s.(g_cand) (c, t) = Some el ∧ majority Q ∧
    (∀ m, m ∈ Q → ∃ v, s.(g_vote) (m, t) = Some (c, v)) ∧
    (s.(a_term) c = t → s.(a_role) c ≠ StateCandidate);
  inv_tlog t c el Q : s.(g_elec) t = Some (c, el, Q) →
    el `prefix_of` s.(g_tlog) t ∧ wf_log s (s.(g_tlog) t) ∧
    (∀ i e, (length el ≤ i)%nat → s.(g_tlog) t !! i = Some e → e.(Term) = t);
  inv_log n : wf_log s (s.(a_log) n) ∧ (∀ e, e ∈ s.(a_log) n → e.(Term) ≤ s.(a_term) n);
  inv_term n : 0 ≤ s.(a_term) n;
  inv_ack n t k : ack s n t k →
    t ≤ s.(a_term) n ∧ (k ≤ length (s.(g_tlog) t))%nat ∧ is_Some (s.(g_elec) t);
  inv_hold n t k : ack s n t k →
    take k (s.(g_tlog) t) `prefix_of` s.(a_log) n ∨
    overruled s t (s.(a_term) n) (take k (s.(g_tlog) t));
  inv_vhold m t k t' c v : ack s m t k → t < t' →
    s.(g_vote) (m, t') = Some (c, v) →
    take k (s.(g_tlog) t) `prefix_of` v ∨ overruled s t t' (take k (s.(g_tlog) t));
  inv_ehold m t k t' c el Q v : ack s m t k → t < t' →
    s.(g_elec) t' = Some (c, el, Q) → m ∈ Q → s.(g_vote) (m, t') = Some (c, v) →
    take k (s.(g_tlog) t) `prefix_of` v ∨
    overruled s t (t' - 1) (take k (s.(g_tlog) t));
  inv_commit n :
    (s.(a_commit) n ≤ length (s.(a_log) n))%nat ∧
    committed s (s.(a_term) n) (take (s.(a_commit) n) (s.(a_log) n))
}.

(** ** Quorums *)

Context (N_pos : 0 < N).

Lemma nodes_size : size nodes = Z.to_nat N.
Proof.
  unfold nodes. rewrite size_list_to_set by apply NoDup_seqZ. by rewrite length_seqZ.
Qed.

Lemma majority_intersect Q1 Q2 : majority Q1 → majority Q2 → ∃ n, n ∈ Q1 ∧ n ∈ Q2.
Proof.
  intros [Hs1 H1] [Hs2 H2].
  destruct (decide (Q1 ∩ Q2 = ∅)) as [He|Hne].
  - assert (size (Q1 ∪ Q2) ≤ size nodes)%nat as Hle
      by (apply subseteq_size; set_solver).
    rewrite size_union in Hle by set_solver. rewrite nodes_size in Hle. lia.
  - apply set_choose_L in Hne as [n Hn]. exists n. set_solver.
Qed.

(** ** Logs of one state *)

Lemma term_at_lookup l i e : l !! i = Some e → term_at l (S i) = e.(Term).
Proof. simpl. by intros ->. Qed.

Lemma term_at_prefix p l i : p `prefix_of` l → (i ≤ length p)%nat → term_at l i = term_at p i.
Proof. destruct i; [done|]. intros Hp Hi. simpl. by rewrite (prefix_lookup_lt p l) by (done || lia). Qed.

Lemma lastTerm_take l i : (i ≤ length l)%nat → lastTerm (take i l) = term_at l i.
Proof.
  intros Hi. unfold lastTerm. rewrite length_take_le by done. symmetry.
  apply term_at_prefix; [apply prefix_take|]. rewrite length_take_le; done.
Qed.

Lemma lastTerm_snoc l e : lastTerm (l ++ [e]) = e.(Term).
Proof.
  unfold lastTerm. rewrite length_app, Nat.add_1_r. simpl.
  rewrite lookup_app_r by done. by rewrite Nat.sub_diag.
Qed.

Lemma lastTerm_in l : l ≠ [] → ∃ e, e ∈ l ∧ e.(Term) = lastTerm l.
Proof.
  destruct l as [|e l _] using rev_ind; [done|]. intros _. exists e.
  rewrite lastTerm_snoc. split; [set_solver|done].
Qed.

Section state.
Context (s : AState) (I : AInv s).

Lemma tlog_terms t e : is_Some (s.(g_elec) t) → e ∈ s.(g_tlog) t → e.(Term) ≤ t.
Proof.
  intros [[[c el] Q] He] [i Hi]%list_elem_of_lookup.
  destruct (inv_tlog _ I _ _ _ _ He) as (Hp & _ & Hterm).
  destruct (decide (length el ≤ i)%nat) as [Hle|Hlt].
  - rewrite (Hterm i e Hle Hi). done.
  - rewrite (prefix_lookup_lt el) in Hi by (done || lia).
    apply list_elem_of_lookup_2 in Hi.
    destruct (inv_elec _ I _ _ _ _ He) as (Hc & _).
    destruct (inv_cand _ I _ _ _ Hc) as (_ & _ & Hlt'). specialize (Hlt' _ Hi). lia.
Qed.

Lemma wf_log_prefix p l : wf_log s l → p `prefix_of` l → wf_log s p.
Proof.
  intros [Hi Hw] Hp. split.
  - intros i e He. apply Hi. eapply prefix_lookup_Some; done.
  - intros q Hq. apply Hw. by trans p.
Qed.

Lemma wf_log_terms l e : wf_log s l → e ∈ l → e.(Term) ≤ lastTerm l.
Proof.
  intros Hw He. assert (l ≠ []) by (by intros ->; apply not_elem_of_nil in He).
  destruct Hw as [_ Hw]. destruct (Hw l) as [Hel Hp]; [done..|].
  eapply tlog_terms; [done|]. eapply elem_of_prefix; done.
Qed.

(** Terms do not decrease along a log. *)
Lemma lastTerm_mono p l : wf_log s l → p `prefix_of` l → p ≠ [] → lastTerm p ≤ lastTerm l.
Proof.
  intros Hw Hp Hne. destruct (lastTerm_in p Hne) as (e & He & <-).
  eapply wf_log_terms; [done|]. eapply elem_of_prefix; done.
Qed.

(** Same position and term: same prefix. *)
Lemma wf_log_matching l1 l2 i :
  wf_log s l1 → wf_log s l2 → (0 < i ≤ length l1)%nat → (i ≤ length l2)%nat →
  term_at l1 i = term_at l2 i → take i l1 = take i l2.
Proof.
  intros [_ W1] [_ W2] H1 H2 Ht.
  destruct (W1 (take i l1)) as [_ P1]; [apply prefix_take|destruct l1, i; simpl in *; (done || lia)|].
  destruct (W2 (take i l2)) as [_ P2]; [apply prefix_take|destruct l2, i; simpl in *; (done || lia)|].
  rewrite lastTerm_take in P1, P2 by lia. rewrite Ht in P1.
  apply prefix_take_eq in P1, P2. rewrite P1, P2. f_equal.
  rewrite !length_take_le; lia.
Qed.

Lemma wf_log_same_last l1 l2 :
  wf_log s l1 → wf_log s l2 → l1 ≠ [] → lastTerm l1 = lastTerm l2 →
  (length l1 ≤ length l2)%nat → l1 `prefix_of` l2.
Proof.
  intros [_ W1] [_ W2] Hne Ht Hle.
  assert (l2 ≠ []) by (destruct l1, l2; simpl in *; (done || lia)).
  destruct (W1 l1) as [_ P1]; [done..|]. destruct (W2 l2) as [_ P2]; [done..|].
  rewrite Ht in P1. eapply prefix_comparable; done.
Qed.

Lemma elected_wf t el : elected s t el →
  0 < t ∧ wf_log s el ∧ el `prefix_of` s.(g_tlog) t ∧ (∀ e, e ∈ el → e.(Term) < t).
Proof.
  intros (c & Q & He). destruct (inv_elec _ I _ _ _ _ He) as (Hc & _).
  destruct (inv_cand _ I _ _ _ Hc) as ([? _] & ? & ?).
  destruct (inv_tlog _ I _ _ _ _ He) as (? & _). done.
Qed.

(** An entry of its own term in a leader's log lies behind the log the
    leader was elected with. *)
Lemma elected_before t el p :
  elected s t el → p `prefix_of` s.(g_tlog) t → p ≠ [] → lastTerm p = t →
  el `prefix_of` p.
Proof.
  intros He Hp Hne Ht. destruct (elected_wf _ _ He) as (_ & _ & Hel & Hlt).
  destruct (decide (length el ≤ length p)%nat) as [Hle|Hgt].
  - eapply prefix_comparable; done.
  - assert (p `prefix_of` el) as Hpe by (eapply prefix_comparable; [done..|lia]).
    destruct (lastTerm_in p Hne) as (e & Hin & Het).
    assert (e ∈ el) by (eapply elem_of_prefix; done).
    specialize (Hlt e). naive_solver lia.
Qed.

(** *** Leader completeness *)

Lemma leader_complete t k Q :
  majority Q → (k ≤ length (s.(g_tlog) t))%nat → term_at (s.(g_tlog) t) k = t →
  (∀ n, n ∈ Q → ack s n t k) → is_Some (s.(g_elec) t) →
  ∀ t' el, t < t' → elected s t' el → take k (s.(g_tlog) t) `prefix_of` el.
Proof.
  intros HQ Hk Htk Hack Helt.
  assert (0 < t) as Ht0.
  { destruct Helt as [[[c0 el0] Q0] He0]. by eapply elected_wf; exists c0, Q0. }
  set (p := take k (s.(g_tlog) t)) in *.
  assert (lastTerm p = t) as Hlp by (unfold p; by rewrite lastTerm_take).
  assert (p ≠ []) as Hpne
    by (intros E; rewrite E in Hlp; unfold lastTerm in Hlp; simpl in Hlp; lia).
  intros t'. induction (Z.lt_wf t t') as [t' _ IH]. intros el Hlt Hel.
  pose proof Hel as (c & Q' & He).
  destruct (inv_elec _ I _ _ _ _ He) as (Hcand & HQ' & Hvotes & _).
  destruct (majority_intersect _ _ HQ HQ') as (m & Hm & Hm').
  destruct (Hvotes m Hm') as [v Hv].
  destruct (inv_vote_upto _ I _ _ _ _ Hv) as (Hwv & l & Hl & Hup).
  rewrite Hcand in Hl. injection Hl as <-.
  destruct (elected_wf _ _ Hel) as (_ & Hwel & _ & Hterms).
  assert (p `prefix_of` v) as Hpv.
  { destruct (inv_ehold _ I _ _ _ _ _ _ _ _ (Hack m Hm) Hlt He Hm' Hv)
      as [Hp|(t2 & el2 & Ht2 & He2 & Hn)]; [done|].
    exfalso. apply Hn. apply (IH t2); [lia|lia|done]. }
  assert (t ≤ lastTerm v) as Htv by (rewrite <-Hlp; by apply lastTerm_mono).
  assert (v ≠ []) as Hvne by (intros ->; by apply prefix_nil_inv in Hpv).
  destruct Hup as [Hgt|[Heq Hlen]].
  - assert (el ≠ []) as Helne by (intros ->; unfold lastTerm at 2 in Hgt; simpl in Hgt; lia).
    destruct Hwel as [_ Hwel]. destruct (Hwel el) as [[[[c3 el3] Q3] He3] Hp3]; [done..|].
    destruct (lastTerm_in el Helne) as (e & Hein & Het).
    specialize (Hterms e Hein).
    trans el3.
    + apply (IH (lastTerm el)); [lia|lia|by exists c3, Q3].
    + eapply elected_before; [by exists c3, Q3|done..].
  - trans v; [done|]. by apply wf_log_same_last.
Qed.

Lemma committed_in_tlog t p t' :
  committed_at s t p → t ≤ t' → is_Some (s.(g_elec) t') → p `prefix_of` s.(g_tlog) t'.
Proof.
  intros (Hel & k & Q & HQ & Hk & Htk & Hack & Hp) Hle [[[c' el'] Q'] He'].
  trans (take k (s.(g_tlog) t)); [done|].
  destruct (decide (t = t')) as [<-|Hne]; [apply prefix_take|].
  trans el'.
  - apply (leader_complete t k Q HQ Hk Htk Hack Hel t'); [lia|by exists c', Q'].
  - by eapply inv_tlog.
Qed.

Lemma committed_in_leader T p t' :
  committed s T p → T ≤ t' → is_Some (s.(g_elec) t') → p `prefix_of` s.(g_tlog) t'.
Proof.
  intros [->|(t & Ht & Hc)] Hle He; [apply prefix_nil|].
  eapply committed_in_tlog; [done|lia|done].
Qed.

(** Committed prefixes never diverge. *)
Lemma committed_comparable T1 T2 p q :
  committed s T1 p → committed s T2 q → p `prefix_of` q ∨ q `prefix_of` p.
Proof.
  intros [->|(t1 & _ & H1)] H2; [left; apply prefix_nil|].
  destruct H2 as [->|(t2 & _ & H2)]; [right; apply prefix_nil|].
  pose proof H1 as [E1 _]. pose proof H2 as [E2 _].
  assert (∃ t, p `prefix_of` s.(g_tlog) t ∧ q `prefix_of` s.(g_tlog) t) as (t & Hp & Hq).
  { destruct (decide (t1 ≤ t2)).
    - exists t2. split; eapply committed_in_tlog; (done || lia).
    - exists t1. split; eapply committed_in_tlog; (done || lia). }
  destruct (decide (length p ≤ length q)%nat).
  - left. eapply prefix_comparable; done.
  - right. eapply prefix_comparable; [done..|lia].
Qed.

(** *** Election safety *)

Lemma elect_fresh c Q :
  s.(a_role) c = StateCandidate → majority Q →
  (∀ m, m ∈ Q → ∃ v, s.(g_vote) (m, s.(a_term) c) = Some (c, v)) →
  s.(g_elec) (s.(a_term) c) = None.
Proof.
  intros Hr HQ Hv. destruct (s.(g_elec) (s.(a_term) c)) as [[[c' el'] Q']|] eqn:He; [|done].
  destruct (inv_elec _ I _ _ _ _ He) as (_ & HQ' & Hv' & Hrole).
  destruct (majority_intersect _ _ HQ HQ') as (m & Hm & Hm').
  destruct (Hv m Hm) as [v E]. destruct (Hv' m Hm') as [v' E'].
  rewrite E in E'. injection E' as <- <-. by specialize (Hrole eq_refl).
Qed.

Lemma leaders_agree n1 n2 :
  s.(a_role) n1 = StateLeader → s.(a_role) n2 = StateLeader →
  s.(a_term) n1 = s.(a_term) n2 → n1 = n2.
Proof.
  intros H1 H2 Ht.
  destruct (inv_role_leader _ I _ H1) as [(el1 & Q1 & E1) _].
  destruct (inv_role_leader _ I _ H2) as [(el2 & Q2 & E2) _].
  congruence.
Qed.
End state.

(** ** Growth of the history *)

Record ext (s s' : AState) : Prop := {
  ext_elec t x : s.(g_elec) t = Some x → s'.(g_elec) t = Some x;
  ext_tlog t : is_Some (s.(g_elec) t) → s.(g_tlog) t `prefix_of` s'.(g_tlog) t;
  ext_ack x : x ∈ s.(g_ack) → x ∈ s'.(g_ack)
}.

Lemma ext_same s s' :
  s.(g_elec) = s'.(g_elec) → s.(g_tlog) = s'.(g_tlog) →
  (∀ x, x ∈ s.(g_ack) → x ∈ s'.(g_ack)) → ext s s'.
Proof. intros E1 E2 E3. split; rewrite <-?E1, <-?E2; auto. Qed.

Section growth.
Context (s s' : AState) (X : ext s s').

Lemma ext_is_elec t : is_Some (s.(g_elec) t) → is_Some (s'.(g_elec) t).
Proof. intros [x Hx]. exists x. by apply (ext_elec _ _ X). Qed.

Lemma ext_wf_log l : wf_log s l → wf_log s' l.
Proof.
  intros [Hi Hw]. split; [done|]. intros p Hp Hne. destruct (Hw p Hp Hne) as [He Hpre].
  split; [by apply ext_is_elec|]. trans (s.(g_tlog) (lastTerm p)); [done|].
  by apply (ext_tlog _ _ X).
Qed.

Lemma ext_acked n t k : ack s n t k → ack s' n t k.
Proof. intros (k' & ? & ?). exists k'. split; [done|]. by apply (ext_ack _ _ X). Qed.

Lemma ext_elected t el : elected s t el → elected s' t el.
Proof. intros (c & Q & He). exists c, Q. by apply (ext_elec _ _ X). Qed.

Lemma ext_overruled lo hi p : overruled s lo hi p → overruled s' lo hi p.
Proof. intros (t & el & ? & ? & ?). exists t, el. eauto using ext_elected. Qed.

Lemma ext_take t k : is_Some (s.(g_elec) t) → (k ≤ length (s.(g_tlog) t))%nat →
  take k (s'.(g_tlog) t) = take k (s.(g_tlog) t).
Proof. intros He Hk. symmetry. apply prefix_take_of; [|done]. by apply (ext_tlog _ _ X). Qed.

Lemma ext_len t : is_Some (s.(g_elec) t) →
  (length (s.(g_tlog) t) ≤ length (s'.(g_tlog) t))%nat.
Proof. intros He. by apply prefix_length, (ext_tlog _ _ X). Qed.

Lemma ext_committed T p : committed s T p → committed s' T p.
Proof.
  intros [->|(t & Ht & He & k & Q & HQ & Hk & Htk & Hack & Hp)]; [by left|].
  right. exists t. split; [done|]. split; [by apply ext_is_elec|].
  exists k, Q. pose proof (ext_len t He). split; [done|]. split; [lia|].
  split; [|split; [eauto using ext_acked|by rewrite ext_take]].
  trans (term_at (s.(g_tlog) t) k); [|done].
  apply term_at_prefix; [by apply (ext_tlog _ _ X)|done].
Qed.
End growth.

Lemma committed_le s T T' p : committed s T p → T ≤ T' → committed s T' p.
Proof. intros [->|(t & ? & ?)] ?; [by left|]. right. exists t. split; [lia|done]. Qed.

Lemma committed_prefix s T p q : committed s T p → q `prefix_of` p → committed s T q.
Proof.
  intros [->|(t & Ht & He & k & Q & HQ & Hk & Htk & Hack & Hp)] Hq.
  - left. by apply prefix_nil_inv.
  - right. exists t. split; [done|]. split; [done|]. exists k, Q. repeat (split; [done|]).
    by trans p.
Qed.

Lemma overruled_le s lo hi hi' p : overruled s lo hi p → hi ≤ hi' → overruled s lo hi' p.
Proof. intros (t & el & ? & ? & ?) ?. exists t, el. split; [lia|done]. Qed.

Lemma ack_cons s n0 t0 k0 n t k :
  (∃ k', (k ≤ k')%nat ∧ (n, t, k') ∈ (n0, t0, k0) :: s.(g_ack)) ↔
  (n = n0 ∧ t = t0 ∧ (k ≤ k0)%nat) ∨ ack s n t k.
Proof.
  unfold ack. setoid_rewrite elem_of_cons. split.
  - intros (k' & ? & [[= -> -> ->]|?]); eauto.
  - intros [(-> & -> & ?)|(k' & ? & ?)]; eauto.
Qed.

(** ** Preservation, one lemma per step *)

Ltac fn_at a b :=
  destruct (decide (a = b)) as [<-|];
  rewrite ?fn_lookup_insert in *; rewrite ?fn_lookup_insert_ne in * by congruence.

(** The fields a step leaves alone: each holds as before, over the grown
    history. *)
Ltac frame I X :=
  intros;
  first
  [ by eapply (inv_vote_le _ I)
  | by eapply (inv_vote_cur _ I)
  | by eapply (inv_vote_rec _ I)
  | by eapply (inv_role_cand _ I)
  | by eapply (inv_role_leader _ I)
  | by eapply (inv_elec _ I)
  | by eapply (inv_term _ I)
  | by eapply (inv_ack _ I)
  | match goal with Hl : g_cand _ _ = Some _ |- _ =>
      destruct (inv_cand _ I _ _ _ Hl) as (? & ? & ?);
      split; [lia|]; split; [by eapply ext_wf_log|done] end
  | match goal with Hv : g_vote _ _ = Some _ |- wf_log _ _ ∧ _ =>
      destruct (inv_vote_upto _ I _ _ _ _ Hv) as (? & ?);
      split; [by eapply ext_wf_log|done] end
  | match goal with He : g_elec _ _ = Some _ |- _ =>
      destruct (inv_tlog _ I _ _ _ _ He) as (? & ? & ?);
      split; [done|]; split; [by eapply ext_wf_log|done] end
  | match goal with |- wf_log _ (a_log _ ?m) ∧ _ =>
      destruct (inv_log _ I m) as [? ?]; split; [by eapply ext_wf_log|done] end
  | match goal with Hk : ack _ _ _ _ |- _ ∨ overruled _ _ (a_term _ _) _ =>
      destruct (inv_hold _ I _ _ _ Hk); [by left|right; by eapply ext_overruled] end
  | match goal with Hk : ack _ _ _ _, Hl : _ < _, Hv : g_vote _ _ = Some _ |- _ =>
      destruct (inv_vhold _ I _ _ _ _ _ _ Hk Hl Hv); [by left|right; by eapply ext_overruled] end
  | match goal with Hk : ack _ _ _ _, Hl : _ < _, He : g_elec _ _ = Some _,
                    Hm : _ ∈ _, Hv : g_vote _ _ = Some _ |- _ =>
      destruct (inv_ehold _ I _ _ _ _ _ _ _ _ Hk Hl He Hm Hv);
      [by left|right; by eapply ext_overruled] end
  | match goal with |- (a_commit _ ?m ≤ _)%nat ∧ _ =>
      destruct (inv_commit _ I m) as [? ?]; split; [done|by eapply ext_committed] end ].

Lemma A_term_inv s n t : AInv s → s.(a_term) n < t →
  AInv (mkAState (<[n:=t]> s.(a_term)) (<[n:=None]> s.(a_vote))
    (<[n:=StateFollower]> s.(a_role)) s.(a_log) s.(a_commit)
    s.(g_cand) s.(g_vote) s.(g_elec) s.(g_tlog) s.(g_ack)).
Proof.
  intros I Ht. set (s' := mkAState _ _ _ _ _ _ _ _ _ _).
  assert (ext s s') as X by (by apply ext_same).
  constructor; simpl; try solve [frame I X].
  - intros m t0 x Hx. pose proof (inv_vote_le _ I _ _ _ Hx). fn_at n m; lia.
  - intros m c v Hx. fn_at n m; [|by eapply inv_vote_cur].
    pose proof (inv_vote_le _ I _ _ _ Hx). lia.
  - intros m c Hx. fn_at n m; [done|by eapply inv_vote_rec].
  - intros m t0 l Hl. destruct (inv_cand _ I _ _ _ Hl) as (? & ? & ?).
    split; [fn_at n m; lia|]. split; [by eapply ext_wf_log|done].
  - intros m Hr. fn_at n m; [done|by eapply inv_role_cand].
  - intros m Hr. fn_at n m; [done|by eapply inv_role_leader].
  - intros t0 c el Q He. destruct (inv_elec _ I _ _ _ _ He) as (? & ? & ? & ?).
    repeat (split; [done|]). fn_at n c; [done|auto].
  - intros m. destruct (inv_log _ I m) as [? Hle]. split; [by eapply ext_wf_log|].
    intros e He. specialize (Hle e He). fn_at n m; lia.
  - intros m. pose proof (inv_term _ I m). fn_at n m; lia.
  - intros m t0 k Hk. destruct (inv_ack _ I _ _ _ Hk) as (? & ? & ?).
    split; [fn_at n m; lia|done].
  - intros m t0 k Hk. destruct (inv_hold _ I _ _ _ Hk) as [?|?]; [by left|right].
    fn_at n m; [eapply overruled_le; [by eapply ext_overruled|lia]|by eapply ext_overruled].
  - intros m. destruct (inv_commit _ I m) as [? Hc]. split; [done|].
    apply (ext_committed _ _ X) in Hc.
    fn_at n m; [eapply committed_le; [done|lia]|done].
Qed.

Lemma A_stepdown_inv s n : AInv s →
  AInv (mkAState s.(a_term) s.(a_vote) (<[n:=StateFollower]> s.(a_role)) s.(a_log)
    s.(a_commit) s.(g_cand) s.(g_vote) s.(g_elec) s.(g_tlog) s.(g_ack)).
Proof.
  intros I. set (s' := mkAState _ _ _ _ _ _ _ _ _ _).
  assert (ext s s') as X by (by apply ext_same).
  constructor; simpl; try solve [frame I X].
  - intros m Hr. fn_at n m; [done|by eapply inv_role_cand].
  - intros m Hr. fn_at n m; [done|by eapply inv_role_leader].
  - intros t0 c el Q He. destruct (inv_elec _ I _ _ _ _ He) as (? & ? & ? & ?).
    repeat (split; [done|]). fn_at n c; [done|auto].
Qed.

Lemma A_commit_inv s n k : AInv s → (k ≤ length (s.(a_log) n))%nat →
  committed s (s.(a_term) n) (take k (s.(a_log) n)) →
  AInv (mkAState s.(a_term) s.(a_vote) s.(a_role) s.(a_log)
    (<[n:=k]> s.(a_commit)) s.(g_cand) s.(g_vote) s.(g_elec) s.(g_tlog) s.(g_ack)).
Proof.
  intros I Hk Hc. set (s' := mkAState _ _ _ _ _ _ _ _ _ _).
  assert (ext s s') as X by (by apply ext_same).
  constructor; simpl; try solve [frame I X].
  intros m. destruct (inv_commit _ I m).
  fn_at n m; (split; [done|by eapply ext_committed]).
Qed.

Lemma A_candidate_inv s n t : AInv s → t = s.(a_term) n + 1 →
  AInv (mkAState (<[n:=t]> s.(a_term)) (<[n:=Some n]> s.(a_vote))
    (<[n:=StateCandidate]> s.(a_role)) s.(a_log) s.(a_commit)
    (<[(n, t):=Some (s.(a_log) n)]> s.(g_cand))
    (<[(n, t):=Some (n, s.(a_log) n)]> s.(g_vote))
    s.(g_elec) s.(g_tlog) s.(g_ack)).
Proof.
  intros I Ht. set (s' := mkAState _ _ _ _ _ _ _ _ _ _).
  assert (ext s s') as X by (by apply ext_same).
  pose proof (inv_term _ I n) as Hn0. destruct (inv_log _ I n) as [Hwn Htn].
  assert (∀ l, s.(g_cand) (n, t) = Some l → False) as Hfc.
  { intros l Hl. destruct (inv_cand _ I _ _ _ Hl). lia. }
  assert (∀ x, s.(g_vote) (n, t) = Some x → False) as Hfv.
  { intros l Hl. pose proof (inv_vote_le _ I _ _ _ Hl). lia. }
  constructor; simpl; try solve [frame I X].
  - intros m t0 x Hx. destruct (decide ((n, t) = (m, t0))) as [[= <- <-]|Hne].
    + rewrite fn_lookup_insert. lia.
    + rewrite fn_lookup_insert_ne in Hx by done. pose proof (inv_vote_le _ I _ _ _ Hx).
      fn_at n m; lia.
  - intros m c v Hx. fn_at n m; [naive_solver|by eapply inv_vote_cur].
  - intros m c Hx. fn_at n m; [naive_solver|by eapply inv_vote_rec].
  - intros m t0 l Hl. destruct (decide ((n, t) = (m, t0))) as [[= <- <-]|Hne].
    + rewrite fn_lookup_insert in Hl. injection Hl as <-.
      split; [rewrite fn_lookup_insert; lia|]. split; [by eapply ext_wf_log|]. intros e He. specialize (Htn e He). lia.
    + rewrite fn_lookup_insert_ne in Hl by done.
      destruct (inv_cand _ I _ _ _ Hl) as (? & ? & ?).
      split; [fn_at n m; lia|]. split; [by eapply ext_wf_log|done].
  - intros m Hr. fn_at n m; [done|by eapply inv_role_cand].
  - intros m Hr. fn_at n m; [done|by eapply inv_role_leader].
  - intros m t0 c v Hv. destruct (decide ((n, t) = (m, t0))) as [[= <- <-]|Hne].
    + rewrite fn_lookup_insert in Hv. injection Hv as <- <-.
      split; [by eapply ext_wf_log|]. exists (s.(a_log) n).
      rewrite fn_lookup_insert. split; [done|]. by right.
    + rewrite fn_lookup_insert_ne in Hv by done.
      destruct (inv_vote_upto _ I _ _ _ _ Hv) as (? & l & Hl & ?).
      split; [by eapply ext_wf_log|]. exists l. split; [|done].
      rewrite fn_lookup_insert_ne; [done|]. naive_solver.
  - intros t0 c el Q He. destruct (inv_elec _ I _ _ _ _ He) as (Hc & ? & Hv & ?).
    split; [rewrite fn_lookup_insert_ne by naive_solver; done|]. split; [done|].
    split.
    + intros m Hm. destruct (Hv m Hm) as [v Hvm]. exists v.
      rewrite fn_lookup_insert_ne; [done|]. naive_solver.
    + destruct (inv_cand _ I _ _ _ Hc). fn_at n c; [lia|auto].
  - intros m. destruct (inv_log _ I m) as [? Hle]. split; [by eapply ext_wf_log|].
    intros e He. specialize (Hle e He). fn_at n m; lia.
  - intros m. pose proof (inv_term _ I m). fn_at n m; lia.
  - intros m t0 k Hk. destruct (inv_ack _ I _ _ _ Hk) as (? & ? & ?).
    split; [fn_at n m; lia|done].
  - intros m t0 k Hk. destruct (inv_hold _ I _ _ _ Hk) as [?|?]; [by left|right].
    fn_at n m; [eapply overruled_le; [by eapply ext_overruled|lia]|by eapply ext_overruled].
  - intros m t0 k t' c v Hk Hlt Hv. destruct (decide ((n, t) = (m, t'))) as [[= <- <-]|Hne].
    + rewrite fn_lookup_insert in Hv. injection Hv as <- <-.
      destruct (inv_hold _ I _ _ _ Hk) as [?|?]; [by left|right].
      eapply overruled_le; [by eapply ext_overruled|lia].
    + rewrite fn_lookup_insert_ne in Hv by done. frame I X.
  - intros m t0 k t' c el Q v Hk Hlt He Hm Hv.
    destruct (inv_elec _ I _ _ _ _ He) as (_ & _ & Hvs & _). destruct (Hvs m Hm) as [v' Hv'].
    rewrite fn_lookup_insert_ne in Hv by naive_solver. frame I X.
  - intros m. destruct (inv_commit _ I m) as [? Hc]. split; [done|].
    apply (ext_committed _ _ X) in Hc.
    fn_at n m; [eapply committed_le; [done|lia]|done].
Qed.

Lemma A_vote_inv s n c l : AInv s → s.(g_cand) (c, s.(a_term) n) = Some l →
  upToDate l (s.(a_log) n) → s.(a_vote) n = None →
  AInv (mkAState s.(a_term) (<[n:=Some c]> s.(a_vote)) s.(a_role) s.(a_log)
    s.(a_commit) s.(g_cand)
    (<[(n, s.(a_term) n):=Some (c, s.(a_log) n)]> s.(g_vote))
    s.(g_elec) s.(g_tlog) s.(g_ack)).
Proof.
  intros I Hl Hup Hnone. set (s' := mkAState _ _ _ _ _ _ _ _ _ _).
  assert (ext s s') as X by (by apply ext_same).
  destruct (inv_log _ I n) as [Hwn _].
  assert (∀ x, s.(g_vote) (n, s.(a_term) n) = Some x → False) as Hfv.
  { intros [c' v'] Hx. pose proof (inv_vote_cur _ I _ _ _ Hx). congruence. }
  constructor; simpl; try solve [frame I X].
  - intros m t0 x Hx. destruct (decide ((n, s.(a_term) n) = (m, t0))) as [[= <- <-]|Hne]; [done|].
    rewrite fn_lookup_insert_ne in Hx by done. by eapply inv_vote_le.
  - intros m c' v Hx. destruct (decide (n = m)) as [<-|Hne].
    + rewrite fn_lookup_insert in Hx. rewrite fn_lookup_insert. naive_solver.
    + rewrite fn_lookup_insert_ne in Hx by congruence.
      rewrite fn_lookup_insert_ne by done. by eapply inv_vote_cur.
  - intros m c' Hx. destruct (decide (n = m)) as [<-|Hne].
    + rewrite fn_lookup_insert in Hx. rewrite fn_lookup_insert. naive_solver.
    + rewrite fn_lookup_insert_ne in Hx by done.
      rewrite fn_lookup_insert_ne by congruence. by eapply inv_vote_rec.
  - intros m t0 c' v Hv. destruct (decide ((n, s.(a_term) n) = (m, t0))) as [[= <- <-]|Hne].
    + rewrite fn_lookup_insert in Hv. injection Hv as <- <-.
      split; [by eapply ext_wf_log|by exists l].
    + rewrite fn_lookup_insert_ne in Hv by done. frame I X.
  - intros t0 c' el Q He. destruct (inv_elec _ I _ _ _ _ He) as (? & ? & Hv & ?).
    split; [done|]. split; [done|]. split; [|done].
    intros m Hm. destruct (Hv m Hm) as [v Hvm]. exists v.
    rewrite fn_lookup_insert_ne; [done|]. naive_solver.
  - intros m t0 k t' c' v Hk Hlt Hv.
    destruct (decide ((n, s.(a_term) n) = (m, t'))) as [[= <- <-]|Hne].
    + rewrite fn_lookup_insert in Hv. injection Hv as <- <-. frame I X.
    + rewrite fn_lookup_insert_ne in Hv by done. frame I X.
  - intros m t0 k t' c' el Q v Hk Hlt He Hm Hv.
    destruct (inv_elec _ I _ _ _ _ He) as (_ & _ & Hvs & _). destruct (Hvs m Hm) as [v' Hv'].
    rewrite fn_lookup_insert_ne in Hv by naive_solver. frame I X.
Qed.

(** A node acknowledges only in its current term, so a new acknowledgement
    says nothing about votes in later terms. *)
Lemma no_later_vote s n t' x : AInv s → s.(a_term) n < t' → s.(g_vote) (n, t') = Some x → False.
Proof. intros I Hlt Hx. pose proof (inv_vote_le _ I _ _ _ Hx). lia. Qed.

(** The history grows when a leader is elected in a term without one. *)
Lemma elect_ext s te vo ro lo co ca vt t x l n k :
  s.(g_elec) t = None →
  ext s (mkAState te vo ro lo co ca vt (<[t:=Some x]> s.(g_elec)) (<[t:=l]> s.(g_tlog))
           ((n, t, k) :: s.(g_ack))).
Proof.
  intros Hfresh. split; simpl.
  - intros t' y Hy. rewrite fn_lookup_insert_ne by congruence. done.
  - intros t' [y Hy]. rewrite fn_lookup_insert_ne by congruence. done.
  - intros y Hy. by apply elem_of_cons; right.
Qed.

(** The history grows when a leader extends its log. *)
Lemma append_ext s te vo ro lo co ca vt t l n k :
  s.(g_tlog) t `prefix_of` l →
  ext s (mkAState te vo ro lo co ca vt s.(g_elec) (<[t:=l]> s.(g_tlog))
           ((n, t, k) :: s.(g_ack))).
Proof.
  intros Hp. split; simpl; [done| |by intros x Hx; apply elem_of_cons; right].
  intros t' _. fn_at t t'; done.
Qed.

Lemma A_elect_inv s c Q t : AInv s → s.(a_role) c = StateCandidate → t = s.(a_term) c →
  majority Q → (∀ m, m ∈ Q → ∃ v, s.(g_vote) (m, t) = Some (c, v)) →
  AInv (mkAState s.(a_term) s.(a_vote) (<[c:=StateLeader]> s.(a_role)) s.(a_log)
    s.(a_commit) s.(g_cand) s.(g_vote)
    (<[t:=Some (c, s.(a_log) c, Q)]> s.(g_elec))
    (<[t:=s.(a_log) c]> s.(g_tlog))
    ((c, t, length (s.(a_log) c)) :: s.(g_ack))).
Proof.
  intros I Hr Ht HQ Hv. subst t.
  pose proof (elect_fresh s I c Q Hr HQ Hv) as Hfresh.
  set (s' := mkAState _ _ _ _ _ _ _ _ _ _).
  assert (∀ t, is_Some (s.(g_elec) t) → s.(a_term) c ≠ t) as Hne
    by (intros t [x Hx] <-; congruence).
  assert (ext s s') as X by (by apply elect_ext).
  destruct (inv_log _ I c) as [Hwc Htc].
  pose proof (inv_role_cand _ I _ Hr) as Hcand.
  assert (∀ m t k, ack s' m t k → (m = c ∧ t = s.(a_term) c ∧ (k ≤ length (s.(a_log) c))%nat)
    ∨ (ack s m t k ∧ s.(a_term) c ≠ t ∧ s'.(g_tlog) t = s.(g_tlog) t)) as Hack.
  { intros m t k [?|Hk]%ack_cons; [by left|right].
    destruct (inv_ack _ I _ _ _ Hk) as (_ & _ & He). apply Hne in He.
    repeat split; [done..|]. simpl. by rewrite fn_lookup_insert_ne. }
  constructor; simpl; try solve [frame I X].
  - intros m Hm. fn_at c m; [done|by eapply inv_role_cand].
  - intros m Hm. destruct (decide (c = m)) as [<-|Hcm].
    + rewrite !fn_lookup_insert. split; [by eexists _, _|done].
    + rewrite fn_lookup_insert_ne in Hm by done.
      destruct (inv_role_leader _ I _ Hm) as [(el & Q' & He) Hl].
      rewrite !fn_lookup_insert_ne by (apply Hne; eauto). split; [by eexists _, _|done].
  - intros t c' el Q' He. destruct (decide (s.(a_term) c = t)) as [<-|Hn].
    + rewrite fn_lookup_insert in He. injection He as <- <- <-.
      rewrite fn_lookup_insert. done.
    + rewrite fn_lookup_insert_ne in He by done.
      destruct (inv_elec _ I _ _ _ _ He) as (? & ? & ? & ?). repeat (split; [done|]).
      fn_at c c'; [done|auto].
  - intros t c' el Q' He. destruct (decide (s.(a_term) c = t)) as [<-|Hn].
    + rewrite fn_lookup_insert in He. injection He as <- <- <-.
      rewrite fn_lookup_insert. split; [done|]. split; [by eapply ext_wf_log|].
      intros i e Hi He%lookup_lt_Some. lia.
    + rewrite fn_lookup_insert_ne in He by done. rewrite fn_lookup_insert_ne by done. frame I X.
  - intros m t k [(-> & -> & Hk)|(Hk & Hn & Htl)]%Hack.
    + rewrite !fn_lookup_insert. split; [lia|]. eauto.
    + rewrite !fn_lookup_insert_ne by done. by eapply inv_ack.
  - intros m t k [(-> & -> & Hk)|(Hk & Hn & Htl)]%Hack.
    + left. rewrite fn_lookup_insert. apply prefix_take.
    + rewrite fn_lookup_insert_ne by done. frame I X.
  - intros m t k t' c' v [(-> & -> & Hk)|(Hk & Hn & Htl)]%Hack Hlt Hvm.
    + exfalso. by eapply no_later_vote.
    + rewrite fn_lookup_insert_ne by done. frame I X.
  - intros m t k t' c' el Q' v [(-> & -> & Hk)|(Hk & Hn & Htl)]%Hack Hlt He Hm Hvm.
    + exfalso. by eapply no_later_vote.
    + rewrite (fn_lookup_insert_ne _ _ t) by done.
      destruct (decide (s.(a_term) c = t')) as [<-|Hn'].
      * destruct (inv_vhold _ I _ _ _ _ _ _ Hk Hlt Hvm) as [?|(t2 & el2 & ? & He2 & ?)]; [by left|].
        right. exists t2, el2. split; [|split; [by eapply ext_elected|done]].
        pose proof He2 as (c2 & Q2 & E2). assert (s.(a_term) c ≠ t2) by (apply Hne; eauto). lia.
      * rewrite fn_lookup_insert_ne in He by done. frame I X.
Qed.

Lemma wf_log_snoc s t l e :
  wf_log s l → e.(Index) = zlen l + 1 → e.(Term) = t → is_Some (s.(g_elec) t) →
  l ++ [e] `prefix_of` s.(g_tlog) t → wf_log s (l ++ [e]).
Proof.
  intros [Hi Hw] HI <- He Hp. split.
  - intros i e'. rewrite lookup_snoc_Some. intros [[_ ?]|[-> <-]]; [auto|lia].
  - intros p [k Hk] Hne. destruct k as [|x k _] using rev_ind.
    + rewrite app_nil_r in Hk. subst p. by rewrite lastTerm_snoc.
    + rewrite app_assoc in Hk. apply app_inj_tail in Hk as [-> <-].
      apply Hw; [by exists k|done].
Qed.

Lemma A_append_inv s c cmd t l : AInv s → s.(a_role) c = StateLeader → t = s.(a_term) c →
  l = s.(a_log) c ++ [mkEntry (zlen (s.(a_log) c) + 1) t cmd] →
  AInv (mkAState s.(a_term) s.(a_vote) s.(a_role) (<[c:=l]> s.(a_log))
    s.(a_commit) s.(g_cand) s.(g_vote) s.(g_elec)
    (<[t:=l]> s.(g_tlog)) ((c, t, length l) :: s.(g_ack))).
Proof.
  intros I Hr -> Hl. destruct (inv_role_leader _ I _ Hr) as [(el & Q & He) Htl].
  set (s' := mkAState _ _ _ _ _ _ _ _ _ _).
  assert (s.(a_log) c `prefix_of` l) as Hpl by (rewrite Hl; by eexists).
  assert (ext s s') as X by (apply append_ext; by rewrite <-Htl).
  destruct (inv_log _ I c) as [Hwc Htc].
  assert (wf_log s' l) as Hwl.
  { rewrite Hl. eapply wf_log_snoc; [by eapply ext_wf_log|done..|by simpl; eauto|].
    simpl. by rewrite fn_lookup_insert, <-Hl. }
  assert (∀ m t k, ack s' m t k → (m = c ∧ t = s.(a_term) c ∧ (k ≤ length l)%nat)
    ∨ (ack s m t k ∧ take k (s'.(g_tlog) t) = take k (s.(g_tlog) t))) as Hack.
  { intros m t k [?|Hk]%ack_cons; [by left|right]. split; [done|].
    destruct (inv_ack _ I _ _ _ Hk) as (_ & ? & ?). by eapply ext_take. }
  constructor; simpl; try solve [frame I X].
  - intros m Hm. fn_at c m; [congruence|by eapply inv_role_cand].
  - intros m Hm. destruct (inv_role_leader _ I _ Hm) as [(el' & Q' & He') Hl'].
    destruct (decide (c = m)) as [<-|Hcm].
    + rewrite !fn_lookup_insert. eauto.
    + rewrite !fn_lookup_insert_ne by (try congruence; intros E; rewrite E in He; congruence). eauto.
  - intros t c' el' Q' He'. destruct (inv_tlog _ I _ _ _ _ He') as (Hp & Hw & Hterm).
    destruct (decide (s.(a_term) c = t)) as [<-|Hn].
    + rewrite fn_lookup_insert. rewrite <-Htl in Hp, Hterm. split; [by trans (s.(a_log) c)|].
      split; [done|]. intros i e Hi. rewrite Hl, lookup_snoc_Some. intros [[_ ?]|[_ <-]]; eauto.
    + rewrite fn_lookup_insert_ne by done. split; [done|]. split; [by eapply ext_wf_log|done].
  - intros m. fn_at c m; [|frame I X]. split; [done|]. intros e. rewrite Hl.
    rewrite elem_of_app, list_elem_of_singleton. intros [?| ->]; [auto|done].
  - intros m t k [(-> & -> & Hk)|(Hk & Htk)]%Hack.
    + rewrite fn_lookup_insert. split; [lia|]. eauto.
    + destruct (inv_ack _ I _ _ _ Hk) as (? & ? & Hel). pose proof (ext_len _ _ X t Hel).
      simpl in *. split; [done|]. split; [lia|done].
  - intros m t k [(-> & -> & Hk)|(Hk & Htk)]%Hack.
    + left. rewrite !fn_lookup_insert. apply prefix_take.
    + simpl in Htk. rewrite Htk. destruct (inv_hold _ I _ _ _ Hk) as [Hp|?];
        [left|right; by eapply ext_overruled].
      fn_at c m; [by trans (s.(a_log) c)|done].
  - intros m t k t' c' v [(-> & -> & Hk)|(Hk & Htk)]%Hack Hlt Hvm.
    + exfalso. by eapply no_later_vote.
    + simpl in Htk. rewrite Htk. frame I X.
  - intros m t k t' c' el' Q' v [(-> & -> & Hk)|(Hk & Htk)]%Hack Hlt He' Hm Hvm.
    + exfalso. by eapply no_later_vote.
    + simpl in Htk. rewrite Htk. frame I X.
  - intros m. destruct (inv_commit _ I m) as [? Hc]. apply (ext_committed _ _ X) in Hc.
    fn_at c m; [|done]. pose proof (prefix_length _ _ Hpl). split; [lia|].
    by rewrite <-(prefix_take_of _ _ _ Hpl).
Qed.

Lemma adopt_prefix L l : L `prefix_of` adopt L l.
Proof. unfold adopt. by case_decide. Qed.

(** What a log shares with the leader's log survives adoption. *)
Lemma adopt_keeps p L l T :
  p `prefix_of` l → p `prefix_of` T → L `prefix_of` T → p `prefix_of` adopt L l.
Proof.
  intros Hl Hp HL. unfold adopt. case_decide as Hd; [done|].
  destruct (decide (length p ≤ length L)%nat).
  - eapply prefix_comparable; done.
  - exfalso. apply Hd. trans p; [eapply prefix_comparable; [done..|lia]|done].
Qed.

Lemma A_replicate_inv s n t k : AInv s → t = s.(a_term) n → s.(a_role) n = StateFollower →
  is_Some (s.(g_elec) t) → (k ≤ length (s.(g_tlog) t))%nat →
  AInv (mkAState s.(a_term) s.(a_vote) s.(a_role)
    (<[n:=adopt (take k (s.(g_tlog) t)) (s.(a_log) n)]> s.(a_log))
    s.(a_commit) s.(g_cand) s.(g_vote) s.(g_elec) s.(g_tlog) ((n, t, k) :: s.(g_ack))).
Proof.
  intros I -> Hr Hel Hk. set (s' := mkAState _ _ _ _ _ _ _ _ _ _).
  assert (ext s s') as X
    by (apply ext_same; [done..|]; by intros x Hx; apply elem_of_cons; right).
  set (L := take k (s.(g_tlog) (s.(a_term) n))) in *.
  assert (L `prefix_of` s.(g_tlog) (s.(a_term) n)) as HLp by apply prefix_take.
  pose proof Hel as [[[c el] Q] He].
  destruct (inv_tlog _ I _ _ _ _ He) as (Hpel & Hwt & _).
  destruct (inv_log _ I n) as [Hwn Htn].
  destruct (inv_commit _ I n) as [Hcn Hcc].
  constructor; simpl; try solve [frame I X].
  - intros m Hm. fn_at n m; [congruence|by eapply inv_role_cand].
  - intros m Hm. fn_at n m; [congruence|by eapply inv_role_leader].
  - intros m. fn_at n m; [|frame I X]. unfold adopt. case_decide.
    + split; [by eapply ext_wf_log|done].
    + split; [eapply (ext_wf_log _ _ X), wf_log_prefix; [exact Hwt|done]|]. intros e Hin.
      apply (tlog_terms s I); [done|]. eapply elem_of_prefix; done.
  - intros m t k0 [(-> & -> & Hk0)|Hk0]%ack_cons; [split; [lia|]; split; [lia|done]|by eapply inv_ack].
  - intros m t k0 [(-> & -> & Hk0)|Hk0]%ack_cons.
    + left. rewrite fn_lookup_insert. trans L; [by apply prefix_take_mono|apply adopt_prefix].
    + destruct (inv_hold _ I _ _ _ Hk0) as [Hp|?]; [|right; by eapply ext_overruled].
      fn_at n m; [|by left]. destruct (inv_ack _ I _ _ _ Hk0) as (Hle & _ & _).
      destruct (decide (t = s.(a_term) n)) as [->|Hne].
      * left. eapply adopt_keeps; [done|apply prefix_take|done].
      * destruct (decide (take k0 (s.(g_tlog) t) `prefix_of` el)) as [Hpe|Hpe].
        -- left. eapply adopt_keeps; [done|by trans el|done].
        -- right. exists (s.(a_term) n), el. split; [lia|]. split; [by exists c, Q|done].
  - intros m t k0 t' c' v [(-> & -> & Hk0)|Hk0]%ack_cons Hlt Hvm; [|frame I X].
    exfalso. by eapply no_later_vote.
  - intros m t k0 t' c' el' Q' v [(-> & -> & Hk0)|Hk0]%ack_cons Hlt He' Hm Hvm; [|frame I X].
    exfalso. by eapply no_later_vote.
  - intros m. fn_at n m; [|frame I X].
    assert (take (s.(a_commit) n) (s.(a_log) n) `prefix_of` adopt L (s.(a_log) n)) as Hp.
    { eapply adopt_keeps; [apply prefix_take| |done].
      apply (committed_in_leader s I (s.(a_term) n)); [done|lia|done]. }
    pose proof (prefix_length _ _ Hp) as Hlen. rewrite length_take_le in Hlen by done.
    split; [done|]. apply prefix_take_eq in Hp. rewrite length_take_le in Hp by done.
    rewrite <-Hp. by eapply ext_committed.
Qed.

(** ** The invariant of every run *)

Lemma ainit_inv : AInv ainit.
Proof.
  constructor; simpl; try done.
  - intros n. split; [|by intros e ?%not_elem_of_nil]. split; [done|].
    by intros p ->%prefix_nil_inv.
  - intros n t k (k' & _ & ?%not_elem_of_nil). done.
  - intros n t k (k' & _ & ?%not_elem_of_nil). done.
  - intros n. split; [done|by left].
Qed.

Lemma astep_inv s s' : AInv s → astep s s' → AInv s'.
Proof.
  intros I []; eauto using A_term_inv, A_stepdown_inv, A_candidate_inv, A_vote_inv,
    A_elect_inv, A_append_inv, A_replicate_inv, A_commit_inv.
Qed.

Lemma asteps_inv s s' : AInv s → rtc astep s s' → AInv s'.
Proof. intros I H. induction H; eauto using astep_inv. Qed.

(** ** What a step of one node leaves alone *)

(** The history of votes grows too. *)
Record gext (s s' : AState) : Prop := {
  gext_ext : ext s s';
  gext_cand x l : s.(g_cand) x = Some l → s'.(g_cand) x = Some l;
  gext_vote x v : s.(g_vote) x = Some v → s'.(g_vote) x = Some v
}.

#[export] Instance ext_preorder : PreOrder ext.
Proof.
  split.
  - intros s. by split.
  - intros s1 s2 s3 X1 X2. split.
    + intros t x Hx. by apply (ext_elec _ _ X2), (ext_elec _ _ X1).
    + intros t Ht. trans (s2.(g_tlog) t); [by apply (ext_tlog _ _ X1)|].
      apply (ext_tlog _ _ X2). by eapply ext_is_elec.
    + intros x Hx. by apply (ext_ack _ _ X2), (ext_ack _ _ X1).
Qed.

#[export] Instance gext_preorder : PreOrder gext.
Proof.
  split.
  - intros s. by split.
  - intros s1 s2 s3 [X1 C1 V1] [X2 C2 V2]. split; [by trans s2|eauto..].
Qed.

Lemma astep_gext s s' : AInv s → astep s s' → gext s s'.
Proof.
  intros I []; subst; split; simpl; try done; try (by apply ext_same).
  - intros [m t] l Hl. rewrite fn_lookup_insert_ne; [done|]. intros [= <- <-].
    destruct (inv_cand _ I _ _ _ Hl). lia.
  - intros [m t] v Hv. rewrite fn_lookup_insert_ne; [done|]. intros [= <- <-].
    pose proof (inv_vote_le _ I _ _ _ Hv). lia.
  - intros [m t] [c' v] Hv. rewrite fn_lookup_insert_ne; [done|]. intros [= <- <-].
    pose proof (inv_vote_cur _ I _ _ _ Hv). congruence.
  - apply elect_ext. by eapply elect_fresh.
  - apply append_ext. destruct (inv_role_leader _ I _ H) as [_ <-]. by eexists.
  - apply ext_same; [done..|]. by intros x Hx; apply elem_of_cons; right.
Qed.

(** The entries that are in some log. *)
Definition known (s : AState) (e : Entry) : Prop :=
  (∃ m, e ∈ s.(a_log) m) ∨ ∃ t, e ∈ s.(g_tlog) t.

Lemma elem_of_fn_insert {A} (f : Z → list A) x l y e : e ∈ (<[x := l]> f) y → e ∈ l ∨ e ∈ f y.
Proof. fn_at x y; auto. Qed.

Lemma known_replicate s n t k e :
  e ∈ adopt (take k (s.(g_tlog) t)) (s.(a_log) n) → known s e.
Proof.
  unfold adopt. case_decide; intros He; [by left; exists n|right; exists t].
  eapply elem_of_prefix; [exact He|apply prefix_take].
Qed.

Lemma committed_known s T p e : committed s T p → e ∈ p → known s e.
Proof.
  intros [->|(t & _ & _ & k & Q & _ & _ & _ & _ & Hp)] He; [by apply not_elem_of_nil in He|].
  right. exists t. eapply elem_of_prefix; [exact He|].
  trans (take k (s.(g_tlog) t)); [done|apply prefix_take].
Qed.

(** A run in which only node [n] changes, and all that is written into logs
    apart from copies is in [P]. *)
Record moves (P : Entry → Prop) (n : Z) (s s' : AState) : Prop := {
  move_steps : rtc astep s s';
  move_gext : gext s s';
  move_term m : m ≠ n → s'.(a_term) m = s.(a_term) m;
  move_vote m : m ≠ n → s'.(a_vote) m = s.(a_vote) m;
  move_role m : m ≠ n → s'.(a_role) m = s.(a_role) m;
  move_log m : m ≠ n → s'.(a_log) m = s.(a_log) m;
  move_commit m : m ≠ n → s'.(a_commit) m = s.(a_commit) m;
  move_known e : known s' e → known s e ∨ P e
}.

#[export] Instance moves_preorder P n : PreOrder (moves P n).
Proof.
  split.
  - intros s. split; try done. tauto.
  - intros s1 s2 s3 M1 M2. split.
    + trans s2; [apply M1|apply M2].
    + trans s2; [apply M1|apply M2].
    + intros m Hm. by rewrite (move_term _ _ _ _ M2), (move_term _ _ _ _ M1).
    + intros m Hm. by rewrite (move_vote _ _ _ _ M2), (move_vote _ _ _ _ M1).
    + intros m Hm. by rewrite (move_role _ _ _ _ M2), (move_role _ _ _ _ M1).
    + intros m Hm. by rewrite (move_log _ _ _ _ M2), (move_log _ _ _ _ M1).
    + intros m Hm. by rewrite (move_commit _ _ _ _ M2), (move_commit _ _ _ _ M1).
    + intros e He. destruct (move_known _ _ _ _ M2 e He) as [H|H]; [|by right].
      apply (move_known _ _ _ _ M1 e H).
Qed.

Lemma moves_mono (P P' : Entry → Prop) n s s' : (∀ e, P e → P' e) → moves P n s s' → moves P' n s s'.
Proof.
  intros HP M. split; try apply M. intros e He.
  destruct (move_known _ _ _ _ M e He); [by left|right; auto].
Qed.

Lemma move_inv P n s s' : AInv s → moves P n s s' → AInv s'.
Proof. intros I M. eapply asteps_inv; [done|]. apply M. Qed.

Lemma move_once (P : Entry → Prop) n s s' : AInv s → astep s s' →
  (∀ m, m ≠ n → s'.(a_term) m = s.(a_term) m ∧ s'.(a_vote) m = s.(a_vote) m ∧
    s'.(a_role) m = s.(a_role) m ∧ s'.(a_log) m = s.(a_log) m ∧
    s'.(a_commit) m = s.(a_commit) m) →
  (∀ m e, e ∈ s'.(a_log) m → known s e ∨ P e) →
  (∀ t e, e ∈ s'.(g_tlog) t → known s e ∨ P e) → moves P n s s'.
Proof.
  intros I St Hm Hl Ht. split; [by apply rtc_once|by apply astep_gext|naive_solver..|].
  intros e [[m He]|[t He]]; eauto.
Qed.
End protocol.

Arguments move_steps N {P} n s s' _ : rename.
Arguments move_gext N {P} n s s' _ : rename.
Arguments move_term N {P} n s s' _ m _ : rename.
Arguments move_vote N {P} n s s' _ m _ : rename.
Arguments move_role N {P} n s s' _ m _ : rename.
Arguments move_log N {P} n s s' _ m _ : rename.
Arguments move_commit N {P} n s s' _ m _ : rename.
Arguments move_known N {P} n s s' _ e _ : rename.

(** A run that writes nothing new. *)
Abbreviation move N := (moves N (λ _ : Entry, False)).

(** The logs are as before. *)
Ltac no_new := intros ?? ?; left; first [left; eexists; eassumption|right; eexists; eassumption].
