(* ===== verification/RaftFacts.v ===== *)
(** * Facts about one node

    How the compacted log of a [Raft] value represents a whole log, and what
    each handler does to it: the handlers of [Raft.v] do not panic on
    well-formed inputs, and their effect on the represented log is the one of
    the abstract protocol ([adopt], append at the end, no change). *)

From S2P Require Import Prelude Api Raft Protocol.

Local Open Scope Z_scope.

(** ** The represented log

    [lg] is the slice [rf.logs], starting with the sentinel at the snapshot
    index [lii] whose term is [lit]; [l] is the log from its first entry. *)
Record repr (lg : list Entry) (lii lit : Z) (l : list Entry) : Prop := {
  repr_bound : 0 ≤ lii ≤ zlen l;
  repr_index i e : l !! i = Some e → e.(Index) = Z.of_nat i + 1;
  repr_term : lit = term_at l (Z.to_nat lii);
  repr_logs : ∃ e0, lg = e0 :: drop (Z.to_nat lii) l ∧ e0.(Index) = lii ∧ e0.(Term) = lit
}.

Definition node_repr (rf : Raft) (l : list Entry) : Prop :=
  repr rf.(logs) rf.(lastIncludedIndex) rf.(lastIncludedTerm) l.

(** The state a node restarts with from what [rf] would persist. *)
Definition restarted (rf : Raft) : Raft :=
  mkRaft rf.(peers) rf.(persister) rf.(me) false StateFollower rf.(currentTerm)
    rf.(votedFor) (-1) rf.(logs) rf.(lastIncludedIndex) rf.(lastIncludedIndex)
    (replicate (Z.to_nat rf.(peers)) 0) (replicate (Z.to_nat rf.(peers)) 0)
    rf.(lastIncludedIndex) rf.(lastIncludedTerm).

(** The persister holds the node's persistent fields. *)
Definition disk_sync (rf : Raft) : Prop :=
  Make rf.(peers) rf.(me) rf.(persister) = Some (restarted rf).

(** Effects that neither write the disk nor reach the apply channel. *)
Definition inert (e : Effect) : Prop :=
  match e with ESave _ | EApply _ => False | _ => True end.

Lemma inert_bind {A} (l : list A) (f : A → list Effect) :
  (∀ x, Forall inert (f x)) → Forall inert (l ≫= f).
Proof. intros H. apply Forall_bind, Forall_true. done. Qed.

(** ** Monadic runs *)

Section runs.
Context {S E : Type}.

Lemma for_each_emit {A} (l : list A) (m : A → M S E unit) (f : A → list E) s :
  (∀ x s, m x s = Some (tt, s, f x)) → for_each l m s = Some (tt, s, l ≫= f).
Proof.
  intros Hm. induction l as [|x l IH]; [done|].
  cbn [for_each]. unfold mbind at 1, M_bind. rewrite Hm, IH. done.
Qed.
End runs.

(** ** Reading the represented log *)

Section reading.
Context (rf : Raft) (l : list Entry) (R : node_repr rf l).

Lemma repr_length : zlen rf.(logs) = zlen l - rf.(lastIncludedIndex) + 1.
Proof.
  destruct R as [Hb _ _ (e0 & -> & _)]. simpl. rewrite length_drop. lia.
Qed.

Lemma repr_getLen : getLen rf = zlen l + 1.
Proof. unfold getLen. rewrite repr_length. lia. Qed.

Lemma repr_getLog i :
  rf.(lastIncludedIndex) ≤ i ≤ zlen l →
  ∃ e, getLog rf i = Some e ∧ e.(Term) = term_at l (Z.to_nat i) ∧ e.(Index) = i ∧
    (rf.(lastIncludedIndex) < i → l !! (Z.to_nat i - 1)%nat = Some e).
Proof.
  intros Hi. destruct R as [Hb Hidx Ht (e0 & Hlg & He0 & Ht0)].
  unfold getLog, getPhysicalIndex.
  destruct (decide (i = rf.(lastIncludedIndex))) as [->|Hne].
  - exists e0. rewrite Z.sub_diag, Hlg. split; [done|]. split; [congruence|]. split; [done|lia].
  - destruct (lookup_lt_is_Some_2 l (Z.to_nat i - 1)) as [e He]; [lia|].
    exists e. split; [|split; [|split]].
    + apply slice_get_Some. split; [lia|]. rewrite Hlg.
      replace (Z.to_nat (i - rf.(lastIncludedIndex)))
        with (S (Z.to_nat i - 1 - Z.to_nat rf.(lastIncludedIndex))) by lia.
      simpl. rewrite lookup_drop. rewrite <-He. f_equal. lia.
    + replace (Z.to_nat i) with (S (Z.to_nat i - 1)) by lia. by erewrite term_at_lookup.
    + rewrite (Hidx _ _ He). lia.
    + done.
Qed.

Lemma repr_getLastLog :
  ∃ e, getLastLog rf = Some e ∧ e.(Term) = lastTerm l ∧ e.(Index) = zlen l.
Proof.
  destruct (repr_getLog (zlen l)) as (e & He & Ht & HI & _).
  { destruct R as [Hb _ _ _]. lia. }
  exists e. unfold getLastLog. unfold getLog, getPhysicalIndex in He.
  rewrite repr_length. replace (zlen l - rf.(lastIncludedIndex) + 1 - 1)
    with (zlen l - rf.(lastIncludedIndex)) by lia.
  rewrite He. unfold lastTerm. by rewrite Nat2Z.id in Ht.
Qed.

(** The voter's test is the one of the protocol. *)
Lemma repr_isLogUpToDate c :
  ∃ b, isLogUpToDate rf (lastTerm c) (zlen c) = Some b ∧ (b = true ↔ upToDate c l).
Proof.
  destruct repr_getLastLog as (e & He & Ht & HI). unfold isLogUpToDate, upToDate.
  rewrite He. simpl. rewrite Ht, HI. case_bool_decide; eexists; (split; [done|]);
    rewrite bool_decide_eq_true; lia.
Qed.

Lemma repr_hasEntryAt i t :
  ∃ b, hasEntryAt rf i t = Some b ∧
    (b = true ↔ rf.(lastIncludedIndex) ≤ i ≤ zlen l ∧ term_at l (Z.to_nat i) = t).
Proof.
  unfold hasEntryAt. rewrite repr_getLen.
  case_bool_decide; [simpl; exists false; split; [done|]; split; [done|lia]|].
  case_bool_decide; [simpl; exists false; split; [done|]; split; [done|lia]|].
  destruct (repr_getLog i) as (e & He & Ht & _); [lia|]. simpl. rewrite He. simpl.
  eexists; split; [done|]. rewrite bool_decide_eq_true, Ht.
  split; [intros; split; [lia|done]|by intros []].
Qed.
End reading.

(** ** Restart *)

Lemma Make_encoded n i d rf :
  d.(d_raftState) = encodeState rf → 0 ≤ rf.(lastIncludedIndex) →
  Make n i d = Some (mkRaft n d i false StateFollower rf.(currentTerm) rf.(votedFor) (-1)
    rf.(logs) rf.(lastIncludedIndex) rf.(lastIncludedIndex)
    (replicate (Z.to_nat n) 0) (replicate (Z.to_nat n) 0)
    rf.(lastIncludedIndex) rf.(lastIncludedTerm)).
Proof.
  intros Hd H0. unfold Make, run_st. rewrite Hd.
  unfold readPersist. rewrite bool_decide_false by done. unfold encodeState.
  repeat (progress (cbn [decode_int decode_entries]; run)).
  unfold Make_fresh; cbn.
  destruct (decide (0 < rf.(lastIncludedIndex))).
  - by repeat (rewrite (bool_decide_true (0 < _)) by done; cbn).
  - repeat (rewrite (bool_decide_false (0 < _)) by done; cbn).
    by replace rf.(lastIncludedIndex) with 0 by lia.
Qed.

Lemma disk_sync_saved rf snap :
  rf.(persister) = mkDisk (encodeState rf) snap → 0 ≤ rf.(lastIncludedIndex) → disk_sync rf.
Proof. intros Hd H0. unfold disk_sync. by rewrite (Make_encoded _ _ _ rf) by (by rewrite ?Hd). Qed.

(** ** Saving *)

(** The state after [persist] in a live node. *)
Definition saved (rf : Raft) : Raft :=
  set_persister (mkDisk (encodeState rf) (ReadSnapshot rf)) rf.

Lemma run_persist rf :
  rf.(dead) = false → persist rf = Some (tt, saved rf, [ESave (saved rf).(persister)]).
Proof. intros H. unfold persist. run. by rewrite H. Qed.

Lemma saved_sync rf : 0 ≤ rf.(lastIncludedIndex) → disk_sync (saved rf).
Proof. intros. by eapply (disk_sync_saved (saved rf)). Qed.

(** Moving to a higher term. *)
Definition newTerm (t : Z) (rf : Raft) : Raft := set_votedFor (-1) (set_currentTerm t rf).

Lemma run_handleHigherTerm_le t rf :
  t ≤ rf.(currentTerm) → handleHigherTerm t rf = Some (false, rf, []).
Proof. intros. unfold handleHigherTerm. run. by rewrite bool_decide_false by lia. Qed.

Lemma run_handleHigherTerm_gt t rf :
  rf.(dead) = false → rf.(currentTerm) < t →
  handleHigherTerm t rf =
    let rf' := saved (set_state StateFollower (newTerm t rf)) in
    Some (true, rf', [ESave rf'.(persister); EResetElectionTimer]).
Proof.
  intros Hd Ht. unfold handleHigherTerm. run. rewrite bool_decide_true by done. run.
  erewrite bind_run by (by apply run_persist). by run.
Qed.

(** ** The vote handler *)

(** The state with which an equal or higher term is handled. *)
Definition caughtUp (t : Z) (rf : Raft) : Raft :=
  if bool_decide (rf.(currentTerm) < t) then newTerm t rf else rf.

Lemma run_RequestVote_stale args rf :
  args.(rva_Term) < rf.(currentTerm) →
  RequestVote args rf = Some ({| rvr_Term := rf.(currentTerm); rvr_VoteGranted := false |}, rf, []).
Proof. intros. unfold RequestVote. run. by rewrite bool_decide_true by lia. Qed.

Definition voteState (t : Z) (rf : Raft) : Raft :=
  if bool_decide (rf.(currentTerm) < t) then newTerm t (set_state StateFollower rf) else rf.

Lemma run_RequestVote args rf l c :
  rf.(dead) = false → node_repr rf l → rf.(currentTerm) ≤ args.(rva_Term) →
  args.(rva_LastLogTerm) = lastTerm c → args.(rva_LastLogIndex) = zlen c →
  ∃ b effs,
    let rf1 := voteState args.(rva_Term) rf in
    let rf2 := saved (if (b : bool) then set_votedFor args.(rva_CandidateId) rf1 else rf1) in
    RequestVote args rf =
      Some ({| rvr_Term := rf.(currentTerm); rvr_VoteGranted := b |}, rf2,
            effs ++ [ESave rf2.(persister)]) ∧
    Forall inert effs ∧
    (b = true ↔ (rf1.(votedFor) = -1 ∨ rf1.(votedFor) = args.(rva_CandidateId)) ∧ upToDate c l).
Proof.
  intros Hd R Ht Hlt Hli. unfold RequestVote. run. rewrite bool_decide_false by lia.
  set (rf1 := voteState args.(rva_Term) rf).
  erewrite bind_run with (s1 := rf1) (e1 := []) (a := tt).
  2:{ unfold rf1, voteState. case_bool_decide; by run. }
  run. assert (node_repr rf1 l) as R1 by (unfold rf1, voteState; by case_bool_decide).
  assert (rf1.(dead) = false) as Hd1 by (unfold rf1, voteState; by case_bool_decide).
  destruct (repr_isLogUpToDate rf1 l R1 c) as (b & Hb & Hiff).
  rewrite Hlt, Hli, Hb. run.
  set (can := bool_decide (rf1.(votedFor) = -1) || bool_decide (rf1.(votedFor) = rva_CandidateId args)).
  exists (can && b), (if can && b then [EResetElectionTimer] else []). simpl.
  assert (can = true ↔ rf1.(votedFor) = -1 ∨ rf1.(votedFor) = args.(rva_CandidateId)) as Hcan.
  { unfold can. by rewrite orb_true_iff, !bool_decide_eq_true. }
  split; [|split].
  - destruct (can && b).
    + unfold resetElectionTimer. run. erewrite bind_run by (by apply run_persist). by run.
    + run. erewrite bind_run by (by apply run_persist). by run.
  - destruct (can && b); by repeat constructor.
  - rewrite andb_true_iff, Hcan, Hiff. done.
Qed.

(** ** Scanning the log backwards *)

Section scanning.
Context (rf : Raft) (l : list Entry) (R : node_repr rf l).

Lemma skipConflictTerm_spec t fuel i :
  Z.of_nat fuel = i - rf.(lastIncludedIndex) → i ≤ zlen l →
  ∃ r, skipConflictTerm rf t fuel i = Some r ∧ rf.(lastIncludedIndex) ≤ r ≤ i ∧
    (∀ j, r < j ≤ i → term_at l (Z.to_nat j) = t) ∧
    (rf.(lastIncludedIndex) < r → term_at l (Z.to_nat r) ≠ t).
Proof.
  revert i. induction fuel as [|fuel IH]; intros i Hf Hi.
  - exists i. repeat split; [lia..|]. simpl. intros; lia.
  - destruct (repr_getLog rf l R i) as (e & He & Ht & _); [lia|]. simpl. rewrite He. simpl.
    case_bool_decide as Hd.
    + destruct (IH (i - 1)) as (r & Hr & Hb & Hall & Hne); [lia..|].
      exists r. split; [done|]. split; [lia|]. split; [|done]. intros j Hj.
      destruct (decide (j = i)) as [->|]; [congruence|]. apply Hall. lia.
    + exists i. repeat split; [lia..|congruence].
Qed.

Lemma findLastIndexOfTerm_spec t start :
  rf.(lastIncludedIndex) ≤ start ≤ zlen l →
  ∃ r, findLastIndexOfTerm rf t start = Some r ∧
    ((r = -1 ∧ ∀ j, rf.(lastIncludedIndex) < j ≤ start → term_at l (Z.to_nat j) ≠ t) ∨
     (rf.(lastIncludedIndex) < r ≤ start ∧ term_at l (Z.to_nat r) = t ∧
      ∀ j, r < j ≤ start → term_at l (Z.to_nat j) ≠ t)).
Proof.
  intros Hs. unfold findLastIndexOfTerm.
  assert (Z.of_nat (Z.to_nat (start - rf.(lastIncludedIndex))) = start - rf.(lastIncludedIndex))
    as Hf by lia.
  revert Hs Hf. generalize (Z.to_nat (start - rf.(lastIncludedIndex))) as fuel. intros fuel.
  revert start. induction fuel as [|fuel IH]; intros i Hi Hf.
  - exists (-1). split; [done|]. left. split; [done|]. intros; lia.
  - destruct (repr_getLog rf l R i) as (e & He & Ht & _); [lia|]. simpl. rewrite He. simpl.
    case_bool_decide as Hd.
    + exists i. split; [done|]. right. split; [lia|]. split; [congruence|]. intros; lia.
    + destruct (IH (i - 1)) as (r & Hr & Hc); [lia..|]. exists r. split; [done|].
      destruct Hc as [[-> Hn]|(Hb & Htr & Hn)]; [left|right].
      * split; [done|]. intros j Hj. destruct (decide (j = i)) as [->|]; [congruence|].
        apply Hn. lia.
      * split; [lia|]. split; [done|]. intros j Hj.
        destruct (decide (j = i)) as [->|]; [congruence|]. apply Hn. lia.
Qed.

(** An index may be committed: an entry of the current term on a majority. *)
Definition committable (n : Z) : Prop :=
  term_at l (Z.to_nat n) = rf.(currentTerm) ∧ rf.(peers) `quot` 2 < countNodesWithLogAt rf n.

Lemma updateCommitIndex_spec :
  rf.(lastIncludedIndex) ≤ rf.(commitIndex) ≤ zlen l →
  ∃ o, updateCommitIndex_loop rf (Z.to_nat (getLen rf - 1 - rf.(commitIndex))) (getLen rf - 1)
      = Some o ∧
    match o with
    | None => ∀ n, rf.(commitIndex) < n ≤ zlen l → ¬ committable n
    | Some n => rf.(commitIndex) < n ≤ zlen l ∧ committable n ∧
                (∀ m, n < m ≤ zlen l → ¬ committable m)
    end.
Proof.
  intros Hb. rewrite (repr_getLen rf l R). replace (zlen l + 1 - 1) with (zlen l) by lia.
  assert (∀ fuel i, Z.of_nat fuel = i - rf.(commitIndex) → i ≤ zlen l →
    ∃ o, updateCommitIndex_loop rf fuel i = Some o ∧
    match o with
    | None => ∀ n, rf.(commitIndex) < n ≤ i → ¬ committable n
    | Some n => rf.(commitIndex) < n ≤ i ∧ committable n ∧
                (∀ m, n < m ≤ i → ¬ committable m)
    end) as Hloop; [|apply Hloop; lia].
  intros fuel. induction fuel as [|fuel IH]; intros i Hf Hi.
  - exists None. split; [done|]. intros; lia.
  - destruct (repr_getLog rf l R i) as (e & He & Ht & _); [lia|]. simpl. rewrite He. simpl.
    case_match eqn:Hc.
    + apply andb_true_iff in Hc as [H1%bool_decide_eq_true H2%bool_decide_eq_true].
      exists (Some i). split; [done|]. split; [lia|]. split; [split; congruence|]. intros; lia.
    + assert (¬ committable i) as Hnot.
      { intros [H1 H2]. apply andb_false_iff in Hc.
        rewrite !bool_decide_eq_false in Hc. rewrite Ht in Hc. tauto. }
      destruct (IH (i - 1)) as (o & Ho & Hspec); [lia..|]. exists o. split; [done|].
      destruct o as [n|].
      * destruct Hspec as (? & ? & Hmax). split; [lia|]. split; [done|]. intros m Hm.
        destruct (decide (m = i)) as [->|]; [done|]. apply Hmax. lia.
      * intros n Hn. destruct (decide (n = i)) as [->|]; [done|]. apply Hspec. lia.
Qed.
End scanning.

(** ** Appending *)

(** Positions of [l1] and [l2] with the same term close the same prefix: what
    Log Matching says of two logs of a run. *)
Definition matching (l1 l2 : list Entry) : Prop :=
  ∀ i, (0 < i ≤ length l1)%nat → (i ≤ length l2)%nat →
    term_at l1 i = term_at l2 i → take i l1 = take i l2.

Definition indexed (l : list Entry) : Prop :=
  ∀ i e, l !! i = Some e → e.(Index) = Z.of_nat i + 1.

(** An [AppendEntries] call carries the part of [L] after [PrevLogIndex]. *)
Record carries (args : AppendEntriesArgs) (L : list Entry) : Prop := {
  carries_prev : 0 ≤ args.(aea_PrevLogIndex) ≤ zlen L;
  carries_entries : args.(aea_Entries) = drop (Z.to_nat args.(aea_PrevLogIndex)) L;
  carries_term : args.(aea_PrevLogTerm) = term_at L (Z.to_nat args.(aea_PrevLogIndex));
  carries_index : indexed L
}.

(** Keeping the log up to [prev] and continuing with the rest of [L]. *)
Lemma repr_splice rf l L prev :
  node_repr rf l → indexed L → rf.(lastIncludedIndex) ≤ Z.of_nat prev →
  (prev ≤ length l)%nat → (prev ≤ length L)%nat → take prev l = take prev L →
  repr (take (Z.to_nat (Z.of_nat prev + 1 - rf.(lastIncludedIndex))) rf.(logs) ++ drop prev L)
    rf.(lastIncludedIndex) rf.(lastIncludedTerm) L.
Proof.
  intros [Hb _ Ht (e0 & -> & He0 & Ht0)] HL Hlii Hpl HpL Htk.
  split; [lia|done| |].
  - rewrite Ht. rewrite (term_at_prefix (take prev l) l), (term_at_prefix (take prev L) L)
      by (apply prefix_take || (rewrite length_take_le; lia)). by rewrite Htk.
  - exists e0. split; [|done].
    replace (Z.to_nat (Z.of_nat prev + 1 - rf.(lastIncludedIndex)))
      with (S (prev - Z.to_nat rf.(lastIncludedIndex))) by lia.
    simpl. f_equal. rewrite take_drop_commute.
    replace (Z.to_nat rf.(lastIncludedIndex) + (prev - Z.to_nat rf.(lastIncludedIndex)))%nat
      with prev by lia.
    rewrite Htk. rewrite <-(take_drop prev L) at 3. rewrite drop_app_le; [done|].
    rewrite length_take_le; lia.
Qed.

Lemma run_appendNewEntries rf l L prev :
  node_repr rf l → indexed L → matching l L →
  rf.(lastIncludedIndex) ≤ Z.of_nat prev → (prev ≤ length l)%nat → (prev ≤ length L)%nat →
  take prev l = take prev L →
  ∃ lg, appendNewEntries (drop prev L) rf = Some (tt, set_logs lg rf, []) ∧
    repr lg rf.(lastIncludedIndex) rf.(lastIncludedTerm) (adopt L l).
Proof.
  intros R HL Hm. remember (drop prev L) as es eqn:Hes. revert prev Hes.
  induction es as [|e es IH]; intros prev Hes Hlii Hpl HpL Htk.
  - exists rf.(logs). split; [simpl; run; by destruct rf|].
    assert (L = take prev L) as HLe by (rewrite <-(take_drop prev L) at 1; by rewrite <-Hes, app_nil_r).
    unfold adopt. rewrite decide_True; [done|]. rewrite HLe, <-Htk. apply prefix_take.
  - assert (L !! prev = Some e) as He.
    { rewrite <-(Nat.add_0_r prev), <-lookup_drop, <-Hes. done. }
    assert (es = drop (S prev) L) as Hes'.
    { rewrite <-Nat.add_1_r, <-drop_drop, <-Hes. done. }
    pose proof (HL _ _ He) as HIe. pose proof (lookup_lt_Some _ _ _ He) as HpL'.
    destruct (repr_bound _ _ _ _ R) as [Hb0 Hb1].
    pose proof (repr_splice rf l L prev R HL Hlii Hpl HpL Htk) as Hnew. rewrite <-Hes in Hnew.
    simpl. run. rewrite (repr_getLen rf l R), HIe. case_bool_decide as Hlt.
    + destruct (repr_getLog rf l R (Z.of_nat prev + 1)) as (old & Hold & Hto & _); [lia|].
      unfold getLog in Hold. rewrite Hold. run.
      replace (Z.to_nat (Z.of_nat prev + 1)) with (S prev) in Hto by lia.
      case_bool_decide as Hne.
      * unfold getPhysicalIndex. rewrite slice_to_eq by (rewrite (repr_length rf l R); lia). run.
        eexists. split; [done|]. unfold adopt. rewrite decide_False; [done|].
        intros HLl. apply Hne. rewrite Hto, (term_at_prefix L l) by (done || lia).
        by erewrite term_at_lookup.
      * apply (IH (S prev)); [done|lia..|]. apply Hm; [lia..|].
        by rewrite <-Hto, Hne, (term_at_lookup L prev e).
    + eexists. split; [by run|]. unfold adopt.
      rewrite decide_False by (intros HLl%prefix_length; lia).
      by rewrite take_ge in Hnew by (pose proof (repr_length rf l R); lia).
Qed.

(** ** The [AppendEntries] handler *)

Lemma run_AppendEntries_stale args rf :
  args.(aea_Term) < rf.(currentTerm) →
  AppendEntries args rf =
    Some ({| aer_Term := rf.(currentTerm); aer_Success := false;
             aer_ConflictIndex := 0; aer_ConflictTerm := 0 |}, rf, []).
Proof. intros. unfold AppendEntries. run. by rewrite bool_decide_true by lia. Qed.

(** The node follows [leader] in term [t]. *)
Definition following (t leader : Z) (rf : Raft) : Raft :=
  set_state StateFollower (set_currentLeader leader (caughtUp t rf)).

Lemma following_repr t c rf l : node_repr rf l → node_repr (following t c rf) l.
Proof. unfold node_repr, following, caughtUp. by case_bool_decide. Qed.

Lemma handleConsistencyConflict_spec args rf l L :
  node_repr rf l → carries args L → matching l L →
  ∃ o, handleConsistencyConflict rf args = Some o ∧
    match o with
    | None => rf.(lastIncludedIndex) ≤ args.(aea_PrevLogIndex) ≤ zlen l ∧
        take (Z.to_nat args.(aea_PrevLogIndex)) l = take (Z.to_nat args.(aea_PrevLogIndex)) L
    | Some (ci, _) =>
        (args.(aea_PrevLogIndex) < rf.(lastIncludedIndex) ∧ ci = rf.(lastIncludedIndex) + 1) ∨
        (rf.(lastIncludedIndex) + 1 ≤ ci ≤ args.(aea_PrevLogIndex) + 1 ∧ ci ≤ zlen l + 1)
    end.
Proof.
  intros R [Hp _ Ht _] Hm. unfold handleConsistencyConflict.
  case_bool_decide as Hlow; [eexists; split; [done|]; by left|].
  destruct (repr_bound _ _ _ _ R) as [Hb0 Hb1].
  destruct (repr_hasEntryAt rf l R args.(aea_PrevLogIndex) args.(aea_PrevLogTerm))
    as (b & Hb & Hiff).
  rewrite Hb. simpl. destruct b.
  - destruct Hiff as [[Hr Hterm] _]; [done|]. eexists. split; [done|]. split; [done|].
    destruct (decide (args.(aea_PrevLogIndex) = 0)) as [->|]; [done|].
    apply Hm; [lia..|congruence].
  - rewrite (repr_getLen rf l R). case_bool_decide.
    + eexists. split; [done|]. right. lia.
    + destruct (repr_getLog rf l R args.(aea_PrevLogIndex)) as (e & He & _); [lia|].
      rewrite He. simpl.
      destruct (skipConflictTerm_spec rf l R e.(Term)
        (Z.to_nat (args.(aea_PrevLogIndex) - rf.(lastIncludedIndex))) args.(aea_PrevLogIndex))
        as (r & Hr & Hbr & _); [lia..|].
      rewrite Hr. simpl. eexists. split; [done|]. right. lia.
Qed.

(** The commit index after [advanceCommitIndex]. *)
Definition advanced (commit leaderCommit lastIndex : Z) : Z :=
  if bool_decide (commit < leaderCommit) then Z.min leaderCommit lastIndex else commit.

Lemma run_advanceCommitIndex lc rf l :
  node_repr rf l →
  ∃ effs, advanceCommitIndex lc rf =
    Some (tt, set_commitIndex (advanced rf.(commitIndex) lc (zlen l)) rf, effs) ∧
    Forall inert effs.
Proof.
  intros R. unfold advanceCommitIndex, advanced, signalApplier. run. case_bool_decide.
  - exists [ESignalApplier]. run. split; [|by repeat constructor]. do 4 f_equal.
    rewrite (repr_getLen rf l R). case_bool_decide; lia.
  - exists []. split; [run; by destruct rf|done].
Qed.

Lemma run_AppendEntries args rf l L :
  rf.(dead) = false → node_repr rf l → rf.(currentTerm) ≤ args.(aea_Term) →
  carries args L → matching l L →
  let rf1 := following args.(aea_Term) args.(aea_LeaderId) rf in
  (∃ ci ct effs,
     AppendEntries args rf =
       Some ({| aer_Term := rf.(currentTerm); aer_Success := false;
                aer_ConflictIndex := ci; aer_ConflictTerm := ct |},
             saved rf1, effs ++ [ESave (saved rf1).(persister)]) ∧
     Forall inert effs ∧
     ((args.(aea_PrevLogIndex) < rf.(lastIncludedIndex) ∧ ci = rf.(lastIncludedIndex) + 1) ∨
      (rf.(lastIncludedIndex) + 1 ≤ ci ≤ args.(aea_PrevLogIndex) + 1))) ∨
  (∃ lg effs,
     let rf2 := saved (set_commitIndex
       (advanced rf.(commitIndex) args.(aea_LeaderCommit) (zlen (adopt L l))) (set_logs lg rf1)) in
     AppendEntries args rf =
       Some ({| aer_Term := rf.(currentTerm); aer_Success := true;
                aer_ConflictIndex := 0; aer_ConflictTerm := 0 |},
             rf2, effs ++ [ESave rf2.(persister)]) ∧
     Forall inert effs ∧
     repr lg rf.(lastIncludedIndex) rf.(lastIncludedTerm) (adopt L l)).
Proof.
  intros Hd R Ht HC Hm rf1.
  assert (node_repr rf1 l) as R1 by (by apply following_repr).
  assert (rf1.(dead) = false ∧ rf1.(commitIndex) = rf.(commitIndex) ∧
    rf1.(lastIncludedIndex) = rf.(lastIncludedIndex) ∧
    rf1.(lastIncludedTerm) = rf.(lastIncludedTerm)) as (Hd1 & Hc1 & Hi1 & Hit1)
    by (unfold rf1, following, caughtUp; by case_bool_decide).
  unfold AppendEntries. run. rewrite bool_decide_false by lia.
  erewrite bind_run with (s1 := caughtUp args.(aea_Term) rf) (e1 := []) (a := tt).
  2:{ unfold caughtUp. case_bool_decide; by run. }
  unfold resetElectionTimer. run. fold (following args.(aea_Term) args.(aea_LeaderId) rf). fold rf1.
  destruct (handleConsistencyConflict_spec args rf1 l L R1 HC Hm) as (o & Ho & Hspec).
  rewrite Ho. run. destruct o as [[ci ct]|].
  - left. exists ci, ct, [EResetElectionTimer]. erewrite bind_run by (by apply run_persist). run.
    split; [done|]. split; [by repeat constructor|]. rewrite <-Hi1. tauto.
  - right. destruct Hspec as [Hb Htk]. destruct HC as [Hp He Hpt HI].
    destruct (run_appendNewEntries rf1 l L (Z.to_nat args.(aea_PrevLogIndex)) R1 HI Hm)
      as (lg & Hrun & Hr); [lia..|done|].
    rewrite He. erewrite bind_run by exact Hrun. run.
    destruct (run_advanceCommitIndex args.(aea_LeaderCommit) (set_logs lg rf1) (adopt L l))
      as (effs & Hrun2 & Hns); [done|].
    erewrite bind_run by exact Hrun2. erewrite bind_run by (by apply run_persist). run.
    rewrite Hi1, Hit1 in Hr. exists lg, (EResetElectionTimer :: effs). cbn [set_logs commitIndex] in *.
    rewrite Hc1. split; [done|]. split; [by constructor|done].
Qed.

(** ** Compaction *)

(** Dropping the entries below [i] keeps the represented log. *)
Lemma repr_compact rf l i :
  node_repr rf l → rf.(lastIncludedIndex) ≤ i ≤ zlen l →
  slice_from rf.(logs) (getPhysicalIndex rf i)
    = Some (drop (Z.to_nat (i - rf.(lastIncludedIndex))) rf.(logs)) ∧
  repr (drop (Z.to_nat (i - rf.(lastIncludedIndex))) rf.(logs)) i (term_at l (Z.to_nat i)) l.
Proof.
  intros R Hi. destruct (repr_bound _ _ _ _ R) as [Hb0 Hb1].
  split; [unfold getPhysicalIndex; rewrite slice_from_eq; [done|rewrite (repr_length rf l R); lia]|].
  destruct (repr_getLog rf l R i Hi) as (e & He & Ht & HI & _).
  apply slice_get_Some in He as [_ He]. unfold getPhysicalIndex in He.
  destruct R as [_ Hidx _ (e0 & Hlg & _)]. split; [lia|done|done|].
  exists e. split; [|done]. rewrite (drop_S _ _ _ He). f_equal. rewrite Hlg. simpl.
  rewrite drop_drop. f_equal. lia.
Qed.

Lemma run_Snapshot index snap rf l :
  node_repr rf l → rf.(lastIncludedIndex) < index ≤ rf.(commitIndex) → rf.(commitIndex) ≤ zlen l →
  ∃ lg, let rf1 := set_lastIncludedTerm (term_at l (Z.to_nat index))
                     (set_lastIncludedIndex index (set_logs lg rf)) in
    let d := mkDisk (encodeState rf1) snap in
    Snapshot index snap rf = Some (tt, set_persister d rf1, [ESave d]) ∧
    repr lg index (term_at l (Z.to_nat index)) l.
Proof.
  intros R Hi Hc. destruct (repr_compact rf l index R) as [Hs Hr]; [lia|].
  exists (drop (Z.to_nat (index - rf.(lastIncludedIndex))) rf.(logs)). split; [|done].
  unfold Snapshot. run. rewrite !bool_decide_false by lia. simpl. rewrite Hs. run.
  destruct (repr_logs _ _ _ _ Hr) as (e0 & Hlg & _ & Ht0). rewrite Hlg.
  change (getFirstLog _) with (Some e0). run. unfold Save. run. by rewrite Ht0.
Qed.

Lemma run_Snapshot_skip index snap rf :
  index ≤ rf.(lastIncludedIndex) ∨ rf.(commitIndex) < index →
  Snapshot index snap rf = Some (tt, rf, []).
Proof.
  intros H. unfold Snapshot. run. case_bool_decide; [done|].
  rewrite bool_decide_true by lia. done.
Qed.

Lemma run_truncateLogWithSnapshot rf l L :
  node_repr rf l → indexed L → matching l L → rf.(lastIncludedIndex) < zlen L →
  ∃ lg, truncateLogWithSnapshot (zlen L) (lastTerm L) rf = Some (tt, set_logs lg rf, []) ∧
    repr lg (zlen L) (lastTerm L) (adopt L l).
Proof.
  intros R HL Hm Hlt. destruct (repr_bound _ _ _ _ R) as [Hb0 Hb1].
  unfold truncateLogWithSnapshot. run. rewrite (repr_getLen rf l R).
  assert (adopt L l = L →
    ∃ lg, (modify (set_logs [mkEntry (zlen L) (lastTerm L) VNil]) : RaftM unit) rf
      = Some (tt, set_logs lg rf, []) ∧ repr lg (zlen L) (lastTerm L) (adopt L l)) as Hdrop.
  { intros ->. eexists. split; [done|]. split; [lia|done| |].
    - unfold lastTerm. by rewrite Nat2Z.id.
    - exists (mkEntry (zlen L) (lastTerm L) VNil). by rewrite drop_ge by lia. }
  case_bool_decide as Hlen.
  - destruct (repr_getLog rf l R (zlen L)) as (e & He & Ht & _); [lia|]. rewrite He. run.
    rewrite Nat2Z.id in Ht. case_bool_decide as Heq.
    + destruct (repr_compact rf l (zlen L) R) as [Hs Hr]; [lia|]. rewrite Hs. run.
      eexists. split; [done|]. rewrite Nat2Z.id in Hr.
      assert (term_at l (length L) = lastTerm L) as Htl by congruence. rewrite <-Htl.
      unfold adopt. rewrite decide_True; [done|].
      assert (take (length L) l = take (length L) L) as Htk
        by (apply Hm; [lia..|done]).
      rewrite firstn_all in Htk. rewrite <-Htk. apply prefix_take.
    + apply Hdrop. unfold adopt. rewrite decide_False; [done|]. intros HLl. apply Heq.
      rewrite Ht. unfold lastTerm. by apply term_at_prefix.
  - run. apply Hdrop. unfold adopt. rewrite decide_False; [done|].
    intros ?%prefix_length. lia.
Qed.

Lemma run_InstallSnapshot_stale args rf :
  args.(isa_Term) < rf.(currentTerm) →
  InstallSnapshot args rf = Some ({| isr_Term := rf.(currentTerm) |}, rf, []).
Proof. intros. unfold InstallSnapshot. run. by rewrite bool_decide_true by lia. Qed.

(** The state after the term was dealt with: a new term is saved at once. *)
Definition caughtUpSaved (t : Z) (rf : Raft) : Raft :=
  if bool_decide (rf.(currentTerm) < t) then saved (newTerm t rf) else rf.

Definition caughtUpEffs (t : Z) (rf : Raft) : list Effect :=
  if bool_decide (rf.(currentTerm) < t) then [ESave (saved (newTerm t rf)).(persister)] else [].

Definition followingSaved (t leader : Z) (rf : Raft) : Raft :=
  set_state StateFollower (set_currentLeader leader (caughtUpSaved t rf)).

Lemma followingSaved_same t c rf :
  let rf1 := followingSaved t c rf in
  rf1.(logs) = rf.(logs) ∧ rf1.(lastIncludedIndex) = rf.(lastIncludedIndex) ∧
  rf1.(lastIncludedTerm) = rf.(lastIncludedTerm) ∧ rf1.(commitIndex) = rf.(commitIndex) ∧
  rf1.(lastApplied) = rf.(lastApplied).
Proof. unfold followingSaved, caughtUpSaved. by case_bool_decide. Qed.

Lemma run_InstallSnapshot args rf l L :
  rf.(dead) = false → node_repr rf l → rf.(currentTerm) ≤ args.(isa_Term) →
  args.(isa_LastIncludedIndex) = zlen L → args.(isa_LastIncludedTerm) = lastTerm L →
  indexed L → matching l L →
  let rf1 := followingSaved args.(isa_Term) args.(isa_LeaderId) rf in
  let reply := {| isr_Term := rf.(currentTerm) |} in
  let pre := caughtUpEffs args.(isa_Term) rf ++ [EResetElectionTimer] in
  (zlen L ≤ rf.(lastIncludedIndex) → InstallSnapshot args rf = Some (reply, rf1, pre)) ∧
  (rf.(lastIncludedIndex) < zlen L →
   ∃ lg, let rf2 := set_commitIndex (Z.max rf.(commitIndex) (zlen L))
          (set_lastIncludedTerm (lastTerm L) (set_lastIncludedIndex (zlen L) (set_logs lg rf1))) in
     let d := mkDisk (encodeState rf2) args.(isa_Data) in
     InstallSnapshot args rf =
       Some (reply, set_persister d rf2, pre ++ [ESave d; ESignalApplier]) ∧
     repr lg (zlen L) (lastTerm L) (adopt L l)).
Proof.
  intros Hd R Ht Hidx Htm HL Hm rf1 reply pre.
  destruct (followingSaved_same args.(isa_Term) args.(isa_LeaderId) rf) as (E1 & E2 & E3 & E4 & _).
  fold rf1 in E1, E2, E3, E4.
  assert (node_repr rf1 l) as R1 by (unfold node_repr; by rewrite E1, E2, E3).
  unfold InstallSnapshot. run. rewrite bool_decide_false by lia.
  erewrite bind_run with (s1 := caughtUpSaved args.(isa_Term) rf)
    (e1 := caughtUpEffs args.(isa_Term) rf) (a := tt).
  2:{ unfold caughtUpSaved, caughtUpEffs. case_bool_decide; [|done]. run. by rewrite run_persist. }
  unfold resetElectionTimer. run.
  change (set_state _ _) with rf1. fold pre. rewrite E2, Hidx, Htm. split; intros Hle.
  - rewrite bool_decide_true by done. by run.
  - rewrite bool_decide_false by lia.
    destruct (run_truncateLogWithSnapshot rf1 l L) as (lg & Hrun & Hr); [done..|by rewrite E2|].
    exists lg. split; [|done]. erewrite bind_run by exact Hrun. run.
    set (rf2 := set_lastIncludedTerm _ _).
    assert ((if bool_decide (rf2.(commitIndex) < zlen L) then set_commitIndex (zlen L) rf2 else rf2)
      = set_commitIndex (Z.max rf.(commitIndex) (zlen L)) rf2) as ->.
    { replace rf2.(commitIndex) with rf.(commitIndex) by done. case_bool_decide.
      - by rewrite Z.max_r by lia.
      - rewrite Z.max_l by lia. by rewrite <-E4. }
    unfold Save, signalApplier. run. by rewrite <-!app_assoc.
Qed.

(** ** Elections *)

Definition requestVoteCalls (rf : Raft) (args : RequestVoteArgs) : list Effect :=
  range rf.(peers) ≫= λ peer,
    if bool_decide (peer = rf.(me)) then [] else [EGoRequestVote peer args].

Lemma run_becomeCandidate rf l :
  rf.(dead) = false → node_repr rf l →
  let rf1 := saved (set_currentTerm (rf.(currentTerm) + 1) (set_state StateCandidate rf)) in
  let rf2 := saved (set_currentLeader (-1) (set_votedFor rf.(me) rf1)) in
  let args := {| rva_Term := rf.(currentTerm) + 1; rva_CandidateId := rf.(me);
                 rva_LastLogTerm := lastTerm l; rva_LastLogIndex := zlen l |} in
  becomeCandidate rf =
    Some (tt, rf2, ESave rf1.(persister) :: ESave rf2.(persister) ::
                   requestVoteCalls rf args ++ [EResetElectionTimer]).
Proof.
  intros Hd R rf1 rf2 args. unfold becomeCandidate. run.
  change (currentTerm (set_state StateCandidate rf)) with rf.(currentTerm).
  erewrite bind_run by (by apply run_persist). fold rf1.
  unfold startElection. run. erewrite bind_run by (by apply run_persist). run.
  change (saved (set_currentLeader (-1) (set_votedFor rf1.(me) rf1))) with rf2.
  assert (node_repr rf2 l) as R2 by done.
  destruct (repr_getLastLog rf2 l R2) as (e & He & Ht & HI).
  assert (genRequestVoteArgs rf2 = Some args) as ->.
  { unfold genRequestVoteArgs. rewrite He. simpl. by rewrite Ht, HI. }
  run. erewrite bind_run.
  2:{ apply (for_each_emit _ _ (λ peer,
        if bool_decide (peer = rf2.(me)) then [] else [EGoRequestVote peer args])).
      intros x s. by case_bool_decide. }
  unfold resetElectionTimer. by run.
Qed.

Section resetPeers.
Context (a b : Z).

Lemma run_resetPeerIndex rf i ni mi :
  slice_set rf.(nextIndex) i (a + 1) = Some ni →
  slice_set rf.(matchIndex) i rf.(lastIncludedIndex) = Some mi →
  resetPeerIndices a i rf = Some (tt, set_matchIndex mi (set_nextIndex ni rf), []).
Proof. intros Hn Hm. unfold resetPeerIndices. run. rewrite Hn. run. rewrite Hm. by run. Qed.

Lemma run_resetPeerIndices rf (i : nat) (m : nat) r1 r2 :
  rf.(lastIncludedIndex) = b →
  rf.(nextIndex) = replicate i (a + 1) ++ r1 → length r1 = m →
  rf.(matchIndex) = replicate i b ++ r2 → length r2 = m →
  for_each (seqZ (Z.of_nat i) (Z.of_nat m)) (resetPeerIndices a) rf =
    Some (tt, set_matchIndex (replicate (i + m) b)
                (set_nextIndex (replicate (i + m) (a + 1)) rf), []).
Proof.
  revert rf i r1 r2. induction m as [|m IH]; intros rf i r1 r2 Hb Hn H1 Hm H2.
  - apply nil_length_inv in H1 as ->, H2 as ->. rewrite app_nil_r in Hn, Hm.
    simpl. run. rewrite Nat.add_0_r, <-Hn, <-Hm. by destruct rf.
  - destruct r1 as [|x1 r1], r2 as [|x2 r2]; try done.
    rewrite Nat2Z.inj_succ, seqZ_cons by lia. cbn [for_each].
    erewrite bind_run.
    2:{ apply run_resetPeerIndex; rewrite ?Hn, ?Hm, ?Hb;
        (rewrite slice_set_eq by (rewrite length_app, length_replicate; simpl; lia)); done. }
    run. rewrite Nat2Z.id.
    rewrite !insert_app_r_alt by (rewrite length_replicate; lia).
    rewrite !length_replicate, Nat.sub_diag. cbn [insert list_insert].
    replace (Z.succ (Z.of_nat i)) with (Z.of_nat (S i)) by lia.
    replace (Z.pred (Z.succ (Z.of_nat m))) with (Z.of_nat m) by lia.
    injection H1 as H1. injection H2 as H2.
    rewrite (IH _ (S i) r1 r2); [|done| |done| |done].
    + replace (S i + m)%nat with (i + S m)%nat by lia. done.
    + rewrite replicate_S_end. by rewrite <-app_assoc.
    + rewrite replicate_S_end. by rewrite <-app_assoc.
Qed.
End resetPeers.

(** The leader's view of its peers when elected. *)
Definition leading (lastIndex : Z) (rf : Raft) : Raft :=
  set_matchIndex (<[Z.to_nat rf.(me) := lastIndex]>
                    (replicate (Z.to_nat rf.(peers)) rf.(lastIncludedIndex)))
    (set_nextIndex (replicate (Z.to_nat rf.(peers)) (lastIndex + 1))
      (set_currentLeader rf.(me) (set_state StateLeader rf))).

Definition shaped (rf : Raft) : Prop :=
  0 ≤ rf.(me) < rf.(peers) ∧ zlen rf.(nextIndex) = rf.(peers) ∧ zlen rf.(matchIndex) = rf.(peers).

Lemma run_becomeLeader rf l :
  shaped rf → node_repr rf l →
  ∃ effs, becomeLeader rf = Some (tt, leading (zlen l) rf, effs) ∧ Forall inert effs.
Proof.
  intros (Hme & Hn & Hm) R.
  set (rf0 := set_currentLeader rf.(me) (set_state StateLeader rf)).
  assert (node_repr rf0 l) as R0 by done.
  destruct (repr_getLastLog rf0 l R0) as (e & He & _ & HI).
  set (calls := (range rf.(peers) ≫= λ peer,
    if bool_decide (peer = rf.(me)) then [] else [EGoReplicate peer])).
  exists (calls ++ [EResetHeartbeatTimer]). split.
  - unfold becomeLeader. run. change (set_currentLeader _ _) with rf0. rewrite He. run. rewrite HI.
    unfold range at 1. erewrite bind_run.
    2:{ pose proof (run_resetPeerIndices (zlen l) rf.(lastIncludedIndex) rf0 0
          (Z.to_nat rf.(peers)) rf.(nextIndex) rf.(matchIndex)) as Hrun.
        simpl in Hrun. rewrite Z2Nat.id in Hrun by lia. apply Hrun; [done|done|lia|done|lia]. }
    run. cbn [set_matchIndex set_nextIndex matchIndex].
    rewrite slice_set_eq by (rewrite length_replicate; simpl; lia). run.
    erewrite bind_run.
    2:{ unfold signalBroadcastReplication. run.
        apply (for_each_emit _ _ (λ peer,
          if bool_decide (peer = rf.(me)) then [] else [EGoReplicate peer])).
        intros x s. simpl. by case_bool_decide. }
    unfold resetHeartbeatTimer. by run.
  - apply Forall_app. split; [|by repeat constructor]. apply inert_bind.
    intros p. by case_bool_decide; repeat constructor.
Qed.

Lemma run_requestVote_invalid args g reply rf :
  isStillValidCandidate rf args.(rva_Term) = false →
  requestVoteFromPeer args g reply rf = Some (g, rf, []).
Proof. intros H. unfold requestVoteFromPeer. run. by rewrite H. Qed.

Lemma run_requestVote_higher args g reply rf :
  rf.(dead) = false →
  isStillValidCandidate rf args.(rva_Term) = true → rf.(currentTerm) < reply.(rvr_Term) →
  let rf' := saved (set_state StateFollower (newTerm reply.(rvr_Term) rf)) in
  requestVoteFromPeer args g reply rf =
    Some (g, rf', [ESave rf'.(persister); EResetElectionTimer]).
Proof.
  intros Hd H Ht rf'. unfold requestVoteFromPeer. run. rewrite H. cbn [negb].
  erewrite bind_run by (by apply run_handleHigherTerm_gt). by run.
Qed.

Lemma run_requestVote args g reply rf l :
  isStillValidCandidate rf args.(rva_Term) = true → reply.(rvr_Term) ≤ rf.(currentTerm) →
  shaped rf → node_repr rf l →
  let g' := if reply.(rvr_VoteGranted) then g + 1 else g in
  ∃ effs, requestVoteFromPeer args g reply rf =
    Some (g', if reply.(rvr_VoteGranted) && bool_decide (g + 1 = rf.(peers) `quot` 2 + 1)
              then leading (zlen l) rf else rf, effs) ∧ Forall inert effs.
Proof.
  intros H Ht Hs R g'. unfold requestVoteFromPeer. run. rewrite H. cbn [negb].
  erewrite bind_run by (by apply run_handleHigherTerm_le). run.
  unfold g'. destruct reply.(rvr_VoteGranted); simpl.
  - case_bool_decide.
    + destruct (run_becomeLeader rf l Hs R) as (effs & Hrun & Hn).
      erewrite bind_run by exact Hrun. run. by exists effs.
    + run. by exists [].
  - by exists [].
Qed.

(** ** The leader's operations *)

Lemma run_Start_follower cmd rf :
  rf.(state) ≠ StateLeader → Start cmd rf = Some ((-1, -1, false), rf, []).
Proof. intros. unfold Start. run. by rewrite bool_decide_true. Qed.

Lemma run_Start cmd rf l :
  rf.(dead) = false → node_repr rf l → rf.(state) = StateLeader →
  let e := mkEntry (zlen l + 1) rf.(currentTerm) cmd in
  let rf' := saved (set_logs (rf.(logs) ++ [e]) rf) in
  ∃ effs, Start cmd rf =
    Some ((zlen l + 1, rf.(currentTerm), true), rf', ESave rf'.(persister) :: effs) ∧
    Forall inert effs ∧ node_repr rf' (l ++ [e]).
Proof.
  intros Hd R Hs e rf'. set (calls := (range rf.(peers) ≫= λ peer,
    if bool_decide (peer = rf.(me)) then [] else [ESignalReplicator peer])).
  exists calls. split; [|split].
  - unfold Start. run. rewrite bool_decide_false by (rewrite Hs; by intros []).
    rewrite (repr_getLen rf l R). fold e. run.
    erewrite bind_run by (by apply run_persist). fold rf'. erewrite bind_run.
    2:{ unfold signalBroadcastReplication. run.
        apply (for_each_emit _ _ (λ peer,
          if bool_decide (peer = rf.(me)) then [] else [ESignalReplicator peer])).
        intros x s. simpl. by case_bool_decide. }
    by run.
  - apply inert_bind. intros p. by case_bool_decide; repeat constructor.
  - destruct R as [Hb Hidx Ht (e0 & Hlg & He0 & Ht0)]. unfold node_repr. cbn.
    split; [rewrite length_app; lia| | |].
    + intros i e'. rewrite lookup_snoc_Some. intros [[_ ?]|[-> <-]]; [auto|done].
    + rewrite Ht. symmetry. apply term_at_prefix; [by eexists|lia].
    + exists e0. split; [|done]. rewrite Hlg. simpl. f_equal. rewrite drop_app_le; [done|lia].
Qed.

(** What [replicateToPeer] sends describes the leader's log. *)
Lemma replicateToPeer_spec rf l peer next :
  node_repr rf l → rf.(state) = StateLeader →
  slice_get rf.(nextIndex) peer = Some next → next ≤ zlen l + 1 →
  (next ≤ rf.(lastIncludedIndex) ∧
   replicateToPeer rf peer = Some (Some (InstallSnapshotReq (genInstallSnapshotArgs rf)))) ∨
  (rf.(lastIncludedIndex) < next ∧ ∃ args,
   replicateToPeer rf peer = Some (Some (AppendEntriesReq args)) ∧
   carries args l ∧ args.(aea_Term) = rf.(currentTerm) ∧ args.(aea_LeaderId) = rf.(me) ∧
   args.(aea_PrevLogIndex) = next - 1 ∧
   args.(aea_LeaderCommit) = rf.(commitIndex)).
Proof.
  intros R Hs Hn Hle. destruct (repr_bound _ _ _ _ R) as [Hb0 Hb1].
  unfold replicateToPeer. rewrite bool_decide_false by (rewrite Hs; by intros []).
  rewrite Hn. cbn [mbind option_bind]. case_bool_decide as Hlow; [by left|right].
  split; [lia|].
  destruct (repr_getLog rf l R (next - 1)) as (e & He & Ht & _); [lia|].
  unfold getLog in He. unfold genAppendEntriesArgs. rewrite He.
  unfold getPhysicalIndex. rewrite slice_from_eq by (rewrite (repr_length rf l R); lia).
  cbn [mbind option_bind]. eexists. split; [done|]. split; [|done].
  split; cbn.
  - lia.
  - destruct (repr_logs _ _ _ _ R) as (e0 & -> & _).
    replace (Z.to_nat (next - 1 - rf.(lastIncludedIndex) + 1))
      with (S (Z.to_nat (next - 1) - Z.to_nat rf.(lastIncludedIndex))) by lia.
    simpl. rewrite drop_drop. f_equal. lia.
  - done.
  - exact (repr_index _ _ _ _ R).
Qed.

Lemma run_setNextIndex peer i rf :
  0 ≤ peer < zlen rf.(nextIndex) →
  setNextIndex peer i rf = Some (tt, set_nextIndex (<[Z.to_nat peer := i]> rf.(nextIndex)) rf, []).
Proof. intros H. unfold setNextIndex. run. rewrite slice_set_eq by done. by run. Qed.

Lemma run_setMatchIndex peer i rf :
  0 ≤ peer < zlen rf.(matchIndex) →
  setMatchIndex peer i rf = Some (tt, set_matchIndex (<[Z.to_nat peer := i]> rf.(matchIndex)) rf, []).
Proof. intros H. unfold setMatchIndex. run. rewrite slice_set_eq by done. by run. Qed.

(** A conflict moves the peer's next index to a position of the leader's log
    or just after it. *)
Lemma run_resolveConflict peer args reply rf l :
  node_repr rf l → 0 ≤ peer < zlen rf.(nextIndex) →
  args.(aea_PrevLogIndex) ≤ zlen l → reply.(aer_ConflictIndex) ≤ zlen l + 1 →
  ∃ ni, resolveConflict peer args reply rf
      = Some (tt, set_nextIndex ni rf, [ESignalReplicator peer]) ∧
    (ni = rf.(nextIndex) ∨ ∃ i, ni = <[Z.to_nat peer := i]> rf.(nextIndex) ∧ i ≤ zlen l + 1).
Proof.
  intros R Hp Hprev Hci. unfold resolveConflict, signalReplication. run.
  case_bool_decide as Hlow.
  { exists rf.(nextIndex). run. split; [by destruct rf|by left]. }
  assert (∀ i, i ≤ zlen l + 1 →
    ∃ ni, (setNextIndex peer i ;; emit (ESignalReplicator peer)) rf
        = Some (tt, set_nextIndex ni rf, [ESignalReplicator peer]) ∧
      (ni = rf.(nextIndex) ∨ ∃ i, ni = <[Z.to_nat peer := i]> rf.(nextIndex) ∧ i ≤ zlen l + 1))
    as Hset.
  { intros i Hi. erewrite bind_run by (by apply run_setNextIndex). run. eauto 10. }
  case_bool_decide; [by apply Hset|].
  destruct (findLastIndexOfTerm_spec rf l R reply.(aer_ConflictTerm) args.(aea_PrevLogIndex))
    as (r & Hr & Hcase); [lia|].
  rewrite Hr. run. case_bool_decide; apply Hset; lia.
Qed.

Lemma run_advancePeerIndices peer args rf :
  0 ≤ peer < zlen rf.(nextIndex) → zlen rf.(nextIndex) = zlen rf.(matchIndex) →
  let m := args.(aea_PrevLogIndex) + zlen args.(aea_Entries) in
  ∃ effs, Forall inert effs ∧
    (advancePeerIndices peer args rf = Some (tt, rf, effs) ∨
     advancePeerIndices peer args rf = Some (tt,
       set_nextIndex (<[Z.to_nat peer := m + 1]> rf.(nextIndex))
         (set_matchIndex (<[Z.to_nat peer := m]> rf.(matchIndex)) rf), effs)).
Proof.
  intros Hp Hl m. unfold advancePeerIndices, signalReplication. run.
  destruct (slice_get_in rf.(matchIndex) peer) as [x Hx]; [lia|]. rewrite Hx. run.
  fold m. case_bool_decide.
  - exists [ESignalReplicator peer]. split; [by repeat constructor|right].
    erewrite bind_run by (apply run_setMatchIndex; lia). run.
    erewrite bind_run by (apply run_setNextIndex; done). by run.
  - exists []. split; [done|by left].
Qed.

Lemma run_updateCommitIndex rf l :
  node_repr rf l → rf.(lastIncludedIndex) ≤ rf.(commitIndex) ≤ zlen l →
  ∃ effs, Forall inert effs ∧
    ((updateCommitIndex rf = Some (tt, rf, effs) ∧
      ∀ n, rf.(commitIndex) < n ≤ zlen l → ¬ committable rf l n) ∨
     ∃ n, updateCommitIndex rf = Some (tt, set_commitIndex n rf, effs) ∧
       rf.(commitIndex) < n ≤ zlen l ∧ committable rf l n ∧
       ∀ m, n < m ≤ zlen l → ¬ committable rf l m).
Proof.
  intros R Hb. destruct (updateCommitIndex_spec rf l R Hb) as (o & Ho & Hspec).
  unfold updateCommitIndex, signalApplier. run. rewrite Ho. run. destruct o as [n|].
  - exists [ESignalApplier]. split; [by repeat constructor|right]. exists n. by run.
  - exists []. split; [done|left]. by run.
Qed.

(** The nodes counted by [countNodesWithLogAt]. *)
Lemma countMatches_spec myself n ms i c :
  ∃ Q : gset Z, countMatches myself n i ms c = c + Z.of_nat (size Q) ∧
    ∀ j, j ∈ Q → i ≤ j < i + zlen ms ∧ j ≠ myself ∧
      ∃ m, ms !! Z.to_nat (j - i) = Some m ∧ n ≤ m.
Proof.
  revert i c. induction ms as [|m ms IH]; intros i c; simpl.
  - exists ∅. rewrite size_empty. split; [lia|set_solver].
  - assert (∀ j, i + 1 ≤ j → (m :: ms) !! Z.to_nat (j - i) = ms !! Z.to_nat (j - (i + 1))) as Hsh.
    { intros j Hj. replace (Z.to_nat (j - i)) with (S (Z.to_nat (j - (i + 1)))) by lia. done. }
    case_match eqn:Hc.
    + apply andb_true_iff in Hc as [H1%bool_decide_eq_true H2%bool_decide_eq_true].
      destruct (IH (i + 1) (c + 1)) as (Q & Hcnt & HQ).
      exists ({[i]} ∪ Q). rewrite Hcnt.
      rewrite size_union, size_singleton by (intros j ->%elem_of_singleton ?%HQ; lia).
      split; [lia|]. intros j [->%elem_of_singleton|(? & ? & x & Hx & ?)%HQ]%elem_of_union.
      * split; [lia|]. split; [done|]. exists m. by rewrite Z.sub_diag.
      * split; [lia|]. split; [done|]. exists x. by rewrite Hsh by lia.
    + destruct (IH (i + 1) c) as (Q & Hcnt & HQ). exists Q. split; [done|].
      intros j (? & ? & x & Hx & ?)%HQ. split; [lia|]. split; [done|].
      exists x. by rewrite Hsh by lia.
Qed.

Lemma countNodes_quorum rf n :
  shaped rf → rf.(peers) `quot` 2 < countNodesWithLogAt rf n →
  ∃ Q : gset Z, majority rf.(peers) Q ∧
    ∀ j, j ∈ Q → 0 ≤ j < rf.(peers) ∧
      (j = rf.(me) ∨ ∃ m, rf.(matchIndex) !! Z.to_nat j = Some m ∧ n ≤ m).
Proof.
  intros (Hme & Hn & Hm) Hcnt.
  destruct (countMatches_spec rf.(me) n rf.(matchIndex) 0 1) as (Q & Hc & HQ).
  unfold countNodesWithLogAt in Hcnt. rewrite Hc in Hcnt.
  rewrite Z.quot_div_nonneg in Hcnt by lia.
  pose proof (Z.div_mod rf.(peers) 2 ltac:(lia)) as Hdm.
  pose proof (Z.mod_pos_bound rf.(peers) 2 ltac:(lia)) as Hmb.
  assert (∀ j, j ∈ {[rf.(me)]} ∪ Q → 0 ≤ j < rf.(peers) ∧
      (j = rf.(me) ∨ ∃ m, rf.(matchIndex) !! Z.to_nat j = Some m ∧ n ≤ m)) as Hall.
  { intros j [->%elem_of_singleton|(? & ? & x & Hx & ?)%HQ]%elem_of_union; [split; [lia|by left]|].
    rewrite Z.sub_0_r in Hx. split; [lia|]. right. eauto. }
  exists ({[rf.(me)]} ∪ Q). split; [|done]. split.
  - intros j Hj. apply elem_of_list_to_set, elem_of_seqZ. apply Hall in Hj. lia.
  - rewrite size_union, size_singleton by (intros j ->%elem_of_singleton ?%HQ; naive_solver). lia.
Qed.

(** ** Applying *)

Definition commandMsg (e : Entry) : ApplyMsg :=
  {| CommandValid := true; am_Command := e.(Command); CommandIndex := e.(Index);
     SnapshotValid := false; am_Snapshot := []; SnapshotTerm := 0; SnapshotIndex := 0 |}.

Definition snapshotMsg (rf : Raft) : ApplyMsg :=
  {| CommandValid := false; am_Command := VNil; CommandIndex := 0;
     SnapshotValid := true; am_Snapshot := ReadSnapshot rf;
     SnapshotTerm := rf.(lastIncludedTerm); SnapshotIndex := rf.(lastIncludedIndex) |}.

(** The entries at positions [a+1 .. b]. *)
Definition entriesBetween (l : list Entry) (a b : Z) : list Entry :=
  take (Z.to_nat (b - a)) (drop (Z.to_nat a) l).

Lemma run_applier_wait rf :
  rf.(commitIndex) ≤ rf.(lastApplied) → applier_step rf = Some (false, rf, []).
Proof. intros. unfold applier_step. run. by rewrite bool_decide_true. Qed.

Lemma run_applier_snapshot rf :
  rf.(lastApplied) < rf.(commitIndex) → rf.(lastApplied) < rf.(lastIncludedIndex) →
  applier_step rf =
    Some (true, set_lastApplied rf.(lastIncludedIndex) rf, [EApply (snapshotMsg rf)]).
Proof.
  intros. unfold applier_step. run. rewrite bool_decide_false by lia.
  rewrite bool_decide_true by done. by run.
Qed.

Lemma run_applier_entries rf l :
  node_repr rf l → rf.(lastIncludedIndex) ≤ rf.(lastApplied) < rf.(commitIndex) →
  rf.(commitIndex) ≤ zlen l →
  applier_step rf =
    Some (true, set_lastApplied rf.(commitIndex) rf,
          (EApply ∘ commandMsg) <$> entriesBetween l rf.(lastApplied) rf.(commitIndex)).
Proof.
  intros R Ha Hc. pose proof (repr_length rf l R) as Hlen.
  destruct (repr_bound _ _ _ _ R) as [Hb0 Hb1].
  unfold applier_step. run. rewrite !bool_decide_false by lia.
  unfold getPhysicalIndex. rewrite slice_to_eq by lia. run.
  rewrite slice_from_eq by (rewrite length_take; lia). run.
  erewrite bind_run.
  2:{ apply (for_each_emit _ _ (λ e, [EApply (commandMsg e)])). intros x s. by run. }
  run. do 2 f_equal.
  assert (drop (Z.to_nat (rf.(lastApplied) + 1 - rf.(lastIncludedIndex)))
    (take (Z.to_nat (rf.(commitIndex) - rf.(lastIncludedIndex) + 1)) rf.(logs)) =
    entriesBetween l rf.(lastApplied) rf.(commitIndex)) as ->.
  { destruct (repr_logs _ _ _ _ R) as (e0 & -> & _).
    replace (Z.to_nat (rf.(lastApplied) + 1 - rf.(lastIncludedIndex)))
      with (S (Z.to_nat rf.(lastApplied) - Z.to_nat rf.(lastIncludedIndex))) by lia.
    replace (Z.to_nat (rf.(commitIndex) - rf.(lastIncludedIndex) + 1))
      with (S (Z.to_nat rf.(commitIndex) - Z.to_nat rf.(lastIncludedIndex))) by lia.
    simpl. unfold entriesBetween. rewrite skipn_firstn_comm, drop_drop. f_equal; [lia|]. f_equal. lia. }
  generalize (entriesBetween l rf.(lastApplied) rf.(commitIndex)).
  intros es. induction es as [|e es IH]; [done|]. simpl. by f_equal.
Qed.
