(* ===== verification/Cluster.v ===== *)
(** * The cluster

    [N] nodes running the handlers of [Raft.v], connected by a network that
    may lose, delay, duplicate and reorder requests and lose replies, and whose
    nodes may crash at any write to their disk and restart from it.

    A remote call is the pair of a request that stays deliverable forever and
    the replies the handler produced for it.  [requestVoteFromPeer] runs once
    per call, which matters because it counts: the vote collections that are
    open at a node ([Election]) remember which peers' calls have not returned.
    For the other two calls nothing is lost by letting a reply be handled any
    number of times. *)

From stdpp Require Import functions.
From S2P Require Import Prelude Api Raft.

Local Open Scope Z_scope.

(** The replies, one constructor per call. *)
Inductive Reply :=
  | RequestVoteRep (r : RequestVoteReply)
  | AppendEntriesRep (r : AppendEntriesReply)
  | InstallSnapshotRep (r : InstallSnapshotReply).

(** The goroutines that [startElection] started: their shared arguments and
    counter, and the peers whose call has not returned. *)
Record Election := mkElection {
  el_args : RequestVoteArgs;
  el_granted : Z;
  el_waiting : list Z
}.

Record World := mkWorld {
  w_node : Z → Raft;
  w_els : Z → list Election;
  (** caller, callee, request *)
  w_reqs : list (Z * Z * Request);
  (** callee, caller, request, reply *)
  w_reps : list (Z * Z * Request * Reply);
  (** what was sent on the apply channel of each node, most recent first *)
  w_applied : list (Z * ApplyMsg)
}.

(** What can happen at a node. *)
Inductive event :=
  | EvElectionTimeout
  | EvHeartbeat
  | EvReplicate (peer : Z)
  | EvDeliver (src : Z) (req : Request)
  | EvVoteReply (i : nat) (peer : Z) (reply : RequestVoteReply)
  | EvAppendReply (peer : Z) (args : AppendEntriesArgs) (reply : AppendEntriesReply)
  | EvSnapshotReply (peer : Z) (args : InstallSnapshotArgs) (reply : InstallSnapshotReply)
  | EvStart (command : any)
  | EvSnapshot (index : Z) (snapshot : bytes)
  | EvApply.

(** The outcome of an event at one node. *)
Record outcome := mkOutcome {
  o_node : Raft;
  o_effs : list Effect;
  o_els : list Election;
  (** requests sent, with the callee *)
  o_out : list (Z * Request);
  (** the reply to a delivered request *)
  o_rep : option Reply
}.

(** The calls [startElection] starts. *)
Definition voteCalls (effs : list Effect) : list (Z * RequestVoteArgs) :=
  omap (λ e, match e with EGoRequestVote p args => Some (p, args) | _ => None end) effs.

Definition openElection (effs : list Effect) (els : list Election) : list Election :=
  match voteCalls effs with
  | [] => els
  | (p, args) :: _ => mkElection args 1 (voteCalls effs).*1 :: els
  end.

Definition quiet (els : list Election) {A} (o : option (A * Raft * list Effect)) : option outcome :=
  '(_, rf, effs) ← o; Some (mkOutcome rf effs els [] None).

Definition handle (req : Request) : RaftM Reply :=
  match req with
  | RequestVoteReq args => r ← RequestVote args; mret (RequestVoteRep r)
  | AppendEntriesReq args => r ← AppendEntries args; mret (AppendEntriesRep r)
  | InstallSnapshotReq args => r ← InstallSnapshot args; mret (InstallSnapshotRep r)
  end.

(** Run an event at a node; [None] is a run-time panic. *)
Definition exec (ev : event) (rf : Raft) (els : list Election) : option outcome :=
  match ev with
  | EvElectionTimeout =>
      '(_, rf', effs) ← ticker_election rf;
      Some (mkOutcome rf' effs (openElection effs els)
              ((λ c, (c.1, RequestVoteReq c.2)) <$> voteCalls effs) None)
  | EvHeartbeat => quiet els (ticker_heartbeat rf)
  | EvReplicate peer =>
      o ← replicateToPeer rf peer;
      Some (mkOutcome rf [] els (match o with Some req => [(peer, req)] | None => [] end) None)
  | EvDeliver _ req =>
      '(rep, rf', effs) ← handle req rf;
      Some (mkOutcome rf' effs els [] (Some rep))
  | EvVoteReply i peer reply =>
      match els !! i with
      | Some el =>
          '(granted, rf', effs) ← requestVoteFromPeer el.(el_args) el.(el_granted) reply rf;
          Some (mkOutcome rf' effs
            (<[i := mkElection el.(el_args) granted (filter (.≠ peer) el.(el_waiting))]> els)
            [] None)
      | None => Some (mkOutcome rf [] els [] None)
      end
  | EvAppendReply peer args reply => quiet els (handleAppendEntriesReply peer args reply rf)
  | EvSnapshotReply peer args reply => quiet els (handleInstallSnapshotReply peer args reply rf)
  | EvStart command => quiet els (Start command rf)
  | EvSnapshot index snapshot => quiet els (Snapshot index snapshot rf)
  | EvApply => quiet els (applier_step rf)
  end.

Definition appliedBy (effs : list Effect) : list ApplyMsg :=
  omap (λ e, match e with EApply m => Some m | _ => None end) effs.

(** The disks a crash during the effects can leave behind: [Save] writes the
    state file and then the snapshot file. *)
Fixpoint crashPoints (d0 : Disk) (effs : list Effect) : list Disk :=
  match effs with
  | [] => []
  | ESave d :: effs' =>
      mkDisk d.(d_raftState) d0.(d_snapshot) :: d :: crashPoints d effs'
  | _ :: effs' => crashPoints d0 effs'
  end.

Section cluster.
Context (N : Z).

Definition isNode (n : Z) : Prop := 0 ≤ n < N.

Definition initDisk : Disk := mkDisk [] [].

Definition winit : World :=
  mkWorld (λ n, Make_fresh N n initDisk) (λ _, []) [] [] [].

(** When an event can happen at node [n]. *)
Definition enabled (w : World) (n : Z) (ev : event) : Prop :=
  match ev with
  | EvReplicate peer => isNode peer ∧ peer ≠ n
  | EvDeliver src req => (src, n, req) ∈ w.(w_reqs)
  | EvVoteReply i peer reply =>
      ∃ el, w.(w_els) n !! i = Some el ∧ peer ∈ el.(el_waiting) ∧
        (peer, n, RequestVoteReq el.(el_args), RequestVoteRep reply) ∈ w.(w_reps)
  | EvAppendReply peer args reply =>
      (peer, n, AppendEntriesReq args, AppendEntriesRep reply) ∈ w.(w_reps)
  | EvSnapshotReply peer args reply =>
      (peer, n, InstallSnapshotReq args, InstallSnapshotRep reply) ∈ w.(w_reps)
  | _ => True
  end.

Definition replyOf (n : Z) (ev : event) (rep : option Reply) : list (Z * Z * Request * Reply) :=
  match ev, rep with
  | EvDeliver src req, Some r => [(n, src, req, r)]
  | _, _ => []
  end.

(** The world after node [n] went through [ev] with outcome [o]. *)
Definition after (w : World) (n : Z) (ev : event) (o : outcome) : World :=
  mkWorld (<[n := o.(o_node)]> w.(w_node)) (<[n := o.(o_els)]> w.(w_els))
    (((λ c, (n, c.1, c.2)) <$> o.(o_out)) ++ w.(w_reqs))
    (replyOf n ev o.(o_rep) ++ w.(w_reps))
    (((λ m, (n, m)) <$> appliedBy o.(o_effs)) ++ w.(w_applied)).

(** The world after node [n] restarted as [rf]. *)
Definition restart (w : World) (n : Z) (rf : Raft) : World :=
  mkWorld (<[n := rf]> w.(w_node)) (<[n := []]> w.(w_els))
    w.(w_reqs) w.(w_reps) w.(w_applied).

Inductive cstep (w : World) : World → Prop :=
| C_event n ev o :
    isNode n → enabled w n ev →
    exec ev (w.(w_node) n) (w.(w_els) n) = Some o →
    cstep w (after w n ev o)
| C_crash n rf :
    isNode n →
    Make N n (w.(w_node) n).(persister) = Some rf →
    cstep w (restart w n rf)
| C_crash_during n ev o d rf :
    isNode n → enabled w n ev →
    exec ev (w.(w_node) n) (w.(w_els) n) = Some o →
    d ∈ crashPoints (w.(w_node) n).(persister) o.(o_effs) →
    Make N n d = Some rf →
    cstep w (restart w n rf).

Definition reachable (w : World) : Prop := rtc cstep winit w.
End cluster.
