(* ===== verification/Frames.v ===== *)
(** * What the handlers leave alone

    The snapshot a node holds (its index and the bytes on its disk) and the
    position of its applier change in three places only: the applier, a client's
    snapshot, and the installation of a snapshot.  Every other handler keeps
    them, and whatever it saves holds them too. *)

From S2P Require Import Prelude Api Raft Protocol RaftFacts Cluster.

Local Open Scope Z_scope.

(** The node has applied up to [la] and holds snapshot [snap] of index [i]. *)
Definition held (i : Z) (snap : bytes) (la : Z) (rf : Raft) : Prop :=
  rf.(lastIncludedIndex) = i ∧ rf.(persister).(d_snapshot) = snap ∧ rf.(lastApplied) = la.

(** A disk with the state of a node whose snapshot is [snap] of index [i]. *)
Definition disk_of (i : Z) (snap : bytes) (d : Disk) : Prop :=
  d.(d_snapshot) = snap ∧ ∃ rf, d.(d_raftState) = encodeState rf ∧ rf.(lastIncludedIndex) = i.

(** Effects that save such disks and apply nothing. *)
Definition saves (i : Z) (snap : bytes) (e : Effect) : Prop :=
  match e with
  | ESave d => disk_of i snap d
  | EApply _ => False
  | _ => True
  end.

Lemma saves_applied effs i snap : Forall (saves i snap) effs → appliedBy effs = [].
Proof. induction 1 as [|e effs He _ IH]; [done|]. unfold appliedBy in *. by destruct e. Qed.

(** Make the disk's node again. *)
Lemma disk_of_Make N n i snap d rf :
  disk_of i snap d → 0 ≤ i → Make N n d = Some rf → held i snap i rf.
Proof.
  intros (Hs & rf0 & Hd & Hi) H0 HM. rewrite (Make_encoded N n d rf0) in HM by (done || lia).
  injection HM as <-. by split.
Qed.

Section frames.
Context (i : Z) (snap : bytes) (la : Z).

Abbreviation frame := (keeps (held i snap la) (saves i snap)).

Ltac by_held := intros; cbn; repeat case_bool_decide; done.
Ltac keeps := keeps_with by_held.

Lemma frame_persist : frame persist.
Proof.
  apply keeps_get. intros rf Hrf. destruct rf.(dead); [by apply triple_ret|].
  destruct Hrf as (Hi & Hs & Ha). unfold Save. apply keeps_bind.
  - apply triple_modify. intros rf' (? & ? & ?). by split.
  - intros _. apply triple_emit. split; [done|]. by exists rf.
Qed.

Lemma frame_signal b : frame (signalBroadcastReplication b).
Proof. unfold signalBroadcastReplication, signalReplication. keeps. Qed.

#[local] Hint Resolve frame_persist frame_signal : keeps.

Lemma frame_Start cmd : frame (Start cmd).
Proof. unfold Start. keeps. Qed.

Lemma frame_handleHigherTerm t : frame (handleHigherTerm t).
Proof. unfold handleHigherTerm, resetElectionTimer. keeps. Qed.

Lemma frame_startElection : frame startElection.
Proof. unfold startElection. keeps. Qed.

Lemma frame_resetPeerIndices x p : frame (resetPeerIndices x p).
Proof. unfold resetPeerIndices. keeps. Qed.

#[local] Hint Resolve frame_handleHigherTerm frame_startElection frame_resetPeerIndices : keeps.

Lemma frame_becomeCandidate : frame becomeCandidate.
Proof. unfold becomeCandidate, resetElectionTimer. keeps. Qed.

Lemma frame_becomeLeader : frame becomeLeader.
Proof. unfold becomeLeader, resetHeartbeatTimer. keeps. Qed.

#[local] Hint Resolve frame_becomeCandidate frame_becomeLeader : keeps.

Lemma frame_requestVoteFromPeer args g r : frame (requestVoteFromPeer args g r).
Proof. unfold requestVoteFromPeer. keeps. Qed.

Lemma frame_ticker_election : frame ticker_election.
Proof. unfold ticker_election, resetElectionTimer. keeps. Qed.

Lemma frame_ticker_heartbeat : frame ticker_heartbeat.
Proof. unfold ticker_heartbeat, resetHeartbeatTimer. keeps. Qed.

Lemma frame_RequestVote args : frame (RequestVote args).
Proof. unfold RequestVote, resetElectionTimer. keeps. Qed.

Lemma frame_appendNewEntries es : frame (appendNewEntries es).
Proof. induction es as [|e es IH]; cbn [appendNewEntries]; keeps. Qed.

Lemma frame_advanceCommitIndex c : frame (advanceCommitIndex c).
Proof. unfold advanceCommitIndex, signalApplier. keeps. Qed.

#[local] Hint Resolve frame_appendNewEntries frame_advanceCommitIndex : keeps.

Lemma frame_AppendEntries args : frame (AppendEntries args).
Proof. unfold AppendEntries, resetElectionTimer. keeps. Qed.

Lemma frame_setNextIndex p x : frame (setNextIndex p x).
Proof. unfold setNextIndex. keeps. Qed.

Lemma frame_setMatchIndex p x : frame (setMatchIndex p x).
Proof. unfold setMatchIndex. keeps. Qed.

#[local] Hint Resolve frame_setNextIndex frame_setMatchIndex : keeps.

Lemma frame_handleAppendEntriesReply p args r : frame (handleAppendEntriesReply p args r).
Proof.
  unfold handleAppendEntriesReply, shouldIgnoreReply, resolveConflict, advancePeerIndices,
    updateCommitIndex, signalReplication, signalApplier. keeps.
Qed.

Lemma frame_handleInstallSnapshotReply p args r : frame (handleInstallSnapshotReply p args r).
Proof. unfold handleInstallSnapshotReply, signalReplication. keeps. Qed.

Lemma frame_truncateLogWithSnapshot x t : frame (truncateLogWithSnapshot x t).
Proof. unfold truncateLogWithSnapshot. keeps. Qed.
End frames.

#[export] Hint Resolve frame_Start frame_ticker_election frame_ticker_heartbeat frame_RequestVote
  frame_AppendEntries frame_requestVoteFromPeer frame_handleAppendEntriesReply
  frame_handleInstallSnapshotReply frame_persist frame_truncateLogWithSnapshot : keeps.

(** ** The two handlers that replace the snapshot *)

Section replaced.
Context (i : Z) (snap : bytes) (la : Z) (i' : Z) (snap' : bytes).

Definition saves_either (e : Effect) : Prop := saves i snap e ∨ saves i' snap' e.
Definition held_either (rf : Raft) : Prop := held i snap la rf ∨ held i' snap' la rf.

(** The new index is in place, the new snapshot not yet on disk. *)
Definition relabelled (rf : Raft) : Prop := rf.(lastIncludedIndex) = i' ∧ rf.(lastApplied) = la.

Lemma keeps_either {A} (m : RaftM A) :
  keeps (held i snap la) (saves i snap) m → keeps (held i snap la) saves_either m.
Proof. apply triple_weaken; [done| |done]. by left. Qed.

Lemma triple_Save {A} (m : RaftM A) :
  keeps (held i' snap' la) saves_either m →
  triple relabelled saves_either (rf ← get; Save (encodeState rf) snap' ;; m) (λ _, held_either).
Proof.
  intros Hm. apply keeps_get. intros rf [Hi Ha]. unfold Save.
  apply (triple_bind _ _ _ _ (λ _, held i' snap' la)).
  - apply (triple_bind _ _ _ _ (λ _, held i' snap' la)).
    + apply triple_modify. intros rf' [? ?]. by split.
    + intros _. apply triple_emit. right. split; [done|]. by exists rf.
  - intros _. eapply triple_weaken; [..|exact Hm]; [done|done|]. by right.
Qed.

Lemma frame_Snapshot : triple (held i snap la) saves_either (Raft.Snapshot i' snap') (λ _, held_either).
Proof.
  unfold Raft.Snapshot. apply keeps_get. intros rf0 H0.
  destruct (_ || _); [by apply triple_ret; left|].
  apply keeps_bind; [apply triple_try|intros kept].
  apply keeps_bind; [by apply triple_modify|intros _].
  apply (triple_bind _ _ _ _ (λ _, relabelled)); [by apply triple_modify; intros ? (? & ? & ?)|intros _].
  apply keeps_get. intros rf1 H1.
  apply keeps_bind; [apply triple_try|intros first].
  apply keeps_bind; [by apply triple_modify|intros _].
  apply keeps_get. intros rf2 [Hi Ha]. unfold Save.
  apply (triple_bind _ _ _ _ (λ _, held i' snap' la)).
  - apply triple_modify. intros rf' [? ?]. by split.
  - intros _. intros s a s' effs Hs Hr. injection Hr as <- <- <-. split; [by right|].
    constructor; [|done]. right. split; [done|]. by exists rf2.
Qed.
End replaced.

Lemma frame_InstallSnapshot i snap la args :
  triple (held i snap la) (saves_either i snap args.(isa_LastIncludedIndex) args.(isa_Data))
    (InstallSnapshot args)
    (λ _, held_either i snap la args.(isa_LastIncludedIndex) args.(isa_Data)).
Proof.
  unfold InstallSnapshot. apply keeps_get. intros rf0 H0.
  destruct (bool_decide _); [by apply triple_ret; left|].
  apply keeps_bind.
  { apply keeps_either. keeps_with ltac:(intros; cbn; done). }
  intros _. apply keeps_bind; [by apply triple_modify|intros _].
  apply keeps_bind; [by apply triple_modify|intros _].
  apply keeps_bind; [by apply triple_emit; left|intros _].
  apply keeps_get. intros rf1 H1. destruct (bool_decide _); [by apply triple_ret; left|].
  apply keeps_bind; [by apply keeps_either; auto with keeps|intros _].
  apply (triple_bind _ _ _ _ (λ _, relabelled la args.(isa_LastIncludedIndex)));
    [by apply triple_modify; intros ? (? & ? & ?)|intros _].
  apply keeps_bind; [by apply triple_modify|intros _].
  apply keeps_bind; [by apply triple_modify; intros ? []; case_bool_decide|intros _].
  apply triple_Save.
  apply keeps_bind; [by apply triple_emit; left|intros _]. by apply triple_ret.
Qed.

(** ** Events *)

(** The snapshot an event brings to a node. *)
Definition offered (ev : event) : option (Z * bytes) :=
  match ev with
  | EvDeliver _ (InstallSnapshotReq args) => Some (args.(isa_LastIncludedIndex), args.(isa_Data))
  | EvSnapshot index data => Some (index, data)
  | _ => None
  end.

Definition source (ev : event) (i : Z) (snap : bytes) (x : Z * bytes) : Prop :=
  x = (i, snap) ∨ offered ev = Some x.

Record framed (ev : event) (i : Z) (snap : bytes) (la : Z) (o : outcome) : Prop := {
  framed_held : ∃ x, source ev i snap x ∧ held x.1 x.2 la o.(o_node);
  framed_saves d : ESave d ∈ o.(o_effs) → ∃ x, source ev i snap x ∧ disk_of x.1 x.2 d;
  framed_applied : appliedBy o.(o_effs) = [];
  framed_out p args : (p, InstallSnapshotReq args) ∈ o.(o_out) →
    args.(isa_LastIncludedIndex) = i ∧ args.(isa_Data) = snap
}.

Section events.
Context (i : Z) (snap : bytes) (la : Z).

Lemma framed_same ev rf' effs els out rep :
  held i snap la rf' → Forall (saves i snap) effs →
  (∀ p args, (p, InstallSnapshotReq args) ∈ out → args.(isa_LastIncludedIndex) = i ∧ args.(isa_Data) = snap) →
  framed ev i snap la (mkOutcome rf' effs els out rep).
Proof.
  intros Hh Hs Hout. split; simpl; [|intros d Hd|by eapply saves_applied|done].
  - exists (i, snap). split; [by left|done].
  - exists (i, snap). split; [by left|]. rewrite Forall_forall in Hs. by apply (Hs _ Hd).
Qed.

Lemma framed_either ev i' snap' rf' effs els rep :
  offered ev = Some (i', snap') →
  held_either i snap la i' snap' rf' → Forall (saves_either i snap i' snap') effs →
  framed ev i snap la (mkOutcome rf' effs els [] rep).
Proof.
  intros Ho Hh Hs. split; simpl; [|intros d Hd| |by intros ?? ?%not_elem_of_nil].
  - destruct Hh as [Hh|Hh]; [exists (i, snap)|exists (i', snap')]; (split; [|done]); [by left|by right].
  - rewrite Forall_forall in Hs.
    destruct (Hs _ Hd) as [H|H]; [exists (i, snap)|exists (i', snap')]; (split; [|done]); [by left|by right].
  - clear Hh. induction Hs as [|e effs He _ IH]; [done|]. unfold appliedBy in *.
    destruct e; try done. by destruct He.
Qed.

Lemma framed_quiet {A} ev els (m : RaftM A) rf o :
  keeps (held i snap la) (saves i snap) m → held i snap la rf →
  quiet els (m rf) = Some o → framed ev i snap la o.
Proof.
  intros Hm Hh ([[a rf'] effs] & Hr & [= <-])%bind_Some.
  destruct (Hm _ _ _ _ Hh Hr). apply framed_same; [done|done|]. by intros ?? ?%not_elem_of_nil.
Qed.

Lemma framed_replicate peer rf els o :
  held i snap la rf → exec (EvReplicate peer) rf els = Some o → framed (EvReplicate peer) i snap la o.
Proof.
  intros Hh (r & Hr & [= <-])%bind_Some. apply framed_same; [done|done|].
  intros p args Hp. destruct r as [req|]; [|by apply not_elem_of_nil in Hp].
  apply list_elem_of_singleton in Hp as [= -> <-]. revert Hr. unfold replicateToPeer.
  destruct (bool_decide _); [done|]. intros (next & _ & Hr)%bind_Some.
  destruct (bool_decide _); [|by apply bind_Some in Hr as (? & _ & ?)].
  injection Hr as <-. destruct Hh as (? & ? & _). done.
Qed.

Lemma framed_deliver src req rf els o :
  held i snap la rf → exec (EvDeliver src req) rf els = Some o → framed (EvDeliver src req) i snap la o.
Proof.
  intros Hh ([[rep rf'] effs] & Hr & [= <-])%bind_Some.
  destruct req as [args|args|args].
  - assert (keeps (held i snap la) (saves i snap) (handle (RequestVoteReq args))) as Hm
      by (unfold handle; keeps_with done).
    destruct (Hm _ _ _ _ Hh Hr). apply framed_same; [done|done|]. by intros ?? ?%not_elem_of_nil.
  - assert (keeps (held i snap la) (saves i snap) (handle (AppendEntriesReq args))) as Hm
      by (unfold handle; keeps_with done).
    destruct (Hm _ _ _ _ Hh Hr). apply framed_same; [done|done|]. by intros ?? ?%not_elem_of_nil.
  - set (i' := args.(isa_LastIncludedIndex)). set (snap' := args.(isa_Data)).
    assert (triple (held i snap la) (saves_either i snap i' snap')
      (handle (InstallSnapshotReq args)) (λ _, held_either i snap la i' snap')) as Hm.
    { eapply triple_bind; [apply frame_InstallSnapshot|]. intros r. by apply triple_ret. }
    destruct (Hm _ _ _ _ Hh Hr). by eapply framed_either.
Qed.

(** Every event but the applier's. *)
Lemma exec_framed ev rf els o :
  ev ≠ EvApply → held i snap la rf → exec ev rf els = Some o → framed ev i snap la o.
Proof.
  intros Hev Hh Hex.
  destruct ev as [| |peer|src req|k peer reply|peer args reply|peer args reply|cmd|index data|]; try done.
  - apply bind_Some in Hex as ([[a rf'] effs] & Hr & [= <-]).
    destruct (frame_ticker_election i snap la _ _ _ _ Hh Hr). apply framed_same; [done|done|].
    intros p args Hp. by apply list_elem_of_fmap in Hp as (c & [=] & _).
  - by eapply framed_quiet; [|exact Hh|exact Hex]; auto with keeps.
  - by eapply framed_replicate.
  - by eapply framed_deliver.
  - simpl in Hex. destruct (els !! k) as [el|].
    + apply bind_Some in Hex as ([[a rf'] effs] & Hr & [= <-]).
      destruct (frame_requestVoteFromPeer i snap la _ _ _ _ _ _ _ Hh Hr).
      apply framed_same; [done|done|]. by intros ?? ?%not_elem_of_nil.
    + injection Hex as <-. apply framed_same; [done|done|]. by intros ?? ?%not_elem_of_nil.
  - by eapply framed_quiet; [|exact Hh|exact Hex]; auto with keeps.
  - by eapply framed_quiet; [|exact Hh|exact Hex]; auto with keeps.
  - by eapply framed_quiet; [|exact Hh|exact Hex]; auto with keeps.
  - apply bind_Some in Hex as ([[a rf'] effs] & Hr & [= <-]).
    destruct (frame_Snapshot i snap la index data _ _ _ _ Hh Hr). by eapply framed_either.
Qed.
End events.
