(* ===== verification/ClusterSim.v ===== *)
(** * The cluster runs the protocol

    A forward simulation from the steps of [Cluster.v] to runs of the abstract
    protocol: [sim w a] relates a world of the code to a protocol state, holds
    initially and is kept by every step.  On the way it shows that no handler
    panics. *)

From stdpp Require Import functions.
From S2P Require Import Prelude Api Raft Protocol RaftFacts Cluster.

Local Open Scope Z_scope.

Lemma appliedBy_commands es : appliedBy ((EApply ∘ commandMsg) <$> es) = commandMsg <$> es.
Proof. unfold appliedBy. induction es as [|e es IH]; [done|]. cbn. by f_equal. Qed.

Lemma saved_crashPoint d0 effs d : ESave d ∈ effs → d ∈ crashPoints d0 effs.
Proof.
  revert d0. induction effs as [|e effs IH]; intros d0 Hd; [by apply not_elem_of_nil in Hd|].
  apply elem_of_cons in Hd as [<-|Hd]; simpl; [set_solver|].
  destruct e; simpl; try (by apply IH). do 2 (apply elem_of_cons; right). by apply IH.
Qed.

Section sim.
Context (N : Z) (N_pos : 0 < N).

(** ** The relation *)

(** An open vote collection counts votes that were cast. *)
Definition el_ok (a : AState) (n : Z) (el : Election) : Prop :=
  let t := el.(el_args).(rva_Term) in
  el.(el_args).(rva_CandidateId) = n ∧
  (∃ v, a.(g_vote) (n, t) = Some (n, v)) ∧
  (∀ p, p ∈ el.(el_waiting) → isNode N p ∧ p ≠ n) ∧
  (∃ G : gset Z, el.(el_granted) = 1 + Z.of_nat (size G) ∧
    (∀ p, p ∈ G → isNode N p ∧ p ≠ n ∧ (p ∉ el.(el_waiting)) ∧
      (∃ v, a.(g_vote) (p, t) = Some (n, v)))).

Record node_sim (a : AState) (n : Z) (rf : Raft) (els : list Election) : Prop := {
  ns_me : rf.(me) = n;
  ns_peers : rf.(peers) = N;
  ns_dead : rf.(dead) = false;
  ns_next_len : zlen rf.(nextIndex) = N;
  ns_match_len : zlen rf.(matchIndex) = N;
  ns_term : rf.(currentTerm) = a.(a_term) n;
  ns_vote c : a.(a_vote) n = Some c → rf.(votedFor) = c ∧ 0 ≤ c;
  ns_role : rf.(state) = a.(a_role) n;
  ns_log : node_repr rf (a.(a_log) n);
  ns_commit : rf.(commitIndex) = Z.of_nat (a.(a_commit) n);
  ns_lii : rf.(lastIncludedIndex) ≤ rf.(commitIndex);
  ns_applied : 0 ≤ rf.(lastApplied) ≤ rf.(commitIndex);
  ns_sync : disk_sync rf;
  ns_next p x : rf.(state) = StateLeader → rf.(nextIndex) !! p = Some x →
    x ≤ zlen (a.(a_log) n) + 1;
  ns_match p x : rf.(state) = StateLeader → rf.(matchIndex) !! p = Some x →
    x ≤ rf.(lastIncludedIndex) ∨ ack a (Z.of_nat p) (a.(a_term) n) (Z.to_nat x);
  ns_self : rf.(state) = StateLeader → ack a n (a.(a_term) n) (length (a.(a_log) n));
  ns_els el : el ∈ els → el_ok a n el
}.

(** A request in the network tells the truth about its sender's history. *)
Definition req_ok (a : AState) (src : Z) (req : Request) : Prop :=
  match req with
  | RequestVoteReq args =>
      isNode N src ∧ args.(rva_CandidateId) = src ∧
      ∃ l, a.(g_cand) (src, args.(rva_Term)) = Some l ∧
        args.(rva_LastLogTerm) = lastTerm l ∧ args.(rva_LastLogIndex) = zlen l
  | AppendEntriesReq args =>
      let t := args.(aea_Term) in
      is_Some (a.(g_elec) t) ∧
      (∃ k, (k ≤ length (a.(g_tlog) t))%nat ∧ carries args (take k (a.(g_tlog) t)) ∧
        0 ≤ args.(aea_LeaderCommit) ≤ Z.of_nat k) ∧
      committed N a t (take (Z.to_nat args.(aea_LeaderCommit)) (a.(g_tlog) t))
  | InstallSnapshotReq args =>
      let t := args.(isa_Term) in
      is_Some (a.(g_elec) t) ∧
      ∃ k, (k ≤ length (a.(g_tlog) t))%nat ∧ args.(isa_LastIncludedIndex) = Z.of_nat k ∧
        args.(isa_LastIncludedTerm) = term_at (a.(g_tlog) t) k ∧
        committed N a t (take k (a.(g_tlog) t))
  end.

(** So does a reply: a granted vote was cast, an accepted prefix is held. *)
Definition rep_ok (a : AState) (src : Z) (req : Request) (rep : Reply) : Prop :=
  match req, rep with
  | RequestVoteReq args, RequestVoteRep r =>
      r.(rvr_VoteGranted) = true →
      ∃ v, a.(g_vote) (src, args.(rva_Term)) = Some (args.(rva_CandidateId), v)
  | AppendEntriesReq args, AppendEntriesRep r =>
      let t := args.(aea_Term) in
      r.(aer_Term) ≤ t →
      is_Some (a.(g_elec) t) ∧ 0 ≤ args.(aea_PrevLogIndex) ∧
      args.(aea_PrevLogIndex) + zlen args.(aea_Entries) ≤ zlen (a.(g_tlog) t) ∧
      (if r.(aer_Success)
       then ack a src t (Z.to_nat (args.(aea_PrevLogIndex) + zlen args.(aea_Entries)))
       else r.(aer_ConflictIndex) ≤ zlen (a.(g_tlog) t) + 1)
  | InstallSnapshotReq args, InstallSnapshotRep r =>
      let t := args.(isa_Term) in
      r.(isr_Term) ≤ t →
      is_Some (a.(g_elec) t) ∧ 0 ≤ args.(isa_LastIncludedIndex) ≤ zlen (a.(g_tlog) t) ∧
      ack a src t (Z.to_nat args.(isa_LastIncludedIndex))
  | _, _ => False
  end.

(** An applied command is an entry of a committed log. *)
Definition applied_ok (a : AState) (m : ApplyMsg) : Prop :=
  m.(CommandValid) = true →
  ∃ T p i e, committed N a T p ∧ p !! i = Some e ∧
    m.(CommandIndex) = Z.of_nat i + 1 ∧ m.(am_Command) = e.(Command).

Record sim (w : World) (a : AState) : Prop := {
  sim_inv : AInv N a;
  sim_node n : isNode N n → node_sim a n (w.(w_node) n) (w.(w_els) n);
  sim_reqs src dst req : (src, dst, req) ∈ w.(w_reqs) → req_ok a src req;
  sim_reps src dst req rep : (src, dst, req, rep) ∈ w.(w_reps) →
    rep_ok a src req rep ∧ isNode N src;
  sim_applied n m : (n, m) ∈ w.(w_applied) → applied_ok a m
}.

(** ** Restart *)

Record restart_ok (a : AState) (n : Z) (r : Raft) : Prop := {
  ro_me : r.(me) = n;
  ro_peers : r.(peers) = N;
  ro_fresh : restarted r = r;
  ro_term : r.(currentTerm) = a.(a_term) n;
  ro_vote c : a.(a_vote) n = Some c → r.(votedFor) = c ∧ 0 ≤ c;
  ro_log : node_repr r (a.(a_log) n);
  ro_lii : r.(lastIncludedIndex) ≤ Z.of_nat (a.(a_commit) n);
  ro_sync : Make N n r.(persister) = Some r
}.

Definition disk_ok (a : AState) (n : Z) (d : Disk) : Prop :=
  ∃ r, Make N n d = Some r ∧ restart_ok a n r.

(** [Make] does not look at the snapshot file. *)
Lemma Make_set_disk n i d d' r :
  Make n i d = Some r → d'.(d_raftState) = d.(d_raftState) →
  Make n i d' = Some (set_persister d' r).
Proof.
  unfold Make, run_st. intros H E. rewrite E. revert H.
  unfold readPersist. case_bool_decide; [run; by intros [= <-]|].
  destruct (decode_int _) as [[ct d1]|]; [|done]. run.
  destruct (decode_int _) as [[vf d2]|]; [|done]. run.
  destruct (decode_entries _) as [[ls d3]|]; [|done]. run.
  destruct (decode_int _) as [[lii d4]|]; [|done]. run.
  destruct (decode_int _) as [[lit d5]|]; [|done]. run.
  simpl. intros [= <-]. f_equal.
  destruct (decide (0 < lii)).
  - by repeat (rewrite (bool_decide_true (0 < _)) by done; cbn).
  - by repeat (rewrite (bool_decide_false (0 < _)) by done; cbn).
Qed.

Lemma Make_persister n i d r : Make n i d = Some r → r.(persister) = d.
Proof.
  intros H. pose proof (Make_set_disk n i d d r H eq_refl) as H'. rewrite H in H'.
  injection H' as ->. done.
Qed.

Lemma disk_ok_torn a n d d' :
  disk_ok a n d → d'.(d_raftState) = d.(d_raftState) → disk_ok a n d'.
Proof.
  intros (r & HM & [? ? Hf ? ? ? ? ?]) E. exists (set_persister d' r).
  pose proof (Make_set_disk N n d d' r HM E) as HM'.
  split; [done|]. split; try done. by rewrite <-Hf at 2.
Qed.

Lemma node_sim_disk a n rf els : node_sim a n rf els → disk_ok a n rf.(persister).
Proof.
  intros S. assert (Make N n rf.(persister) = Some (restarted rf)) as HM.
  { rewrite <-(ns_peers _ _ _ _ S), <-(ns_me _ _ _ _ S) at 1. by apply (ns_sync _ _ _ _ S). }
  exists (restarted rf). split; [done|].
  split; try apply S; [done| |done]. simpl.
  rewrite <-(ns_commit _ _ _ _ S). by apply (ns_lii _ _ _ _ S).
Qed.

Lemma crashPoints_saved d0 effs d :
  d ∈ crashPoints d0 effs → ∃ d', ESave d' ∈ effs ∧ d.(d_raftState) = d'.(d_raftState).
Proof using Type.
  clear N N_pos. revert d0. induction effs as [|e effs IH]; intros d0 Hd; [set_solver|].
  destruct e; simpl in Hd; try (destruct (IH _ Hd) as (d' & ? & ?); exists d'; set_solver).
  apply elem_of_cons in Hd as [->|[->|Hd]%elem_of_cons]; [exists d1; set_solver..|].
  destruct (IH _ Hd) as (d' & ? & ?). exists d'. set_solver.
Qed.

(** ** Moves of the protocol *)

(** The parts of a protocol state a move of node [n] may leave alone. *)
Definition same_ghost (a a' : AState) : Prop :=
  a'.(g_elec) = a.(g_elec) ∧ a'.(g_tlog) = a.(g_tlog) ∧ a'.(g_cand) = a.(g_cand) ∧
  a'.(g_vote) = a.(g_vote) ∧ a'.(g_ack) = a.(g_ack).

Ltac other := intros m ?; simpl; rewrite ?fn_lookup_insert_ne by done; done.

(** Enter term [t] (or stay in it) as a follower. *)
Lemma mv_follow a n t : AInv N a → a.(a_term) n ≤ t →
  ∃ a', move N n a a' ∧ a'.(a_term) n = t ∧ a'.(a_role) n = StateFollower ∧
    a'.(a_log) n = a.(a_log) n ∧ a'.(a_commit) n = a.(a_commit) n ∧
    a'.(a_vote) n = (if bool_decide (a.(a_term) n < t) then None else a.(a_vote) n) ∧
    same_ghost a a'.
Proof.
  intros I Ht. case_bool_decide as Hlt.
  - eexists. split; [apply move_once; [done..|by apply (A_term _ _ n t)|other|no_new|no_new]|].
    unfold same_ghost. simpl. rewrite !fn_lookup_insert. done.
  - eexists. split; [apply move_once; [done..|by apply (A_stepdown _ _ n)|other|no_new|no_new]|].
    unfold same_ghost. simpl. rewrite !fn_lookup_insert.
    repeat split. lia.
Qed.

Lemma mv_commit a n k : AInv N a → (k ≤ length (a.(a_log) n))%nat →
  committed N a (a.(a_term) n) (take k (a.(a_log) n)) →
  ∃ a', move N n a a' ∧ a'.(a_term) n = a.(a_term) n ∧ a'.(a_role) n = a.(a_role) n ∧
    a'.(a_log) n = a.(a_log) n ∧ a'.(a_commit) n = k ∧ a'.(a_vote) n = a.(a_vote) n ∧
    same_ghost a a'.
Proof.
  intros I Hk Hc. eexists.
  split; [apply move_once; [done..|by apply (A_commit _ _ n k)|other|no_new|no_new]|].
  unfold same_ghost. simpl. rewrite !fn_lookup_insert. done.
Qed.

Lemma mv_replicate a n k : AInv N a → a.(a_role) n = StateFollower →
  is_Some (a.(g_elec) (a.(a_term) n)) → (k ≤ length (a.(g_tlog) (a.(a_term) n)))%nat →
  ∃ a', move N n a a' ∧ a'.(a_term) n = a.(a_term) n ∧ a'.(a_role) n = StateFollower ∧
    a'.(a_log) n = adopt (take k (a.(g_tlog) (a.(a_term) n))) (a.(a_log) n) ∧
    a'.(a_commit) n = a.(a_commit) n ∧ a'.(a_vote) n = a.(a_vote) n ∧
    a'.(g_elec) = a.(g_elec) ∧ a'.(g_tlog) = a.(g_tlog) ∧ ack a' n (a.(a_term) n) k.
Proof.
  intros I Hr He Hk. eexists.
  split; [apply move_once; [done..|by apply (A_replicate _ _ n (a.(a_term) n) k)|other| |no_new]|].
  { intros m e [?%known_replicate|?]%elem_of_fn_insert; left; [done|left; by exists m]. }
  simpl. rewrite !fn_lookup_insert. repeat split; [done|].
  exists k. split; [done|]. set_solver.
Qed.

Lemma mv_vote a n c l : AInv N a → a.(g_cand) (c, a.(a_term) n) = Some l →
  upToDate l (a.(a_log) n) → a.(a_vote) n = None →
  ∃ a', move N n a a' ∧ a'.(a_term) n = a.(a_term) n ∧ a'.(a_role) n = a.(a_role) n ∧
    a'.(a_log) n = a.(a_log) n ∧ a'.(a_commit) n = a.(a_commit) n ∧
    a'.(a_vote) n = Some c ∧ a'.(g_vote) (n, a.(a_term) n) = Some (c, a.(a_log) n).
Proof.
  intros I Hc Hu Hv. eexists.
  split; [apply move_once; [done..|by apply (A_vote _ _ n c l)|other|no_new|no_new]|].
  simpl. rewrite !fn_lookup_insert. done.
Qed.

(** ** Monotonicity *)

Lemma ack_mono a a' n t k : gext a a' → ack a n t k → ack a' n t k.
Proof. intros [X _ _]. by apply ext_acked. Qed.

Lemma el_ok_mono a a' n el : gext a a' → el_ok a n el → el_ok a' n el.
Proof.
  intros [_ _ V] (? & (v & Hv) & ? & G & HG & Hall). split; [done|].
  split; [eauto|]. split; [done|]. exists G. split; [done|].
  intros p Hp. destruct (Hall p Hp) as (? & ? & ? & v' & ?). eauto 10.
Qed.

Lemma node_sim_other P a a' n m rf els :
  moves N P n a a' → m ≠ n → node_sim a m rf els → node_sim a' m rf els.
Proof.
  intros M Hm S. pose proof (move_gext _ _ _ _ M) as X.
  split; rewrite ?(move_term _ _ _ _ M), ?(move_vote _ _ _ _ M), ?(move_role _ _ _ _ M),
    ?(move_log _ _ _ _ M), ?(move_commit _ _ _ _ M) by done; try apply S.
  - intros p x Hl Hx. destruct (ns_match _ _ _ _ S p x Hl Hx); [by left|right].
    by eapply ack_mono.
  - intros Hl. eapply ack_mono; [done|]. by apply (ns_self _ _ _ _ S).
  - intros el Hel. eapply el_ok_mono; [done|]. by apply (ns_els _ _ _ _ S).
Qed.

Lemma req_ok_mono a a' src req : gext a a' → req_ok a src req → req_ok a' src req.
Proof.
  intros [X C _]. destruct req as [args|args|args]; simpl.
  - intros (? & ? & l & ? & ?). eauto 10.
  - intros (He & (k & Hk & HC & Hlc) & Hcom).
    split; [by eapply ext_is_elec|].
    rewrite <-(ext_take _ _ X _ k He Hk) in HC.
    rewrite <-(ext_take _ _ X _ _ He) in Hcom by lia.
    split; [|by eapply ext_committed].
    exists k. split; [|done]. pose proof (ext_len _ _ X _ He). lia.
  - intros (He & k & Hk & Hi & Ht & Hcom). split; [by eapply ext_is_elec|].
    exists k. pose proof (ext_len _ _ X _ He). split; [lia|]. split; [done|].
    rewrite (ext_take _ _ X _ _ He) by done. split; [|by eapply ext_committed].
    rewrite Ht. symmetry. apply term_at_prefix; [|done]. by apply (ext_tlog _ _ X).
Qed.

Lemma rep_ok_mono a a' src req rep : gext a a' → rep_ok a src req rep → rep_ok a' src req rep.
Proof.
  intros X. pose proof (gext_ext _ _ X) as Xe.
  destruct req as [args|args|args], rep as [r|r|r]; simpl; try done.
  - intros H Hg. destruct (H Hg) as [v Hv]. exists v. by apply (gext_vote _ _ X).
  - intros H Ht. destruct (H Ht) as (He & H0 & Hk & Hr). pose proof (ext_len _ _ Xe _ He).
    split; [by eapply ext_is_elec|]. split; [done|]. split; [lia|].
    destruct r.(aer_Success); [by eapply ack_mono|lia].
  - intros H Ht. destruct (H Ht) as (He & Hk & Hr). pose proof (ext_len _ _ Xe _ He).
    split; [by eapply ext_is_elec|]. split; [lia|]. by eapply ack_mono.
Qed.

Lemma applied_ok_mono a a' m : gext a a' → applied_ok a m → applied_ok a' m.
Proof.
  intros [X _ _] H Hv. destruct (H Hv) as (T & p & i & e & Hc & ?).
  exists T, p, i, e. split; [by eapply ext_committed|done].
Qed.

Lemma restart_sim a n r : AInv N a → restart_ok a n r →
  ∃ a', move N n a a' ∧ node_sim a' n r [].
Proof.
  intros I [Hme Hp Hf Ht Hv Hl Hlii Hs].
  assert (0 ≤ r.(lastIncludedIndex)) as H0 by (destruct Hl as [? _ _ _]; lia).
  destruct (inv_commit _ _ I n) as [Hcl Hcc].
  destruct (mv_follow a n (a.(a_term) n)) as (a1 & M1 & T1 & R1 & L1 & C1 & V1 & G1); [done..|].
  rewrite bool_decide_false in V1 by lia.
  assert (AInv N a1) as I1 by (by eapply move_inv).
  destruct (mv_commit a1 n (Z.to_nat r.(lastIncludedIndex)))
    as (a2 & M2 & T2 & R2 & L2 & C2 & V2 & G2); [done|rewrite L1; lia| |].
  { rewrite T1, L1. eapply committed_prefix;
      [eapply ext_committed; [by apply (move_gext _ _ _ _ M1)|done]|].
    apply prefix_take_mono. lia. }
  exists a2. split; [by trans a1|].
  assert (disk_sync (restarted r)) as Hsync
    by (rewrite Hf; unfold disk_sync; by rewrite Hp, Hme, Hs, Hf).
  rewrite <-Hf. split; simpl; rewrite ?T2, ?V2, ?R2, ?L2, ?C2, ?T1, ?V1, ?R1, ?L1; try done.
  - rewrite length_replicate. lia.
  - rewrite length_replicate. lia.
  - lia.
  - set_solver.
Qed.

(** ** What an event must achieve *)

(** The entry an event may write: only a client call writes one. *)
Definition newEntry (ev : event) (a : AState) (n : Z) (e : Entry) : Prop :=
  match ev with
  | EvStart cmd => a.(a_role) n = StateLeader ∧
      e = mkEntry (zlen (a.(a_log) n) + 1) (a.(a_term) n) cmd
  | _ => False
  end.

Definition good (a : AState) (n : Z) (ev : event) (o : outcome) : Prop :=
  (∃ a', moves N (newEntry ev a n) n a a' ∧ node_sim a' n o.(o_node) o.(o_els) ∧
    (∀ p req, (p, req) ∈ o.(o_out) → req_ok a' n req) ∧
    (∀ src req rep, ev = EvDeliver src req → o.(o_rep) = Some rep → rep_ok a' n req rep) ∧
    (∀ m, m ∈ appliedBy o.(o_effs) → applied_ok a' m)) ∧
  (∀ d, ESave d ∈ o.(o_effs) → ∃ a', moves N (newEntry ev a n) n a a' ∧ disk_ok a' n d).

(** An event that writes nothing new makes a move of any event. *)
Lemma move_any ev a n a' : move N n a a' → moves N (newEntry ev a n) n a a'.
Proof. by apply moves_mono. Qed.

Lemma inert_no_save effs d : Forall inert effs → ESave d ∈ effs → False.
Proof. intros H Hd. rewrite Forall_forall in H. by apply (H _ Hd). Qed.

Lemma inert_applied effs : Forall inert effs → appliedBy effs = [].
Proof. induction 1 as [|e effs He _ IH]; [done|]. unfold appliedBy in *. by destruct e. Qed.

Lemma appliedBy_app e1 e2 : appliedBy (e1 ++ e2) = appliedBy e1 ++ appliedBy e2.
Proof. unfold appliedBy. by rewrite omap_app. Qed.

(** The usual case: at most one save, at the end, of the final state. *)
Lemma good_saved a a' n ev rf' pre els rep :
  move N n a a' → node_sim a' n rf' els → Forall inert pre →
  (∀ src req r, ev = EvDeliver src req → rep = Some r → rep_ok a' n req r) →
  good a n ev (mkOutcome rf' (pre ++ [ESave rf'.(persister)]) els [] rep).
Proof.
  intros M%(move_any ev) S Hpre Hrep. split.
  - exists a'. split; [done|]. split; [done|]. split; [by intros ?? ?%not_elem_of_nil|].
    split; [done|]. intros m. simpl. rewrite appliedBy_app, inert_applied by done.
    by intros ?%not_elem_of_nil.
  - intros d Hd. exists a'. split; [done|]. simpl in Hd.
    apply elem_of_app in Hd as [Hd|[= ->]%list_elem_of_singleton].
    + exfalso. by eapply inert_no_save.
    + by eapply node_sim_disk.
Qed.

Lemma good_unsaved a a' n ev rf' effs els out rep :
  move N n a a' → node_sim a' n rf' els → Forall inert effs →
  (∀ p req, (p, req) ∈ out → req_ok a' n req) →
  (∀ src req r, ev = EvDeliver src req → rep = Some r → rep_ok a' n req r) →
  good a n ev (mkOutcome rf' effs els out rep).
Proof.
  intros M%(move_any ev) S Hin Hout Hrep. split.
  - exists a'. split; [done|]. split; [done|]. split; [done|]. split; [done|].
    intros m. simpl. rewrite inert_applied by done. by intros ?%not_elem_of_nil.
  - intros d Hd. exfalso. by eapply inert_no_save.
Qed.

(** Several saves, each acceptable to restart from. *)
Lemma good_saves a a' n ev rf' effs els out rep :
  moves N (newEntry ev a n) n a a' → node_sim a' n rf' els → appliedBy effs = [] →
  (∀ d, ESave d ∈ effs → ∃ a'', moves N (newEntry ev a n) n a a'' ∧ disk_ok a'' n d) →
  (∀ p req, (p, req) ∈ out → req_ok a' n req) →
  (∀ src req r, ev = EvDeliver src req → rep = Some r → rep_ok a' n req r) →
  good a n ev (mkOutcome rf' effs els out rep).
Proof.
  intros M S Happ Hsv Hout Hrep. split; [|done]. exists a'. repeat (split; [done|]).
  simpl. rewrite Happ. by intros m ?%not_elem_of_nil.
Qed.

Lemma ns_lii0 a n rf els : node_sim a n rf els → 0 ≤ rf.(lastIncludedIndex).
Proof. intros S. destruct (ns_log _ _ _ _ S) as [? _ _ _]. lia. Qed.

Section events.
Context (a : AState) (I : AInv N a) (n : Z) (Hn : isNode N n).
Context (rf : Raft) (els : list Election) (S : node_sim a n rf els).

Lemma tlog_matching t k : is_Some (a.(g_elec) t) →
  matching (a.(a_log) n) (take k (a.(g_tlog) t)) ∧ indexed (take k (a.(g_tlog) t)).
Proof.
  intros [[[c el] Q] He]. destruct (inv_tlog _ _ I _ _ _ _ He) as (_ & Hw & _).
  destruct (inv_log _ _ I n) as [Hwn _].
  assert (wf_log a (take k (a.(g_tlog) t))) as Hwk by (eapply wf_log_prefix; [exact Hw|apply prefix_take]).
  split; [|exact (proj1 Hwk)]. intros i H1 H2 Ht. by eapply wf_log_matching.
Qed.

(** The relation at [n] when it ends up as a follower. *)
Lemma node_sim_follower a' rf' :
  move N n a a' → a'.(a_role) n = StateFollower → rf'.(state) = StateFollower →
  rf'.(me) = rf.(me) → rf'.(peers) = rf.(peers) → rf'.(dead) = false →
  rf'.(nextIndex) = rf.(nextIndex) → rf'.(matchIndex) = rf.(matchIndex) →
  rf'.(currentTerm) = a'.(a_term) n →
  (∀ c, a'.(a_vote) n = Some c → rf'.(votedFor) = c ∧ 0 ≤ c) →
  node_repr rf' (a'.(a_log) n) → rf'.(commitIndex) = Z.of_nat (a'.(a_commit) n) →
  rf'.(lastIncludedIndex) ≤ rf'.(commitIndex) →
  rf'.(lastApplied) = rf.(lastApplied) → rf.(commitIndex) ≤ rf'.(commitIndex) →
  disk_sync rf' → node_sim a' n rf' els.
Proof.
  intros M R E1 E2 E3 E4 E5 E6 E7 V L E8 E9 E10 E11 E12.
  pose proof (ns_applied _ _ _ _ S).
  split; rewrite ?E1, ?E2, ?E3, ?E5, ?E6, ?E10, ?R; try done; try apply S.
  - lia.
  - intros el Hel. eapply el_ok_mono; [by apply (move_gext _ _ _ _ M)|].
    by apply (ns_els _ _ _ _ S).
Qed.

(** Entering term [t] of a leader: [rf'] differs from [rf] in term, vote,
    role, leader and disk only. *)
Lemma enter_term t rf' :
  a.(a_term) n ≤ t →
  rf'.(state) = StateFollower → rf'.(currentTerm) = t →
  rf'.(votedFor) = (if bool_decide (rf.(currentTerm) < t) then -1 else rf.(votedFor)) →
  rf'.(me) = rf.(me) → rf'.(peers) = rf.(peers) → rf'.(dead) = false →
  rf'.(nextIndex) = rf.(nextIndex) → rf'.(matchIndex) = rf.(matchIndex) →
  rf'.(logs) = rf.(logs) → rf'.(lastIncludedIndex) = rf.(lastIncludedIndex) →
  rf'.(lastIncludedTerm) = rf.(lastIncludedTerm) →
  rf'.(commitIndex) = rf.(commitIndex) → rf'.(lastApplied) = rf.(lastApplied) →
  disk_sync rf' →
  ∃ a', move N n a a' ∧ AInv N a' ∧ node_sim a' n rf' els ∧ a'.(a_term) n = t ∧
    a'.(a_log) n = a.(a_log) n ∧ a'.(a_commit) n = a.(a_commit) n ∧
    a'.(a_role) n = StateFollower ∧ same_ghost a a'.
Proof.
  intros Ht E1 E2 E3 E4 E5 E6 E7 E8 E9 E10 E11 E12 E13 E14.
  destruct (mv_follow a n t) as (a' & M & T & R & L & K & V & G); [done..|].
  exists a'. split; [done|]. split; [by eapply move_inv|].
  split; [|done]. eapply node_sim_follower; try done.
  - congruence.
  - rewrite V, E3. rewrite (ns_term _ _ _ _ S). case_bool_decide; [done|]. apply S.
  - rewrite L. unfold node_repr. rewrite E9, E10, E11. apply S.
  - rewrite E12, K. apply S.
  - rewrite E10, E12. apply S.
  - lia.
Qed.

Lemma disk_kept rf' :
  rf'.(persister) = rf.(persister) → rf'.(peers) = rf.(peers) → rf'.(me) = rf.(me) →
  rf'.(currentTerm) = rf.(currentTerm) → rf'.(votedFor) = rf.(votedFor) →
  rf'.(logs) = rf.(logs) → rf'.(lastIncludedIndex) = rf.(lastIncludedIndex) →
  rf'.(lastIncludedTerm) = rf.(lastIncludedTerm) → disk_sync rf'.
Proof.
  intros E1 E2 E3 E4 E5 E6 E7 E8. pose proof (ns_sync _ _ _ _ S) as Hs.
  unfold disk_sync, restarted in *. by rewrite E1, E2, E3, E4, E5, E6, E7, E8.
Qed.

(** *** Delivered requests *)

(** Entering the term of a candidate. *)
Lemma enter_voting t :
  rf.(currentTerm) ≤ t →
  ∃ a1, move N n a a1 ∧ AInv N a1 ∧ node_sim a1 n (saved (voteState t rf)) els ∧
    a1.(a_term) n = t ∧ a1.(a_log) n = a.(a_log) n ∧ a1.(g_cand) = a.(g_cand).
Proof.
  intros Ht. pose proof (ns_term _ _ _ _ S) as HT. unfold voteState. case_bool_decide as Hlt'.
  - edestruct (enter_term t) as (a1 & M1 & I1 & S1 & T1 & L1 & _ & _ & G1);
      cycle -1; [exists a1; repeat (split; [done|]); apply G1|try done..].
    + lia.
    + by rewrite bool_decide_true.
    + by apply S.
    + apply saved_sync. exact (ns_lii0 _ _ _ _ S).
  - exists a. split; [done|]. split; [done|]. split; [|split; [lia|done]].
    split; try apply S. apply saved_sync. exact (ns_lii0 _ _ _ _ S).
Qed.

Lemma deliver_vote src args :
  req_ok a src (RequestVoteReq args) →
  ∃ o, exec (EvDeliver src (RequestVoteReq args)) rf els = Some o ∧
    good a n (EvDeliver src (RequestVoteReq args)) o.
Proof.
  intros (Hsrc & Hcid & c & Hc & Hlt & Hli). simpl.
  destruct (decide (args.(rva_Term) < rf.(currentTerm))) as [Hst|Hge].
  { erewrite bind_run by (by apply run_RequestVote_stale). run. eexists. split; [done|].
    eapply good_unsaved; [done|done|done|by intros ?? ?%not_elem_of_nil|].
    intros ??? [= <- <-] [= <-]. simpl. done. }
  destruct (run_RequestVote args rf _ c (ns_dead _ _ _ _ S) (ns_log _ _ _ _ S))
    as (b & effs & Hrun & Hin & Hb); [lia|done..|].
  erewrite bind_run by exact Hrun. run. eexists. split; [done|].
  destruct (enter_voting args.(rva_Term)) as (a1 & M1 & I1 & S1 & T1 & L1 & C1); [lia|].
  set (rf1 := voteState args.(rva_Term) rf) in *.
  destruct b; [|eapply good_saved; [exact M1|done|done|by intros ??? [= <- <-] [= <-]]].
  destruct Hb as [Hb _]. destruct (Hb eq_refl) as [Hcan Hup]. clear Hb.
  assert (disk_sync (saved (set_votedFor args.(rva_CandidateId) rf1))) as Hsync
    by (apply saved_sync; apply (ns_lii0 _ _ _ _ S1)).
  destruct (a1.(a_vote) n) as [c'|] eqn:Hav.
  - (* this candidate already has the vote *)
    destruct (ns_vote _ _ _ _ S1 c' Hav) as [Hvf Hc0]. simpl in Hvf.
    assert (c' = args.(rva_CandidateId)) as -> by (destruct Hcan; lia).
    eapply (good_saved _ a1); [done| |done|].
    + split; try apply S1; [|done]. intros c'' Hc''. simpl. rewrite Hav in Hc''.
      injection Hc'' as <-. done.
    + intros ??? [= <- <-] [= <-] _. rewrite <-T1. by eapply inv_vote_rec.
  - rewrite Hcid in *.
    destruct (mv_vote a1 n src c) as (a2 & M2 & T2 & R2 & L2 & K2 & V2 & G2);
      [done|by rewrite C1, T1|by rewrite L1|done|].
    eapply (good_saved _ a2); [by trans a1| |done|].
    + assert (0 ≤ src) by apply Hsrc. pose proof (move_gext _ _ _ _ M2) as X2.
      split; rewrite ?T2, ?R2, ?L2, ?K2, ?V2; try apply S1; try done.
      * intros c'' [= <-]. done.
      * intros p x Hl Hx. destruct (ns_match _ _ _ _ S1 p x Hl Hx); [by left|right].
        by eapply ack_mono.
      * intros Hl. eapply ack_mono; [done|]. by apply (ns_self _ _ _ _ S1).
      * intros el Hel. eapply el_ok_mono; [done|]. by apply (ns_els _ _ _ _ S1).
    + intros ??? [= <- <-] [= <-] _. simpl. rewrite Hcid, <-T1. eauto.
Qed.

Lemma enter_following t leader :
  rf.(currentTerm) ≤ t →
  ∃ a', move N n a a' ∧ AInv N a' ∧ node_sim a' n (saved (following t leader rf)) els ∧
    a'.(a_term) n = t ∧ a'.(a_log) n = a.(a_log) n ∧ a'.(a_commit) n = a.(a_commit) n ∧
    a'.(a_role) n = StateFollower ∧ same_ghost a a'.
Proof.
  intros Ht. pose proof (ns_term _ _ _ _ S). pose proof (ns_dead _ _ _ _ S).
  assert (0 ≤ rf.(lastIncludedIndex)) as Hlii0 by exact (ns_lii0 _ _ _ _ S).
  apply enter_term; unfold following, caughtUp; try (by case_bool_decide).
  - lia.
  - case_bool_decide; simpl; lia.
  - apply saved_sync. by case_bool_decide.
Qed.

(** The whole of an accepted prefix and a commit index within it. *)
Lemma adopt_move a1 k c :
  move N n a a1 → AInv N a1 → a1.(a_role) n = StateFollower →
  is_Some (a1.(g_elec) (a1.(a_term) n)) →
  (k ≤ length (a1.(g_tlog) (a1.(a_term) n)))%nat →
  (a1.(a_commit) n ≤ c)%nat → (c ≤ Nat.max k (a1.(a_commit) n))%nat →
  (a1.(a_commit) n < c → committed N a1 (a1.(a_term) n) (take c (a1.(g_tlog) (a1.(a_term) n))))%nat →
  ∃ a2, move N n a a2 ∧ a2.(a_term) n = a1.(a_term) n ∧ a2.(a_role) n = StateFollower ∧
    a2.(a_log) n = adopt (take k (a1.(g_tlog) (a1.(a_term) n))) (a1.(a_log) n) ∧
    a2.(a_commit) n = c ∧ a2.(a_vote) n = a1.(a_vote) n ∧
    a2.(g_elec) = a1.(g_elec) ∧ a2.(g_tlog) = a1.(g_tlog) ∧ ack a2 n (a1.(a_term) n) k.
Proof.
  intros M1 I1 R1 He Hk Hc1 Hc2 Hcom.
  destruct (mv_replicate a1 n k) as (a2 & M2 & T2 & R2 & L2 & K2 & V2 & E2 & G2 & A2); [done..|].
  assert (AInv N a2) as I2 by (by eapply move_inv).
  destruct (inv_commit _ _ I2 n) as [Hlen Hcom2].
  pose proof (move_gext _ _ _ _ M2) as X2.
  set (L := take k (a1.(g_tlog) (a1.(a_term) n))) in *.
  assert (L `prefix_of` a2.(a_log) n) as HL by (rewrite L2; apply adopt_prefix).
  pose proof (prefix_length _ _ HL) as HLl. unfold L in HLl at 1. rewrite length_take_le in HLl by done.
  rewrite K2 in *.
  destruct (mv_commit a2 n c) as (a3 & M3 & T3 & R3 & L3 & K3 & V3 & G3); [done|lia| |].
  { destruct (decide (a1.(a_commit) n < c)%nat) as [Hlt|Hge].
    - rewrite T2. replace (take c (a2.(a_log) n)) with (take c (a1.(g_tlog) (a1.(a_term) n))).
      + eapply ext_committed; [apply X2|]. by apply Hcom.
      + rewrite <-(prefix_take_of L (a2.(a_log) n)) by (done || (unfold L; rewrite length_take_le; lia)).
        unfold L. rewrite take_take. f_equal. lia.
    - by replace c with (a1.(a_commit) n) by lia. }
  destruct G3 as (E3 & G3 & _ & _ & A3).
  exists a3. split; [trans a1; [done|]; by trans a2|].
  rewrite T3, R3, L3, V3, E3, G3. repeat (split; [done|]).
  unfold ack. rewrite A3. exact A2.
Qed.

(** The same for a node that entered term [t] in [a1]. *)
Lemma adopt_in t a1 k c :
  move N n a a1 → AInv N a1 → a1.(a_role) n = StateFollower →
  a1.(a_term) n = t → a1.(a_log) n = a.(a_log) n → a1.(a_commit) n = a.(a_commit) n → same_ghost a a1 →
  is_Some (a.(g_elec) t) → (k ≤ length (a.(g_tlog) t))%nat →
  (a.(a_commit) n ≤ c)%nat → (c ≤ Nat.max k (a.(a_commit) n))%nat →
  (a.(a_commit) n < c → committed N a t (take c (a.(g_tlog) t)))%nat →
  ∃ a2, move N n a a2 ∧ a2.(a_term) n = t ∧ a2.(a_role) n = StateFollower ∧
    a2.(a_log) n = adopt (take k (a.(g_tlog) t)) (a.(a_log) n) ∧
    a2.(a_commit) n = c ∧ a2.(a_vote) n = a1.(a_vote) n ∧
    a2.(g_elec) = a.(g_elec) ∧ a2.(g_tlog) = a.(g_tlog) ∧ ack a2 n t k.
Proof.
  intros M1 I1 R1 T1 L1 K1 (E1 & Tl1 & _) He Hk Hc1 Hc2 Hcom.
  destruct (adopt_move a1 k c) as (a2 & M2 & T2 & R2 & L2 & K2 & V2 & E2 & Tl2 & A2);
    try done; rewrite ?T1, ?E1, ?Tl1, ?K1; try done.
  { intros Hlt. eapply ext_committed; [by apply (move_gext _ _ _ _ M1)|by apply Hcom]. }
  rewrite T1, Tl1, L1 in L2. rewrite T1 in T2, A2. exists a2. repeat (split; [congruence|]). done.
Qed.

(** A leader's log reaches beyond what a follower has committed. *)
Lemma commit_below_leader t : is_Some (a.(g_elec) t) → rf.(currentTerm) ≤ t →
  rf.(commitIndex) ≤ zlen (a.(g_tlog) t).
Proof.
  intros He Ht. destruct (inv_commit _ _ I n) as [Hcl Hcc].
  assert (take (a.(a_commit) n) (a.(a_log) n) `prefix_of` a.(g_tlog) t) as Hpre.
  { eapply committed_in_leader; [done..| |done]. rewrite <-(ns_term _ _ _ _ S). lia. }
  apply prefix_length in Hpre. rewrite length_take_le in Hpre by done.
  rewrite (ns_commit _ _ _ _ S). lia.
Qed.

Lemma deliver_append src args :
  req_ok a src (AppendEntriesReq args) →
  ∃ o, exec (EvDeliver src (AppendEntriesReq args)) rf els = Some o ∧
    good a n (EvDeliver src (AppendEntriesReq args)) o.
Proof.
  intros (He & (k & Hk & HC & Hlc) & Hcom). simpl.
  destruct (decide (args.(aea_Term) < rf.(currentTerm))) as [Hst|Hge].
  { erewrite bind_run by (by apply run_AppendEntries_stale). run. eexists. split; [done|].
    eapply good_unsaved; [done|done|done|by intros ?? ?%not_elem_of_nil|].
    intros ??? [= <- <-] [= <-]. simpl. lia. }
  destruct (tlog_matching args.(aea_Term) k He) as [Hm HI].
  destruct (enter_following args.(aea_Term) args.(aea_LeaderId))
    as (a1 & M1 & I1 & S1 & T1 & L1 & K1 & R1 & G1); [lia|].
  pose proof G1 as (E1 & Tl1 & _ & _ & A1).
  assert (args.(aea_PrevLogIndex) + zlen args.(aea_Entries) = Z.of_nat k) as Hlen.
  { destruct HC as [Hp -> _ _]. rewrite length_drop, length_take_le in * by done. lia. }
  assert (0 ≤ args.(aea_PrevLogIndex)) as Hp0 by apply HC.
  destruct (run_AppendEntries args rf _ _ (ns_dead _ _ _ _ S) (ns_log _ _ _ _ S)
    ltac:(lia) HC Hm) as [(ci & ct & effs & Hrun & Hin & Hci)|(lg & effs & Hrun & Hin & Hr)].
  - erewrite bind_run by exact Hrun. run. eexists. split; [done|].
    eapply (good_saved _ a1); [done..|]. intros ??? [= <- <-] [= <-] _. simpl.
    rewrite E1, Tl1. split; [done|]. split; [done|]. split; [lia|].
    destruct Hci as [[Hlow ->]|Hci]; [|lia].
    pose proof (ns_lii _ _ _ _ S). pose proof (commit_below_leader _ He ltac:(lia)). lia.
  - erewrite bind_run by exact Hrun. run. eexists. split; [done|].
    destruct (inv_commit _ _ I n) as [Hcl _].
    pose proof (ns_commit _ _ _ _ S) as HK. pose proof (ns_lii _ _ _ _ S) as Hlii.
    set (L := take k (a.(g_tlog) args.(aea_Term))) in *.
    assert (length L = k) as HLk by (unfold L; by rewrite length_take_le).
    assert (Z.of_nat k ≤ zlen (adopt L (a.(a_log) n))) as Hadk.
    { pose proof (prefix_length _ _ (adopt_prefix L (a.(a_log) n))). lia. }
    set (c := advanced rf.(commitIndex) args.(aea_LeaderCommit) (zlen (adopt L (a.(a_log) n)))).
    assert (c = Z.max rf.(commitIndex) args.(aea_LeaderCommit)) as Hc.
    { unfold c, advanced. case_bool_decide; lia. }
    destruct (adopt_in args.(aea_Term) a1 k (Z.to_nat c))
      as (a2 & M2 & T2 & R2 & L2 & K2 & V2 & E2 & Tl2 & A2); try done; try lia.
    { intros Hlt. by replace (Z.to_nat c) with (Z.to_nat args.(aea_LeaderCommit)) by lia. }
    eapply (good_saved _ a2); [done| |done|].
    + eapply node_sim_follower; try done; try (by unfold following, caughtUp; case_bool_decide).
      * unfold following, caughtUp. case_bool_decide; apply S.
      * rewrite T2. unfold following, caughtUp. case_bool_decide; simpl; lia.
      * intros v. rewrite V2. apply (ns_vote _ _ _ _ S1).
      * rewrite L2. unfold node_repr, following, caughtUp. by case_bool_decide.
      * rewrite K2. simpl. fold c. lia.
      * simpl. fold c. unfold following, caughtUp. case_bool_decide; simpl; lia.
      * simpl. fold c. lia.
      * apply saved_sync. unfold following, caughtUp. pose proof (ns_lii0 _ _ _ _ S).
        by case_bool_decide.
    + intros ??? [= <- <-] [= <-] _. simpl. rewrite E2, Tl2, Hlen, Nat2Z.id.
      split; [done|]. split; [done|]. split; [lia|done].
Qed.
(** A committed prefix not longer than the node's commit index is in its log. *)
Lemma committed_held T p : committed N a T p → (length p ≤ a.(a_commit) n)%nat →
  p `prefix_of` a.(a_log) n.
Proof.
  intros Hp Hle. destruct (inv_commit _ _ I n) as [Hcl Hcc].
  destruct (committed_comparable _ N_pos a I _ _ _ _ Hp Hcc) as [Hpq|Hqp].
  - etrans; [exact Hpq|apply prefix_take].
  - pose proof (prefix_length _ _ Hqp) as Hq. rewrite length_take_le in Hq by done.
    rewrite <-(prefix_length_eq _ _ Hqp); [apply prefix_take|].
    rewrite length_take_le; lia.
Qed.

Lemma enter_followingSaved t leader :
  rf.(currentTerm) ≤ t →
  ∃ a', move N n a a' ∧ AInv N a' ∧ node_sim a' n (followingSaved t leader rf) els ∧
    a'.(a_term) n = t ∧ a'.(a_log) n = a.(a_log) n ∧ a'.(a_commit) n = a.(a_commit) n ∧
    a'.(a_role) n = StateFollower ∧ same_ghost a a'.
Proof.
  intros Ht. pose proof (ns_term _ _ _ _ S). pose proof (ns_dead _ _ _ _ S).
  assert (0 ≤ rf.(lastIncludedIndex)) as Hlii0 by exact (ns_lii0 _ _ _ _ S).
  apply enter_term; unfold followingSaved, caughtUpSaved; try (by case_bool_decide).
  - lia.
  - case_bool_decide; simpl; lia.
  - case_bool_decide; [|by apply disk_kept].
    exact (saved_sync (newTerm t rf) Hlii0).
Qed.

Lemma caughtUpEffs_ok t leader a' :
  move N n a a' → node_sim a' n (followingSaved t leader rf) els →
  ∀ d, ESave d ∈ caughtUpEffs t rf → ∃ a'', move N n a a'' ∧ disk_ok a'' n d.
Proof.
  intros M S' d. apply node_sim_disk in S'. revert S'.
  unfold caughtUpEffs, followingSaved, caughtUpSaved. case_bool_decide; [|set_solver].
  intros S' [= ->]%list_elem_of_singleton. exists a'. split; [done|]. exact S'.
Qed.

(** The two ways of installing a snapshot of [L], the prefix its sender
    committed: the node entered the sender's term in [a1] and adopted [L] in
    [a2]. *)
Section install.
Context (src : Z) (args : InstallSnapshotArgs) (L : list Entry) (a1 a2 : AState).
Context (Hge : rf.(currentTerm) ≤ args.(isa_Term)).
Context (Hm : matching (a.(a_log) n) L) (HI : indexed L).
Context (Hi : args.(isa_LastIncludedIndex) = zlen L) (Ht : args.(isa_LastIncludedTerm) = lastTerm L).
Context (M1 : move N n a a1).
Context (S1 : node_sim a1 n (followingSaved args.(isa_Term) args.(isa_LeaderId) rf) els).
Context (T1 : a1.(a_term) n = args.(isa_Term)) (L1 : a1.(a_log) n = a.(a_log) n).
Context (M2 : move N n a a2) (T2 : a2.(a_term) n = args.(isa_Term)).
Context (R2 : a2.(a_role) n = StateFollower) (L2 : a2.(a_log) n = adopt L (a.(a_log) n)).
Context (K2 : a2.(a_commit) n = Nat.max (a.(a_commit) n) (length L)) (V2 : a2.(a_vote) n = a1.(a_vote) n).
Context (Hrep : rep_ok a2 n (InstallSnapshotReq args)
  (InstallSnapshotRep {| isr_Term := rf.(currentTerm) |})).

Lemma caughtUpEffs_quiet t : appliedBy (caughtUpEffs t rf) = [].
Proof. unfold caughtUpEffs. by case_bool_decide. Qed.

Lemma install_covered :
  zlen L ≤ rf.(lastIncludedIndex) → L `prefix_of` a.(a_log) n →
  ∃ o, exec (EvDeliver src (InstallSnapshotReq args)) rf els = Some o ∧
    good a n (EvDeliver src (InstallSnapshotReq args)) o.
Proof using All.
  intros Hle Hpre. simpl.
  destruct (run_InstallSnapshot args rf _ L (ns_dead _ _ _ _ S) (ns_log _ _ _ _ S)) as [Hold _]; try done.
  erewrite bind_run by (by apply Hold). run. eexists. split; [done|].
  destruct (followingSaved_same args.(isa_Term) args.(isa_LeaderId) rf) as (F1 & F2 & F3 & F4 & F5).
  pose proof (ns_term _ _ _ _ S1) as Hct. rewrite T1 in Hct. pose proof (ns_commit _ _ _ _ S). pose proof (ns_lii _ _ _ _ S).
  eapply (good_saves _ a2); [done| | | |by intros ?? ?%not_elem_of_nil|by intros ??? [= <- <-] [= <-]].
  - eapply node_sim_follower; try done; try apply S1;
      try (by unfold followingSaved, caughtUpSaved; case_bool_decide); rewrite ?F2, ?F4.
    + by rewrite T2.
    + intros v. rewrite V2. apply S1.
    + rewrite L2. unfold adopt. rewrite decide_True by done. rewrite <-L1. apply S1.
    + rewrite K2. lia.
  - by rewrite appliedBy_app, caughtUpEffs_quiet.
  - intros d [Hd|?%list_elem_of_singleton]%elem_of_app; [exact (caughtUpEffs_ok _ _ _ M1 S1 d Hd)|done].
Qed.

Lemma install_fresh :
  rf.(lastIncludedIndex) < zlen L →
  ∃ o, exec (EvDeliver src (InstallSnapshotReq args)) rf els = Some o ∧
    good a n (EvDeliver src (InstallSnapshotReq args)) o.
Proof using All.
  intros Hgt. simpl.
  destruct (run_InstallSnapshot args rf _ L (ns_dead _ _ _ _ S) (ns_log _ _ _ _ S)) as [_ Hnew]; try done.
  destruct Hnew as (lg & Hrun & Hr); [done|].
  erewrite bind_run by exact Hrun. run. eexists. split; [done|].
  destruct (followingSaved_same args.(isa_Term) args.(isa_LeaderId) rf) as (F1 & F2 & F3 & F4 & F5).
  pose proof (ns_term _ _ _ _ S1) as Hct. rewrite T1 in Hct. pose proof (ns_commit _ _ _ _ S). pose proof (ns_lii _ _ _ _ S).
  set (rf2 := set_commitIndex _ _) in *. set (d := mkDisk _ _) in *.
  assert (node_sim a2 n (set_persister d rf2) els) as S2.
  { eapply node_sim_follower; try done; try apply S1;
      simpl; try (by unfold caughtUpSaved; case_bool_decide); rewrite ?F2, ?F4.
    - by rewrite T2.
    - intros v. rewrite V2. apply S1.
    - by rewrite L2.
    - rewrite K2. lia.
    - lia.
    - lia.
    - by eapply (disk_sync_saved _ args.(isa_Data)); [|simpl; lia]. }
  eapply (good_saves _ a2); [done|done| | |by intros ?? ?%not_elem_of_nil|by intros ??? [= <- <-] [= <-]].
  - by rewrite !appliedBy_app, caughtUpEffs_quiet.
  - intros d' [[Hd|?%list_elem_of_singleton]%elem_of_app|Hd]%elem_of_app;
      [exact (caughtUpEffs_ok _ _ _ M1 S1 d' Hd)|done|].
    assert (d' = d) as -> by set_solver. exists a2. split; [done|]. exact (node_sim_disk _ _ _ _ S2).
Qed.
End install.

Lemma deliver_snapshot src args :
  req_ok a src (InstallSnapshotReq args) →
  ∃ o, exec (EvDeliver src (InstallSnapshotReq args)) rf els = Some o ∧
    good a n (EvDeliver src (InstallSnapshotReq args)) o.
Proof.
  intros (He & k & Hk & Hi & Ht & Hcom).
  destruct (decide (args.(isa_Term) < rf.(currentTerm))) as [Hst|Hge].
  { simpl. erewrite bind_run by (by apply run_InstallSnapshot_stale). run. eexists. split; [done|].
    eapply good_unsaved; [done|done|done|by intros ?? ?%not_elem_of_nil|].
    intros ??? [= <- <-] [= <-]. simpl. lia. }
  destruct (tlog_matching args.(isa_Term) k He) as [Hm HI].
  destruct (enter_followingSaved args.(isa_Term) args.(isa_LeaderId))
    as (a1 & M1 & I1 & S1 & T1 & L1 & K1 & R1 & G1); [lia|].
  set (L := take k (a.(g_tlog) args.(isa_Term))) in *.
  assert (length L = k) as HLk by (unfold L; by rewrite length_take_le).
  destruct (adopt_in args.(isa_Term) a1 k (Nat.max (a.(a_commit) n) k))
    as (a2 & M2 & T2 & R2 & L2 & K2 & V2 & E2 & Tl2 & A2); try done; try lia.
  { intros Hlt. by rewrite Nat.max_r by lia. }
  fold L in L2. rewrite <-HLk in K2.
  assert (rep_ok a2 n (InstallSnapshotReq args)
    (InstallSnapshotRep {| isr_Term := rf.(currentTerm) |})) as Hrep.
  { intros _. rewrite E2, Tl2, Hi, Nat2Z.id. split; [done|]. split; [lia|done]. }
  assert (args.(isa_LastIncludedTerm) = lastTerm L) as Ht' by (rewrite Ht; unfold L; by rewrite lastTerm_take).
  destruct (decide (zlen L ≤ rf.(lastIncludedIndex))) as [Hle|Hgt].
  - eapply (install_covered src args L a1 a2); try done; [lia|lia|].
    pose proof (ns_commit _ _ _ _ S). pose proof (ns_lii _ _ _ _ S).
    eapply committed_held; [done|lia].
  - eapply (install_fresh src args L a1 a2); try done; lia.
Qed.
End events.
End sim.
