(* ===== verification/ClusterLocal.v ===== *)
(** * Events that start at a node

    The simulation of [ClusterSim.v] for the timers, the replies to the node's
    own calls, the client calls and the applier; then for whole steps of the
    cluster and for all its runs. *)

From stdpp Require Import functions.
From S2P Require Import Prelude Api Raft Protocol RaftFacts Cluster ClusterSim.

Local Open Scope Z_scope.

Section sim.
Context (N : Z) (N_pos : 0 < N).

Ltac other := intros m ?; simpl; rewrite ?fn_lookup_insert_ne by done; done.

(** ** Moves of candidates and leaders *)

Lemma mv_candidate a n : AInv N a →
  ∃ a', move N n a a' ∧ a'.(a_term) n = a.(a_term) n + 1 ∧ a'.(a_role) n = StateCandidate ∧
    a'.(a_log) n = a.(a_log) n ∧ a'.(a_commit) n = a.(a_commit) n ∧
    a'.(a_vote) n = Some n ∧
    a'.(g_cand) (n, a.(a_term) n + 1) = Some (a.(a_log) n) ∧
    a'.(g_vote) (n, a.(a_term) n + 1) = Some (n, a.(a_log) n).
Proof.
  intros I. eexists.
  split; [apply move_once; [done..|by apply (A_candidate _ _ n (a.(a_term) n + 1))|other|no_new|no_new]|].
  simpl. rewrite !fn_lookup_insert. done.
Qed.

Lemma mv_elect a n Q : AInv N a → a.(a_role) n = StateCandidate → majority N Q →
  (∀ m, m ∈ Q → ∃ v, a.(g_vote) (m, a.(a_term) n) = Some (n, v)) →
  ∃ a', move N n a a' ∧ a'.(a_term) n = a.(a_term) n ∧ a'.(a_role) n = StateLeader ∧
    a'.(a_log) n = a.(a_log) n ∧ a'.(a_commit) n = a.(a_commit) n ∧
    a'.(a_vote) n = a.(a_vote) n ∧ ack a' n (a.(a_term) n) (length (a.(a_log) n)).
Proof.
  intros I Hr HQ Hv. eexists.
  split; [apply move_once; [done..|by apply (A_elect _ _ n Q (a.(a_term) n))|other|no_new|]|].
  { intros t e [?|?]%elem_of_fn_insert; left; [left; by exists n|right; by exists t]. }
  simpl. rewrite !fn_lookup_insert. repeat (split; [done|]).
  exists (length (a.(a_log) n)). split; [done|]. simpl. set_solver.
Qed.

Lemma mv_append a n cmd : AInv N a → a.(a_role) n = StateLeader →
  let l := a.(a_log) n ++ [mkEntry (zlen (a.(a_log) n) + 1) (a.(a_term) n) cmd] in
  ∃ a', moves N (newEntry (EvStart cmd) a n) n a a' ∧
    a'.(a_term) n = a.(a_term) n ∧ a'.(a_role) n = StateLeader ∧ a'.(a_log) n = l ∧ a'.(a_commit) n = a.(a_commit) n ∧
    a'.(a_vote) n = a.(a_vote) n ∧ ack a' n (a.(a_term) n) (length l).
Proof.
  intros I Hr l. eexists.
  split; [apply move_once; [done..|by eapply (A_append _ _ n cmd)|other| |]|].
  1,2: intros x e [[?|?%list_elem_of_singleton]%elem_of_app|?]%elem_of_fn_insert;
    [left; left; by exists n|by right|left; first [by left; exists x|by right; exists x]].
  simpl. rewrite !fn_lookup_insert. repeat (split; [done|]).
  exists (length l). split; [done|]. simpl. set_solver.
Qed.

Lemma node_sim_els a n rf els els' :
  node_sim N a n rf els → (∀ el, el ∈ els' → el_ok N a n el) → node_sim N a n rf els'.
Proof. intros S H. split; try apply S. done. Qed.

(** The calls of an election go to the other nodes. *)
Lemma voteCalls_app e1 e2 : voteCalls (e1 ++ e2) = voteCalls e1 ++ voteCalls e2.
Proof. unfold voteCalls. by rewrite omap_app. Qed.

Lemma voteCalls_requests rf args p args' :
  (p, args') ∈ voteCalls (requestVoteCalls rf args) →
  args' = args ∧ 0 ≤ p < rf.(peers) ∧ p ≠ rf.(me).
Proof.
  unfold voteCalls. rewrite list_elem_of_omap. intros (e & He & Hp).
  unfold requestVoteCalls in He. apply list_elem_of_bind in He as (q & Hq & Hr).
  unfold range in Hr. rewrite elem_of_seqZ in Hr.
  case_bool_decide; [set_solver|]. apply list_elem_of_singleton in Hq as ->.
  simplify_eq. split; [done|]. split; [lia|done].
Qed.

Lemma requestVoteCalls_inert rf args : Forall inert (requestVoteCalls rf args).
Proof. apply inert_bind. intros p. by case_bool_decide; repeat constructor. Qed.

Lemma run_signalBroadcastReplication b rf :
  ∃ effs, signalBroadcastReplication b rf = Some (tt, rf, effs) ∧ Forall inert effs.
Proof.
  unfold signalBroadcastReplication. run.
  erewrite (for_each_emit _ _ (λ peer, if bool_decide (peer = rf.(me)) then []
    else if b then [EGoReplicate peer] else [ESignalReplicator peer])).
  - eexists. split; [done|]. apply inert_bind. intros x.
    case_bool_decide; [done|]. destruct b; by repeat constructor.
  - intros x s. case_bool_decide; [done|]. by destruct b.
Qed.

Lemma run_shouldIgnoreReply_gt at_ rt rf :
  rf.(dead) = false → rf.(currentTerm) < rt →
  shouldIgnoreReply at_ rt rf =
    let rf' := saved (set_state StateFollower (newTerm rt rf)) in
    Some (true, rf', [ESave rf'.(persister); EResetElectionTimer]).
Proof.
  intros Hd Ht. unfold shouldIgnoreReply.
  erewrite bind_run by (by apply run_handleHigherTerm_gt). run. done.
Qed.

Lemma run_shouldIgnoreReply_le at_ rt rf :
  rt ≤ rf.(currentTerm) →
  shouldIgnoreReply at_ rt rf =
    Some (bool_decide (rf.(state) ≠ StateLeader) || bool_decide (rf.(currentTerm) ≠ at_), rf, []).
Proof.
  intros Ht. unfold shouldIgnoreReply.
  erewrite bind_run by (by apply run_handleHigherTerm_le). run. done.
Qed.

Lemma set_nextIndex_id rf : set_nextIndex rf.(nextIndex) rf = rf.
Proof. by destruct rf. Qed.

Lemma set_matchIndex_id rf : set_matchIndex rf.(matchIndex) rf = rf.
Proof. by destruct rf. Qed.

Section events.
Context (a : AState) (I : AInv N a) (n : Z) (Hn : isNode N n).
Context (rf : Raft) (els : list Election) (S : node_sim N a n rf els).

Lemma node_shaped : shaped rf.
Proof.
  pose proof (ns_me _ _ _ _ _ S). pose proof (ns_peers _ _ _ _ _ S). unfold isNode in Hn.
  pose proof (ns_next_len _ _ _ _ _ S). pose proof (ns_match_len _ _ _ _ _ S).
  repeat split; lia.
Qed.

(** A reply with a higher term. *)
Lemma good_stepdown ev t els' :
  rf.(currentTerm) < t → (∀ el, el ∈ els' → el_ok N a n el) →
  let rf' := saved (set_state StateFollower (newTerm t rf)) in
  good N a n ev (mkOutcome rf' [ESave rf'.(persister); EResetElectionTimer] els' [] None).
Proof.
  intros Ht Hels rf'. pose proof (ns_term _ _ _ _ _ S).
  edestruct (enter_term N N_pos a I n rf els S t rf') as (a' & M & I' & S' & _); try done.
  - lia.
  - by rewrite bool_decide_true.
  - apply S.
  - apply saved_sync. exact (ns_lii0 _ _ _ _ _ S).
  - eapply (good_saves _ _ a'); [by apply move_any| |done| |by intros ?? ?%not_elem_of_nil|done].
    + eapply node_sim_els; [done|]. intros el Hel.
      eapply el_ok_mono; [by apply (move_gext _ _ _ _ M)|auto].
    + intros d Hd. assert (d = rf'.(persister)) as -> by set_solver.
      exists a'. split; [by apply move_any|]. by eapply node_sim_disk.
Qed.

(** Nothing happened but signals, and vote collections may have gone on. *)
Lemma good_counting ev effs els' :
  (∀ el, el ∈ els' → el_ok N a n el) → Forall inert effs →
  good N a n ev (mkOutcome rf effs els' [] None).
Proof.
  intros. eapply good_unsaved; [done|by eapply node_sim_els|done| |done].
  by intros ?? ?%not_elem_of_nil.
Qed.

Lemma good_quiet ev effs : Forall inert effs → good N a n ev (mkOutcome rf effs els [] None).
Proof. apply good_counting. apply S. Qed.

(** ** Timers *)

Lemma event_heartbeat :
  ∃ o, exec EvHeartbeat rf els = Some o ∧ good N a n EvHeartbeat o.
Proof.
  simpl. unfold ticker_heartbeat. rewrite bind_get. case_bool_decide.
  - destruct (run_signalBroadcastReplication true rf) as (effs & Hr & Hin).
    erewrite bind_run by exact Hr. run. eexists. split; [done|].
    apply good_quiet. apply Forall_app. split; [done|]. by repeat constructor.
  - run. eexists. split; [done|]. by apply good_quiet.
Qed.

(** The first save of an election has the new term with the old vote. *)
Lemma candidate_disk :
  let rf1 := saved (set_currentTerm (rf.(currentTerm) + 1) (set_state StateCandidate rf)) in
  ∃ a', move N n a a' ∧ disk_ok N a' n rf1.(persister).
Proof.
  intros rf1. pose proof (ns_term _ _ _ _ _ S) as HT.
  destruct (mv_follow N N_pos a n (rf.(currentTerm) + 1)) as (a' & M & T & R & L & K & V & G);
    [done|lia|]. rewrite bool_decide_true in V by lia.
  exists a'. split; [done|]. exists (restarted rf1).
  assert (Make N n rf1.(persister) = Some (restarted rf1)) as HM.
  { rewrite <-(ns_peers _ _ _ _ _ S), <-(ns_me _ _ _ _ _ S) at 1.
    exact (saved_sync (set_currentTerm _ (set_state StateCandidate rf)) (ns_lii0 _ _ _ _ _ S)). }
  split; [done|]. split; simpl; try apply S; try done.
  - by rewrite V.
  - rewrite L. apply S.
  - rewrite K, <-(ns_commit _ _ _ _ _ S). apply S.
Qed.
Lemma event_timeout :
  ∃ o, exec EvElectionTimeout rf els = Some o ∧ good N a n EvElectionTimeout o.
Proof.
  simpl. unfold ticker_election. rewrite bind_get. case_bool_decide as Hl.
  { run. eexists. split; [done|]. apply good_quiet. by repeat constructor. }
  rewrite (run_becomeCandidate rf _ (ns_dead _ _ _ _ _ S) (ns_log _ _ _ _ _ S)). simpl.
  eexists. split; [done|].
  pose proof (ns_term _ _ _ _ _ S) as HT. pose proof (ns_me _ _ _ _ _ S) as Hme.
  set (args := Build_RequestVoteArgs _ _ _ _).
  assert (∀ p args', (p, args') ∈ voteCalls (requestVoteCalls rf args ++ [EResetElectionTimer]) →
    args' = args ∧ isNode N p ∧ p ≠ n) as Hcalls.
  { intros p args'. rewrite voteCalls_app, elem_of_app. intros [Hp|?%not_elem_of_nil]; [|done].
    apply voteCalls_requests in Hp as (-> & Hp & Hne).
    rewrite Hme in Hne. rewrite (ns_peers _ _ _ _ _ S) in Hp. done. }
  destruct (mv_candidate a n I) as (a' & M & T & R & L & K & V & C & G).
  pose proof (move_gext _ _ _ _ M) as X.
  set (rf2 := saved _).
  assert (node_sim N a' n rf2 (openElection (requestVoteCalls rf args ++ [EResetElectionTimer]) els)) as S2.
  { split; simpl; rewrite ?T, ?R, ?L, ?K, ?V; try apply S; try done.
    - lia.
    - intros c [= <-]. unfold isNode in Hn. lia.
    - apply saved_sync. exact (ns_lii0 _ _ _ _ _ S).
    - unfold openElection.
      assert (∀ el, el ∈ els → el_ok N a' n el) as Hels.
      { intros el Hel. eapply el_ok_mono; [done|]. by apply (ns_els _ _ _ _ _ S). }
      destruct (voteCalls _) as [|[p args'] rest] eqn:Hv; [done|].
      intros el [->|Hel]%elem_of_cons; [|auto].
      destruct (Hcalls p args') as (-> & _ & _); [set_solver|].
      split; [done|]. simpl. rewrite HT. split; [by eexists|]. split.
      + intros q Hq. change (q ∈ ((p, args) :: rest).*1) in Hq.
        apply list_elem_of_fmap in Hq as ([q' args'] & -> & Hq). by eapply Hcalls.
      + exists ∅. split; [by rewrite size_empty|]. set_solver. }
  eapply (good_saves _ _ a'); [done|done| | | |done].
  - simpl. rewrite appliedBy_app, inert_applied by apply requestVoteCalls_inert. done.
  - intros d [[= ->]|[[= ->]|Hd]%elem_of_cons]%elem_of_cons.
    + apply candidate_disk.
    + exists a'. split; [done|]. exact (node_sim_disk _ _ _ _ _ S2).
    + exfalso. eapply inert_no_save; [|exact Hd]. apply Forall_app.
      split; [apply requestVoteCalls_inert|]. by repeat constructor.
  - intros p req Hp. apply list_elem_of_fmap in Hp as ([p' args'] & [= -> ->] & Hp).
    destruct (Hcalls _ _ Hp) as (-> & _ & _). simpl. split; [done|]. split; [done|].
    rewrite HT. eauto.
Qed.

(** ** Votes coming in *)

Lemma count_vote i peer reply el :
  els !! i = Some el → peer ∈ el.(el_waiting) →
  rep_ok a peer (RequestVoteReq el.(el_args)) (RequestVoteRep reply) →
  ∃ G : gset Z,
    (if reply.(rvr_VoteGranted) then el.(el_granted) + 1 else el.(el_granted))
      = 1 + Z.of_nat (size G) ∧
    (∀ p, p ∈ G → isNode N p ∧ p ≠ n ∧ (p ∉ filter (.≠ peer) el.(el_waiting)) ∧
      ∃ v, a.(g_vote) (p, el.(el_args).(rva_Term)) = Some (n, v)).
Proof.
  intros Hi Hw Hrep.
  destruct (ns_els _ _ _ _ _ S el) as (Hc & Hown & Hwait & G & Hg & HG);
    [by eapply list_elem_of_lookup_2|].
  destruct reply.(rvr_VoteGranted) eqn:Hgr.
  - exists ({[peer]} ∪ G). assert (peer ∉ G) by (intros (_ & _ & Hnw & _)%HG; done). split.
    + rewrite size_union by set_solver. rewrite size_singleton. lia.
    + intros p [->%elem_of_singleton|Hp]%elem_of_union.
      * destruct (Hwait peer Hw). split; [done|]. split; [done|].
        split; [by rewrite list_elem_of_filter; intros [? _]|].
        destruct (Hrep Hgr) as [v Hv]. rewrite Hc in Hv. eauto.
      * destruct (HG p Hp) as (? & ? & ? & ?). repeat (split; [done|]).
      split; [|done]. by rewrite list_elem_of_filter; intros [_ ?].
  - exists G. split; [done|]. intros p Hp.
    destruct (HG p Hp) as (? & ? & ? & ?). repeat (split; [done|]).
      split; [|done]. by rewrite list_elem_of_filter; intros [_ ?].
Qed.

Lemma el_ok_counted i peer el g waiting' :
  els !! i = Some el →
  (∃ G : gset Z, g = 1 + Z.of_nat (size G) ∧
    (∀ p, p ∈ G → isNode N p ∧ p ≠ n ∧ (p ∉ waiting') ∧
      ∃ v, a.(g_vote) (p, el.(el_args).(rva_Term)) = Some (n, v))) →
  waiting' = filter (.≠ peer) el.(el_waiting) →
  ∀ el', el' ∈ <[i := mkElection el.(el_args) g waiting']> els → el_ok N a n el'.
Proof.
  intros Hi HG -> el' Hel'.
  apply list_elem_of_lookup in Hel' as [j Hj].
  destruct (decide (j = i)) as [->|Hne].
  - rewrite list_lookup_insert_eq in Hj by (by eapply lookup_lt_Some). injection Hj as <-.
    destruct (ns_els _ _ _ _ _ S el) as (Hc & Hown & Hwait & _);
      [by eapply list_elem_of_lookup_2|].
    repeat (split; [done|]). split; [|done]. simpl. intros p Hp.
    apply Hwait. by apply list_elem_of_filter in Hp as [_ ?].
  - rewrite list_lookup_insert_ne in Hj by done.
    apply (ns_els _ _ _ _ _ S). by eapply list_elem_of_lookup_2.
Qed.
(** The votes that were counted make a quorum. *)
Lemma vote_quorum t (G : gset Z) g :
  g = 1 + Z.of_nat (size G) → g = N `quot` 2 + 1 →
  (∃ v, a.(g_vote) (n, t) = Some (n, v)) →
  (∀ p, p ∈ G → isNode N p ∧ p ≠ n ∧ ∃ v, a.(g_vote) (p, t) = Some (n, v)) →
  ∃ Q, majority N Q ∧ ∀ m, m ∈ Q → ∃ v, a.(g_vote) (m, t) = Some (n, v).
Proof.
  intros Hg Hq Hown HG. exists ({[n]} ∪ G).
  assert (n ∉ G) by (intros (_ & Hne & _)%HG; done).
  split; [split|].
  - intros p Hp. unfold nodes. rewrite elem_of_list_to_set, elem_of_seqZ.
    unfold isNode in *. apply elem_of_union in Hp as [->%elem_of_singleton|Hp]; [lia|].
    destruct (HG p Hp) as (? & _). lia.
  - rewrite size_union by set_solver. rewrite size_singleton.
    rewrite Z.quot_div_nonneg in Hq by lia. pose proof (Z.mod_pos_bound N 2).
    pose proof (Z.div_mod N 2). lia.
  - intros m [->%elem_of_singleton|Hm]%elem_of_union; [done|]. by apply HG.
Qed.

(** A candidate with the votes of a quorum becomes leader. *)
Lemma good_elected ev effs els' Q :
  rf.(state) = StateCandidate → majority N Q →
  (∀ m, m ∈ Q → ∃ v, a.(g_vote) (m, a.(a_term) n) = Some (n, v)) →
  (∀ el, el ∈ els' → el_ok N a n el) → Forall inert effs →
  good N a n ev (mkOutcome (leading (zlen (a.(a_log) n)) rf) effs els' [] None).
Proof.
  intros Hst HQ Hv Hels Hin.
  pose proof (ns_peers _ _ _ _ _ S) as HP. pose proof (ns_me _ _ _ _ _ S) as Hme.
  destruct (mv_elect a n Q) as (a' & M & T & R & L & K & V & A);
    [done|by rewrite <-(ns_role _ _ _ _ _ S)|done..|].
  pose proof (move_gext _ _ _ _ M) as X.
  eapply (good_unsaved _ _ a'); [done| |done|by intros ?? ?%not_elem_of_nil|done].
  split; simpl; rewrite ?T, ?R, ?L, ?K, ?V, ?HP, ?Hme; try apply S; try done.
  - rewrite length_replicate. lia.
  - rewrite length_insert, length_replicate. lia.
  - intros p x _ Hx. apply lookup_replicate in Hx as [-> _]. done.
  - intros p x _ Hx. destruct (decide (p = Z.to_nat n)) as [->|Hne].
    + apply list_lookup_insert_Some in Hx as [(_ & <- & _)|[? _]]; [|done].
      right. unfold isNode in Hn. rewrite Nat2Z.id, Z2Nat.id by lia. done.
    + rewrite list_lookup_insert_ne in Hx by done.
      apply lookup_replicate in Hx as [-> _]. by left.
  - intros el' Hel'. eapply el_ok_mono; [done|]. by apply Hels.
Qed.

Lemma event_voteReply i peer reply el :
  els !! i = Some el → peer ∈ el.(el_waiting) →
  rep_ok a peer (RequestVoteReq el.(el_args)) (RequestVoteRep reply) →
  ∃ o, exec (EvVoteReply i peer reply) rf els = Some o ∧
    good N a n (EvVoteReply i peer reply) o.
Proof.
  intros Hi Hw Hrep. simpl. rewrite Hi.
  destruct (ns_els _ _ _ _ _ S el) as (Hc & Hown & Hwait & G0 & Hg0 & HG0);
    [by eapply list_elem_of_lookup_2|].
  assert (∀ el', el' ∈ <[i := mkElection el.(el_args) el.(el_granted)
    (filter (.≠ peer) el.(el_waiting))]> els → el_ok N a n el') as Hkeep.
  { eapply el_ok_counted; [done| |done]. exists G0. split; [done|]. intros p Hp.
    destruct (HG0 p Hp) as (? & ? & ? & ?). repeat (split; [done|]). split; [|done].
    by rewrite list_elem_of_filter; intros [_ ?]. }
  destruct (isStillValidCandidate rf el.(el_args).(rva_Term)) eqn:Hval.
  2:{ rewrite run_requestVote_invalid by done. simpl. eexists. split; [done|].
      by apply good_counting. }
  destruct (decide (rf.(currentTerm) < reply.(rvr_Term))) as [Hlt|Hge].
  { rewrite run_requestVote_higher; [|apply S|done..]. simpl. eexists. split; [done|].
    by apply good_stepdown. }
  destruct (run_requestVote el.(el_args) el.(el_granted) reply rf (a.(a_log) n))
    as (effs & Hrun & Hin); [done|lia|apply node_shaped|apply S|].
  rewrite Hrun. simpl. eexists. split; [done|].
  destruct (count_vote i peer reply el) as (G & Hg & HG); [done..|].
  assert (∀ el', el' ∈ <[i := mkElection el.(el_args)
    (if reply.(rvr_VoteGranted) then el.(el_granted) + 1 else el.(el_granted))
    (filter (.≠ peer) el.(el_waiting))]> els → el_ok N a n el') as Hels.
  { eapply el_ok_counted; [done| |done]. eauto. }
  destruct (reply.(rvr_VoteGranted) && _) eqn:Hwin; simpl; rewrite ?Hwin.
  2:{ by apply good_counting. }
  apply andb_true_iff in Hwin as [Hgr Hq%bool_decide_eq_true]. rewrite Hgr in *.
  unfold isStillValidCandidate in Hval.
  apply andb_true_iff in Hval as [Hst%bool_decide_eq_true Hct%bool_decide_eq_true].
  pose proof (ns_term _ _ _ _ _ S) as HT. pose proof (ns_peers _ _ _ _ _ S) as HP.
  rewrite <-Hct, HT in *.
  destruct (vote_quorum (a.(a_term) n) G _ Hg) as (Q & HQ & Hv);
    [by rewrite Hq, HP|done| |].
  { intros p Hp. destruct (HG p Hp) as (? & ? & _ & ?). done. }
  by eapply good_elected.
Qed.
(** ** Sending *)

Lemma leader_log : rf.(state) = StateLeader →
  is_Some (a.(g_elec) (a.(a_term) n)) ∧ a.(g_tlog) (a.(a_term) n) = a.(a_log) n.
Proof.
  intros Hl. rewrite (ns_role _ _ _ _ _ S) in Hl.
  destruct (inv_role_leader _ _ I n Hl) as [(el & Q & He) Htl]. split; [by eexists|done].
Qed.

Lemma commit_bounds :
  0 ≤ rf.(lastIncludedIndex) ≤ rf.(commitIndex) ∧ rf.(commitIndex) ≤ zlen (a.(a_log) n).
Proof.
  pose proof (ns_lii0 _ _ _ _ _ S). pose proof (ns_lii _ _ _ _ _ S).
  pose proof (ns_commit _ _ _ _ _ S). destruct (inv_commit _ _ I n). lia.
Qed.

Lemma event_replicate peer :
  isNode N peer →
  ∃ o, exec (EvReplicate peer) rf els = Some o ∧ good N a n (EvReplicate peer) o.
Proof.
  intros Hpeer. simpl. destruct (decide (rf.(state) = StateLeader)) as [Hl|Hl].
  2:{ unfold replicateToPeer. rewrite bool_decide_true by done. simpl. eexists.
      split; [done|]. by apply good_quiet. }
  destruct (slice_get_in rf.(nextIndex) peer) as [next Hnext];
    [rewrite (ns_next_len _ _ _ _ _ S); exact Hpeer|].
  destruct (leader_log Hl) as [He Htl]. pose proof commit_bounds as [[? ?] ?].
  destruct (inv_commit _ _ I n) as [_ Hcom]. pose proof (ns_commit _ _ _ _ _ S) as HK.
  pose proof (ns_term _ _ _ _ _ S) as HT.
  destruct (replicateToPeer_spec rf (a.(a_log) n) peer next)
    as [[Hle Hr]|(Hgt & args & Hr & HC & Ht & _ & _ & Hlc)]; [apply S|done|done| | |].
  - apply slice_get_Some in Hnext as [_ Hnext]. by eapply (ns_next _ _ _ _ _ S).
  - rewrite Hr. simpl. eexists. split; [done|].
    eapply good_unsaved; [done|done|done| |done].
    intros p req Hp. assert (req = InstallSnapshotReq (genInstallSnapshotArgs rf)) as -> by set_solver.
    destruct (ns_log _ _ _ _ _ S) as [? _ Hterm _].
    simpl. rewrite HT, Htl. split; [done|]. exists (Z.to_nat rf.(lastIncludedIndex)).
    split; [lia|]. split; [lia|]. split; [done|].
    eapply committed_prefix; [done|]. apply prefix_take_mono. lia.
  - rewrite Hr. simpl. eexists. split; [done|].
    eapply good_unsaved; [done|done|done| |done].
    intros p req Hp. assert (req = AppendEntriesReq args) as -> by set_solver.
    simpl. rewrite Ht, HT, Htl, Hlc, HK, Nat2Z.id. split; [done|]. split; [|done].
    exists (length (a.(a_log) n)). rewrite firstn_all. split; [done|]. split; [done|]. lia.
Qed.

(** ** Client calls and the applier *)

Lemma event_start cmd :
  ∃ o, exec (EvStart cmd) rf els = Some o ∧ good N a n (EvStart cmd) o.
Proof.
  simpl. destruct (decide (rf.(state) = StateLeader)) as [Hl|Hl].
  2:{ rewrite run_Start_follower by done. simpl. eexists. split; [done|]. by apply good_quiet. }
  destruct (run_Start cmd rf (a.(a_log) n)) as (effs & Hrun & Hin & Hr); [apply S|apply S|done|].
  rewrite Hrun. simpl. eexists. split; [done|].
  set (rf' := saved _) in *.
  destruct (mv_append a n cmd) as (a' & M & T & R & L & K & V & A);
    [done|by rewrite <-(ns_role _ _ _ _ _ S)|].
  pose proof (move_gext _ _ _ _ M) as X. rewrite (ns_term _ _ _ _ _ S) in Hr.
  assert (node_sim N a' n rf' els) as S'.
  { split; rewrite ?T, ?R, ?L, ?K, ?V; try apply S; try done.
    - apply saved_sync. exact (ns_lii0 _ _ _ _ _ S).
    - intros p x _ Hx. pose proof (ns_next _ _ _ _ _ S p x Hl Hx).
      rewrite length_app. simpl. lia.
    - intros p x _ Hx. destruct (ns_match _ _ _ _ _ S p x Hl Hx); [by left|right].
      by eapply ack_mono.
    - intros el Hel. eapply el_ok_mono; [done|]. by apply (ns_els _ _ _ _ _ S). }
  eapply (good_saves _ _ a'); [done|done| | |by intros ?? ?%not_elem_of_nil|done].
  - simpl. by apply inert_applied.
  - intros d [[= ->]|Hd]%elem_of_cons; [|exfalso; by eapply inert_no_save].
    exists a'. split; [done|]. exact (node_sim_disk _ _ _ _ _ S').
Qed.

Lemma event_snapshot index snap :
  ∃ o, exec (EvSnapshot index snap) rf els = Some o ∧ good N a n (EvSnapshot index snap) o.
Proof.
  simpl. pose proof commit_bounds as [[? ?] ?].
  destruct (decide (rf.(lastIncludedIndex) < index ≤ rf.(commitIndex))) as [Hi|Hi].
  2:{ rewrite run_Snapshot_skip by lia. simpl. eexists. split; [done|]. by apply good_quiet. }
  destruct (run_Snapshot index snap rf (a.(a_log) n)) as (lg & Hrun & Hr); [apply S|done..|].
  rewrite Hrun. simpl. eexists. split; [done|].
  set (rf1 := set_lastIncludedTerm _ _) in *. set (d := mkDisk _ _).
  eapply (good_saved _ _ a _ _ (set_persister d rf1) []); [done| |done|done].
  split; try apply S; [done|simpl; lia| |].
  - eapply (disk_sync_saved _ snap); [done|simpl; lia].
  - intros p x Hl Hx. destruct (ns_match _ _ _ _ _ S p x Hl Hx); [left; simpl; lia|by right].
Qed.

Lemma event_apply : ∃ o, exec EvApply rf els = Some o ∧ good N a n EvApply o.
Proof.
  simpl. pose proof commit_bounds as [[? ?] ?]. pose proof (ns_applied _ _ _ _ _ S).
  destruct (decide (rf.(commitIndex) ≤ rf.(lastApplied))) as [Hw|Hw].
  { rewrite run_applier_wait by done. simpl. eexists. split; [done|]. by apply good_quiet. }
  destruct (decide (rf.(lastApplied) < rf.(lastIncludedIndex))) as [Hs|Hs].
  { rewrite run_applier_snapshot by lia. simpl. eexists. split; [done|].
    split; [|intros d Hd; set_solver].
    exists a. split; [done|]. split; [split; try apply S; simpl; lia|].
    split; [by intros ?? ?%not_elem_of_nil|]. split; [done|].
    intros m Hm. assert (m = snapshotMsg rf) as -> by set_solver. by intros ?. }
  rewrite (run_applier_entries rf (a.(a_log) n)); [|apply S|lia|lia]. simpl.
  eexists. split; [done|]. set (es := entriesBetween _ _ _).
  split.
  2:{ intros d Hd. simpl in Hd. apply list_elem_of_fmap in Hd as (e & [=] & _). }
  exists a. split; [done|]. split; [split; try apply S; simpl; lia|].
  split; [by intros ?? ?%not_elem_of_nil|]. split; [done|].
  intros m Hm _. simpl in Hm. unfold appliedBy in Hm.
  apply list_elem_of_omap in Hm as (e & He & Hm).
  apply list_elem_of_fmap in He as (en & -> & Hen). injection Hm as <-.
  unfold es, entriesBetween in Hen. apply list_elem_of_lookup in Hen as [j Hj].
  apply lookup_take_Some in Hj as [Hj Hlt]. rewrite lookup_drop in Hj.
  destruct (inv_commit _ _ I n) as [_ Hcom]. pose proof (ns_commit _ _ _ _ _ S).
  exists (a.(a_term) n), (take (a.(a_commit) n) (a.(a_log) n)), (Z.to_nat rf.(lastApplied) + j)%nat, en.
  split; [done|]. split; [rewrite lookup_take_lt; [done|lia]|].
  split; [|done]. simpl. destruct (ns_log _ _ _ _ _ S) as [_ Hidx _ _]. by apply Hidx.
Qed.
(** ** Replies to the leader's calls *)

(** A leader that learned something about its peers. *)
Lemma node_sim_learned ni mi :
  rf.(state) = StateLeader → zlen ni = N → zlen mi = N →
  (∀ p x, ni !! p = Some x → x ≤ zlen (a.(a_log) n) + 1) →
  (∀ p x, mi !! p = Some x → x ≤ rf.(lastIncludedIndex) ∨
     ack a (Z.of_nat p) (a.(a_term) n) (Z.to_nat x)) →
  node_sim N a n (set_nextIndex ni (set_matchIndex mi rf)) els.
Proof. intros Hl Hni Hmi Hn' Hm. split; try apply S; simpl; eauto. Qed.

Lemma next_inserted peer i :
  rf.(state) = StateLeader → i ≤ zlen (a.(a_log) n) + 1 →
  ∀ p x, <[peer := i]> rf.(nextIndex) !! p = Some x → x ≤ zlen (a.(a_log) n) + 1.
Proof.
  intros Hl Hi p x Hx. apply list_lookup_insert_Some in Hx as [(_ & <- & _)|[_ Hx]]; [done|].
  by eapply (ns_next _ _ _ _ _ S).
Qed.

Lemma match_inserted peer i :
  rf.(state) = StateLeader → isNode N peer → ack a peer (a.(a_term) n) (Z.to_nat i) →
  ∀ p x, <[Z.to_nat peer := i]> rf.(matchIndex) !! p = Some x → x ≤ rf.(lastIncludedIndex) ∨
    ack a (Z.of_nat p) (a.(a_term) n) (Z.to_nat x).
Proof.
  intros Hl [? _] Hi p x Hx.
  apply list_lookup_insert_Some in Hx as [(<- & <- & _)|[_ Hx]].
  - right. by rewrite Z2Nat.id by done.
  - by eapply (ns_match _ _ _ _ _ S).
Qed.

(** What the leader may commit is committed. *)
Lemma committable_committed m :
  rf.(state) = StateLeader → rf.(commitIndex) < m ≤ zlen (a.(a_log) n) →
  committable rf (a.(a_log) n) m →
  committed N a (a.(a_term) n) (take (Z.to_nat m) (a.(a_log) n)).
Proof.
  intros Hl Hm [Hterm Hcount]. destruct (leader_log Hl) as [He Htl].
  destruct (countNodes_quorum rf m node_shaped Hcount) as (Q & HQ & Hall).
  rewrite (ns_peers _ _ _ _ _ S) in HQ. pose proof (ns_me _ _ _ _ _ S) as Hme.
  pose proof (ns_lii _ _ _ _ _ S).
  right. exists (a.(a_term) n). split; [done|]. split; [done|].
  exists (Z.to_nat m), Q. rewrite Htl. split; [done|]. split; [lia|].
  split; [by rewrite Hterm, (ns_term _ _ _ _ _ S)|]. split; [|done].
  intros j Hj. destruct (Hall j Hj) as (Hj0 & [->|(x & Hx & Hle)]).
  - rewrite Hme. destruct (ns_self _ _ _ _ _ S Hl) as (k & Hk & Hin).
    exists k. split; [lia|done].
  - destruct (ns_match _ _ _ _ _ S _ _ Hl Hx) as [?|(k & Hk & Hin)]; [lia|].
    rewrite Z2Nat.id in Hin by lia. exists k. split; [lia|done].
Qed.

Lemma leader_commits ev pre :
  rf.(state) = StateLeader → Forall inert pre →
  ∃ rf' effs, updateCommitIndex rf = Some (tt, rf', effs) ∧
    good N a n ev (mkOutcome rf' (pre ++ effs) els [] None).
Proof.
  intros Hl Hpre. pose proof commit_bounds as [[? ?] ?].
  destruct (run_updateCommitIndex rf (a.(a_log) n)) as (effs & Hin & [[Hrun _]|Hfound]);
    [apply S|lia| |].
  - exists rf, effs. split; [done|]. apply good_quiet. by apply Forall_app.
  - destruct Hfound as (m & Hrun & Hm & Hcm & _). exists (set_commitIndex m rf), effs.
    split; [done|].
    destruct (mv_commit N N_pos a n (Z.to_nat m)) as (a' & M & T & R & L & K & V & G);
      [done|lia|by apply committable_committed|].
    pose proof (move_gext _ _ _ _ M) as X. pose proof (ns_applied _ _ _ _ _ S).
    eapply (good_unsaved _ _ a'); [done| |by apply Forall_app|by intros ?? ?%not_elem_of_nil|done].
    split; simpl; rewrite ?T, ?R, ?L, ?K, ?V; try apply S; try lia.
    + intros p x _ Hx. destruct (ns_match _ _ _ _ _ S p x Hl Hx); [by left|right].
      by eapply ack_mono.
    + intros _. eapply ack_mono; [done|]. by apply (ns_self _ _ _ _ _ S).
    + intros el Hel. eapply el_ok_mono; [done|]. by apply (ns_els _ _ _ _ _ S).
Qed.
End events.

Section replies.
Context (a : AState) (I : AInv N a) (n : Z) (Hn : isNode N n).
Context (rf : Raft) (els : list Election) (S : node_sim N a n rf els).

Lemma event_appendReply peer args reply :
  isNode N peer → rep_ok a peer (AppendEntriesReq args) (AppendEntriesRep reply) →
  ∃ o, exec (EvAppendReply peer args reply) rf els = Some o ∧
    good N a n (EvAppendReply peer args reply) o.
Proof.
  intros Hpeer Hrep. simpl. unfold handleAppendEntriesReply.
  destruct (decide (rf.(currentTerm) < reply.(aer_Term))) as [Hlt|Hge].
  { erewrite bind_run by (apply run_shouldIgnoreReply_gt; [apply S|done]). run. simpl.
    eexists. split; [done|]. eapply good_stepdown; [done..|apply S]. }
  erewrite bind_run by (apply run_shouldIgnoreReply_le; lia).
  destruct (_ || _) eqn:Hig.
  { run. eexists. split; [done|]. by apply good_quiet. }
  apply orb_false_iff in Hig as [Hl%bool_decide_eq_false Ht%bool_decide_eq_false].
  apply dec_stable in Hl, Ht. pose proof (ns_term _ _ _ _ _ S) as HT.
  destruct (leader_log a I n rf els S Hl) as [He Htl].
  destruct Hrep as (_ & Hp0 & Hlen & Hrep); [simpl; lia|].
  rewrite <-Ht, HT in *. rewrite Htl in *.
  pose proof (ns_next_len _ _ _ _ _ S) as Hnl. pose proof (ns_match_len _ _ _ _ _ S) as Hml.
  destruct reply.(aer_Success) eqn:Hs; cbn [negb]; run.
  - destruct (run_advancePeerIndices peer args rf) as (effs & Hin & [Hrun|Hrun]);
      [by rewrite Hnl|by rewrite Hnl, Hml|..];
      erewrite bind_run by exact Hrun; clear Hrun.
    + destruct (leader_commits a I n Hn rf els S (EvAppendReply peer args reply) effs Hl Hin)
        as (rf' & effs' & -> & Hg). run. eexists. split; [done|]. done.
    + assert (node_sim N a n (set_nextIndex (<[Z.to_nat peer :=
        args.(aea_PrevLogIndex) + zlen args.(aea_Entries) + 1]> rf.(nextIndex))
        (set_matchIndex (<[Z.to_nat peer :=
           args.(aea_PrevLogIndex) + zlen args.(aea_Entries)]> rf.(matchIndex)) rf)) els) as S'.
      { apply node_sim_learned; try done; rewrite ?length_insert; try done.
        - eapply next_inserted; [done..|lia].
        - by eapply match_inserted. }
      destruct (leader_commits a I n Hn _ els S' (EvAppendReply peer args reply) effs Hl Hin)
        as (rf' & effs' & -> & Hg). run. eexists. split; [done|]. done.
  - destruct (run_resolveConflict peer args reply rf (a.(a_log) n)) as (ni & Hrun & Hni);
      [apply S|by rewrite Hnl|lia|lia|].
    rewrite Hrun. simpl. eexists. split; [done|].
    eapply good_unsaved; [done| |by repeat constructor|by intros ?? ?%not_elem_of_nil|done].
    replace (set_nextIndex ni rf) with (set_nextIndex ni (set_matchIndex rf.(matchIndex) rf))
      by (by rewrite set_matchIndex_id).
    apply node_sim_learned; try done.
    + destruct Hni as [->|(i & -> & _)]; by rewrite ?length_insert.
    + destruct Hni as [->|(i & -> & Hi)]; [|by eapply next_inserted].
      intros p x. by apply (ns_next _ _ _ _ _ S).
    + intros p x. by apply (ns_match _ _ _ _ _ S).
Qed.

Lemma event_snapshotReply peer args reply :
  isNode N peer → rep_ok a peer (InstallSnapshotReq args) (InstallSnapshotRep reply) →
  ∃ o, exec (EvSnapshotReply peer args reply) rf els = Some o ∧
    good N a n (EvSnapshotReply peer args reply) o.
Proof.
  intros Hpeer Hrep. simpl. unfold handleInstallSnapshotReply.
  destruct (decide (rf.(currentTerm) < reply.(isr_Term))) as [Hlt|Hge].
  { erewrite bind_run by (apply run_handleHigherTerm_gt; [apply S|done]). run. simpl.
    eexists. split; [done|]. eapply good_stepdown; [done..|apply S]. }
  erewrite bind_run by (apply run_handleHigherTerm_le; lia). run.
  destruct (_ && _) eqn:Hig.
  2:{ run. eexists. split; [done|]. by apply good_quiet. }
  apply andb_true_iff in Hig as [Hl%bool_decide_eq_true Ht%bool_decide_eq_true].
  pose proof (ns_term _ _ _ _ _ S) as HT.
  destruct (leader_log a I n rf els S Hl) as [He Htl].
  destruct Hrep as (_ & Hlen & Hrep); [simpl; lia|].
  rewrite <-Ht, HT in *. rewrite Htl in *.
  pose proof (ns_next_len _ _ _ _ _ S) as Hnl. pose proof (ns_match_len _ _ _ _ _ S) as Hml.
  destruct (slice_get_in rf.(nextIndex) peer) as [next Hnext]; [by rewrite Hnl|].
  destruct (slice_get_in rf.(matchIndex) peer) as [m Hm]; [by rewrite Hml|].
  rewrite Hnext. run.
  set (ni := if bool_decide (next < args.(isa_LastIncludedIndex) + 1)
    then <[Z.to_nat peer := args.(isa_LastIncludedIndex) + 1]> rf.(nextIndex) else rf.(nextIndex)).
  set (mi := if bool_decide (m < args.(isa_LastIncludedIndex))
    then <[Z.to_nat peer := args.(isa_LastIncludedIndex)]> rf.(matchIndex) else rf.(matchIndex)).
  assert ((if bool_decide (next < args.(isa_LastIncludedIndex) + 1)
    then setNextIndex peer (args.(isa_LastIncludedIndex) + 1) else mret tt) rf
    = Some (tt, set_nextIndex ni rf, [])) as H1.
  { unfold ni. case_bool_decide; [|by rewrite set_nextIndex_id]. apply run_setNextIndex. by rewrite Hnl. }
  erewrite bind_run by exact H1. clear H1. run. simpl. rewrite Hm. run.
  assert ((if bool_decide (m < args.(isa_LastIncludedIndex))
    then setMatchIndex peer args.(isa_LastIncludedIndex) else mret tt) (set_nextIndex ni rf)
    = Some (tt, set_nextIndex ni (set_matchIndex mi rf), [])) as H2.
  { unfold mi. case_bool_decide; [|by rewrite set_matchIndex_id].
    rewrite run_setMatchIndex; [done|]. simpl. by rewrite Hml. }
  erewrite bind_run by exact H2. clear H2. run. eexists. split; [done|].
  eapply good_unsaved; [done| |by repeat constructor|by intros ?? ?%not_elem_of_nil|done].
  apply node_sim_learned; try done.
  - unfold ni. case_bool_decide; by rewrite ?length_insert.
  - unfold mi. case_bool_decide; by rewrite ?length_insert.
  - unfold ni. case_bool_decide; [eapply next_inserted; [done..|lia]|].
    intros p x. by apply (ns_next _ _ _ _ _ S).
  - unfold mi. case_bool_decide; [by eapply match_inserted|].
    intros p x. by apply (ns_match _ _ _ _ _ S).
Qed.
End replies.

(** ** Steps of the cluster *)

(** No event panics, and each is a move of the protocol. *)
Lemma exec_good w a n ev :
  sim N w a → isNode N n → enabled N w n ev →
  ∃ o, exec ev (w.(w_node) n) (w.(w_els) n) = Some o ∧ good N a n ev o.
Proof.
  intros [I Hnode Hreqs Hreps _] Hn Hen. pose proof (Hnode n Hn) as S.
  destruct ev as [| |peer|src req|i peer reply|peer args reply|peer args reply|cmd|index snap|].
  - by apply event_timeout.
  - by apply event_heartbeat.
  - apply event_replicate; [done..|]. apply Hen.
  - specialize (Hreqs _ _ _ Hen). destruct req.
    + by eapply deliver_vote.
    + by eapply deliver_append.
    + by eapply deliver_snapshot.
  - destruct Hen as (el & Hel & Hw & Hin). by eapply event_voteReply; [..|apply (Hreps _ _ _ _ Hin)].
  - destruct (Hreps _ _ _ _ Hen). by apply event_appendReply.
  - destruct (Hreps _ _ _ _ Hen). by apply event_snapshotReply.
  - by apply event_start.
  - by apply event_snapshot.
  - by apply event_apply.
Qed.

(** The relation when node [n] moved on and nothing was sent: [restart]. *)
Lemma sim_move P w a a' n rf els :
  sim N w a → moves N P n a a' → node_sim N a' n rf els →
  sim N (mkWorld (<[n := rf]> w.(w_node)) (<[n := els]> w.(w_els))
           w.(w_reqs) w.(w_reps) w.(w_applied)) a'.
Proof.
  intros [I Hnode Hreqs Hreps Happ] M S. pose proof (move_gext _ _ _ _ M) as X.
  split; [by eapply move_inv|..]; simpl.
  - intros m Hm. destruct (decide (m = n)) as [->|Hne].
    + by rewrite !fn_lookup_insert.
    + rewrite !fn_lookup_insert_ne by done. eapply node_sim_other; [done..|]. by apply Hnode.
  - intros. eapply req_ok_mono; [done|]. by eapply Hreqs.
  - intros src dst req rep Hr. destruct (Hreps _ _ _ _ Hr). split; [|done].
    by eapply rep_ok_mono.
  - intros. eapply applied_ok_mono; [done|]. by eapply Happ.
Qed.

Lemma sim_after w a n ev o :
  sim N w a → isNode N n → good N a n ev o →
  ∃ a', moves N (newEntry ev a n) n a a' ∧ sim N (after w n ev o) a'.
Proof.
  intros Hsim Hn [(a' & M & S & Hout & Hrep & Hap) _]. exists a'. split; [done|].
  destruct (sim_move _ _ _ _ _ _ _ Hsim M S) as [I' Hnode Hreqs Hreps Happ]. simpl in *.
  split; [done|done|..]; simpl.
  - intros src dst req [Hr|Hr]%elem_of_app; [|by eapply Hreqs].
    apply list_elem_of_fmap in Hr as ([p r] & [= -> -> ->] & Hr). by eapply Hout.
  - intros src dst req rep [Hr|Hr]%elem_of_app; [|by eapply Hreps].
    unfold replyOf in Hr. destruct ev, o.(o_rep) eqn:Ho; try (by apply not_elem_of_nil in Hr).
    apply list_elem_of_singleton in Hr as [= -> -> -> ->]. split; [|done]. by eapply Hrep.
  - intros m msg [Hr|Hr]%elem_of_app; [|by eapply Happ].
    apply list_elem_of_fmap in Hr as (m' & [= -> ->] & Hr). by apply Hap.
Qed.

(** A node can restart from every disk it was about to have. *)
Lemma sim_restart P w a a' n d rf :
  sim N w a → moves N P n a a' → disk_ok N a' n d → Make N n d = Some rf →
  ∃ a'', moves N P n a a'' ∧ sim N (restart w n rf) a''.
Proof.
  intros Hsim M (r & HM & Hr) HM'. rewrite HM in HM'. injection HM' as <-.
  assert (AInv N a') as I' by (eapply move_inv; [done|apply Hsim|done]).
  destruct (restart_sim N N_pos a' n r I' Hr) as (a'' & M' & S).
  assert (moves N P n a a'') as M'' by (trans a'; [done|by eapply moves_mono; [|exact M']]).
  exists a''. split; [done|]. by apply (sim_move P w a).
Qed.

Lemma crash_disk a n ev o d0 d :
  good N a n ev o → d ∈ crashPoints d0 o.(o_effs) →
  ∃ a', moves N (newEntry ev a n) n a a' ∧ disk_ok N a' n d.
Proof.
  intros [_ Hsv] (d' & Hd' & E)%crashPoints_saved.
  destruct (Hsv _ Hd') as (a' & M & Hd). exists a'. split; [done|]. by eapply disk_ok_torn.
Qed.

(** An event, a restart, and a restart in the middle of an event. *)
Lemma event_sim w a n ev o :
  sim N w a → isNode N n → enabled N w n ev → exec ev (w.(w_node) n) (w.(w_els) n) = Some o →
  ∃ a', moves N (newEntry ev a n) n a a' ∧ sim N (after w n ev o) a'.
Proof.
  intros Hsim Hn Hen Hex. destruct (exec_good w a n ev Hsim Hn Hen) as (o' & Ho' & Hg).
  rewrite Hex in Ho'. injection Ho' as <-. by apply sim_after.
Qed.

Lemma crash_sim w a n rf :
  sim N w a → isNode N n → Make N n (w.(w_node) n).(persister) = Some rf →
  ∃ a', move N n a a' ∧ sim N (restart w n rf) a'.
Proof.
  intros Hsim Hn HM. eapply (sim_restart _ w a a); [done..| |done].
  eapply node_sim_disk. by apply (sim_node _ _ _ Hsim).
Qed.

Lemma crash_during_sim w a n ev o d rf :
  sim N w a → isNode N n → enabled N w n ev → exec ev (w.(w_node) n) (w.(w_els) n) = Some o →
  d ∈ crashPoints (w.(w_node) n).(persister) o.(o_effs) → Make N n d = Some rf →
  ∃ a', moves N (newEntry ev a n) n a a' ∧ sim N (restart w n rf) a'.
Proof.
  intros Hsim Hn Hen Hex Hd HM. destruct (exec_good w a n ev Hsim Hn Hen) as (o' & Ho' & Hg).
  rewrite Hex in Ho'. injection Ho' as <-.
  destruct (crash_disk _ _ _ _ _ _ Hg Hd) as (a' & M & Hok). by eapply sim_restart.
Qed.

Lemma cstep_sim w w' a : sim N w a → cstep N w w' → ∃ a', rtc (astep N) a a' ∧ sim N w' a'.
Proof.
  intros Hsim [n ev o Hn Hen Hex|n rf Hn HM|n ev o d rf Hn Hen Hex Hd HM].
  - destruct (event_sim w a n ev o Hsim Hn Hen Hex) as (a' & M & ?). exists a'. split; [apply M|done].
  - destruct (crash_sim w a n rf Hsim Hn HM) as (a' & M & ?). exists a'. split; [apply M|done].
  - destruct (crash_during_sim w a n ev o d rf Hsim Hn Hen Hex Hd HM) as (a' & M & ?).
    exists a'. split; [apply M|done].
Qed.

Lemma winit_sim : sim N (winit N) ainit.
Proof.
  split; [by apply ainit_inv| | | |]; simpl; try set_solver.
  intros n Hn. split; simpl; try done; try lia.
  - rewrite length_replicate. lia.
  - rewrite length_replicate. lia.
  - split; simpl; [lia|done|done|]. by exists zeroEntry.
  - intros el Hel. by apply not_elem_of_nil in Hel.
Qed.

Lemma csteps_sim w w' a :
  sim N w a → rtc (cstep N) w w' → ∃ a', rtc (astep N) a a' ∧ sim N w' a'.
Proof.
  intros Hsim Hrun. revert a Hsim. induction Hrun as [w|w w1 w' Hst _ IH]; intros a Hsim.
  - by exists a.
  - destruct (cstep_sim _ _ _ Hsim Hst) as (a1 & H1 & Hs1).
    destruct (IH a1 Hs1) as (a2 & H2 & Hs2). exists a2. split; [by trans a1|done].
Qed.

Lemma reachable_sim w : reachable N w → ∃ a, rtc (astep N) ainit a ∧ sim N w a.
Proof. apply csteps_sim. apply winit_sim. Qed.
End sim.
