(* ===== verification/Schedule.v ===== *)
(** * Schedules

    Runs of the cluster that can be computed: a schedule names what happens
    next, [play] executes it and checks that it can happen.  What it computes is
    reachable, so concrete runs of the code are found by evaluation. *)

From stdpp Require Import functions.
From S2P Require Import Prelude Api Raft Cluster.

Local Open Scope Z_scope.

#[export] Instance RequestVoteArgs_eq_dec : EqDecision RequestVoteArgs.
Proof. solve_decision. Defined.
#[export] Instance RequestVoteReply_eq_dec : EqDecision RequestVoteReply.
Proof. solve_decision. Defined.
#[export] Instance AppendEntriesArgs_eq_dec : EqDecision AppendEntriesArgs.
Proof. solve_decision. Defined.
#[export] Instance AppendEntriesReply_eq_dec : EqDecision AppendEntriesReply.
Proof. solve_decision. Defined.
#[export] Instance InstallSnapshotArgs_eq_dec : EqDecision InstallSnapshotArgs.
Proof. solve_decision. Defined.
#[export] Instance InstallSnapshotReply_eq_dec : EqDecision InstallSnapshotReply.
Proof. solve_decision. Defined.
#[export] Instance Request_eq_dec : EqDecision Request.
Proof. solve_decision. Defined.
#[export] Instance Reply_eq_dec : EqDecision Reply.
Proof. solve_decision. Defined.

(** What a scheduler chooses: an event, the delivery of the [i]th request of the
    network to its callee, the handling of the [i]th reply by the caller, a
    crash between events, a crash at the [k]th write of an event. *)
Inductive action :=
  | Do (n : Z) (ev : event)
  | Deliver (i : nat)
  | Receive (i : nat)
  | Crash (n : Z)
  | CrashDuring (n : Z) (ev : event) (k : nat).

Section schedule.
Context (N : Z).

#[export] Instance isNode_dec n : Decision (isNode N n).
Proof. unfold isNode. apply _. Defined.

#[export] Instance enabled_dec w n ev : Decision (enabled N w n ev).
Proof.
  destruct ev as [| |peer|src req|i peer reply|peer args reply|peer args reply| | |];
    simpl; try apply _.
  destruct (w.(w_els) n !! i) as [el|] eqn:He.
  - destruct (decide (peer ∈ el.(el_waiting) ∧
      (peer, n, RequestVoteReq el.(el_args), RequestVoteRep reply) ∈ w.(w_reps))) as [H|H].
    + left. by exists el.
    + right. intros (el' & [= <-] & H'). by apply H.
  - right. by intros (el' & ? & _).
Defined.

(** The event that handles a reply; a vote is counted by the most recent
    collection of the caller. *)
Definition replyEvent (callee : Z) (req : Request) (rep : Reply) : option event :=
  match req, rep with
  | RequestVoteReq _, RequestVoteRep r => Some (EvVoteReply 0 callee r)
  | AppendEntriesReq args, AppendEntriesRep r => Some (EvAppendReply callee args r)
  | InstallSnapshotReq args, InstallSnapshotRep r => Some (EvSnapshotReply callee args r)
  | _, _ => None
  end.

Definition doEvent (w : World) (n : Z) (ev : event) : option outcome :=
  if decide (isNode N n ∧ enabled N w n ev)
  then exec ev (w.(w_node) n) (w.(w_els) n) else None.

Definition act (w : World) (x : action) : option World :=
  match x with
  | Do n ev => o ← doEvent w n ev; Some (after w n ev o)
  | Deliver i =>
      '(src, dst, req) ← w.(w_reqs) !! i;
      o ← doEvent w dst (EvDeliver src req);
      Some (after w dst (EvDeliver src req) o)
  | Receive i =>
      '(callee, caller, req, rep) ← w.(w_reps) !! i;
      ev ← replyEvent callee req rep;
      o ← doEvent w caller ev;
      Some (after w caller ev o)
  | Crash n =>
      if decide (isNode N n) then
        rf ← Make N n (w.(w_node) n).(persister); Some (restart w n rf)
      else None
  | CrashDuring n ev k =>
      o ← doEvent w n ev;
      d ← crashPoints (w.(w_node) n).(persister) o.(o_effs) !! k;
      rf ← Make N n d; Some (restart w n rf)
  end.

Fixpoint play (w : World) (xs : list action) : option World :=
  match xs with
  | [] => Some w
  | x :: xs' => w' ← act w x; play w' xs'
  end.

Lemma doEvent_Some w n ev o :
  doEvent w n ev = Some o →
  isNode N n ∧ enabled N w n ev ∧ exec ev (w.(w_node) n) (w.(w_els) n) = Some o.
Proof. unfold doEvent. case_decide; [|done]. tauto. Qed.

Lemma act_cstep w x w' : act w x = Some w' → cstep N w w'.
Proof.
  destruct x as [n ev|i|i|n|n ev k]; simpl; intros H.
  - apply bind_Some in H as (o & Ho & [= <-]). apply doEvent_Some in Ho as (? & ? & ?).
    by apply C_event.
  - apply bind_Some in H as ([[src dst] req] & _ & (o & Ho & [= <-])%bind_Some).
    apply doEvent_Some in Ho as (? & ? & ?). by apply C_event.
  - apply bind_Some in H as ([[[callee caller] req] rep] & _ & (ev & _ & H)%bind_Some).
    apply bind_Some in H as (o & Ho & [= <-]). apply doEvent_Some in Ho as (? & ? & ?).
    by apply C_event.
  - case_decide; [|done]. apply bind_Some in H as (rf & Hrf & [= <-]). by apply C_crash.
  - apply bind_Some in H as (o & Ho & (d & Hd & (rf & Hrf & [= <-])%bind_Some)%bind_Some).
    apply doEvent_Some in Ho as (? & ? & ?).
    eapply C_crash_during; [done..| |done]. by eapply list_elem_of_lookup_2.
Qed.

Lemma play_csteps w xs w' : play w xs = Some w' → rtc (cstep N) w w'.
Proof.
  revert w. induction xs as [|x xs IH]; intros w H; simpl in H; [by injection H as <-|].
  apply bind_Some in H as (w1 & H1 & H2). eapply rtc_l; [by eapply act_cstep|auto].
Qed.

Lemma play_reachable xs w : play (winit N) xs = Some w → reachable N w.
Proof. apply play_csteps. Qed.
End schedule.
