(* ===== verification/Safety.v ===== *)
(** * Safety of the cluster

    What the simulation gives for every reachable state of the code: the
    guarantees of Raft, stated on the fields of the nodes ([currentTerm],
    [state], [logs], [commitIndex]) and on the messages sent on their apply
    channels. *)

From stdpp Require Import functions.
From S2P Require Import Prelude Api Raft Protocol RaftFacts Cluster ClusterSim ClusterLocal Schedule.

Local Open Scope Z_scope.

(** ** Well-formed nodes

    The shape every node of [N] has between two events. *)
Record node_wf (N : Z) (rf : Raft) : Prop := {
  (** the slice starts with the sentinel of the snapshot; indices are consecutive *)
  wf_sentinel : ∃ e0, getFirstLog rf = Some e0 ∧ e0.(Index) = rf.(lastIncludedIndex) ∧
    e0.(Term) = rf.(lastIncludedTerm);
  wf_index i e : rf.(logs) !! i = Some e → e.(Index) = rf.(lastIncludedIndex) + Z.of_nat i;
  (** terms do not decrease along the slice and do not exceed the current term *)
  wf_terms i j e f : (i ≤ j)%nat → rf.(logs) !! i = Some e → rf.(logs) !! j = Some f →
    e.(Term) ≤ f.(Term) ≤ rf.(currentTerm);
  wf_commit : 0 ≤ rf.(lastIncludedIndex) ≤ rf.(commitIndex) ∧ rf.(commitIndex) < getLen rf;
  wf_applied : 0 ≤ rf.(lastApplied) ≤ rf.(commitIndex);
  wf_peers : zlen rf.(nextIndex) = N ∧ zlen rf.(matchIndex) = N;
  (** a leader does not believe of a peer what its own log does not have *)
  wf_next p x : rf.(state) = StateLeader → rf.(nextIndex) !! p = Some x → x ≤ getLen rf;
  wf_match p x : rf.(state) = StateLeader → rf.(matchIndex) !! p = Some x → x < getLen rf
}.

(** ** Entries of a node's log *)

Section entries.
Context (rf : Raft) (l : list Entry) (R : node_repr rf l).

Lemma getLog_entry k e :
  rf.(lastIncludedIndex) < k → getLog rf k = Some e →
  0 < k ≤ zlen l ∧ l !! (Z.to_nat k - 1)%nat = Some e ∧ term_at l (Z.to_nat k) = e.(Term).
Proof.
  intros Hk He. pose proof (repr_length rf l R) as Hlen. destruct R as [Hb _ _ _].
  assert (k ≤ zlen l) as Hle.
  { unfold getLog, getPhysicalIndex in He. apply slice_get_bound in He. lia. }
  destruct (repr_getLog rf l R k) as (e' & He' & Ht & _ & Hl); [lia|].
  rewrite He in He'. injection He' as <-. specialize (Hl Hk). split; [lia|]. by split.
Qed.

Lemma entry_getLog k e :
  rf.(lastIncludedIndex) < k → l !! (Z.to_nat k - 1)%nat = Some e → getLog rf k = Some e.
Proof.
  intros Hk He. destruct R as [Hb _ _ _]. pose proof (lookup_lt_Some _ _ _ He).
  destruct (repr_getLog rf l R k) as (e' & He' & _ & _ & Hl); [lia|].
  rewrite (Hl Hk) in He. by injection He as ->.
Qed.
End entries.

Lemma entriesBetween_indices l a b :
  indexed l → 0 ≤ a ≤ b → b ≤ zlen l →
  (CommandIndex ∘ commandMsg) <$> entriesBetween l a b = seqZ (a + 1) (b - a).
Proof.
  intros HI Ha Hb. apply list_eq. intros i. rewrite list_lookup_fmap. unfold entriesBetween.
  destruct (decide (Z.of_nat i < b - a)) as [Hi|Hi].
  - rewrite lookup_take_lt, lookup_drop by lia.
    destruct (lookup_lt_is_Some_2 l (Z.to_nat a + i)) as [e He]; [lia|].
    rewrite He. simpl. rewrite (HI _ _ He). symmetry. apply lookup_seqZ. lia.
  - rewrite lookup_take_ge by lia. simpl. symmetry. apply lookup_seqZ_ge. lia.
Qed.

Lemma take_lookup_eq {A} (l1 l2 : list A) k i :
  take k l1 = take k l2 → (i < k)%nat → l1 !! i = l2 !! i.
Proof.
  intros H Hi. rewrite <-(lookup_take_lt l1 k), <-(lookup_take_lt l2 k) by done. by rewrite H.
Qed.

Section safety.
Context (N : Z) (N_pos : 0 < N).

(** Terms only grow in the protocol. *)
Lemma astep_term a a' n : astep N a a' → a.(a_term) n ≤ a'.(a_term) n.
Proof.
  intros []; simpl; try lia; destruct (decide (n0 = n)) as [->|];
    rewrite ?fn_lookup_insert, ?fn_lookup_insert_ne by done; lia.
Qed.

Lemma asteps_term a a' n : rtc (astep N) a a' → a.(a_term) n ≤ a'.(a_term) n.
Proof. induction 1 as [|a a1 a2 H _ IH]; [done|]. apply (astep_term _ _ n) in H. lia. Qed.

Lemma asteps_gext a a' : AInv N a → rtc (astep N) a a' → gext a a'.
Proof.
  intros I Hs. revert I. induction Hs as [a|a a1 a2 H _ IH]; intros I; [done|].
  trans a1; [by eapply astep_gext|]. apply IH. by eapply astep_inv.
Qed.

(** Entries up to the commit index are in every later leader's log. *)
Lemma committed_entry w a i k e :
  sim N w a → isNode N i → (w.(w_node) i).(lastIncludedIndex) < k ≤ (w.(w_node) i).(commitIndex) →
  getLog (w.(w_node) i) k = Some e →
  ∃ p, committed N a (a.(a_term) i) p ∧ p !! (Z.to_nat k - 1)%nat = Some e ∧
    0 < k ∧ Z.of_nat (length p) = (w.(w_node) i).(commitIndex).
Proof.
  intros Hsim Hi Hk He. pose proof (sim_node _ _ _ Hsim i Hi) as S.
  destruct (inv_commit _ _ (sim_inv _ _ _ Hsim) i) as [Hle Hcom].
  destruct (getLog_entry _ _ (ns_log _ _ _ _ _ S) k e) as (Hb & Hl & _); [lia|done|].
  pose proof (ns_commit _ _ _ _ _ S) as HK.
  exists (take (a.(a_commit) i) (a.(a_log) i)). split; [done|].
  split; [rewrite lookup_take_lt; [done|lia]|]. rewrite length_take_le by done. lia.
Qed.
End safety.

(** ** The shape of a node *)

Section wf.
Context (rf : Raft) (l : list Entry) (R : node_repr rf l).

Lemma repr_lookup i e :
  rf.(logs) !! i = Some e →
  e.(Index) = rf.(lastIncludedIndex) + Z.of_nat i ∧
  e.(Term) = term_at l (Z.to_nat rf.(lastIncludedIndex) + i) ∧
  (Z.to_nat rf.(lastIncludedIndex) + i ≤ length l)%nat.
Proof.
  destruct R as [Hb Hi Ht (e0 & Hl & H1 & H2)]. rewrite Hl. destruct i as [|i]; simpl.
  - intros [= <-]. rewrite Nat.add_0_r, H2. split; [lia|]. split; [done|lia].
  - rewrite lookup_drop. intros He. pose proof (lookup_lt_Some _ _ _ He).
    rewrite (Hi _ _ He). rewrite <-plus_n_Sm. simpl. rewrite He. split; [lia|]. split; [done|lia].
Qed.
End wf.

Lemma term_at_mono N a l i j :
  0 < N → AInv N a → wf_log a l → (i ≤ j ≤ length l)%nat → term_at l i ≤ term_at l j.
Proof.
  intros HN I Hw Hij. destruct (decide (j = 0%nat)) as [->|Hj]; [by replace i with 0%nat by lia|].
  assert (∀ k, (0 < k ≤ length l)%nat → 0 < term_at l k) as Hpos.
  { intros k Hk. rewrite <-lastTerm_take by lia. destruct Hw as [_ Hw].
    destruct (Hw (take k l)) as [[[[c el] Q] He] _]; [apply prefix_take| |].
    - intros Hnil. apply (f_equal length) in Hnil. rewrite length_take_le in Hnil by lia. simpl in *. lia.
    - destruct (inv_elec _ _ I _ _ _ _ He) as (Hc & _). apply (inv_cand _ _ I _ _ _ Hc). }
  destruct (decide (i = 0%nat)) as [->|Hi]; [simpl; specialize (Hpos j); lia|].
  rewrite <-!lastTerm_take by lia. apply (lastTerm_mono N HN a I).
  - eapply wf_log_prefix; [exact Hw|apply prefix_take].
  - apply prefix_take_mono. lia.
  - intros Hnil. apply (f_equal length) in Hnil. rewrite length_take_le in Hnil by lia. simpl in *. lia.
Qed.

Lemma term_at_le l T j : 0 ≤ T → (∀ e, e ∈ l → e.(Term) ≤ T) → term_at l j ≤ T.
Proof.
  intros HT Hall. destruct j as [|j]; simpl; [done|].
  destruct (l !! j) as [e|] eqn:He; [|done]. apply Hall. by eapply list_elem_of_lookup_2.
Qed.

Lemma node_sim_wf N a n rf els : 0 < N → AInv N a → node_sim N a n rf els → node_wf N rf.
Proof.
  intros HN I S. pose proof (ns_log _ _ _ _ _ S) as R.
  pose proof (commit_bounds N a I n rf els S) as [[? ?] ?].
  destruct (inv_log _ _ I n) as [Hw Hterm]. pose proof (inv_term _ _ I n).
  pose proof (ns_term _ _ _ _ _ S) as HT.
  split; try apply S.
  - destruct R as [_ _ _ (e0 & Hl & ? & ?)]. exists e0. unfold getFirstLog. by rewrite Hl.
  - intros i e He. by apply (repr_lookup rf _ R).
  - intros i j e f Hij He Hf. destruct (repr_lookup rf _ R i e He) as (_ & -> & _).
    destruct (repr_lookup rf _ R j f Hf) as (_ & -> & Hj).
    split; [eapply term_at_mono; [done..|lia]|]. rewrite HT. by apply term_at_le.
  - rewrite (repr_getLen rf _ R). lia.
  - split; apply S.
  - intros p x Hl Hx. rewrite (repr_getLen rf _ R). by eapply (ns_next _ _ _ _ _ S).
  - intros p x Hl Hx. rewrite (repr_getLen rf _ R).
    destruct (ns_match _ _ _ _ _ S p x Hl Hx) as [?|Hack]; [lia|].
    destruct (inv_ack _ _ I _ _ _ Hack) as (_ & Hk & _).
    destruct (leader_log N a I n rf els S Hl) as [_ Htl]. rewrite Htl in Hk. lia.
Qed.

(** ** A concrete run

    Three nodes: node 0 is elected in term 1 with the vote of node 1, logs a
    command, replicates it to node 1 and both apply it; node 1 then crashes and
    restarts. *)
Module Demo.
Definition elect : list action := [Do 0 EvElectionTimeout; Deliver 0; Receive 0].
Definition replicate_x : list action :=
  [Do 0 (EvStart (VString "x")); Do 0 (EvReplicate 1); Deliver 0; Receive 0; Do 0 EvApply;
   Do 0 (EvReplicate 1); Deliver 0; Do 1 EvApply].
Definition schedule : list action := elect ++ replicate_x.
Definition world (xs : list action) : World := default (winit 3) (play 3 (winit 3) xs).

Lemma world_reachable xs :
  bool_decide (is_Some (play 3 (winit 3) xs)) = true → reachable 3 (world xs).
Proof.
  intros [w Hw]%bool_decide_eq_true. unfold world. rewrite Hw.
  by apply (play_reachable 3 xs).
Qed.
End Demo.

(** ** The theorems *)

(** C4: every state the cluster can reach (any interleaving of timers, client
    calls, message deliveries, losses, duplications, reorderings and crashes
    with restarts, also in the middle of the two file writes of a save) is
    simulated by a run of the abstract Raft protocol. *)
Theorem cluster_refines_protocol N w :
  0 < N → reachable N w → ∃ a, rtc (astep N) ainit a ∧ sim N w a.
Proof. intros H. by apply reachable_sim. Qed.

Lemma cluster_refines_protocol_witness :
  ∃ a, rtc (astep 3) ainit a ∧ sim 3 (Demo.world Demo.schedule) a.
Proof.
  apply cluster_refines_protocol; [lia|]. apply Demo.world_reachable. vm_compute. reflexivity.
Defined.

(** C6: election safety.  Two leaders of the same term are the same node, at any
    time, whatever happened before. *)
Theorem election_safety N w i j :
  0 < N → reachable N w → isNode N i → isNode N j →
  (w.(w_node) i).(state) = StateLeader → (w.(w_node) j).(state) = StateLeader →
  (w.(w_node) i).(currentTerm) = (w.(w_node) j).(currentTerm) → i = j.
Proof.
  intros HN Hr Hi Hj Hli Hlj Ht. destruct (reachable_sim N HN w Hr) as (a & _ & Hsim).
  pose proof (sim_node _ _ _ Hsim i Hi) as Si. pose proof (sim_node _ _ _ Hsim j Hj) as Sj.
  rewrite (ns_term _ _ _ _ _ Si), (ns_term _ _ _ _ _ Sj) in Ht.
  rewrite (ns_role _ _ _ _ _ Si) in Hli. rewrite (ns_role _ _ _ _ _ Sj) in Hlj.
  destruct (inv_role_leader _ _ (sim_inv _ _ _ Hsim) i Hli) as [(? & ? & Ei) _].
  destruct (inv_role_leader _ _ (sim_inv _ _ _ Hsim) j Hlj) as [(? & ? & Ej) _]. congruence.
Qed.

Lemma election_safety_witness :
  ((Demo.world Demo.elect).(w_node) 0).(state) = StateLeader ∧ 0 = 0.
Proof.
  assert (((Demo.world Demo.elect).(w_node) 0).(state) = StateLeader) as H
    by (vm_compute; reflexivity).
  split; [exact H|].
  apply (election_safety 3 (Demo.world Demo.elect)); [lia| | | |exact H|exact H|reflexivity].
  - apply Demo.world_reachable. vm_compute. reflexivity.
  - split; lia.
  - split; lia.
Defined.

(** C8: log matching.  If two nodes hold, at the same index above their
    snapshots, entries of the same term, then they hold equal entries (term and
    command) at every lower index both still have. *)
Theorem log_matching N w i j k k' ei ej e' :
  0 < N → reachable N w → isNode N i → isNode N j →
  (w.(w_node) i).(lastIncludedIndex) < k' ≤ k → (w.(w_node) j).(lastIncludedIndex) < k' →
  getLog (w.(w_node) i) k = Some ei → getLog (w.(w_node) j) k = Some ej →
  ei.(Term) = ej.(Term) →
  getLog (w.(w_node) i) k' = Some e' → getLog (w.(w_node) j) k' = Some e'.
Proof.
  intros HN Hr Hi Hj Hk Hk' Hei Hej Ht He'. destruct (reachable_sim N HN w Hr) as (a & _ & Hsim).
  pose proof (sim_node _ _ _ Hsim i Hi) as Si. pose proof (sim_node _ _ _ Hsim j Hj) as Sj.
  pose proof (ns_log _ _ _ _ _ Si) as Ri. pose proof (ns_log _ _ _ _ _ Sj) as Rj.
  destruct (getLog_entry _ _ Ri k ei) as (Bi & _ & Ti); [lia|done|].
  destruct (getLog_entry _ _ Rj k ej) as (Bj & _ & Tj); [lia|done|].
  destruct (getLog_entry _ _ Ri k' e') as (B' & L' & _); [lia|done|].
  apply (entry_getLog _ _ Rj); [done|]. rewrite <-L'. symmetry.
  eapply (take_lookup_eq _ _ (Z.to_nat k)); [|lia].
  eapply (wf_log_matching a); try apply (inv_log _ _ (sim_inv _ _ _ Hsim)); [lia|lia|congruence].
Qed.

Lemma log_matching_witness :
  getLog ((Demo.world Demo.schedule).(w_node) 1) 1 = Some (mkEntry 1 1 (VString "x")).
Proof.
  eapply (log_matching 3 (Demo.world Demo.schedule) 0 1 1 1);
    [lia|apply Demo.world_reachable; vm_compute; reflexivity|split; lia|split; lia
    |vm_compute; split; [reflexivity|discriminate]|vm_compute; reflexivity
    |vm_compute; reflexivity|vm_compute; reflexivity|reflexivity|vm_compute; reflexivity].
Defined.

(** C7: leader completeness.  An entry at or below some node's commit index is
    in the log of every leader whose term is not lower, at the same index, or
    covered by that leader's snapshot. *)
Theorem leader_completeness N w i j k e :
  0 < N → reachable N w → isNode N i → isNode N j →
  (w.(w_node) i).(lastIncludedIndex) < k ≤ (w.(w_node) i).(commitIndex) →
  getLog (w.(w_node) i) k = Some e →
  (w.(w_node) j).(state) = StateLeader →
  (w.(w_node) i).(currentTerm) ≤ (w.(w_node) j).(currentTerm) →
  k ≤ (w.(w_node) j).(lastIncludedIndex) ∨ getLog (w.(w_node) j) k = Some e.
Proof.
  intros HN Hr Hi Hj Hk He Hl Ht. destruct (reachable_sim N HN w Hr) as (a & _ & Hsim).
  destruct (committed_entry N w a i k e Hsim Hi Hk He) as (p & Hp & Hpe & Hk0 & _).
  pose proof (sim_node _ _ _ Hsim j Hj) as Sj.
  destruct (leader_log N a (sim_inv _ _ _ Hsim) j _ _ Sj Hl) as [Hel Htl].
  rewrite (ns_term _ _ _ _ _ (sim_node _ _ _ Hsim i Hi)), (ns_term _ _ _ _ _ Sj) in Ht.
  pose proof (committed_in_leader N HN a (sim_inv _ _ _ Hsim) _ _ _ Hp Ht Hel) as Hpre.
  destruct (decide (k ≤ (w.(w_node) j).(lastIncludedIndex))); [by left|right].
  apply (entry_getLog _ _ (ns_log _ _ _ _ _ Sj)); [lia|].
  rewrite <-Htl. by eapply prefix_lookup_Some.
Qed.

Lemma leader_completeness_witness :
  1 ≤ ((Demo.world Demo.schedule).(w_node) 0).(lastIncludedIndex) ∨
  getLog ((Demo.world Demo.schedule).(w_node) 0) 1 = Some (mkEntry 1 1 (VString "x")).
Proof.
  apply (leader_completeness 3 (Demo.world Demo.schedule) 1 0 1);
    [lia|apply Demo.world_reachable; vm_compute; reflexivity|split; lia|split; lia
    |vm_compute; split; [reflexivity|discriminate]|vm_compute; reflexivity
    |vm_compute; reflexivity|vm_compute; discriminate].
Defined.

(** C5: state machine safety.  Two commands sent on apply channels with the same
    index are the same command: on any two nodes, at any two times, also before
    and after restarts of the same node. *)
Theorem state_machine_safety N w i j mi mj :
  0 < N → reachable N w → (i, mi) ∈ w.(w_applied) → (j, mj) ∈ w.(w_applied) →
  mi.(CommandValid) = true → mj.(CommandValid) = true →
  mi.(CommandIndex) = mj.(CommandIndex) → mi.(am_Command) = mj.(am_Command).
Proof.
  intros HN Hr Hi Hj Vi Vj Hidx. destruct (reachable_sim N HN w Hr) as (a & _ & Hsim).
  destruct (sim_applied _ _ _ Hsim _ _ Hi Vi) as (Ti & p & x & e & Cp & Hp & Ix & ->).
  destruct (sim_applied _ _ _ Hsim _ _ Hj Vj) as (Tj & q & y & f & Cq & Hq & Iy & ->).
  assert (x = y) as -> by lia.
  destruct (committed_comparable N HN a (sim_inv _ _ _ Hsim) _ _ _ _ Cp Cq) as [H|H];
    [apply (prefix_lookup_Some _ _ _ _ Hp) in H|apply (prefix_lookup_Some _ _ _ _ Hq) in H]; congruence.
Qed.

Lemma state_machine_safety_witness :
  VString "x" = VString "x".
Proof.
  apply (state_machine_safety 3 (Demo.world Demo.schedule) 0 1
    (commandMsg (mkEntry 1 1 (VString "x"))) (commandMsg (mkEntry 1 1 (VString "x"))));
    [lia|apply Demo.world_reachable; vm_compute; reflexivity| | |reflexivity|reflexivity|reflexivity].
  - apply list_elem_of_lookup_2 with 1%nat. vm_compute. reflexivity.
  - apply list_elem_of_lookup_2 with 0%nat. vm_compute. reflexivity.
Defined.

(** C9: no handler panics.  Whatever a reachable cluster does next (a timer, a
    client call, the delivery of any request, the handling of any reply, an
    iteration of the applier), the code completes: no index is out of range. *)
Theorem no_panic N w n ev :
  0 < N → reachable N w → isNode N n → enabled N w n ev →
  ∃ o, exec ev (w.(w_node) n) (w.(w_els) n) = Some o.
Proof.
  intros HN Hr Hn Hen. destruct (reachable_sim N HN w Hr) as (a & _ & Hsim).
  destruct (exec_good N HN w a n ev Hsim Hn Hen) as (o & Ho & _). eauto.
Qed.

Lemma no_panic_witness :
  ∃ o, exec (EvSnapshot 1 []) ((Demo.world Demo.schedule).(w_node) 1)
         ((Demo.world Demo.schedule).(w_els) 1) = Some o.
Proof.
  apply (no_panic 3 (Demo.world Demo.schedule) 1 (EvSnapshot 1 []));
    [lia|apply Demo.world_reachable; vm_compute; reflexivity|split; lia|exact Logic.I].
Defined.

(** C12: a crash at any moment of any event, in particular between the writes of
    the state file and of the snapshot file, leaves a disk the node restarts
    from, in a term that is not lower than the one it was in. *)
Theorem crash_recovers N w n ev o d :
  0 < N → reachable N w → isNode N n → enabled N w n ev →
  exec ev (w.(w_node) n) (w.(w_els) n) = Some o →
  d ∈ (w.(w_node) n).(persister) :: crashPoints (w.(w_node) n).(persister) o.(o_effs) →
  ∃ rf, Make N n d = Some rf ∧ (w.(w_node) n).(currentTerm) ≤ rf.(currentTerm).
Proof.
  intros HN Hr Hn Hen Hex Hd. destruct (reachable_sim N HN w Hr) as (a & _ & Hsim).
  pose proof (sim_node _ _ _ Hsim n Hn) as S. rewrite (ns_term _ _ _ _ _ S).
  destruct (exec_good N HN w a n ev Hsim Hn Hen) as (o' & Ho & Hg).
  rewrite Hex in Ho. injection Ho as <-.
  assert (∃ a', moves N (newEntry ev a n) n a a' ∧ disk_ok N a' n d) as (a' & M & rf & HM & [_ _ _ Ht _ _ _ _]).
  { apply elem_of_cons in Hd as [->|Hd]; [|by eapply crash_disk].
    exists a. split; [done|]. by eapply node_sim_disk. }
  exists rf. split; [done|]. rewrite Ht. apply (asteps_term N). apply M.
Qed.

Lemma crash_recovers_witness :
  ∃ rf, Make 3 0 (mkDisk [GInt 1; GInt (-1); GEntries [zeroEntry]; GInt 0; GInt 0] []) = Some rf ∧
    0 ≤ rf.(currentTerm).
Proof.
  eapply (crash_recovers 3 (winit 3) 0 EvElectionTimeout);
    [lia|apply rtc_refl|split; lia|exact Logic.I|vm_compute; reflexivity|].
  apply list_elem_of_lookup_2 with 1%nat. vm_compute. reflexivity.
Defined.

(** C13: what a node has in memory is what it would restart with: its term, vote
    and log are on disk whenever it is between two events. *)
Theorem restart_keeps_state N w n :
  0 < N → reachable N w → isNode N n →
  let rf := w.(w_node) n in
  ∃ rf', Make N n rf.(persister) = Some rf' ∧
    rf'.(currentTerm) = rf.(currentTerm) ∧ rf'.(votedFor) = rf.(votedFor) ∧
    rf'.(logs) = rf.(logs) ∧ rf'.(lastIncludedIndex) = rf.(lastIncludedIndex) ∧
    rf'.(lastIncludedTerm) = rf.(lastIncludedTerm) ∧
    rf'.(commitIndex) = rf.(lastIncludedIndex) ∧ rf'.(lastApplied) = rf.(lastIncludedIndex).
Proof.
  intros HN Hr Hn rf. destruct (reachable_sim N HN w Hr) as (a & _ & Hsim).
  pose proof (sim_node _ _ _ Hsim n Hn) as S. exists (restarted rf).
  split; [|done]. pose proof (ns_sync _ _ _ _ _ S) as Hs. unfold disk_sync in Hs.
  by rewrite (ns_peers _ _ _ _ _ S), (ns_me _ _ _ _ _ S) in Hs.
Qed.

Lemma restart_keeps_state_witness :
  ∃ rf', Make 3 1 ((Demo.world Demo.schedule).(w_node) 1).(persister) = Some rf' ∧
    rf'.(logs) = ((Demo.world Demo.schedule).(w_node) 1).(logs).
Proof.
  destruct (restart_keeps_state 3 (Demo.world Demo.schedule) 1) as (rf' & H & _ & _ & Hl & _);
    [lia|apply Demo.world_reachable; vm_compute; reflexivity|split; lia|].
  exists rf'. split; [exact H|exact Hl].
Defined.

(** C14: a node votes once per term, also across restarts: two replies that grant
    a vote in the same term name the same candidate. *)
Theorem vote_once N w p c1 c2 args1 args2 r1 r2 :
  0 < N → reachable N w →
  (p, c1, RequestVoteReq args1, RequestVoteRep r1) ∈ w.(w_reps) →
  (p, c2, RequestVoteReq args2, RequestVoteRep r2) ∈ w.(w_reps) →
  r1.(rvr_VoteGranted) = true → r2.(rvr_VoteGranted) = true →
  args1.(rva_Term) = args2.(rva_Term) →
  args1.(rva_CandidateId) = args2.(rva_CandidateId).
Proof.
  intros HN Hr H1 H2 G1 G2 Ht. destruct (reachable_sim N HN w Hr) as (a & _ & Hsim).
  destruct (sim_reps _ _ _ Hsim _ _ _ _ H1) as [R1 _]. destruct (R1 G1) as [v1 V1].
  destruct (sim_reps _ _ _ Hsim _ _ _ _ H2) as [R2 _]. destruct (R2 G2) as [v2 V2].
  rewrite Ht in V1. congruence.
Qed.

Lemma vote_once_witness : 0 = 0.
Proof.
  apply (vote_once 3 (Demo.world Demo.elect) 1 0 0
    (Build_RequestVoteArgs 1 0 0 0) (Build_RequestVoteArgs 1 0 0 0)
    (Build_RequestVoteReply 0 true) (Build_RequestVoteReply 0 true));
    [lia|apply Demo.world_reachable; vm_compute; reflexivity| | |reflexivity|reflexivity|reflexivity];
    apply list_elem_of_lookup_2 with 0%nat; vm_compute; reflexivity.
Defined.

(** No step of the cluster, crashes included, lowers the term of a node. *)
Theorem terms_grow N w w' n :
  0 < N → reachable N w → cstep N w w' → isNode N n →
  (w.(w_node) n).(currentTerm) ≤ (w'.(w_node) n).(currentTerm).
Proof.
  intros HN Hr Hst Hn. destruct (reachable_sim N HN w Hr) as (a & _ & Hsim).
  destruct (cstep_sim N HN w w' a Hsim Hst) as (a' & Hsteps & Hsim').
  rewrite (ns_term _ _ _ _ _ (sim_node _ _ _ Hsim n Hn)).
  rewrite (ns_term _ _ _ _ _ (sim_node _ _ _ Hsim' n Hn)). by apply (asteps_term N).
Qed.

Lemma terms_grow_witness :
  ∃ w', cstep 3 (winit 3) w' ∧ 0 ≤ (w'.(w_node) 0).(currentTerm).
Proof.
  assert (isNode 3 0) as Hn by (split; lia).
  assert (∃ o, exec EvElectionTimeout ((winit 3).(w_node) 0) ((winit 3).(w_els) 0) = Some o)
    as [o Ho] by (eexists; vm_compute; reflexivity).
  assert (cstep 3 (winit 3) (after (winit 3) 0 EvElectionTimeout o)) as Hst
    by (apply C_event; [exact Hn|exact Logic.I|exact Ho]).
  eexists. split; [exact Hst|].
  apply (terms_grow 3 (winit 3) _ 0); [lia|apply rtc_refl|exact Hst|exact Hn].
Defined.

(** C19: leader append-only.  A node that is leader before and after a step and
    did not change term still has every entry it had, except those that went
    into its snapshot. *)
Theorem leader_append_only N w w' n k e :
  0 < N → reachable N w → cstep N w w' → isNode N n →
  (w.(w_node) n).(state) = StateLeader → (w'.(w_node) n).(state) = StateLeader →
  (w'.(w_node) n).(currentTerm) = (w.(w_node) n).(currentTerm) →
  (w.(w_node) n).(lastIncludedIndex) < k → (w'.(w_node) n).(lastIncludedIndex) < k →
  getLog (w.(w_node) n) k = Some e → getLog (w'.(w_node) n) k = Some e.
Proof.
  intros HN Hr Hst Hn Hl Hl' Ht Hk Hk' He. destruct (reachable_sim N HN w Hr) as (a & _ & Hsim).
  destruct (cstep_sim N HN w w' a Hsim Hst) as (a' & Hsteps & Hsim').
  pose proof (sim_node _ _ _ Hsim n Hn) as S. pose proof (sim_node _ _ _ Hsim' n Hn) as S'.
  destruct (leader_log N a (sim_inv _ _ _ Hsim) n _ _ S Hl) as [Hel Htl].
  destruct (leader_log N a' (sim_inv _ _ _ Hsim') n _ _ S' Hl') as [_ Htl'].
  rewrite (ns_term _ _ _ _ _ S), (ns_term _ _ _ _ _ S') in Ht. rewrite Ht in Htl'.
  destruct (getLog_entry _ _ (ns_log _ _ _ _ _ S) k e) as (_ & L & _); [done..|].
  apply (entry_getLog _ _ (ns_log _ _ _ _ _ S')); [done|].
  rewrite <-Htl'. rewrite <-Htl in L. eapply prefix_lookup_Some; [done|].
  pose proof (asteps_gext N HN a a' (sim_inv _ _ _ Hsim) Hsteps) as [X _ _].
  by apply (ext_tlog _ _ X).
Qed.

Lemma leader_append_only_witness :
  ∃ w', cstep 3 (Demo.world Demo.schedule) w' ∧
    getLog (w'.(w_node) 0) 1 = Some (mkEntry 1 1 (VString "x")).
Proof.
  set (w := Demo.world Demo.schedule).
  assert (isNode 3 0) as Hn by (split; lia).
  assert (∃ o, exec (EvStart (VString "y")) (w.(w_node) 0) (w.(w_els) 0) = Some o ∧
    o.(o_node).(state) = StateLeader ∧ o.(o_node).(currentTerm) = 1 ∧
    o.(o_node).(lastIncludedIndex) = 0) as (o & Ho & H1 & H2 & H3)
    by (eexists; split; [vm_compute; reflexivity|split; [reflexivity|split; reflexivity]]).
  assert (cstep 3 w (after w 0 (EvStart (VString "y")) o)) as Hst
    by (apply C_event; [exact Hn|exact Logic.I|exact Ho]).
  exists (after w 0 (EvStart (VString "y")) o). split; [exact Hst|].
  apply (leader_append_only 3 w _ 0 1); [lia|apply Demo.world_reachable; vm_compute; reflexivity
    |exact Hst|exact Hn|vm_compute; reflexivity|exact H1|transitivity 1; [exact H2|vm_compute; reflexivity]
    |vm_compute; reflexivity|apply (Z.le_lt_trans _ 0); [apply Z.eq_le_incl; exact H3|lia]|vm_compute; reflexivity].
Defined.

(** C11: commit agreement.  Below both commit indices, and above both snapshots,
    two nodes have the same entries. *)
Theorem commit_agreement N w i j k e :
  0 < N → reachable N w → isNode N i → isNode N j →
  (w.(w_node) i).(lastIncludedIndex) < k ≤ (w.(w_node) i).(commitIndex) →
  (w.(w_node) j).(lastIncludedIndex) < k ≤ (w.(w_node) j).(commitIndex) →
  getLog (w.(w_node) i) k = Some e → getLog (w.(w_node) j) k = Some e.
Proof.
  intros HN Hr Hi Hj Hki Hkj He. destruct (reachable_sim N HN w Hr) as (a & _ & Hsim).
  destruct (committed_entry N w a i k e Hsim Hi Hki He) as (p & Hp & Hpe & Hk0 & _).
  pose proof (sim_node _ _ _ Hsim j Hj) as Sj. pose proof (ns_commit _ _ _ _ _ Sj) as HK.
  apply (entry_getLog _ _ (ns_log _ _ _ _ _ Sj)); [lia|].
  assert (take (Z.to_nat k) p `prefix_of` a.(a_log) j) as Hpre.
  { eapply (committed_held N HN a (sim_inv _ _ _ Hsim) j).
    - eapply committed_prefix; [exact Hp|apply prefix_take].
    - rewrite length_take. lia. }
  eapply prefix_lookup_Some; [|exact Hpre]. rewrite lookup_take_lt by lia. done.
Qed.

Lemma commit_agreement_witness :
  getLog ((Demo.world Demo.schedule).(w_node) 1) 1 = Some (mkEntry 1 1 (VString "x")).
Proof.
  apply (commit_agreement 3 (Demo.world Demo.schedule) 0 1 1);
    [lia|apply Demo.world_reachable; vm_compute; reflexivity|split; lia|split; lia
    |vm_compute; split; [reflexivity|discriminate]
    |vm_compute; split; [reflexivity|discriminate]|vm_compute; reflexivity].
Defined.

(** C24: the applier hands out the log in order without gaps or repetitions: one
    iteration sends either the commands with the indices from [lastApplied + 1]
    on, or one snapshot that moves [lastApplied] forward to its index. *)
Theorem applier_in_order N w n o :
  0 < N → reachable N w → isNode N n →
  exec EvApply (w.(w_node) n) (w.(w_els) n) = Some o →
  let from := (w.(w_node) n).(lastApplied) in
  let upto := o.(o_node).(lastApplied) in
  let ms := appliedBy o.(o_effs) in
  from ≤ upto ≤ (w.(w_node) n).(commitIndex) ∧
  ((Forall (λ m, m.(CommandValid) = true) ms ∧ CommandIndex <$> ms = seqZ (from + 1) (upto - from)) ∨
   (∃ m, ms = [m] ∧ m.(SnapshotValid) = true ∧ m.(CommandValid) = false ∧
      m.(SnapshotIndex) = upto ∧ from < upto)).
Proof.
  intros HN Hr Hn. destruct (reachable_sim N HN w Hr) as (a & _ & Hsim).
  pose proof (sim_node _ _ _ Hsim n Hn) as S. set (rf := w.(w_node) n) in *.
  pose proof (commit_bounds N a (sim_inv _ _ _ Hsim) n rf _ S) as [[? ?] ?].
  pose proof (ns_applied _ _ _ _ _ S). simpl.
  destruct (decide (rf.(commitIndex) ≤ rf.(lastApplied))) as [Hw|Hw].
  { rewrite run_applier_wait by done. intros [= <-]. simpl. split; [lia|left].
    by rewrite Z.sub_diag. }
  destruct (decide (rf.(lastApplied) < rf.(lastIncludedIndex))) as [Hs|Hs].
  { rewrite run_applier_snapshot by lia. intros [= <-]. simpl. split; [lia|right].
    by exists (snapshotMsg rf). }
  rewrite (run_applier_entries rf (a.(a_log) n)); [|apply S|lia|lia]. intros [= <-]. simpl.
  split; [lia|left]. rewrite appliedBy_commands. split.
  - by apply Forall_fmap, Forall_true.
  - rewrite <-list_fmap_compose. apply entriesBetween_indices; [|lia|lia].
    exact (repr_index _ _ _ _ (ns_log _ _ _ _ _ S)).
Qed.

Lemma applier_in_order_witness :
  ∃ o, exec EvApply ((Demo.world (take 7 Demo.schedule)).(w_node) 0)
         ((Demo.world (take 7 Demo.schedule)).(w_els) 0) = Some o ∧
    0 ≤ o.(o_node).(lastApplied) ≤ 1 ∧ appliedBy o.(o_effs) ≠ [].
Proof.
  eexists. split; [vm_compute; reflexivity|].
  split; [|discriminate].
  eapply (applier_in_order 3 (Demo.world (take 7 Demo.schedule)) 0);
    [lia|apply Demo.world_reachable; vm_compute; reflexivity|split; lia|vm_compute; reflexivity].
Defined.

(** C20: every node of a reachable cluster is well formed: consecutive indices
    from the snapshot's sentinel on, non-decreasing terms up to the current
    one, snapshot index, commit index and last applied index in order and
    within the log, and a leader's view of its peers within its own log. *)
Theorem nodes_well_formed N w n :
  0 < N → reachable N w → isNode N n → node_wf N (w.(w_node) n).
Proof.
  intros HN Hr Hn. destruct (reachable_sim N HN w Hr) as (a & _ & Hsim).
  eapply node_sim_wf; [done|apply Hsim|by apply Hsim].
Qed.

Lemma nodes_well_formed_witness : node_wf 3 ((Demo.world Demo.schedule).(w_node) 1).
Proof.
  apply nodes_well_formed; [lia|apply Demo.world_reachable; vm_compute; reflexivity|split; lia].
Defined.

(** The bound on the follower's commit index is safe.  [advanceCommitIndex]
    caps the leader's commit index by the follower's own last index and not by
    the last entry of the call; every [AppendEntries] call in flight has a
    [LeaderCommit] within the entries it covers, so after an accepted call the
    commit index is the maximum of the old one and [LeaderCommit]. *)
Theorem follower_commit_rule N w src dst args rf' reply effs :
  0 < N → reachable N w → isNode N dst →
  (src, dst, AppendEntriesReq args) ∈ w.(w_reqs) →
  AppendEntries args (w.(w_node) dst) = Some (reply, rf', effs) →
  reply.(aer_Success) = true →
  args.(aea_LeaderCommit) ≤ args.(aea_PrevLogIndex) + zlen args.(aea_Entries) ∧
  rf'.(commitIndex) = Z.max (w.(w_node) dst).(commitIndex) args.(aea_LeaderCommit).
Proof.
  intros HN Hr Hn Hin Hrun Hok. destruct (reachable_sim N HN w Hr) as (a & _ & Hsim).
  pose proof (sim_node _ _ _ Hsim dst Hn) as S.
  destruct (sim_reqs _ _ _ Hsim _ _ _ Hin) as (He & (k & Hk & HC & Hlc) & _).
  assert (args.(aea_PrevLogIndex) + zlen args.(aea_Entries) = Z.of_nat k) as Hlen.
  { destruct HC as [Hp -> _ _]. rewrite length_drop, length_take_le in * by done. lia. }
  split; [lia|]. set (rf := w.(w_node) dst) in *.
  destruct (decide (args.(aea_Term) < rf.(currentTerm))).
  { rewrite run_AppendEntries_stale in Hrun by done. injection Hrun as <- _ _. done. }
  destruct (tlog_matching N a (sim_inv _ _ _ Hsim) dst args.(aea_Term) k He) as [Hm _].
  set (L := take k (a.(g_tlog) args.(aea_Term))) in *.
  destruct (run_AppendEntries args rf _ L (ns_dead _ _ _ _ _ S) (ns_log _ _ _ _ _ S)
    ltac:(lia) HC Hm) as [(ci & ct & effs' & Hrun' & _)|(lg & effs' & Hrun' & _)];
    rewrite Hrun in Hrun'; injection Hrun' as -> -> ->; [done|].
  simpl. unfold advanced.
  pose proof (prefix_length _ _ (adopt_prefix L (a.(a_log) dst))) as Hpl.
  unfold L in Hpl at 1. rewrite length_take_le in Hpl by done. case_bool_decide; lia.
Qed.

Lemma follower_commit_rule_witness :
  ∃ reply rf' effs,
    AppendEntries (Build_AppendEntriesArgs 1 0 1 1 [] 1)
      ((Demo.world (take 9 Demo.schedule)).(w_node) 1) = Some (reply, rf', effs) ∧
    rf'.(commitIndex) = 1.
Proof.
  do 3 eexists. split; [vm_compute; reflexivity|].
  eapply (follower_commit_rule 3 (Demo.world (take 9 Demo.schedule)) 0 1
            (Build_AppendEntriesArgs 1 0 1 1 [] 1));
    [lia|apply Demo.world_reachable; vm_compute; reflexivity|split; lia
    |apply list_elem_of_lookup_2 with 0%nat; vm_compute; reflexivity|vm_compute; reflexivity|reflexivity].
Defined.
