(* ===== verification/Backup.v ===== *)
(** * Finding the common prefix, and the commit rule

    The follower's conflict hint and the leader's use of it
    ([handleConsistencyConflict], [resolveConflict]): the hint is exact, and
    each call rejected above the follower's snapshot moves the leader's
    [nextIndex] back, so the search for the common prefix ends.  And the leader's commit rule
    ([updateCommitIndex]): the scan finds the largest index it may commit. *)

From S2P Require Import Prelude Api Raft Protocol RaftFacts Cluster ClusterSim ClusterLocal Schedule Safety.

Local Open Scope Z_scope.

(** What a rejecting follower with log [l] may answer to [args]. *)
Inductive hint (rf : Raft) (l : list Entry) (args : AppendEntriesArgs) : Z → Z → Prop :=
  (** the leader is behind the follower's snapshot *)
  | hint_snapshot :
      args.(aea_PrevLogIndex) < rf.(lastIncludedIndex) →
      hint rf l args (rf.(lastIncludedIndex) + 1) (-1)
  (** the follower's log is too short *)
  | hint_short :
      zlen l < args.(aea_PrevLogIndex) →
      hint rf l args (zlen l + 1) (-1)
  (** another term there: its run of entries, as far as the snapshot *)
  | hint_term ci :
      rf.(lastIncludedIndex) ≤ args.(aea_PrevLogIndex) ≤ zlen l →
      term_at l (Z.to_nat args.(aea_PrevLogIndex)) ≠ args.(aea_PrevLogTerm) →
      rf.(lastIncludedIndex) < ci ≤ args.(aea_PrevLogIndex) + 1 →
      (rf.(lastIncludedIndex) < args.(aea_PrevLogIndex) → ci ≤ args.(aea_PrevLogIndex)) →
      (∀ j, ci ≤ j ≤ args.(aea_PrevLogIndex) →
         term_at l (Z.to_nat j) = term_at l (Z.to_nat args.(aea_PrevLogIndex))) →
      (rf.(lastIncludedIndex) < ci - 1 →
         term_at l (Z.to_nat (ci - 1)) ≠ term_at l (Z.to_nat args.(aea_PrevLogIndex))) →
      hint rf l args ci (term_at l (Z.to_nat args.(aea_PrevLogIndex))).

Lemma conflict_hint rf l args :
  node_repr rf l → 0 ≤ args.(aea_PrevLogIndex) →
  ∃ o, handleConsistencyConflict rf args = Some o ∧
    match o with
    | None => rf.(lastIncludedIndex) ≤ args.(aea_PrevLogIndex) ≤ zlen l ∧
        term_at l (Z.to_nat args.(aea_PrevLogIndex)) = args.(aea_PrevLogTerm)
    | Some (ci, ct) => hint rf l args ci ct
    end.
Proof.
  intros R H0. unfold handleConsistencyConflict.
  case_bool_decide as Hlow; [eexists; split; [done|]; by apply hint_snapshot|].
  destruct (repr_hasEntryAt rf l R args.(aea_PrevLogIndex) args.(aea_PrevLogTerm)) as (b & Hb & Hiff).
  rewrite Hb. simpl. destruct b; [eexists; split; [done|]; by apply Hiff|].
  rewrite (repr_getLen rf l R). case_bool_decide as Hlen.
  { eexists. split; [done|]. apply hint_short. lia. }
  destruct (repr_getLog rf l R args.(aea_PrevLogIndex)) as (e & He & Hterm & _); [lia|].
  rewrite He. simpl. rewrite Hterm.
  destruct (skipConflictTerm_spec rf l R (term_at l (Z.to_nat args.(aea_PrevLogIndex)))
    (Z.to_nat (args.(aea_PrevLogIndex) - rf.(lastIncludedIndex))) args.(aea_PrevLogIndex))
    as (r & Hr & Hbr & Hall & Hstop); [lia..|].
  rewrite Hr. simpl. eexists. split; [done|].
  apply hint_term; [lia| |lia| | |].
  - intros Ht. assert (false = true) by (apply Hiff; split; [lia|done]). done.
  - intros Hlt. destruct (decide (r = args.(aea_PrevLogIndex))) as [->|]; [|lia].
    exfalso. by apply Hstop.
  - intros j Hj. apply Hall. lia.
  - replace (r + 1 - 1) with r by lia. done.
Qed.


(** *** Who is counted *)

(** [countMatches] counts at least any set of other nodes with [n]. *)
Lemma countMatches_most myself n ms i c (Q : gset Z) :
  (∀ j, j ∈ Q → i ≤ j ∧ j ≠ myself ∧ ∃ m, ms !! Z.to_nat (j - i) = Some m ∧ n ≤ m) →
  c + Z.of_nat (size Q) ≤ countMatches myself n i ms c.
Proof.
  revert i c Q. induction ms as [|m ms IH]; intros i c Q HQ; simpl.
  - destruct (decide (Q = ∅)) as [->|[j Hj]%set_choose_L]; [rewrite size_empty; lia|].
    destruct (HQ j Hj) as (_ & _ & x & Hx & _). by rewrite lookup_nil in Hx.
  - assert (∀ j, j ∈ Q ∖ {[i]} → i + 1 ≤ j ∧ j ≠ myself ∧
      ∃ x, ms !! Z.to_nat (j - (i + 1)) = Some x ∧ n ≤ x) as HQ'.
    { intros j [Hj Hne%not_elem_of_singleton]%elem_of_difference. destruct (HQ j Hj) as (? & ? & x & Hx & ?).
      split; [lia|]. split; [done|]. exists x. split; [|done].
      by replace (Z.to_nat (j - i)) with (S (Z.to_nat (j - (i + 1)))) in Hx by lia. }
    destruct (decide (i ∈ Q)) as [Hi|Hi].
    + destruct (HQ i Hi) as (_ & Hne & x & Hx & Hle). rewrite Z.sub_diag in Hx. injection Hx as ->.
      rewrite !bool_decide_true by done. simpl.
      pose proof (size_union_alt {[i]} (Q ∖ {[i]})) as Hsz. rewrite size_singleton in Hsz.
      replace ({[i]} ∪ Q ∖ {[i]}) with Q in Hsz by (apply set_eq; intros j; destruct (decide (j = i)); set_solver).
      replace (Q ∖ {[i]} ∖ {[i]}) with (Q ∖ {[i]}) in Hsz by set_solver.
      specialize (IH (i + 1) (c + 1) _ HQ'). lia.
    + replace (Q ∖ {[i]}) with Q in HQ' by set_solver. etrans; [|by apply IH]. case_match; lia.
Qed.

(** The count is a majority exactly when some majority of nodes is the node
    itself and nodes whose [matchIndex] reaches [n]. *)
Lemma countNodes_majority rf n : shaped rf →
  rf.(peers) `quot` 2 < countNodesWithLogAt rf n ↔
  ∃ Q, majority rf.(peers) Q ∧
    ∀ j, j ∈ Q → j = rf.(me) ∨ ∃ m, rf.(matchIndex) !! Z.to_nat j = Some m ∧ n ≤ m.
Proof.
  intros Hsh. split.
  - intros (Q & HQ & Hall)%countNodes_quorum; [|done]. exists Q. split; [done|].
    intros j Hj. by apply Hall.
  - intros (Q & [Hsub HQ] & Hall). destruct Hsh as [Hme _].
    pose proof (countMatches_most rf.(me) n rf.(matchIndex) 0 1 (Q ∖ {[rf.(me)]})) as Hc.
    assert (Z.of_nat (size Q) ≤ 1 + Z.of_nat (size (Q ∖ {[rf.(me)]}))).
    { pose proof (size_union_alt {[rf.(me)]} Q) as Hsz. rewrite size_singleton in Hsz.
      pose proof (subseteq_size Q ({[rf.(me)]} ∪ Q) ltac:(set_solver)). lia. }
    unfold countNodesWithLogAt. rewrite Z.quot_div_nonneg by lia.
    assert (rf.(peers) `div` 2 < Z.of_nat (size Q)) by (apply Z.div_lt_upper_bound; lia).
    enough (1 + Z.of_nat (size (Q ∖ {[rf.(me)]})) ≤ countMatches rf.(me) n 0 rf.(matchIndex) 1) by lia.
    apply Hc. intros j [Hj Hne%not_elem_of_singleton]%elem_of_difference.
    assert (0 ≤ j) by (apply Hsub, elem_of_list_to_set, elem_of_seqZ in Hj; lia).
    split; [done|]. split; [done|]. rewrite Z.sub_0_r. by destruct (Hall j Hj).
Qed.

(** ** Theorems *)

(** The conflict hint is exact.  The follower accepts if and only if it has
    the previous entry; otherwise the hint is just after its snapshot when the
    call is behind it, its next index when its log is too short, and else the
    first index of the run of the conflicting term that ends at the previous
    index (or just after the snapshot). *)
Theorem conflict_hint_exact N w n args :
  0 < N → reachable N w → isNode N n → 0 ≤ args.(aea_PrevLogIndex) →
  ∃ l o, node_repr (w.(w_node) n) l ∧
    handleConsistencyConflict (w.(w_node) n) args = Some o ∧
    match o with
    | None => (w.(w_node) n).(lastIncludedIndex) ≤ args.(aea_PrevLogIndex) ≤ zlen l ∧
        term_at l (Z.to_nat args.(aea_PrevLogIndex)) = args.(aea_PrevLogTerm)
    | Some (ci, ct) => hint (w.(w_node) n) l args ci ct
    end.
Proof.
  intros HN Hr Hn H0. destruct (reachable_sim N HN w Hr) as (a & _ & Hsim).
  pose proof (ns_log _ _ _ _ _ (sim_node _ _ _ Hsim n Hn)) as R.
  destruct (conflict_hint _ _ args R H0) as (o & Ho & Hcase). eauto.
Qed.

Lemma conflict_hint_exact_witness :
  ∃ l o, node_repr ((Demo.world Demo.schedule).(w_node) 1) l ∧
    handleConsistencyConflict ((Demo.world Demo.schedule).(w_node) 1)
      (Build_AppendEntriesArgs 2 0 1 2 [] 0) = Some o ∧
    match o with
    | None => ((Demo.world Demo.schedule).(w_node) 1).(lastIncludedIndex) ≤ 1 ≤ zlen l ∧ term_at l 1 = 2
    | Some (ci, ct) => hint ((Demo.world Demo.schedule).(w_node) 1) l
        (Build_AppendEntriesArgs 2 0 1 2 [] 0) ci ct
    end.
Proof.
  apply (conflict_hint_exact 3 (Demo.world Demo.schedule) 1 (Build_AppendEntriesArgs 2 0 1 2 [] 0));
    [lia|apply Demo.world_reachable; vm_compute; reflexivity|split; lia|simpl; lia].
Defined.



(** C25: the leader's commit rule.  [updateCommitIndex] moves the commit index to
    the largest index above it whose entry is of the leader's own term and for
    which there is a majority of the nodes in which each is the leader itself or
    a peer whose [matchIndex] reaches it; if there is none it changes
    nothing. *)
Theorem leader_commit_rule N w n :
  0 < N → reachable N w → isNode N n →
  let rf := w.(w_node) n in
  let committable k := ∃ e Q, getLog rf k = Some e ∧ e.(Term) = rf.(currentTerm) ∧ majority N Q ∧
    ∀ j, j ∈ Q → j = n ∨ ∃ m, rf.(matchIndex) !! Z.to_nat j = Some m ∧ k ≤ m in
  ∃ c effs, updateCommitIndex rf = Some (tt, set_commitIndex c rf, effs) ∧
    (c = rf.(commitIndex) ∨ (rf.(commitIndex) < c ∧ committable c)) ∧
    ∀ k, c < k → ¬ committable k.
Proof.
  intros HN Hr Hn rf committable. destruct (reachable_sim N HN w Hr) as (a & _ & Hsim).
  pose proof (sim_node _ _ _ Hsim n Hn) as S. change (w.(w_node) n) with rf in S.
  pose proof (ns_log _ _ _ _ _ S) as R. pose proof (ns_peers _ _ _ _ _ S) as HP.
  pose proof (countNodes_majority rf) as Hmaj. rewrite HP, (ns_me _ _ _ _ _ S) in Hmaj.
  assert (shaped rf) as Hsh by (by eapply node_shaped).
  pose proof (commit_bounds N a (sim_inv _ _ _ Hsim) n rf _ S) as [[? ?] ?].
  revert R H1. generalize (a.(a_log) n). intros l R H1.
  assert (∀ k, rf.(lastIncludedIndex) < k → committable k → k ≤ zlen l ∧ RaftFacts.committable rf l k) as Hto.
  { intros k Hk (e & Q & He & Ht & HQ & Hall). destruct (getLog_entry rf l R k e Hk He) as (Hb & _ & Hterm).
    split; [lia|]. split; [congruence|]. rewrite HP. apply Hmaj; eauto. }
  destruct (run_updateCommitIndex rf l R) as (effs & _ & [[Hrun Hnone]|(c & Hrun & Hb & [Ht Hc] & Hmax)]); [lia|..].
  - exists rf.(commitIndex), effs. split; [rewrite Hrun; by destruct rf|]. split; [by left|].
    intros k Hk Hck. destruct (Hto k) as [Hle Hcm]; [lia|done|]. apply (Hnone k); [lia|done].
  - exists c, effs. split; [done|]. split.
    + right. split; [lia|]. destruct (repr_getLog rf l R c) as (e & He & Hterm & _); [lia|].
      rewrite HP in Hc. apply Hmaj in Hc as (Q & HQ & Hall); [|done].
      exists e, Q. split; [done|]. split; [congruence|done].
    + intros k Hk Hck. destruct (Hto k) as [Hle Hcm]; [lia|done|]. apply (Hmax k); [lia|done].
Qed.

Lemma leader_commit_rule_witness :
  ∃ c effs, updateCommitIndex ((Demo.world Demo.schedule).(w_node) 0)
    = Some (tt, set_commitIndex c ((Demo.world Demo.schedule).(w_node) 0), effs).
Proof.
  destruct (leader_commit_rule 3 (Demo.world Demo.schedule) 0) as (c & effs & H & _);
    [lia|apply Demo.world_reachable; vm_compute; reflexivity|split; lia|].
  exists c, effs. exact H.
Defined.
