(* ===== verification/Store.v ===== *)
(** * The key-value state machine

    The interface a replicated state machine offers ([sm/sm.go]), the store that
    implements it ([internal/kvserver/store.go]), and the sequential
    specification the linearizability tests check histories against
    ([internal/testutils/kvmodel.go]): the store refines that specification key
    by key, versions make [Put] a compare-and-swap, and a snapshot restores the
    store it was taken of. *)

From S2P Require Import Prelude Api.

Local Open Scope Z_scope.

(** ** [sm.StateMachine]

    The interface as a class of operations; an error of [Snapshot] or [Restore]
    is [None].  What a client relies on is the law: a snapshot of a state
    restores it in any earlier state of the same history. *)
Class StateMachine (S : Type) := {
  DoOp : any → S → any * S;
  Snapshot : S → option bytes;
  Restore : bytes → S → option S
}.

(** The state after a sequence of requests. *)
Definition applyAll {S} `{StateMachine S} (reqs : list any) (s : S) : S :=
  foldl (λ s req, (DoOp req s).2) s reqs.

Class StateMachineLaws (S : Type) `{StateMachine S} := {
  snapshot_total (s : S) : ∃ data, Snapshot s = Some data ∧ data ≠ [];
  restore_later (s : S) reqs data :
    Snapshot (applyAll reqs s) = Some data → Restore data s = Some (applyAll reqs s)
}.

(** ** [Store] *)

(** The mutex only makes the operations atomic. *)
Record Store := mkStore { kv : gmap string (string * TVersion) }.

Definition NewStore : Store := mkStore ∅.

Definition Store_DoOp (req : any) (s : Store) : any * Store :=
  match req with
  | VGetArgs x =>
      match s.(kv) !! x.(ga_Key) with
      | None => (VGetReply {| gr_Value := ""; gr_Version := 0; gr_Err := ErrNoKey |}, s)
      | Some (value, version) =>
          (VGetReply {| gr_Value := value; gr_Version := version; gr_Err := OK |}, s)
      end
  | VPutArgs x =>
      match s.(kv) !! x.(pa_Key) with
      | None =>
          if bool_decide (x.(pa_Version) ≠ 0) then (VPutReply {| pr_Err := ErrVersion |}, s)
          else (VPutReply {| pr_Err := OK |},
                mkStore (<[x.(pa_Key) := (x.(pa_Value), 1)]> s.(kv)))
      | Some (_, version) =>
          if bool_decide (version ≠ x.(pa_Version)) then (VPutReply {| pr_Err := ErrVersion |}, s)
          else (VPutReply {| pr_Err := OK |},
                mkStore (<[x.(pa_Key) := (x.(pa_Value), uint64 (version + 1))]> s.(kv)))
      end
  | _ => (VPutReply {| pr_Err := ErrWrongLeader |}, s)
  end.

Definition Store_Snapshot (s : Store) : option bytes := Some [GMap s.(kv)].

Definition Store_Restore (data : bytes) (s : Store) : option Store :=
  if bool_decide (data = []) then Some (mkStore ∅)
  else '(m, _) ← decode_map s.(kv) data; Some (mkStore m).

#[export] Instance Store_StateMachine : StateMachine Store := {
  DoOp := Store_DoOp; Snapshot := Store_Snapshot; Restore := Store_Restore
}.

(** ** The sequential specification ([KvModel]) *)

Record KvInput := { ki_Op : Z; ki_Key : string; ki_Value : string; ki_Version : Z }.
Record KvOutput := { ko_Value : string; ko_Version : Z; ko_Err : Err }.
Record KvState := mkKvState { ks_Value : string; ks_Version : Z }.

Definition KvModel_Init : KvState := mkKvState "" 0.

Definition KvModel_Step (st : KvState) (inp : KvInput) (out : KvOutput) : bool * KvState :=
  if bool_decide (inp.(ki_Op) = 0) then
    if bool_decide (out.(ko_Err) = OK) then
      (bool_decide (out.(ko_Value) = st.(ks_Value)) &&
       bool_decide (out.(ko_Version) = st.(ks_Version)), st)
    else if bool_decide (out.(ko_Err) = ErrNoKey) then
      (bool_decide (st.(ks_Version) = 0), st)
    else (true, st)
  else if bool_decide (inp.(ki_Op) = 1) then
    if bool_decide (out.(ko_Err) = OK) then
      if bool_decide (st.(ks_Version) = inp.(ki_Version)) then
        (true, mkKvState inp.(ki_Value) (uint64 (st.(ks_Version) + 1)))
      else (false, st)
    else if bool_decide (out.(ko_Err) = ErrVersion) then
      (bool_decide (st.(ks_Version) ≠ inp.(ki_Version)), st)
    else if bool_decide (out.(ko_Err) = ErrMaybe) then
      if bool_decide (st.(ks_Version) = inp.(ki_Version)) then
        (true, mkKvState inp.(ki_Value) (uint64 (st.(ks_Version) + 1)))
      else (true, st)
    else (true, st)
  else (false, st).

(** A request and its reply as the tests record them. *)
Definition asInput (req : any) : option KvInput :=
  match req with
  | VGetArgs x => Some {| ki_Op := 0; ki_Key := x.(ga_Key); ki_Value := ""; ki_Version := 0 |}
  | VPutArgs x => Some {| ki_Op := 1; ki_Key := x.(pa_Key); ki_Value := x.(pa_Value);
                          ki_Version := x.(pa_Version) |}
  | _ => None
  end.

Definition asOutput (rep : any) : option KvOutput :=
  match rep with
  | VGetReply r => Some {| ko_Value := r.(gr_Value); ko_Version := r.(gr_Version);
                           ko_Err := r.(gr_Err) |}
  | VPutReply r => Some {| ko_Value := ""; ko_Version := 0; ko_Err := r.(pr_Err) |}
  | _ => None
  end.

(** The specification's state of a key. *)
Definition keyState (s : Store) (k : string) : KvState :=
  match s.(kv) !! k with
  | None => KvModel_Init
  | Some (value, version) => mkKvState value version
  end.

#[global] Arguments keyState : simpl never.
#[global] Arguments KvModel_Step : simpl never.

(** ** Lemmas *)

Lemma keyState_insert m k v x : keyState (mkStore (<[k := (v, x)]> m)) k = mkKvState v x.
Proof. unfold keyState. simpl. by rewrite lookup_insert_eq. Qed.

Lemma keyState_insert_ne m k k' y : k' ≠ k →
  keyState (mkStore (<[k := y]> m)) k' = keyState (mkStore m) k'.
Proof. intros H. unfold keyState. simpl. by rewrite lookup_insert_ne. Qed.

(** A request changes at most its own key and removes none. *)
Lemma DoOp_dom (s : Store) req : dom s.(kv) ⊆ dom (Store_DoOp req s).2.(kv).
Proof.
  destruct req; simpl; try done.
  - by destruct (s.(kv) !! _) as [[]|].
  - destruct (s.(kv) !! _) as [[]|]; case_bool_decide; simpl; set_solver.
Qed.

Lemma applyAll_dom reqs (s : Store) : dom s.(kv) ⊆ dom (applyAll reqs s).(kv).
Proof.
  revert s. induction reqs as [|req reqs IH]; intros s; simpl; [done|].
  etrans; [apply (DoOp_dom s req)|apply IH].
Qed.

Lemma map_union_covered {A} (m1 m2 : gmap string A) : dom m2 ⊆ dom m1 → m1 ∪ m2 = m1.
Proof.
  intros Hd. apply map_eq. intros i. destruct (m1 !! i) as [x|] eqn:H1.
  - by apply lookup_union_Some_l.
  - rewrite lookup_union_r by done. destruct (m2 !! i) as [y|] eqn:H2; [|done].
    assert (i ∈ dom m1) as H by (apply Hd; by apply elem_of_dom_2 in H2).
    apply elem_of_dom in H as [? ?]. congruence.
Qed.

Lemma Store_restore_covered (s s' : Store) data :
  dom s.(kv) ⊆ dom s'.(kv) → Store_Snapshot s' = Some data → Store_Restore data s = Some s'.
Proof.
  intros Hd [= <-]. unfold Store_Restore. simpl.
  rewrite map_union_covered by done. by destruct s'.
Qed.

#[export] Instance Store_laws : StateMachineLaws Store.
Proof.
  split.
  - intros s. by exists [GMap s.(kv)].
  - intros s reqs data. apply Store_restore_covered. apply applyAll_dom.
Qed.

(** ** Histories *)

(** The requests with their replies, in the order the store served them. *)
Fixpoint history (reqs : list any) (s : Store) : list (any * any) :=
  match reqs with
  | [] => []
  | req :: reqs' => (req, (Store_DoOp req s).1) :: history reqs' (Store_DoOp req s).2
  end.

(** [Partition] by key and fold [Step]: does the specification accept the part
    of the history that concerns key [k]? *)
Fixpoint checkKey (k : string) (h : list (any * any)) (st : KvState) : bool * KvState :=
  match h with
  | [] => (true, st)
  | (req, rep) :: h' =>
      match asInput req, asOutput rep with
      | Some inp, Some out =>
          if bool_decide (inp.(ki_Key) = k) then
            let '(ok, st') := KvModel_Step st inp out in
            let '(ok', st'') := checkKey k h' st' in (ok && ok', st'')
          else checkKey k h' st
      | _, _ => checkKey k h' st
      end
  end.

(** One request: the specification accepts it at its key, other keys do not
    change. *)
Lemma DoOp_step s req :
  let '(rep, s') := Store_DoOp req s in
  match asInput req with
  | Some inp => ∃ out, asOutput rep = Some out ∧
      KvModel_Step (keyState s inp.(ki_Key)) inp out = (true, keyState s' inp.(ki_Key)) ∧
      ∀ k, k ≠ inp.(ki_Key) → keyState s' k = keyState s k
  | None => s' = s
  end.
Proof.
  destruct s as [m], req as [| | |x|x| | |]; simpl; try done.
  - assert (keyState (mkStore m) x.(ga_Key) = match m !! x.(ga_Key) with
      | None => KvModel_Init | Some (v, ver) => mkKvState v ver end) as Hks by done.
    destruct (m !! x.(ga_Key)) as [[v ver]|]; eexists; (split; [done|]); (split; [|done]); rewrite Hks.
    + unfold KvModel_Step. simpl. by repeat case_bool_decide.
    + done.
  - assert (keyState (mkStore m) x.(pa_Key) = match m !! x.(pa_Key) with
      | None => KvModel_Init | Some (v, ver) => mkKvState v ver end) as Hks by done.
    destruct (m !! x.(pa_Key)) as [[v ver]|]; case_bool_decide as Hv; eexists; (split; [done|]);
      (split; [|by intros k Hk; rewrite ?keyState_insert_ne by done]);
      simpl; rewrite Hks, ?keyState_insert; unfold KvModel_Step; simpl.
    + by rewrite bool_decide_true.
    + subst ver. by rewrite bool_decide_true.
    + by rewrite bool_decide_true by congruence.
    + by rewrite Hv.
Qed.

Lemma checkKey_history k reqs s :
  checkKey k (history reqs s) (keyState s k) = (true, keyState (applyAll reqs s) k).
Proof.
  revert s. induction reqs as [|req reqs IH]; intros s; [done|]. simpl.
  pose proof (DoOp_step s req) as Hst. destruct (Store_DoOp req s) as [rep s'] eqn:Hop. simpl in *.
  destruct (asInput req) as [inp|].
  - destruct Hst as (out & -> & Hstep & Hother). case_bool_decide as Hk.
    + subst k. rewrite Hstep, IH. done.
    + rewrite <-(Hother k) by congruence. apply IH.
  - subst s'. apply IH.
Qed.

(** ** Versions *)

(** The version under a key, 0 when the key is absent. *)
Definition versionOf (s : Store) (k : string) : Z := (keyState s k).(ks_Version).

Lemma versionOf_step s req k :
  0 ≤ versionOf s k < 2 ^ 64 - 1 →
  versionOf s k ≤ versionOf (Store_DoOp req s).2 k ≤ versionOf s k + 1.
Proof.
  unfold versionOf. intros Hb. pose proof (DoOp_step s req) as Hst.
  destruct (Store_DoOp req s) as [rep s']. simpl.
  destruct (asInput req) as [inp|]; [|subst; lia].
  destruct Hst as (out & _ & Hstep & Hother).
  destruct (decide (k = inp.(ki_Key))) as [->|Hk]; [|rewrite Hother by done; lia].
  revert Hstep Hb. generalize (keyState s inp.(ki_Key)). intros st. unfold KvModel_Step.
  repeat case_bool_decide; intros [= <-] Hb; simpl; try lia;
    unfold uint64; rewrite Z.mod_small; lia.
Qed.

Lemma versionOf_grows reqs s k :
  0 ≤ versionOf s k → versionOf s k + zlen reqs < 2 ^ 64 →
  versionOf s k ≤ versionOf (applyAll reqs s) k.
Proof.
  revert s. induction reqs as [|req reqs IH]; intros s H0 Hb; simpl in *; [done|].
  destruct (versionOf_step s req k) as [H1 H2]; [lia|].
  etrans; [exact H1|]. apply IH; simpl; lia.
Qed.

Lemma put_ok_version s s' x :
  Store_DoOp (VPutArgs x) s = (VPutReply {| pr_Err := OK |}, s') →
  versionOf s x.(pa_Key) = x.(pa_Version) ∧
  versionOf s' x.(pa_Key) = uint64 (x.(pa_Version) + 1).
Proof.
  unfold versionOf. intros H. pose proof (DoOp_step s (VPutArgs x)) as Hst. rewrite H in Hst.
  destruct Hst as (out & [= <-] & Hstep & _). revert Hstep. unfold KvModel_Step. simpl.
  case_bool_decide as Hv; [|done]. intros [= Hks]. rewrite <-Hks. simpl. by rewrite Hv.
Qed.

Lemma put_version_match s x : versionOf s x.(pa_Key) = x.(pa_Version) →
  (Store_DoOp (VPutArgs x) s).1 = VPutReply {| pr_Err := OK |}.
Proof.
  unfold versionOf, keyState. simpl. destruct (s.(kv) !! x.(pa_Key)) as [[v ver]|]; simpl; intros <-;
    by rewrite bool_decide_false by tauto.
Qed.

Lemma put_version_mismatch s x :
  versionOf s x.(pa_Key) ≠ x.(pa_Version) →
  Store_DoOp (VPutArgs x) s = (VPutReply {| pr_Err := ErrVersion |}, s).
Proof.
  unfold versionOf, keyState. simpl. destruct (s.(kv) !! x.(pa_Key)) as [[v ver]|]; simpl;
    intros H; by rewrite bool_decide_true by congruence.
Qed.

(** ** Theorems *)

(** C16: the store refines the sequential specification of the linearizability
    tests: of any sequence of requests, starting from an empty store, the part
    on each key with the replies the store gave is accepted by [KvModel], and
    ends in the value and version the store holds. *)
Theorem store_refines_model k reqs :
  checkKey k (history reqs NewStore) KvModel_Init = (true, keyState (applyAll reqs NewStore) k).
Proof. exact (checkKey_history k reqs NewStore). Qed.

(** C27: [Put] is a compare-and-swap.  Once a [Put] with some version succeeded
    on a key, no later [Put] on that key with that version does, whatever
    requests come in between, as long as the 64-bit version cannot wrap. *)
Theorem put_once s s' x y reqs :
  Store_DoOp (VPutArgs x) s = (VPutReply {| pr_Err := OK |}, s') →
  y.(pa_Key) = x.(pa_Key) → y.(pa_Version) = x.(pa_Version) →
  0 ≤ x.(pa_Version) → x.(pa_Version) + 1 + zlen reqs < 2 ^ 64 →
  Store_DoOp (VPutArgs y) (applyAll reqs s') = (VPutReply {| pr_Err := ErrVersion |}, applyAll reqs s').
Proof.
  intros Hput Hk Hv H0 Hb. apply put_version_mismatch. rewrite Hk, Hv.
  destruct (put_ok_version s s' x Hput) as [_ H']. unfold uint64 in H'.
  rewrite Z.mod_small in H' by lia.
  pose proof (versionOf_grows reqs s' x.(pa_Key)) as Hg. lia.
Qed.

Lemma put_once_witness :
  Store_DoOp (VPutArgs {| pa_Key := "k"; pa_Value := "w"; pa_Version := 0 |})
    (applyAll [VGetArgs {| ga_Key := "k" |}] (mkStore {["k" := ("v", 1)]}))
  = (VPutReply {| pr_Err := ErrVersion |},
     applyAll [VGetArgs {| ga_Key := "k" |}] (mkStore {["k" := ("v", 1)]})).
Proof.
  apply (put_once NewStore _ {| pa_Key := "k"; pa_Value := "v"; pa_Version := 0 |}
    {| pa_Key := "k"; pa_Value := "w"; pa_Version := 0 |} [VGetArgs {| ga_Key := "k" |}]);
    [reflexivity|reflexivity|reflexivity|simpl; lia|simpl; lia].
Defined.

(** C28: snapshot round trip.  A snapshot of the store restores exactly that
    store: in a fresh store, and in any earlier state of the same history,
    although [Restore] adds the decoded pairs to the map that is there. *)
Theorem store_snapshot_roundtrip s reqs :
  ∃ data, Store_Snapshot (applyAll reqs s) = Some data ∧
    Store_Restore data NewStore = Some (applyAll reqs s) ∧
    Store_Restore data s = Some (applyAll reqs s).
Proof.
  exists [GMap (applyAll reqs s).(kv)]. split; [done|].
  split; (apply Store_restore_covered; [|done]); [simpl; set_solver|apply applyAll_dom].
Qed.

(** [Restore] does not replace the store.  Restored over a store with other
    keys, a snapshot leaves them in place, although an empty byte string resets
    the store. *)
Theorem restore_keeps_other_keys (s s' : Store) data k x :
  Store_Snapshot s' = Some data → s.(kv) !! k = Some x → s'.(kv) !! k = None →
  ∃ s'', Store_Restore data s = Some s'' ∧ s''.(kv) !! k = Some x ∧ s'' ≠ s'.
Proof.
  intros [= <-] Hx Hn. exists (mkStore (s'.(kv) ∪ s.(kv))). split; [done|].
  assert ((s'.(kv) ∪ s.(kv)) !! k = Some x) as H by (rewrite lookup_union_r; done).
  split; [done|]. intros E. rewrite <-E in Hn. simpl in Hn. rewrite H in Hn. done.
Qed.

Lemma restore_keeps_other_keys_witness :
  ∃ s'', Store_Restore [GMap ∅] (mkStore {["k" := ("v", 1)]}) = Some s'' ∧
    s''.(kv) !! "k" = Some ("v", 1) ∧ s'' ≠ NewStore.
Proof.
  apply (restore_keeps_other_keys (mkStore {["k" := ("v", 1)]}) NewStore);
    [reflexivity|reflexivity|reflexivity].
Defined.
