(* ===== verification/Rsm.v ===== *)
(** * The replicated state machine ([internal/rsm])

    [RSM] sits between the service and the consensus layer: [Submit] logs an
    operation and waits for its result, the reader goroutine applies what the
    consensus layer delivers, answers the waiting calls and takes snapshots.

    The consensus layer and the state machine are used through their interfaces
    ([raft.Raft], [sm.StateMachine]), so everything here holds for any
    implementation of them. *)

From S2P Require Import Prelude Api Raft Store.

Local Open Scope Z_scope.

(** ** [raft.Raft] as the RSM uses it

    [R] is the state of the consensus layer and [E] its effects. *)
Class RaftApi (R E : Type) := {
  rf_State : R → Z * bool;
  rf_Leader : R → Z;
  rf_PersistBytes : R → Z;
  rf_Start : any → M R E (Z * Z * bool);
  rf_Snapshot : Z → bytes → M R E unit
}.

(** The consensus engine; the number of bytes of an encoding is a parameter. *)
Definition Raft_Api (size : bytes → Z) : RaftApi Raft Effect := {|
  rf_State := State;
  rf_Leader := Leader;
  rf_PersistBytes := PersistBytes size;
  rf_Start := Start;
  rf_Snapshot := Raft.Snapshot
|}.

(** ** State *)

Record result := mkResult { res_id : Z; res_val : any }.

(** A channel is named by the id of the call that made it. *)
Record pendingEntry := mkPending { pe_id : Z; pe_term : Z; pe_ch : Z }.

Record RSM (S : Type) := mkRSM {
  rsm_me : Z;
  maxRaftState : Z;
  rsm_sm : S;
  pending : gmap Z pendingEntry;
  rsm_lastApplied : Z
}.
Arguments mkRSM {S}.
Arguments rsm_me {S}.
Arguments maxRaftState {S}.
Arguments rsm_sm {S}.
Arguments pending {S}.
Arguments rsm_lastApplied {S}.

Inductive RsmEffect (E : Type) :=
  | RSend (ch : Z) (r : result)
  | RClose (ch : Z)
  | RRaft (e : E).
Arguments RSend {E}.
Arguments RClose {E}.
Arguments RRaft {E}.

Section rsm.
Context {S : Type} `{StateMachine S} {R E : Type} `{RaftApi R E}.

(** The methods run on the RSM and the consensus layer below it. *)
Abbreviation RsmM := (M (RSM S * R) (RsmEffect E)).

Definition set_sm (s : S) (r : RSM S) : RSM S :=
  mkRSM r.(rsm_me) r.(maxRaftState) s r.(pending) r.(rsm_lastApplied).
Definition set_pending (p : gmap Z pendingEntry) (r : RSM S) : RSM S :=
  mkRSM r.(rsm_me) r.(maxRaftState) r.(rsm_sm) p r.(rsm_lastApplied).
Definition set_rsm_lastApplied (i : Z) (r : RSM S) : RSM S :=
  mkRSM r.(rsm_me) r.(maxRaftState) r.(rsm_sm) r.(pending) i.

(** A call into the consensus layer. *)
Definition liftRaft {A} (m : M R E A) : RsmM A := λ s,
  match m s.2 with
  | Some (a, rf', effs) => Some (a, (s.1, rf'), RRaft <$> effs)
  | None => None
  end.

Definition modify_rsm (f : RSM S → RSM S) : RsmM unit := modify (λ s, (f s.1, s.2)).

(** *** [MakeRSM], given the consensus layer made from the persister.  A
    snapshot that cannot be restored ends the process. *)
Definition MakeRSM (myself maxState : Z) (sm : S) (snapshot : bytes) : option (RSM S) :=
  if bool_decide (snapshot ≠ []) then
    sm' ← Restore snapshot sm; Some (mkRSM myself maxState sm' ∅ 0)
  else Some (mkRSM myself maxState sm ∅ 0).

(** *** [Submit]

    Up to the [select]: [inl] is the index the call waits for, [inr] the
    reply to return. *)
Definition Submit_begin (id : Z) (req : any) : RsmM (Z + Err * any) :=
  s ← get;
  '(index, term, isLeader) ← liftRaft (rf_Start (VOp s.1.(rsm_me) id req));
  s' ← get;
  if (isLeader : bool) then
    modify_rsm (λ r, set_pending (<[index := mkPending id term id]> r.(pending)) r) ;;
    mret (inl index)
  else mret (inr (ErrWrongLeader, VInt (rf_Leader s'.2))).

(** The cases of the [select]: a result, the closed channel or the timeout
    ([None]); then the deferred removal. *)
Definition Submit_reply (id : Z) (rf : R) (res : option result) : Err * any :=
  match res with
  | Some r => if bool_decide (r.(res_id) ≠ id) then (ErrWrongLeader, VInt (rf_Leader rf))
              else (OK, r.(res_val))
  | None => (ErrWrongLeader, VInt (rf_Leader rf))
  end.

Definition Submit_end (index : Z) : RsmM unit :=
  modify_rsm (λ r, set_pending (delete index r.(pending)) r).

(** *** The reader *)

(** One iteration of the loop of [notifyOutdated]. *)
Definition outdatedEntry (index currentTerm : Z) (isLeader : bool)
    (p : Z * pendingEntry) : RsmM unit :=
  if bool_decide (p.1 ≤ index) || negb isLeader || bool_decide (p.2.(pe_term) ≠ currentTerm) then
    emit (RSend p.2.(pe_ch) (mkResult (-1) VNil)) ;;
    modify_rsm (λ r, set_pending (delete p.1 r.(pending)) r)
  else mret tt.

(** The loop visits the map in some order; here in that of [map_to_list]. *)
Definition notifyOutdated (index : Z) : RsmM unit :=
  s ← get;
  let '(currentTerm, isLeader) := rf_State s.2 in
  for_each (map_to_list s.1.(pending)) (outdatedEntry index currentTerm isLeader).

(** [notifyPending] up to its call of [notifyOutdated]. *)
Definition notifyPending_answer (index id : Z) (val : any) : RsmM unit :=
  s ← get;
  let isLeader := (rf_State s.2).2 in
  match s.1.(pending) !! index with
  | Some entry =>
      (if isLeader && bool_decide (entry.(pe_id) = id)
       then emit (RSend entry.(pe_ch) (mkResult id val))
       else emit (RSend entry.(pe_ch) (mkResult (-1) VNil))) ;;
      modify_rsm (λ r, set_pending (delete index r.(pending)) r)
  | None => mret tt
  end.

Definition notifyPending (index id : Z) (val : any) : RsmM unit :=
  notifyPending_answer index id val ;;
  notifyOutdated index.

Definition checkSnapshot (index : Z) : RsmM unit :=
  s ← get;
  if bool_decide (s.1.(maxRaftState) ≠ -1) &&
     bool_decide (s.1.(maxRaftState) ≤ rf_PersistBytes s.2)
  then
    snapshot ← try (Snapshot s.1.(rsm_sm));
    liftRaft (rf_Snapshot index snapshot)
  else mret tt.

Definition handleSnapshot (msg : ApplyMsg) : RsmM unit :=
  s ← get;
  sm' ← try (Restore msg.(am_Snapshot) s.1.(rsm_sm));
  modify_rsm (set_sm sm') ;;
  modify_rsm (set_rsm_lastApplied msg.(SnapshotIndex)) ;;
  notifyOutdated msg.(SnapshotIndex).

(** [handleCommand] has two critical sections with the operation between them.
    The first: what to apply, if anything. *)
Definition handleCommand_admit (msg : ApplyMsg) : RsmM (option (Z * any)) :=
  match msg.(am_Command) with
  | VOp _ id req =>
      s ← get;
      if bool_decide (msg.(CommandIndex) ≤ s.1.(rsm_lastApplied)) then mret None else
      modify_rsm (set_rsm_lastApplied msg.(CommandIndex)) ;;
      mret (Some (id, req))
  | _ => mret None
  end.

Definition handleCommand_doOp (req : any) : RsmM any :=
  s ← get;
  let '(val, sm') := DoOp req s.1.(rsm_sm) in
  modify_rsm (set_sm sm') ;;
  mret val.

Definition handleCommand (msg : ApplyMsg) : RsmM unit :=
  admitted ← handleCommand_admit msg;
  match admitted with
  | None => mret tt
  | Some (id, req) =>
      val ← handleCommand_doOp req;
      notifyPending msg.(CommandIndex) id val ;;
      checkSnapshot msg.(CommandIndex)
  end.

(** One iteration of [reader]. *)
Definition reader_step (msg : ApplyMsg) : RsmM unit :=
  if msg.(SnapshotValid) then handleSnapshot msg
  else if msg.(CommandValid) then handleCommand msg
  else mret tt.

Definition cleanup : RsmM unit :=
  s ← get;
  for_each (map_to_list s.1.(pending)) (λ p, emit (RClose p.2.(pe_ch))) ;;
  modify_rsm (set_pending ∅).

Definition LastApplied (r : RSM S) : Z := r.(rsm_lastApplied).

(** *** Interleaving

    The channels have no buffer, so the reader stops at every send until the
    call receives, holding the mutex; meanwhile the consensus layer goes on.
    [notifyOutdated] asks for the state of the consensus layer again, so
    [handleCommand] falls into these parts: the operation and the answer to the
    call at the index, the retries, the check of the snapshot. *)
Definition applyOp (index id : Z) (req : any) : RsmM any :=
  val ← handleCommand_doOp req;
  notifyPending_answer index id val ;;
  mret val.

(** What a part has to send, and what comes after the sends. *)
Definition sends (effs : list (RsmEffect E)) : list (Z * result) :=
  omap (λ e, match e with RSend ch r => Some (ch, r) | _ => None end) effs.

Definition closes (effs : list (RsmEffect E)) : list Z :=
  omap (λ e, match e with RClose ch => Some ch | _ => None end) effs.
End rsm.

Inductive afterSends :=
  | ThenOutdated (index : Z)
  | ThenCheck (index : Z)
  | ThenReceive.
