(* ===== verification/RsmFacts.v ===== *)
(** * The replica follows the log

    What the reader of [Rsm.v] makes of the messages of the apply channel: the
    state machine holds the result of the log up to the last message, whatever
    calls come in and whatever the consensus layer does in between; snapshots
    are taken of exactly that state; and a waiting call gets the result of its
    own operation or is told to retry. *)

From S2P Require Import Prelude Api Raft Store Rsm.

Local Open Scope Z_scope.

(** ** The state a log determines *)

(** The request of a logged command; other commands are skipped by the reader. *)
Definition opReq (c : any) : option any :=
  match c with VOp _ _ req => Some req | _ => None end.

Section log_state.
Context {S : Type} `{StateMachine S}.

(** The state after the first [i] entries of [log]. *)
Definition stateAt (s0 : S) (log : list Entry) (i : nat) : S :=
  applyAll (omap (opReq ∘ Command) (take i log)) s0.

Lemma applyAll_app reqs1 reqs2 (s : S) :
  applyAll (reqs1 ++ reqs2) s = applyAll reqs2 (applyAll reqs1 s).
Proof. apply foldl_app. Qed.

Lemma stateAt_later s0 log i k : (i ≤ k)%nat →
  ∃ reqs, stateAt s0 log k = applyAll reqs (stateAt s0 log i).
Proof.
  intros Hik. exists (omap (opReq ∘ Command) (drop i (take k log))). unfold stateAt.
  rewrite <-applyAll_app, <-omap_app.
  replace (take i log) with (take i (take k log)) by (rewrite take_take; f_equal; lia).
  by rewrite take_drop.
Qed.

Lemma stateAt_S s0 log i e : log !! i = Some e →
  stateAt s0 log (Datatypes.S i) =
    match opReq e.(Command) with
    | Some req => (DoOp req (stateAt s0 log i)).2
    | None => stateAt s0 log i
    end.
Proof.
  intros He. unfold stateAt. rewrite (take_S_r _ _ _ He), omap_app, applyAll_app. simpl.
  by destruct (opReq e.(Command)).
Qed.
End log_state.

(** ** The apply channel

    The messages the consensus layer sends when the committed log is [log] and
    the reader has seen the first [i] entries, up to entry [j]: commands in
    order, or a jump forward by a snapshot of the state there. *)
Inductive stream {S : Type} `{StateMachine S} (s0 : S) (log : list Entry) :
    nat → list ApplyMsg → nat → Prop :=
  | stream_nil i : stream s0 log i [] i
  | stream_cmd i e m ms j :
      log !! i = Some e →
      m.(CommandValid) = true → m.(SnapshotValid) = false →
      m.(CommandIndex) = Z.of_nat i + 1 → m.(am_Command) = e.(Command) →
      stream s0 log (Datatypes.S i) ms j → stream s0 log i (m :: ms) j
  | stream_snap i k m ms j :
      (i < k ≤ length log)%nat →
      m.(SnapshotValid) = true → m.(SnapshotIndex) = Z.of_nat k →
      Snapshot (stateAt s0 log k) = Some m.(am_Snapshot) →
      stream s0 log k ms j → stream s0 log i (m :: ms) j.

Section facts.
Context {S : Type} `{StateMachine S} {R E : Type} `{RaftApi R E}.
Implicit Types (r : RSM S) (rf : R).

(** ** Waiting calls *)

Definition outdated (index term : Z) (isLeader : bool) (p : Z * pendingEntry) : Prop :=
  p.1 ≤ index ∨ isLeader = false ∨ p.2.(pe_term) ≠ term.

#[export] Instance outdated_dec index term isLeader p : Decision (outdated index term isLeader p).
Proof. unfold outdated. apply _. Defined.

Definition retry : result := mkResult (-1) VNil.

Lemma run_outdatedEntry index term b p r rf :
  outdatedEntry index term b p (r, rf) =
    if decide (outdated index term b p)
    then Some (tt, (set_pending (delete p.1 r.(pending)) r, rf),
               [RSend (E:=E) p.2.(pe_ch) retry])
    else Some (tt, (r, rf), []).
Proof.
  unfold outdatedEntry, outdated. case_decide as Hd.
  - assert (bool_decide (p.1 ≤ index) || negb b || bool_decide (p.2.(pe_term) ≠ term) = true) as ->.
    { destruct Hd as [Hd|[->|Hd]]; [by rewrite bool_decide_true|by rewrite orb_true_r|].
      rewrite (bool_decide_true (_ ≠ _)) by done. by rewrite orb_true_r. }
    done.
  - assert (bool_decide (p.1 ≤ index) || negb b || bool_decide (p.2.(pe_term) ≠ term) = false) as ->.
    { apply orb_false_iff. split; [apply orb_false_iff; split|].
      - apply bool_decide_false. tauto.
      - destruct b; [done|]. tauto.
      - apply bool_decide_false. tauto. }
    done.
Qed.

(** What the loop does, over any list of entries. *)
Definition dropOutdated (index term : Z) (b : bool) (ps : list (Z * pendingEntry))
    (m : gmap Z pendingEntry) : gmap Z pendingEntry :=
  foldl (λ m p, if decide (outdated index term b p) then delete p.1 m else m) m ps.

Definition retries (index term : Z) (b : bool) (ps : list (Z * pendingEntry)) : list (RsmEffect E) :=
  omap (λ p, if decide (outdated index term b p) then Some (RSend p.2.(pe_ch) retry) else None) ps.

Lemma run_outdatedEntries index term b ps r rf :
  for_each ps (outdatedEntry index term b) (r, rf) =
    Some (tt, (set_pending (dropOutdated index term b ps r.(pending)) r, rf),
          retries index term b ps).
Proof.
  revert r. induction ps as [|p ps IH]; intros r; simpl; [by destruct r|].
  pose proof (run_outdatedEntry index term b p r rf) as Hp. unfold retries. simpl.
  case_decide; erewrite bind_run by exact Hp; by rewrite IH.
Qed.

Lemma lookup_dropOutdated index term b ps m k e :
  dropOutdated index term b ps m !! k = Some e ↔
    m !! k = Some e ∧ ∀ e', (k, e') ∈ ps → ¬ outdated index term b (k, e').
Proof.
  revert m. induction ps as [|[k' e0] ps IH]; intros m; simpl.
  - split; [|naive_solver]. intros Hk. split; [done|]. intros e' He'.
    by apply not_elem_of_nil in He'.
  - rewrite IH. case_decide as Hd; simpl.
    + rewrite lookup_delete_Some. split.
      * intros [[Hne Hm] Hall]. split; [done|]. intros e' [[= -> ->]|He']%elem_of_cons; [done|auto].
      * intros [Hm Hall]. split; [split; [|done]|]; [|intros e' He'; apply Hall; set_solver].
        intros ->. apply (Hall e0); [set_solver|done].
    + split; intros [Hm Hall]; (split; [done|]); intros e' He'; [|apply Hall; set_solver].
      apply elem_of_cons in He' as [[= -> ->]|He']; [done|auto].
Qed.

Lemma run_notifyOutdated index r rf :
  let ps := map_to_list r.(pending) in
  let '(term, b) := rf_State rf in
  notifyOutdated index (r, rf) =
    Some (tt, (set_pending (dropOutdated index term b ps r.(pending)) r, rf),
          retries index term b ps).
Proof.
  unfold notifyOutdated. run. simpl. destruct (rf_State rf) as [term b].
  apply run_outdatedEntries.
Qed.

Lemma elem_of_retries index term b ps x :
  x ∈ retries index term b ps ↔
    ∃ k e, (k, e) ∈ ps ∧ outdated index term b (k, e) ∧ x = RSend e.(pe_ch) retry.
Proof.
  unfold retries. rewrite list_elem_of_omap. split.
  - intros ([k e] & Hin & Hx). case_decide; simplify_eq. eauto 6.
  - intros (k & e & Hin & Ho & ->). exists (k, e). split; [done|]. by rewrite decide_True.
Qed.

(** The answer to the call that waits for [index]: its result, or retry. *)
Definition answer (index id : Z) (val : any) r rf : list (RsmEffect E) :=
  match r.(pending) !! index with
  | Some e => [RSend e.(pe_ch) (if (rf_State rf).2 && bool_decide (e.(pe_id) = id)
                                then mkResult id val else retry)]
  | None => []
  end.

Lemma run_notifyPending_answer index id val r rf :
  notifyPending_answer index id val (r, rf) =
    Some (tt, (set_pending (delete index r.(pending)) r, rf), answer index id val r rf).
Proof.
  unfold notifyPending_answer, answer, modify_rsm. run. simpl.
  destruct (r.(pending) !! index) as [e|] eqn:He; [by destruct (_ && _)|].
  rewrite delete_id by done. by destruct r.
Qed.

Lemma run_notifyPending index id val r rf :
  let p := delete index r.(pending) in
  let ps := map_to_list p in
  let '(term, b) := rf_State rf in
  notifyPending index id val (r, rf) =
    Some (tt, (set_pending (dropOutdated index term b ps p) r, rf),
          answer index id val r rf ++ retries index term b ps).
Proof.
  pose proof (run_notifyOutdated index (set_pending (delete index r.(pending)) r) rf) as H2.
  simpl in *. destruct (rf_State rf) as [term b]. unfold notifyPending.
  erewrite bind_run by apply run_notifyPending_answer. by rewrite H2.
Qed.

(** The parts of [handleCommand] between two sends. *)
Lemma run_applyOp index id req r rf :
  let '(val, s') := DoOp req r.(rsm_sm) in
  applyOp index id req (r, rf) =
    Some (val, (mkRSM r.(rsm_me) r.(maxRaftState) s' (delete index r.(pending)) r.(rsm_lastApplied), rf),
          answer index id val r rf).
Proof.
  unfold applyOp, handleCommand_doOp, modify_rsm. run. simpl.
  destruct (DoOp req r.(rsm_sm)) as [val s']. run. simpl.
  erewrite bind_run by apply run_notifyPending_answer. simpl. unfold mret, M_ret. by rewrite app_nil_r.
Qed.

(** The parts make up the handler. *)
Lemma handleCommand_parts msg (s : RSM S * R) :
  handleCommand msg s =
    (admitted ← handleCommand_admit msg;
     match admitted with
     | None => mret tt
     | Some (id, req) =>
         applyOp msg.(CommandIndex) id req ;;
         notifyOutdated msg.(CommandIndex) ;;
         checkSnapshot msg.(CommandIndex)
     end) s.
Proof.
  unfold handleCommand. apply bind_ext. intros [[id req]|] s'; [|done].
  unfold applyOp, notifyPending. rewrite bind_assoc. apply bind_ext. intros val s1.
  rewrite !bind_assoc. apply bind_ext. intros [] s2. by rewrite bind_ret.
Qed.

Lemma elem_of_answer index id val r rf ch res :
  RSend ch res ∈ answer index id val r rf →
  ∃ e, r.(pending) !! index = Some e ∧ e.(pe_ch) = ch ∧
    (res = retry ∨ res = mkResult id val ∧ e.(pe_id) = id).
Proof.
  unfold answer. destruct (r.(pending) !! index) as [e|]; [|by intros ?%not_elem_of_nil].
  intros [= -> ->]%list_elem_of_singleton. exists e. split; [done|]. split; [done|].
  destruct (_ && _) eqn:Hb; [right|by left].
  by apply andb_true_iff in Hb as [_ ?%bool_decide_eq_true].
Qed.

Lemma elem_of_sends (effs : list (RsmEffect E)) ch res : (ch, res) ∈ sends effs ↔ RSend ch res ∈ effs.
Proof.
  unfold sends. rewrite list_elem_of_omap. split.
  - intros ([ch' r'| |] & Hin & Hx); simplify_eq. done.
  - intros Hin. by exists (RSend ch res).
Qed.

(** What is still waiting afterwards: later indices of the current term, at a
    leader. *)
Lemma notifyPending_left index term b m k e :
  dropOutdated index term b (map_to_list m) m !! k = Some e →
  m !! k = Some e ∧ index < k ∧ b = true ∧ e.(pe_term) = term.
Proof.
  rewrite lookup_dropOutdated. intros [Hk Hall]. specialize (Hall e).
  rewrite elem_of_map_to_list in Hall. specialize (Hall Hk). unfold outdated in Hall. simpl in Hall.
  split; [done|]. destruct b; [|tauto]. split; [lia|]. split; [done|].
  destruct (decide (e.(pe_term) = term)); [done|tauto].
Qed.

(** ** The reader *)

(** The consensus layer takes any snapshot without a panic. *)
Definition snapshot_safe rf : Prop :=
  ∀ index data, ∃ rf' effs, rf_Snapshot index data rf = Some (tt, rf', effs).

(** The consensus layer was left alone or given the snapshot of [s] at [index]. *)
Definition snapshotted (index : Z) (s : S) rf rf' : Prop :=
  rf' = rf ∨ ∃ data effs, Snapshot s = Some data ∧ rf_Snapshot index data rf = Some (tt, rf', effs).

Context `{!StateMachineLaws S}.

Lemma run_checkSnapshot index r rf : snapshot_safe rf →
  ∃ rf' effs, checkSnapshot index (r, rf) = Some (tt, (r, rf'), effs) ∧
    snapshotted index r.(rsm_sm) rf rf'.
Proof.
  intros Hsafe. unfold checkSnapshot. run. simpl. destruct (_ && _).
  - destruct (snapshot_total r.(rsm_sm)) as (data & Hdata & _). rewrite Hdata. run.
    destruct (Hsafe index data) as (rf' & effs & Hrun). unfold liftRaft. simpl. rewrite Hrun.
    do 2 eexists. split; [done|]. right. eauto.
  - do 2 eexists. split; [done|]. by left.
Qed.

Lemma run_handleCommand_skip msg r rf :
  opReq msg.(am_Command) = None ∨ msg.(CommandIndex) ≤ r.(rsm_lastApplied) →
  handleCommand msg (r, rf) = Some (tt, (r, rf), []).
Proof.
  intros Hs. unfold handleCommand, handleCommand_admit.
  destruct msg.(am_Command); run; try done. simpl.
  destruct Hs as [?|Hs]; [done|]. rewrite bool_decide_true by done. by run.
Qed.

Lemma run_handleCommand msg r rf req :
  snapshot_safe rf → opReq msg.(am_Command) = Some req → r.(rsm_lastApplied) < msg.(CommandIndex) →
  let s' := (DoOp req r.(rsm_sm)).2 in
  ∃ p rf' effs,
    handleCommand msg (r, rf) =
      Some (tt, (mkRSM r.(rsm_me) r.(maxRaftState) s' p msg.(CommandIndex), rf'), effs) ∧
    snapshotted msg.(CommandIndex) s' rf rf'.
Proof.
  intros Hsafe Hop Hlt. unfold handleCommand, handleCommand_admit.
  destruct msg.(am_Command) as [| | | | | | |m id req0]; try done. injection Hop as ->.
  run. simpl. rewrite bool_decide_false by lia. unfold modify_rsm at 1. run. simpl.
  unfold handleCommand_doOp, modify_rsm. run. simpl.
  destruct (DoOp req r.(rsm_sm)) as [val s'] eqn:Hdo. run. simpl.
  set (r1 := set_sm s' (set_rsm_lastApplied msg.(CommandIndex) r)).
  pose proof (run_notifyPending msg.(CommandIndex) id val r1 rf) as H1. simpl in H1.
  destruct (rf_State rf) as [term b]. erewrite bind_run by exact H1.
  edestruct (run_checkSnapshot msg.(CommandIndex)) as (rf' & effs2 & H2 & Hs); [exact Hsafe|].
  rewrite H2. simpl in *. eexists _, rf', _. split; [done|]. done.
Qed.

Lemma run_handleSnapshot msg r rf s' :
  Restore msg.(am_Snapshot) r.(rsm_sm) = Some s' →
  ∃ p effs, handleSnapshot msg (r, rf) =
    Some (tt, (mkRSM r.(rsm_me) r.(maxRaftState) s' p msg.(SnapshotIndex), rf), effs).
Proof.
  intros Hr. unfold handleSnapshot. run. simpl. rewrite Hr. unfold modify_rsm. run. simpl.
  pose proof (run_notifyOutdated msg.(SnapshotIndex)
    (set_rsm_lastApplied msg.(SnapshotIndex) (set_sm s' r)) rf) as H2.
  destruct (rf_State rf) as [term b]. rewrite H2. by do 2 eexists.
Qed.

(** The reader over a sequence of messages.  Before each of them the calls to
    [Submit] may have changed the waiting calls, and the consensus layer
    moved on: both are taken as given. *)
Fixpoint reader_run (ms : list (ApplyMsg * (gmap Z pendingEntry * R))) r : option (RSM S) :=
  match ms with
  | [] => Some r
  | (m, (p, rf)) :: ms' =>
      '(_, s', _) ← reader_step m (set_pending p r, rf);
      reader_run ms' s'.1
  end.

Lemma reader_run_stream s0 log i ms j r :
  stream s0 log i ms.*1 j → (∀ x, x ∈ ms → snapshot_safe x.2.2) →
  r.(rsm_sm) = stateAt s0 log i → r.(rsm_lastApplied) ≤ Z.of_nat i →
  ∃ r', reader_run ms r = Some r' ∧ r'.(rsm_sm) = stateAt s0 log j ∧
    r'.(rsm_lastApplied) ≤ Z.of_nat j.
Proof.
  intros Hst. remember ms.*1 as ms1 eqn:Hms. revert ms r Hms.
  induction Hst as [i|i e m ms1 j He Hv Hs Hi Hc _ IH|i k m ms1 j Hk Hv Hi Hsnap _ IH];
    intros ms r Hms Hsafe Hsm Hla; (destruct ms as [|[m' [p rf]] ms]; [done|]) || (destruct ms; [|done]).
  - eauto.
  - injection Hms as <- Hms. simpl. unfold reader_step. rewrite Hs, Hv.
    assert (snapshot_safe rf) as Hrf by (apply (Hsafe (m, (p, rf))); set_solver).
    assert (∀ x, x ∈ ms → snapshot_safe x.2.2) as Hsafe' by (intros x Hx; apply Hsafe; set_solver).
    pose proof (stateAt_S s0 log i e He) as HS. rewrite <-Hc in HS.
    destruct (opReq m.(am_Command)) as [req|] eqn:Hop.
    + destruct (run_handleCommand m (set_pending p r) rf req Hrf Hop) as (p' & rf' & effs & Hrun & _);
        [simpl; lia|]. rewrite Hrun. simpl.
      apply IH; [done|done| |simpl; lia]. simpl. by rewrite HS, Hsm.
    + rewrite run_handleCommand_skip by (by left). simpl.
      apply IH; [done|done| |simpl; lia]. simpl. by rewrite HS, Hsm.
  - injection Hms as <- Hms. simpl. unfold reader_step. rewrite Hv.
    assert (∀ x, x ∈ ms → snapshot_safe x.2.2) as Hsafe' by (intros x Hx; apply Hsafe; set_solver).
    destruct (stateAt_later s0 log i k) as [reqs Hreqs]; [lia|].
    destruct (run_handleSnapshot m (set_pending p r) rf (stateAt s0 log k)) as (p' & effs & Hrun).
    { simpl. rewrite Hsm, Hreqs. apply restore_later. by rewrite <-Hreqs. }
    rewrite Hrun. simpl. apply IH; [done|done|done|simpl; lia].
Qed.
End facts.

(** ** Theorems *)

(** A small replica for the examples: a fresh store over a fresh node. *)
Module Example.
Definition size : bytes → Z := λ d, zlen d.
#[export] Instance api : RaftApi Raft Effect := Raft_Api size.
Definition rf : Raft := Make_fresh 3 0 (mkDisk [] []).
Definition put : any := VPutArgs {| pa_Key := "k"; pa_Value := "v"; pa_Version := 0 |}.
Definition log : list Entry := [mkEntry 1 1 (VOp 0 7 put)].
Definition msg : ApplyMsg :=
  {| CommandValid := true; am_Command := VOp 0 7 put; CommandIndex := 1;
     SnapshotValid := false; am_Snapshot := []; SnapshotTerm := 0; SnapshotIndex := 0 |}.
Definition waiting : gmap Z pendingEntry := {[1 := mkPending 7 1 7]}.

Lemma rf_safe : snapshot_safe rf.
Proof.
  intros index data. exists rf, []. simpl. unfold Raft.Snapshot. run. simpl.
  destruct (decide (index ≤ 0)); [by rewrite bool_decide_true|].
  rewrite (bool_decide_true (0 < index)) by lia. by rewrite orb_true_r.
Qed.
End Example.

#[local] Existing Instance Example.api.

(** C15: the replica follows the log.  Started from nothing or from the snapshot
    of the first [i] entries, and given the messages of the apply channel from
    there to entry [j] (commands in order, or snapshots of the state), the
    state machine ends in the state the first [j] entries determine, whatever
    [Submit] and the consensus layer do in between; no message is refused. *)
Theorem replica_follows_log {S} `{StateMachineLaws S} {R E} `{RaftApi R E}
    (s0 : S) log i snapshot ms j myself maxState :
  (snapshot = [] ∧ i = 0%nat ∨ Snapshot (stateAt s0 log i) = Some snapshot) →
  stream s0 log i ms.*1 j →
  (∀ x, x ∈ ms → snapshot_safe x.2.2) →
  ∃ r0 r', MakeRSM myself maxState s0 snapshot = Some r0 ∧ reader_run ms r0 = Some r' ∧
    r'.(rsm_sm) = stateAt s0 log j ∧ r'.(rsm_lastApplied) ≤ Z.of_nat j.
Proof.
  intros Hsnap Hst Hsafe.
  assert (∃ r0, MakeRSM myself maxState s0 snapshot = Some r0 ∧
    r0.(rsm_sm) = stateAt s0 log i ∧ r0.(rsm_lastApplied) ≤ Z.of_nat i) as (r0 & Hmk & Hsm & Hla).
  { unfold MakeRSM. destruct Hsnap as [[-> ->]|Hsnap].
    - eexists. split; [done|]. split; [done|simpl; lia].
    - destruct (snapshot_total (stateAt s0 log i)) as (data & Hdata & Hne).
      rewrite Hsnap in Hdata. injection Hdata as <-. rewrite bool_decide_true by done.
      unfold stateAt in *. rewrite (restore_later _ _ _ Hsnap). simpl.
      eexists. split; [done|]. simpl. split; [done|lia]. }
  destruct (reader_run_stream s0 log i ms j r0) as (r' & Hr & Hs & Hl); [done..|]. eauto 10.
Qed.

Lemma replica_follows_log_witness :
  ∃ r0 r' : RSM Store, MakeRSM 0 (-1) NewStore [] = Some r0 ∧
    reader_run (R:=Raft) [(Example.msg, (Example.waiting, Example.rf))] r0 = Some r' ∧
    r'.(rsm_sm) = stateAt NewStore Example.log 1 ∧ r'.(rsm_lastApplied) ≤ 1.
Proof.
  apply (replica_follows_log NewStore Example.log 0 []
    [(Example.msg, (Example.waiting, Example.rf))] 1 0 (-1)).
  - left. split; reflexivity.
  - eapply stream_cmd; [reflexivity|reflexivity|reflexivity|reflexivity|reflexivity|apply stream_nil].
  - intros x Hx. apply list_elem_of_singleton in Hx as ->. exact Example.rf_safe.
Defined.

(** A snapshot is taken of the right state.  When the reader has applied the
    first [i] entries and handles entry [i + 1], the consensus layer is either
    left alone or given, for index [i + 1], the snapshot of the state the first
    [i + 1] entries determine. *)
Theorem snapshot_matches_log {S} `{StateMachineLaws S} {R E} `{RaftApi R E}
    (s0 : S) log i e m (r : RSM S) (rf : R) :
  log !! i = Some e → opReq e.(Command) ≠ None →
  m.(am_Command) = e.(Command) → m.(CommandIndex) = Z.of_nat i + 1 →
  m.(SnapshotValid) = false → m.(CommandValid) = true →
  r.(rsm_sm) = stateAt s0 log i → r.(rsm_lastApplied) ≤ Z.of_nat i → snapshot_safe rf →
  ∃ r' rf' effs, reader_step m (r, rf) = Some (tt, (r', rf'), effs) ∧
    r'.(rsm_sm) = stateAt s0 log (i + 1) ∧
    snapshotted (Z.of_nat i + 1) (stateAt s0 log (i + 1)) rf rf'.
Proof.
  intros He Hop Hc Hi Hs Hv Hsm Hla Hsafe. unfold reader_step. rewrite Hs, Hv.
  rewrite Nat.add_1_r, (stateAt_S s0 log i e He), <-Hc in *. rewrite <-Hi.
  destruct (opReq m.(am_Command)) as [req|] eqn:Hreq; [|done]. rewrite <-Hsm.
  destruct (run_handleCommand m r rf req Hsafe Hreq) as (p & rf' & effs & Hrun & Hsn); [lia|].
  rewrite Hrun. eauto 10.
Qed.

Lemma snapshot_matches_log_witness :
  ∃ (r' : RSM Store) (rf' : Raft) effs,
    reader_step Example.msg (mkRSM 0 1 NewStore Example.waiting 0, Example.rf)
      = Some (tt, (r', rf'), effs) ∧
    r'.(rsm_sm) = stateAt NewStore Example.log (0 + 1) ∧
    snapshotted (Z.of_nat 0 + 1) (stateAt NewStore Example.log (0 + 1)) Example.rf rf'.
Proof.
  apply (snapshot_matches_log NewStore Example.log 0 (mkEntry 1 1 (VOp 0 7 Example.put)));
    [reflexivity|discriminate|reflexivity|reflexivity|reflexivity|reflexivity|reflexivity
    |simpl; lia|exact Example.rf_safe].
Defined.

(** C18: replies.  When the reader handles an operation, (1) a result other than
    the retry marker goes only to the call that waits at this index with this
    id, only at a leader, and is what the operation returned; (2) every call
    that waits at this or a lower index gets a message; (3) calls that stay are
    for later indices, of the current term, at a leader. *)
Theorem replies_are_own {S} `{StateMachine S} {R E} `{RaftApi R E}
    (index id : Z) val (r : RSM S) (rf : R) :
  ∃ r' effs, notifyPending index id val (r, rf) = Some (tt, (r', rf), effs) ∧
    (∀ ch res, RSend ch res ∈ effs → res = retry ∨
       res = mkResult id val ∧ (rf_State rf).2 = true ∧
       ∃ e, r.(pending) !! index = Some e ∧ e.(pe_id) = id ∧ e.(pe_ch) = ch) ∧
    (∀ k e, r.(pending) !! k = Some e → k ≤ index → ∃ res, RSend e.(pe_ch) res ∈ effs) ∧
    (∀ k e, r'.(pending) !! k = Some e →
       r.(pending) !! k = Some e ∧ index < k ∧ (rf_State rf).2 = true ∧ e.(pe_term) = (rf_State rf).1).
Proof.
  pose proof (run_notifyPending index id val r rf) as Hrun. simpl in Hrun. unfold answer in Hrun.
  destruct (rf_State rf) as [term b] eqn:Hstate. simpl in *.
  do 2 eexists. split; [exact Hrun|]. split; [|split].
  - intros ch res [Hin|Hin]%elem_of_app.
    + destruct (r.(pending) !! index) as [e|] eqn:He; [|by apply not_elem_of_nil in Hin].
      apply list_elem_of_singleton in Hin as [= -> ->].
      destruct b; simpl; [|by left]. case_bool_decide as Hid; [right|by left]. eauto 10.
    + apply elem_of_retries in Hin as (k & e & _ & _ & [= _ ->]). by left.
  - intros k e Hk Hle. destruct (decide (k = index)) as [->|Hne].
    + rewrite Hk. eexists. apply elem_of_app. left. by apply list_elem_of_singleton.
    + exists retry. apply elem_of_app. right. apply elem_of_retries. exists k, e.
      split; [|split; [by left|done]]. apply elem_of_map_to_list. by rewrite lookup_delete_ne.
  - intros k e Hk. apply notifyPending_left in Hk as (Hk & Hlt & -> & Ht).
    apply lookup_delete_Some in Hk as [_ Hk]. done.
Qed.
