(* ===== verification/RsmThreads.v ===== *)
(** * The goroutines of the replicated state machine

    [Submit] calls and the reader run concurrently and meet at [rsm.mu] and at
    the unbuffered channels of the waiting calls.  The reader sends while it
    holds the mutex, so a send is a point where it blocks until the call
    receives.  This file is the step relation of those goroutines, built from
    the parts of [Rsm.v] between two points where a goroutine can stop.

    What the relation takes for granted: a call draws an id that no earlier
    call has and that is not the -1 of the retry message ([Submit] draws 64
    random bits and checks neither), and the consensus layer is any: its state
    changes freely between steps and any message can come from it. *)

From S2P Require Import Prelude Api Raft Store Rsm RsmFacts.

Local Open Scope Z_scope.

(** Where the reader is: receiving from the apply channel; between the two
    critical sections of [handleCommand]; in a critical section with these
    sends to do, holding the mutex; or past [cleanup], with these channels
    closed. *)
Inductive readerPc :=
  | RIdle
  | RDoing (index id : Z) (req : any)
  | RSending (es : list (Z * result)) (next : afterSends)
  | RStopped (closed : list Z).

(** Where a call is: in the [select]; past the timeout, about to lock the mutex;
    about to run the deferred removal; returned. *)
Inductive callPc :=
  | CWaiting (index : Z)
  | CTimedOut (index : Z)
  | CFinishing (index : Z) (reply : Err * any)
  | CReturned (reply : Err * any).

Section threads.
Context {S : Type} `{StateMachine S} {R E : Type} `{RaftApi R E}.

Record Sys := mkSys {
  y_rsm : RSM S;
  y_rf : R;
  y_reader : readerPc;
  (** by id *)
  y_calls : gmap Z callPc;
  (** the operations the reader applied, with their results (history) *)
  y_done : list (Z * any)
}.

Definition locked (y : Sys) : Prop :=
  match y.(y_reader) with RSending _ _ => True | _ => False end.

Definition afterBegin (res : Z + Err * any) : callPc :=
  match res with inl index => CWaiting index | inr reply => CReturned reply end.

Inductive ystep (y : Sys) : Sys → Prop :=
(** the consensus layer goes on by itself *)
| Y_raft rf' :
    ystep y (mkSys y.(y_rsm) rf' y.(y_reader) y.(y_calls) y.(y_done))
| Y_submit id req res r' rf' effs :
    ¬ locked y → id ≠ -1 → y.(y_calls) !! id = None →
    Submit_begin id req (y.(y_rsm), y.(y_rf)) = Some (res, (r', rf'), effs) →
    ystep y (mkSys r' rf' y.(y_reader) (<[id := afterBegin res]> y.(y_calls)) y.(y_done))
| Y_timeout id index :
    y.(y_calls) !! id = Some (CWaiting index) →
    ystep y (mkSys y.(y_rsm) y.(y_rf) y.(y_reader)
      (<[id := CTimedOut index]> y.(y_calls)) y.(y_done))
| Y_dump id index :
    ¬ locked y → y.(y_calls) !! id = Some (CTimedOut index) →
    ystep y (mkSys y.(y_rsm) y.(y_rf) y.(y_reader)
      (<[id := CFinishing index (Submit_reply id y.(y_rf) None)]> y.(y_calls)) y.(y_done))
| Y_end id index reply r' rf' effs :
    ¬ locked y → y.(y_calls) !! id = Some (CFinishing index reply) →
    Submit_end (E:=E) index (y.(y_rsm), y.(y_rf)) = Some (tt, (r', rf'), effs) →
    ystep y (mkSys r' rf' y.(y_reader) (<[id := CReturned reply]> y.(y_calls)) y.(y_done))
(** the loops over the map send in any order *)
| Y_snapshot m r' rf' effs es :
    y.(y_reader) = RIdle → m.(SnapshotValid) = true →
    handleSnapshot m (y.(y_rsm), y.(y_rf)) = Some (tt, (r', rf'), effs) → es ≡ₚ sends effs →
    ystep y (mkSys r' rf' (RSending es ThenReceive) y.(y_calls) y.(y_done))
| Y_admit m r' rf' effs admitted :
    y.(y_reader) = RIdle → m.(SnapshotValid) = false → m.(CommandValid) = true →
    handleCommand_admit (E:=E) m (y.(y_rsm), y.(y_rf)) = Some (admitted, (r', rf'), effs) →
    ystep y (mkSys r' rf'
      match admitted with
      | Some (id, req) => RDoing m.(CommandIndex) id req
      | None => RIdle
      end y.(y_calls) y.(y_done))
| Y_apply index id req val r' rf' effs :
    y.(y_reader) = RDoing index id req →
    applyOp index id req (y.(y_rsm), y.(y_rf)) = Some (val, (r', rf'), effs) →
    ystep y (mkSys r' rf' (RSending (sends effs) (ThenOutdated index)) y.(y_calls)
      ((id, val) :: y.(y_done)))
| Y_outdated index r' rf' effs es :
    y.(y_reader) = RSending [] (ThenOutdated index) →
    notifyOutdated index (y.(y_rsm), y.(y_rf)) = Some (tt, (r', rf'), effs) → es ≡ₚ sends effs →
    ystep y (mkSys r' rf' (RSending es (ThenCheck index)) y.(y_calls) y.(y_done))
| Y_check index r' rf' effs :
    y.(y_reader) = RSending [] (ThenCheck index) →
    checkSnapshot index (y.(y_rsm), y.(y_rf)) = Some (tt, (r', rf'), effs) →
    ystep y (mkSys r' rf' (RSending [] ThenReceive) y.(y_calls) y.(y_done))
| Y_send ch res es next index :
    y.(y_reader) = RSending ((ch, res) :: es) next →
    y.(y_calls) !! ch = Some (CWaiting index) →
    ystep y (mkSys y.(y_rsm) y.(y_rf) (RSending es next)
      (<[ch := CFinishing index (Submit_reply ch y.(y_rf) (Some res))]> y.(y_calls)) y.(y_done))
| Y_unlock :
    y.(y_reader) = RSending [] ThenReceive →
    ystep y (mkSys y.(y_rsm) y.(y_rf) RIdle y.(y_calls) y.(y_done))
(** the apply channel is closed *)
| Y_cleanup r' rf' effs :
    y.(y_reader) = RIdle →
    cleanup (E:=E) (y.(y_rsm), y.(y_rf)) = Some (tt, (r', rf'), effs) →
    ystep y (mkSys r' rf' (RStopped (closes effs)) y.(y_calls) y.(y_done))
| Y_closed id index closed :
    y.(y_reader) = RStopped closed → id ∈ closed →
    y.(y_calls) !! id = Some (CWaiting index) →
    ystep y (mkSys y.(y_rsm) y.(y_rf) y.(y_reader)
      (<[id := CFinishing index (Submit_reply id y.(y_rf) None)]> y.(y_calls)) y.(y_done)).

(** *** The steps as a function of a schedule *)

Inductive yaction :=
  | DoRaft (rf' : R)
  | DoSubmit (id : Z) (req : any)
  | DoTimeout (id : Z)
  | DoDump (id : Z)
  | DoEnd (id : Z)
  | DoAdmit (m : ApplyMsg)
  | DoApply
  | DoOutdated
  | DoCheck
  | DoSend
  | DoUnlock.

Definition unlocked (y : Sys) : bool :=
  match y.(y_reader) with RSending _ _ => false | _ => true end.

Definition yact (y : Sys) (x : yaction) : option Sys :=
  match x, y with
  | DoRaft rf', mkSys r _ rd cs dn => Some (mkSys r rf' rd cs dn)
  | DoSubmit id req, mkSys r rf rd cs dn =>
      if unlocked y && bool_decide (id ≠ -1) && bool_decide (cs !! id = None) then
        '(res, (r', rf'), _) ← Submit_begin id req (r, rf);
        Some (mkSys r' rf' rd (<[id := afterBegin res]> cs) dn)
      else None
  | DoTimeout id, mkSys r rf rd cs dn =>
      match cs !! id with
      | Some (CWaiting index) => Some (mkSys r rf rd (<[id := CTimedOut index]> cs) dn)
      | _ => None
      end
  | DoDump id, mkSys r rf rd cs dn =>
      match unlocked y, cs !! id with
      | true, Some (CTimedOut index) =>
          Some (mkSys r rf rd (<[id := CFinishing index (Submit_reply id rf None)]> cs) dn)
      | _, _ => None
      end
  | DoEnd id, mkSys r rf rd cs dn =>
      match unlocked y, cs !! id with
      | true, Some (CFinishing index reply) =>
          '(_, (r', rf'), _) ← Submit_end (E:=E) index (r, rf);
          Some (mkSys r' rf' rd (<[id := CReturned reply]> cs) dn)
      | _, _ => None
      end
  | DoAdmit m, mkSys r rf RIdle cs dn =>
      if negb m.(SnapshotValid) && m.(CommandValid) then
        '(admitted, (r', rf'), _) ← handleCommand_admit (E:=E) m (r, rf);
        Some (mkSys r' rf'
          match admitted with
          | Some (id, req) => RDoing m.(CommandIndex) id req
          | None => RIdle
          end cs dn)
      else None
  | DoApply, mkSys r rf (RDoing index id req) cs dn =>
      '(val, (r', rf'), effs) ← applyOp index id req (r, rf);
      Some (mkSys r' rf' (RSending (sends effs) (ThenOutdated index)) cs ((id, val) :: dn))
  | DoOutdated, mkSys r rf (RSending [] (ThenOutdated index)) cs dn =>
      '(_, (r', rf'), effs) ← notifyOutdated index (r, rf);
      Some (mkSys r' rf' (RSending (sends effs) (ThenCheck index)) cs dn)
  | DoCheck, mkSys r rf (RSending [] (ThenCheck index)) cs dn =>
      '(_, (r', rf'), _) ← checkSnapshot index (r, rf);
      Some (mkSys r' rf' (RSending [] ThenReceive) cs dn)
  | DoSend, mkSys r rf (RSending ((ch, res) :: es) next) cs dn =>
      match cs !! ch with
      | Some (CWaiting index) =>
          Some (mkSys r rf (RSending es next)
            (<[ch := CFinishing index (Submit_reply ch rf (Some res))]> cs) dn)
      | _ => None
      end
  | DoUnlock, mkSys r rf (RSending [] ThenReceive) cs dn => Some (mkSys r rf RIdle cs dn)
  | _, _ => None
  end.

Fixpoint yplay (xs : list yaction) (y : Sys) : option Sys :=
  match xs with
  | [] => Some y
  | x :: xs' => y' ← yact y x; yplay xs' y'
  end.

Lemma unlocked_spec y : unlocked y = true → ¬ locked y.
Proof. unfold unlocked, locked. by destruct y.(y_reader); auto. Qed.

Lemma yact_step y x y' : yact y x = Some y' → ystep y y'.
Proof.
  destruct y as [r rf rd cs dn], x as [rf'|id req|id|id|id|m| | | | |]; cbn [yact].
  - intros [= <-]. apply (Y_raft (mkSys r rf rd cs dn)).
  - destruct (_ && _) eqn:Hb; [|done].
    apply andb_true_iff in Hb as [[Hu Hid%bool_decide_eq_true]%andb_true_iff Hc%bool_decide_eq_true].
    intros ([[res [r' rf']] effs] & Hrun & [= <-])%bind_Some.
    by eapply (Y_submit (mkSys r rf rd cs dn)); [apply unlocked_spec|..].
  - destruct (cs !! id) as [[]|] eqn:Hc; try done. intros [= <-].
    by apply (Y_timeout (mkSys r rf rd cs dn)).
  - destruct (unlocked _) eqn:Hu; [|done]. destruct (cs !! id) as [[]|] eqn:Hc; try done. intros [= <-].
    by apply (Y_dump (mkSys r rf rd cs dn)); [apply unlocked_spec|].
  - destruct (unlocked _) eqn:Hu; [|done]. destruct (cs !! id) as [[]|] eqn:Hc; try done.
    intros ([[[] [r' rf']] effs] & Hrun & [= <-])%bind_Some.
    by eapply (Y_end (mkSys r rf rd cs dn)); [apply unlocked_spec|..].
  - destruct rd; try done. destruct m.(SnapshotValid) eqn:Hs, m.(CommandValid) eqn:Hv; try done.
    intros ([[ad [r' rf']] effs] & Hrun & [= <-])%bind_Some.
    by eapply (Y_admit (mkSys r rf RIdle cs dn)).
  - destruct rd; try done. intros ([[val [r' rf']] effs] & Hrun & [= <-])%bind_Some.
    by eapply (Y_apply (mkSys r rf (RDoing index id req) cs dn)).
  - destruct rd as [| |[|[ch res] es] [index|index|]|]; try done.
    intros ([[[] [r' rf']] effs] & Hrun & [= <-])%bind_Some.
    by eapply (Y_outdated (mkSys r rf (RSending [] (ThenOutdated index)) cs dn)).
  - destruct rd as [| |[|[ch res] es] [index|index|]|]; try done.
    intros ([[[] [r' rf']] effs] & Hrun & [= <-])%bind_Some.
    by eapply (Y_check (mkSys r rf (RSending [] (ThenCheck index)) cs dn)).
  - destruct rd as [| |[|[ch res] es] next|]; try done. destruct (cs !! ch) as [[]|] eqn:Hc; try done.
    intros [= <-]. by apply (Y_send (mkSys r rf (RSending ((ch, res) :: es) next) cs dn)).
  - destruct rd as [| |[|[ch res] es] []|]; try done. intros [= <-].
    by apply (Y_unlock (mkSys r rf (RSending [] ThenReceive) cs dn)).
Qed.

Lemma yplay_steps xs y : is_Some (yplay xs y) → rtc ystep y (default y (yplay xs y)).
Proof.
  intros [y' Hy]. rewrite Hy. simpl. revert y Hy. induction xs as [|x xs IH]; intros y Hy; simpl in Hy.
  - injection Hy as <-. done.
  - apply bind_Some in Hy as (y1 & H1 & H2). eapply rtc_l; [by eapply yact_step|auto].
Qed.

(** A replica that has just been made. *)
Definition started (r : RSM S) (rf : R) : Sys := mkSys r rf RIdle ∅ [].

(** ** Replies are results of applied operations *)

Record sys_ok (y : Sys) : Prop := {
  ok_pending k e : y.(y_rsm).(pending) !! k = Some e → e.(pe_ch) = e.(pe_id) ∧ e.(pe_id) ≠ -1;
  ok_sending es next ch res : y.(y_reader) = RSending es next → (ch, res) ∈ es →
    res = retry ∨ (res.(res_id) = ch ∧ (ch, res.(res_val)) ∈ y.(y_done));
  ok_calls id pc : y.(y_calls) !! id = Some pc → id ≠ -1 ∧
    match pc with
    | CFinishing _ (OK, v) | CReturned (OK, v) => (id, v) ∈ y.(y_done)
    | _ => True
    end
}.

Lemma ok_weaken y rsm rf :
  sys_ok y → (∀ k e, rsm.(pending) !! k = Some e → y.(y_rsm).(pending) !! k = Some e) →
  sys_ok (mkSys rsm rf y.(y_reader) y.(y_calls) y.(y_done)).
Proof. intros [H1 H2 H3] Hp. split; simpl; [|done|done]. intros k e Hk. eauto. Qed.

(** A new position of one call. *)
Lemma ok_call y rf id pc :
  sys_ok y → id ≠ -1 →
  match pc with CFinishing _ (OK, v) | CReturned (OK, v) => (id, v) ∈ y.(y_done) | _ => True end →
  sys_ok (mkSys y.(y_rsm) rf y.(y_reader) (<[id := pc]> y.(y_calls)) y.(y_done)).
Proof.
  intros [H1 H2 H3] Hid Hpc. split; simpl; [done|done|].
  intros id' pc' [[<- <-]|[_ Hl]]%lookup_insert_Some; [done|by apply H3].
Qed.

Lemma run_Submit_begin id req (r : RSM S) (rf : R) res r' rf' effs :
  Submit_begin id req (r, rf) = Some (res, (r', rf'), effs) →
  (r' = r ∧ ∃ v, res = inr (ErrWrongLeader, v)) ∨
  (∃ index term, res = inl index ∧
    r' = set_pending (<[index := mkPending id term id]> r.(pending)) r).
Proof.
  unfold Submit_begin. run.
  destruct (rf_Start (VOp r.(rsm_me) id req) rf) as [[[[[index term] b] rf1] effs1]|] eqn:Hs.
  - erewrite bind_run by (unfold liftRaft; simpl; by rewrite Hs). run.
    destruct b; run; unfold modify_rsm; run; intros [= <- <- <- <-]; [right; eauto|left; eauto].
  - unfold mbind, M_bind, liftRaft. simpl. by rewrite Hs.
Qed.

Lemma run_Submit_end index (r : RSM S) (rf : R) :
  Submit_end (E:=E) index (r, rf) = Some (tt, (set_pending (delete index r.(pending)) r, rf), []).
Proof. done. Qed.

Lemma run_checkSnapshot_rsm index (r : RSM S) (rf : R) r' rf' effs :
  checkSnapshot index (r, rf) = Some (tt, (r', rf'), effs) → r' = r.
Proof.
  unfold checkSnapshot. run. simpl. destruct (_ && _); run; [|by intros [= <- <- <-]].
  destruct (Snapshot r.(rsm_sm)) as [data|]; [|done]. run. unfold liftRaft. simpl.
  destruct (rf_Snapshot index data rf) as [[[[] rf1] effs1]|]; [|done]. by intros [= <- <- <-].
Qed.

Lemma run_cleanup (r : RSM S) (rf : R) r' rf' effs :
  cleanup (E:=E) (r, rf) = Some (tt, (r', rf'), effs) →
  r'.(pending) = ∅ ∧ closes effs = (pe_ch ∘ snd) <$> map_to_list r.(pending).
Proof.
  unfold cleanup. run. simpl. set (ps := map_to_list r.(pending)).
  assert (∀ s : RSM S * R, for_each ps (λ p, emit (RClose p.2.(pe_ch))) s
    = Some (tt, s, (λ p, RClose (E:=E) p.2.(pe_ch)) <$> ps)) as Hrun.
  { intros s. generalize ps. clear ps. intros ps. induction ps as [|p ps IH]; [done|].
    simpl. run. by rewrite IH. }
  erewrite bind_run by apply Hrun. unfold modify_rsm. run. intros [= <- <- <-]. split; [done|].
  rewrite ?app_nil_r. unfold closes. generalize ps. clear. intros ps.
  induction ps as [|p ps IH]; [done|]. cbn. by f_equal.
Qed.

(** What the operation and the answer to its call leave and send. *)
Lemma applyOp_spec index id req (r : RSM S) (rf : R) val r' rf' effs :
  applyOp index id req (r, rf) = Some (val, (r', rf'), effs) →
  r'.(pending) = delete index r.(pending) ∧
  (∀ ch res, (ch, res) ∈ sends effs → ∃ e, r.(pending) !! index = Some e ∧ e.(pe_ch) = ch ∧
     (res = retry ∨ res = mkResult id val ∧ e.(pe_id) = id)).
Proof.
  pose proof (run_applyOp index id req r rf) as Hrun. destruct (DoOp req r.(rsm_sm)) as [v s'].
  rewrite Hrun. intros [= <- <- <- <-]. split; [done|].
  intros ch res Hin%elem_of_sends. by eapply elem_of_answer.
Qed.

(** What [notifyOutdated] leaves and sends: retries to entries it removes. *)
Definition retried (p p' : gmap Z pendingEntry) (es : list (Z * result)) : Prop :=
  (∀ k e, p' !! k = Some e → p !! k = Some e) ∧
  (∀ ch res, (ch, res) ∈ es → res = retry ∧
     ∃ k e, p !! k = Some e ∧ p' !! k = None ∧ e.(pe_ch) = ch).

Lemma notifyOutdated_spec index (r : RSM S) (rf : R) r' rf' effs :
  notifyOutdated index (r, rf) = Some (tt, (r', rf'), effs) →
  retried r.(pending) r'.(pending) (sends effs).
Proof.
  pose proof (run_notifyOutdated index r rf) as Hn. simpl in Hn.
  destruct (rf_State rf) as [term b]. rewrite Hn. intros [= <- <- <-]. split; simpl.
  - intros k e Hk. by apply notifyPending_left in Hk as (Hk & _).
  - intros ch res Hin. apply elem_of_sends, elem_of_retries in Hin as (k & e & Hk & Ho & [= -> ->]).
    split; [done|]. exists k, e. split; [by apply elem_of_map_to_list|]. split; [|done].
    destruct (dropOutdated _ _ _ _ _ !! k) as [e'|] eqn:Hd; [|done].
    apply lookup_dropOutdated in Hd as [_ Hd]. by destruct (Hd e Hk).
Qed.

Lemma handleSnapshot_spec m (r : RSM S) (rf : R) r' rf' effs :
  handleSnapshot m (r, rf) = Some (tt, (r', rf'), effs) →
  retried r.(pending) r'.(pending) (sends effs).
Proof.
  unfold handleSnapshot. run. simpl. destruct (Restore _ _) as [s'|]; [|done]. run.
  unfold modify_rsm. run. simpl. intros Hrun. apply (notifyOutdated_spec _ _ _ _ _ _ Hrun).
Qed.

Lemma handleCommand_admit_pending m (r : RSM S) (rf : R) x r' rf' effs :
  handleCommand_admit (E:=E) m (r, rf) = Some (x, (r', rf'), effs) → r'.(pending) = r.(pending).
Proof.
  unfold handleCommand_admit. destruct m.(am_Command); run; try (by intros [= _ <- _ _]).
  simpl. case_bool_decide; unfold modify_rsm; run; by intros [= _ <- _ _].
Qed.

(** The reader goes on to send retries. *)
Lemma ok_retries y rsm rf es effs next :
  sys_ok y → retried y.(y_rsm).(pending) rsm.(pending) (sends effs) → es ≡ₚ sends (E:=E) effs →
  sys_ok (mkSys rsm rf (RSending es next) y.(y_calls) y.(y_done)).
Proof.
  intros [H1 H2 H3] [Hp Hs] Hes. split; simpl; [eauto| |done].
  intros es' next' ch res [= <- <-] Hin. left. rewrite Hes in Hin. by apply (Hs ch res).
Qed.

Lemma ok_finish y id index res :
  sys_ok y → y.(y_calls) !! id = Some (CWaiting index) →
  (∀ r, res = Some r → r.(res_id) = id → (id, r.(res_val)) ∈ y.(y_done)) →
  sys_ok (mkSys y.(y_rsm) y.(y_rf) y.(y_reader)
    (<[id := CFinishing index (Submit_reply id y.(y_rf) res)]> y.(y_calls)) y.(y_done)).
Proof.
  intros Hok Hc Hres. apply ok_call; [done|by apply (ok_calls _ Hok _ _ Hc)|].
  destruct res as [r|]; simpl; [|done]. case_bool_decide as Hid; [done|]. apply Hres; [done|].
  by destruct (decide (r.(res_id) = id)).
Qed.

Lemma ystep_ok y y' : sys_ok y → ystep y y' → sys_ok y'.
Proof.
  intros Hok. pose proof Hok as [H1 H2 H3]. intros Hst.
  destruct Hst as [rf'|id req res r' rf' effs _ Hid _ Hrun|id index Hc|id index _ Hc
    |id index reply r' rf' effs _ Hc Hrun|m r' rf' effs es _ _ Hrun Hes|m r' rf' effs ad _ _ _ Hrun
    |index id req val r' rf' effs _ Hrun|index r' rf' effs es _ Hrun Hes|index r' rf' effs _ Hrun
    |ch res es next index Hr Hc| |r' rf' effs _ Hrun|id index closed _ _ Hc].
  - by apply (ok_weaken y).
  - apply run_Submit_begin in Hrun as [[-> (v & ->)]|(index & term & -> & ->)]; simpl.
    + by apply (ok_call y).
    + split; simpl; [|done|].
      * intros k e [[<- <-]|[_ Hk]]%lookup_insert_Some; [done|by eapply H1].
      * intros id' pc' [[<- <-]|[_ Hl]]%lookup_insert_Some; [done|by apply H3].
  - apply (ok_call y); [done|by apply (H3 _ _ Hc)|done].
  - apply (ok_call y); [done|by apply (H3 _ _ Hc)|done].
  - rewrite run_Submit_end in Hrun. injection Hrun as <- <- <-. destruct (H3 _ _ Hc) as [Hid Hv].
    split; simpl; [|done|].
    + intros k e [_ Hk]%lookup_delete_Some. by eapply H1.
    + intros id' pc' [[<- <-]|[_ Hl]]%lookup_insert_Some; [done|by apply H3].
  - eapply ok_retries; [done|by eapply handleSnapshot_spec|done].
  - apply handleCommand_admit_pending in Hrun. split; simpl; [by rewrite Hrun| |done].
    intros es next ch res Heq. by destruct ad as [[]|].
  - apply applyOp_spec in Hrun as [Hp Hs]. split; simpl.
    + rewrite Hp. intros k e [_ Hk]%lookup_delete_Some. by eapply H1.
    + intros es next ch res [= <- <-] Hin. destruct (Hs _ _ Hin) as (e & He & <- & [->|[-> Hid]]); [by left|].
      right. destruct (H1 _ _ He) as [-> _]. simpl. rewrite Hid. split; [done|]. set_solver.
    + intros id' pc Hpc. destruct (H3 _ _ Hpc) as [? Hd]. split; [done|].
      destruct pc as [|?|? [[] ?]|[[] ?]]; set_solver.
  - eapply ok_retries; [done|by eapply notifyOutdated_spec|done].
  - apply run_checkSnapshot_rsm in Hrun as ->. split; simpl; [done| |done].
    intros es next ch res [= <- _] []%not_elem_of_nil.
  - eapply (ok_finish y ch index (Some res)) in Hok as [H1' _ H3']; [|done|].
    + split; simpl; [done| |done]. intros es' next' ch' res' [= <- <-] Hin.
      eapply H2; [exact Hr|set_solver].
    + intros r [= ->] Hid. destruct (H2 _ _ ch r Hr) as [->|[_ ?]]; [set_solver| |done].
      simpl in Hid. by destruct (H3 _ _ Hc).
  - split; simpl; [done|done|done].
  - apply run_cleanup in Hrun as [Hp _]. split; simpl; [|done|done]. intros k e. by rewrite Hp.
  - by apply (ok_finish y id index None).
Qed.

Lemma ysteps_ok y y' : sys_ok y → rtc ystep y y' → sys_ok y'.
Proof. intros Hok Hs. revert Hok. induction Hs; eauto using ystep_ok. Qed.

Lemma started_ok r rf : r.(pending) = ∅ → sys_ok (started r rf).
Proof.
  intros Hp. split; simpl; [|done|].
  - intros k e. rewrite Hp. by rewrite lookup_empty.
  - intros id pc. by rewrite lookup_empty.
Qed.

(** ** The reader blocked on a call that has timed out *)

Definition stuck (y : Sys) : Prop :=
  ∃ ch res es next index, y.(y_reader) = RSending ((ch, res) :: es) next ∧
    y.(y_calls) !! ch = Some (CTimedOut index).

Lemma ystep_stuck y y' : stuck y → ystep y y' →
  stuck y' ∧ y'.(y_rsm) = y.(y_rsm) ∧ y'.(y_reader) = y.(y_reader).
Proof.
  intros (ch & res & es & next & index & Hr & Hc) Hst.
  assert (locked y) as Hl by (unfold locked; by rewrite Hr).
  destruct Hst; try done; simpl in *; try congruence.
  - split; [|done]. by exists ch, res, es, next, index.
  - split; [|done]. exists ch, res, es, next, index. simpl. split; [done|].
    rewrite lookup_insert_ne; [done|congruence].
Qed.

Lemma ysteps_stuck y y' : stuck y → rtc ystep y y' →
  stuck y' ∧ y'.(y_rsm) = y.(y_rsm) ∧ y'.(y_reader) = y.(y_reader).
Proof.
  intros Hs Hrun. induction Hrun as [|y y1 y' H1' _ IH]; [done|].
  destruct (ystep_stuck _ _ Hs H1') as (Hs1 & E1 & E2). destruct (IH Hs1) as (? & ? & ?).
  split; [done|]. split; congruence.
Qed.

Lemma stuck_locked y : stuck y → locked y.
Proof. intros (ch & res & es & next & index & Hr & _). unfold locked. by rewrite Hr. Qed.

(** ** Entries belong to calls *)

(** The index a call that has not returned waits for. *)
Definition callIndex (pc : callPc) : option Z :=
  match pc with
  | CWaiting index | CTimedOut index | CFinishing index _ => Some index
  | CReturned _ => None
  end.

(** Every entry is at the index of its call, and the reader sends to calls that
    have no entry any more. *)
Record owned (y : Sys) : Prop := {
  own_entry k e : y.(y_rsm).(pending) !! k = Some e →
    e.(pe_ch) = e.(pe_id) ∧ y.(y_calls) !! e.(pe_id) ≫= callIndex = Some k;
  own_sending es next ch res k e : y.(y_reader) = RSending es next → (ch, res) ∈ es →
    y.(y_rsm).(pending) !! k = Some e → e.(pe_ch) ≠ ch
}.

Lemma owned_unique y k k' e e' : owned y →
  y.(y_rsm).(pending) !! k = Some e → y.(y_rsm).(pending) !! k' = Some e' →
  e.(pe_ch) = e'.(pe_ch) → k = k'.
Proof.
  intros Ho Hk Hk' Hc. destruct (own_entry _ Ho _ _ Hk) as [E1 H1], (own_entry _ Ho _ _ Hk') as [E2 H2].
  assert (e.(pe_id) = e'.(pe_id)) as Eid by congruence. rewrite Eid in H1. congruence.
Qed.

(** A call moves on without changing its index, the reader as given. *)
Lemma owned_call y rf rd dn id pc pc' :
  owned y → y.(y_calls) !! id = Some pc → callIndex pc' = callIndex pc →
  (∀ es next, rd = RSending es next → ∃ es', y.(y_reader) = RSending es' next ∧ es ⊆ es') →
  owned (mkSys y.(y_rsm) rf rd (<[id := pc']> y.(y_calls)) dn).
Proof.
  intros [H1 H2] Hc Hi Hrd. split; simpl.
  - intros k e Hk. destruct (H1 _ _ Hk) as [? Hx]. split; [done|].
    destruct (decide (e.(pe_id) = id)) as [Eid|]; [|by rewrite lookup_insert_ne].
    rewrite Eid in *. rewrite lookup_insert_eq. rewrite Hc in Hx. simpl in *. congruence.
  - intros es next ch res k e Hr Hin. destruct (Hrd _ _ Hr) as (es' & Hr' & Hsub). eapply H2; eauto.
Qed.

(** The reader removes entries and sends to their calls, or to none. *)
Lemma owned_reader y rsm rf rd dn :
  owned y → (∀ k e, rsm.(pending) !! k = Some e → y.(y_rsm).(pending) !! k = Some e) →
  (∀ es next ch res, rd = RSending es next → (ch, res) ∈ es →
     ∃ k e, y.(y_rsm).(pending) !! k = Some e ∧ rsm.(pending) !! k = None ∧ e.(pe_ch) = ch) →
  owned (mkSys rsm rf rd y.(y_calls) dn).
Proof.
  intros Ho Hp Hs. split; simpl.
  - intros k e Hk. by apply (own_entry _ Ho), Hp.
  - intros es next ch res k e Hr Hin Hk Hch. destruct (Hs _ _ _ _ Hr Hin) as (k' & e' & Hk' & Hn & <-).
    pose proof (owned_unique y k k' e e' Ho (Hp _ _ Hk) Hk' Hch). congruence.
Qed.

Lemma owned_retries y rsm rf es effs next dn :
  owned y → retried y.(y_rsm).(pending) rsm.(pending) (sends effs) → es ≡ₚ sends (E:=E) effs →
  owned (mkSys rsm rf (RSending es next) y.(y_calls) dn).
Proof.
  intros Ho [Hp Hs] Hes. eapply owned_reader; [done..|].
  intros es' next' ch res [= <- <-] Hin. rewrite Hes in Hin. by apply (Hs ch res).
Qed.

Lemma owned_submit y id req res r' rf' effs :
  owned y → ¬ locked y → y.(y_calls) !! id = None →
  Submit_begin id req (y.(y_rsm), y.(y_rf)) = Some (res, (r', rf'), effs) →
  owned (mkSys r' rf' y.(y_reader) (<[id := afterBegin res]> y.(y_calls)) y.(y_done)).
Proof.
  intros Ho Hl Hn Hrun. split; simpl.
  2:{ intros es next ch x k e Hr. exfalso. apply Hl. unfold locked. by rewrite Hr. }
  assert (∀ k e, y.(y_rsm).(pending) !! k = Some e → e.(pe_ch) = e.(pe_id) ∧
    <[id := afterBegin res]> y.(y_calls) !! e.(pe_id) ≫= callIndex = Some k) as Hold.
  { intros k e Hk. destruct (own_entry _ Ho _ _ Hk) as [? Hx]. split; [done|].
    rewrite lookup_insert_ne; [done|]. intros ->. by rewrite Hn in Hx. }
  apply run_Submit_begin in Hrun as [[-> _]|(index & term & -> & ->)]; [done|]. simpl.
  intros k e [[<- <-]|[_ Hk]]%lookup_insert_Some; [|by apply Hold].
  split; [done|]. simpl. by rewrite lookup_insert_eq.
Qed.

Lemma ystep_owned y y' : owned y → ystep y y' → owned y'.
Proof.
  intros Ho Hst.
  destruct Hst as [rf'|id req res r' rf' effs Hl Hid Hn Hrun|id index Hc|id index _ Hc
    |id index reply r' rf' effs Hl Hc Hrun|m r' rf' effs es _ _ Hrun Hes|m r' rf' effs ad _ _ _ Hrun
    |index id req val r' rf' effs _ Hrun|index r' rf' effs es _ Hrun Hes|index r' rf' effs _ Hrun
    |ch res es next index Hr Hc|Hr|r' rf' effs _ Hrun|id index closed Hr _ Hc].
  - destruct Ho as [H1 H2]. by split.
  - by eapply owned_submit.
  - by eapply owned_call; [..|intros; eexists].
  - by eapply owned_call; [..|intros; eexists].
  - rewrite run_Submit_end in Hrun. injection Hrun as <- <- <-. split; simpl.
    + intros k e [Hne Hk]%lookup_delete_Some. destruct (own_entry _ Ho _ _ Hk) as [? Hx]. split; [done|].
      rewrite lookup_insert_ne; [done|]. intros Eid. rewrite <-Eid, Hc in Hx. simpl in Hx. congruence.
    + intros es next ch x k e Hr. exfalso. apply Hl. unfold locked. by rewrite Hr.
  - eapply owned_retries; [done|by eapply handleSnapshot_spec|done].
  - apply handleCommand_admit_pending in Hrun. eapply owned_reader; [done|by rewrite Hrun|].
    intros es next ch res Heq. by destruct ad as [[]|].
  - apply applyOp_spec in Hrun as [Hp Hs]. eapply owned_reader; [done|..]; rewrite Hp.
    + by intros k e [_ Hk]%lookup_delete_Some.
    + intros es next ch res [= <- <-] Hin. destruct (Hs _ _ Hin) as (e & He & Hch & _).
      exists index, e. by rewrite lookup_delete_eq.
  - eapply owned_retries; [done|by eapply notifyOutdated_spec|done].
  - apply run_checkSnapshot_rsm in Hrun as ->. eapply owned_reader; [done..|].
    intros es next ch res [= <- _] []%not_elem_of_nil.
  - eapply owned_call; [done..|]. intros es' next' [= <- <-]. eexists. split; [done|]. set_solver.
  - by eapply owned_reader.
  - apply run_cleanup in Hrun as [Hp _]. eapply owned_reader; [done| |done].
    intros k e. by rewrite Hp.
  - by eapply owned_call; [..|intros; eexists].
Qed.

Lemma ysteps_owned y y' : owned y → rtc ystep y y' → owned y'.
Proof. intros Ho Hs. revert Ho. induction Hs; eauto using ystep_owned. Qed.

Lemma started_owned r rf : r.(pending) = ∅ → owned (started r rf).
Proof. intros Hp. split; simpl; [|done]. intros k e. rewrite Hp. by rewrite lookup_empty. Qed.

(** ** A call that nothing can answer *)

Definition noAnswer (pc : callPc) : Prop :=
  match pc with
  | CWaiting _ | CTimedOut _ => True
  | CFinishing _ (err, _) | CReturned (err, _) => err = ErrWrongLeader
  end.

(** Call [c] has no result, no entry, and nothing is being sent to it. *)
Record abandoned (c : Z) (y : Sys) : Prop := {
  ab_call : ∃ pc, y.(y_calls) !! c = Some pc ∧ noAnswer pc;
  ab_entry k e : y.(y_rsm).(pending) !! k = Some e → e.(pe_ch) ≠ c;
  ab_reader : match y.(y_reader) with
              | RSending es _ => c ∉ es.*1
              | RStopped closed => c ∉ closed
              | _ => True
              end
}.

Lemma abandoned_call c y rf rd dn id pc :
  abandoned c y → (id = c → noAnswer pc) →
  match rd with RSending es _ => c ∉ es.*1 | RStopped closed => c ∉ closed | _ => True end →
  abandoned c (mkSys y.(y_rsm) rf rd (<[id := pc]> y.(y_calls)) dn).
Proof.
  intros [(pc' & Hc & Hn) Hp Hr] Hpc Hrd. split; simpl; [|done|done].
  destruct (decide (id = c)) as [->|].
  - exists pc. rewrite lookup_insert_eq. auto.
  - exists pc'. by rewrite lookup_insert_ne.
Qed.

Lemma abandoned_reader c y rsm rf rd dn :
  abandoned c y → (∀ k e, rsm.(pending) !! k = Some e → y.(y_rsm).(pending) !! k = Some e) →
  match rd with RSending es _ => c ∉ es.*1 | RStopped closed => c ∉ closed | _ => True end →
  abandoned c (mkSys rsm rf rd y.(y_calls) dn).
Proof. intros [Hc Hp Hr] Hsub Hrd. split; simpl; [done|eauto|done]. Qed.

Lemma abandoned_retries c y rsm rf es effs next dn :
  abandoned c y → retried y.(y_rsm).(pending) rsm.(pending) (sends effs) → es ≡ₚ sends (E:=E) effs →
  abandoned c (mkSys rsm rf (RSending es next) y.(y_calls) dn).
Proof.
  intros Ha [Hp Hs] Hes. eapply abandoned_reader; [done..|]. rewrite Hes.
  intros ([ch res] & -> & Hin)%list_elem_of_fmap. destruct (Hs _ _ Hin) as (_ & k & e & Hk & _ & Hch).
  by apply (ab_entry _ _ Ha k e).
Qed.

Lemma ystep_abandoned c y y' : abandoned c y → ystep y y' → abandoned c y'.
Proof.
  intros Ha Hst. pose proof Ha as [(pc & Hcc & Hpc) Hp Hr0].
  destruct Hst as [rf'|id req res r' rf' effs Hl Hid Hn Hrun|id index Hc|id index _ Hc
    |id index reply r' rf' effs Hl Hc Hrun|m r' rf' effs es _ _ Hrun Hes|m r' rf' effs ad _ _ _ Hrun
    |index id req val r' rf' effs _ Hrun|index r' rf' effs es _ Hrun Hes|index r' rf' effs _ Hrun
    |ch res es next index Hr Hc|Hr|r' rf' effs _ Hrun|id index closed Hr Hin Hc].
  - by apply (abandoned_reader c y).
  - assert (id ≠ c) as Hne by congruence.
    apply run_Submit_begin in Hrun as [[-> _]|(index & term & -> & ->)]; [by apply abandoned_call|].
    split; simpl; [|intros k e [[_ <-]|[_ Hk]]%lookup_insert_Some; [done|by eapply Hp]|done].
    exists pc. by rewrite lookup_insert_ne.
  - by apply abandoned_call.
  - by apply abandoned_call.
  - rewrite run_Submit_end in Hrun. injection Hrun as <- <- <-.
    apply (abandoned_call c (mkSys (set_pending (delete index y.(y_rsm).(pending)) y.(y_rsm)) y.(y_rf)
      y.(y_reader) y.(y_calls) y.(y_done))); [|intros ->; rewrite Hc in Hcc; by injection Hcc as <-|done].
    apply (abandoned_reader c y); [done| |done]. simpl. by intros k e [_ Hk]%lookup_delete_Some.
  - eapply abandoned_retries; [done|by eapply handleSnapshot_spec|done].
  - apply handleCommand_admit_pending in Hrun. eapply abandoned_reader; [done|by rewrite Hrun|].
    by destruct ad as [[]|].
  - apply applyOp_spec in Hrun as [Hd Hs]. eapply abandoned_reader; [done|..].
    + rewrite Hd. by intros k e [_ Hk]%lookup_delete_Some.
    + intros ([ch res] & -> & Hin)%list_elem_of_fmap. destruct (Hs _ _ Hin) as (e & He & Hch & _).
      by apply (Hp index e).
  - eapply abandoned_retries; [done|by eapply notifyOutdated_spec|done].
  - apply run_checkSnapshot_rsm in Hrun as ->. eapply abandoned_reader; [done..|]. set_solver.
  - rewrite Hr in Hr0. apply abandoned_call; [done| |]; set_solver.
  - by apply (abandoned_reader c y).
  - apply run_cleanup in Hrun as [Hd Hcl]. eapply abandoned_reader; [done|by rewrite Hd|].
    rewrite Hcl. intros ([k e] & -> & Hin)%list_elem_of_fmap.
    apply elem_of_map_to_list in Hin. by apply (Hp k e).
  - by apply abandoned_call.
Qed.

Lemma ysteps_abandoned c y y' : abandoned c y → rtc ystep y y' → abandoned c y'.
Proof. intros Ha Hs. revert Ha. induction Hs; eauto using ystep_abandoned. Qed.

(** Removing the only entry of a call that waits. *)
Lemma abandoned_removed y i e c1 c2 reply :
  owned y → ¬ locked y → y.(y_rsm).(pending) !! i = Some e → e.(pe_ch) = c2 → c1 ≠ c2 →
  y.(y_calls) !! c2 = Some (CWaiting i) →
  match y.(y_reader) with RStopped closed => c2 ∉ closed | _ => True end →
  abandoned c2 (mkSys (set_pending (delete i y.(y_rsm).(pending)) y.(y_rsm)) y.(y_rf) y.(y_reader)
    (<[c1 := CReturned reply]> y.(y_calls)) y.(y_done)).
Proof.
  intros Ho Hl Hi Hch Hne Hc Hcl. split; simpl.
  - exists (CWaiting i). by rewrite lookup_insert_ne.
  - intros k e' [Hk1 Hk]%lookup_delete_Some Hch'. destruct Hk1.
    by eapply (owned_unique y i k e e'); [..|congruence].
  - unfold locked in Hl. by destruct y.(y_reader).
Qed.
End threads.

Arguments Sys : clear implicits.
Arguments mkSys {S R}.
Arguments y_rsm {S R}.
Arguments y_rf {S R}.
Arguments y_reader {S R}.
Arguments y_calls {S R}.
Arguments y_done {S R}.

(** ** Concrete runs

    A store over a consensus node that is leader; ids 7, 8, 9 are calls, 100 is
    an operation of another node. *)
Module Runs.
#[export] Instance api : RaftApi Raft Effect := Raft_Api (λ d, zlen d).
Definition put (k : string) : any :=
  VPutArgs {| pa_Key := k; pa_Value := "v"; pa_Version := 0 |}.
Definition leader (term : Z) (entries : list Entry) : Raft :=
  set_logs (zeroEntry :: entries)
    (set_state StateLeader (set_currentTerm term (Make_fresh 3 0 (mkDisk [] [])))).
Definition command (index id : Z) (k : string) : ApplyMsg :=
  {| CommandValid := true; am_Command := VOp 0 id (put k); CommandIndex := index;
     SnapshotValid := false; am_Snapshot := []; SnapshotTerm := 0; SnapshotIndex := 0 |}.
Definition start : Sys Store Raft := started (mkRSM 0 (-1) NewStore ∅ 0) (leader 1 []).
Definition run (xs : list (yaction (R:=Raft))) : Sys Store Raft := default start (yplay xs start).

(** a call that is answered *)
Definition answered : list (yaction (R:=Raft)) :=
  [DoSubmit 7 (put "a"); DoAdmit (command 1 7 "a"); DoApply; DoSend; DoOutdated; DoCheck;
   DoUnlock; DoEnd 7].

(** a call that times out while its operation is applied *)
Definition too_late : list (yaction (R:=Raft)) :=
  [DoSubmit 7 (put "a"); DoAdmit (command 1 7 "a"); DoTimeout 7; DoApply].

(** calls 7 and 8 at indices 1 and 2; another leader replaces both entries by
    one of its own, then this node leads again and gives index 2 to call 9;
    call 8 times out and is about to remove its entry *)
Definition reused : list (yaction (R:=Raft)) :=
  [DoSubmit 7 (put "a"); DoSubmit 8 (put "b");
   DoRaft (leader 3 [mkEntry 1 2 (VOp 1 100 (put "c"))]); DoSubmit 9 (put "d");
   DoTimeout 8; DoDump 8].
End Runs.

#[local] Existing Instance Runs.api.

(** ** Theorems *)

(** C17: a call that returns [OK] returns what its operation returned: under any
    interleaving of calls, timeouts, the reader and the consensus layer, the
    reader has applied an operation with the call's id and got that value. *)
Theorem submit_ok_applied {S} `{StateMachine S} {R E} `{RaftApi R E}
    (r : RSM S) (rf : R) y id v :
  r.(pending) = ∅ → rtc ystep (started r rf) y →
  y.(y_calls) !! id = Some (CReturned (OK, v)) → (id, v) ∈ y.(y_done).
Proof.
  intros Hp Hrun Hc. pose proof (ysteps_ok _ _ (started_ok r rf Hp) Hrun) as [_ _ H3].
  apply (H3 _ _ Hc).
Qed.

Lemma submit_ok_applied_witness :
  (7, VPutReply {| pr_Err := OK |}) ∈ (Runs.run Runs.answered).(y_done).
Proof.
  apply (submit_ok_applied (mkRSM 0 (-1) NewStore ∅ 0) (Runs.leader 1 []));
    [reflexivity| |vm_compute; reflexivity].
  apply (yplay_steps Runs.answered Runs.start). vm_compute. eexists. reflexivity.
Defined.

(** C36: a timeout can stop the replica for good.  A call that times out locks
    the mutex before it returns; the reader may then be holding it and sending
    to that very call.  The run exists, and from there on, whatever happens,
    the reader holds the mutex and the replica does not change. *)
Theorem submit_timeout_deadlock :
  ∃ y, rtc ystep Runs.start y ∧
    ∀ y', rtc ystep y y' → locked y' ∧ y'.(y_rsm) = y.(y_rsm).
Proof.
  exists (Runs.run Runs.too_late).
  assert (stuck (Runs.run Runs.too_late)) as Hs.
  { exists 7, (mkResult 7 (VPutReply {| pr_Err := OK |})), [], (ThenOutdated 1), 1. split; vm_compute; reflexivity. }
  split.
  - apply (yplay_steps Runs.too_late Runs.start). vm_compute. by eexists.
  - intros y' Hrun. destruct (ysteps_stuck _ _ Hs Hrun) as (Hs' & E & _).
    split; [by apply stuck_locked|done].
Qed.

(** C39: the end of a call can remove another call's entry for good.  When a
    call is about to run its deferred removal and the entry at its index is
    another call's, which happens when a new leadership gives an index out
    again, the removal drops that entry.  Whatever happens then (the consensus
    layer, the reader and all calls going on in any way), nothing is sent to the
    other call and it never returns a result, not even when its operation is
    applied: all it can do is to time out. *)
Theorem submit_end_drops_other_call {S} `{StateMachine S} {R E} `{RaftApi R E}
    (r : RSM S) (rf : R) y c1 c2 i reply e r' rf' effs :
  r.(pending) = ∅ → rtc ystep (started r rf) y →
  ¬ locked y → (∀ closed, y.(y_reader) ≠ RStopped closed) →
  y.(y_calls) !! c1 = Some (CFinishing i reply) →
  y.(y_calls) !! c2 = Some (CWaiting i) →
  y.(y_rsm).(pending) !! i = Some e → e.(pe_ch) = c2 →
  Submit_end (E:=E) i (y.(y_rsm), y.(y_rf)) = Some (tt, (r', rf'), effs) →
  let y' := mkSys r' rf' y.(y_reader) (<[c1 := CReturned reply]> y.(y_calls)) y.(y_done) in
  ystep y y' ∧ ∀ y'', rtc ystep y' y'' → abandoned c2 y''.
Proof.
  intros Hp Hrun Hl Hns H1 H2 He Hch Hend y'. split; [by eapply Y_end|]. intros y'' Hrun'.
  eapply ysteps_abandoned; [|exact Hrun']. rewrite run_Submit_end in Hend. injection Hend as <- <- <-.
  eapply abandoned_removed; [|done|done|done|congruence|done|].
  - eapply ysteps_owned; [|exact Hrun]. by apply started_owned.
  - destruct y.(y_reader) as [| | |closed]; try done. by destruct (Hns closed).
Qed.

Lemma submit_end_drops_other_call_witness :
  let y := Runs.run Runs.reused in
  let y' := mkSys (set_pending (delete 2 y.(y_rsm).(pending)) y.(y_rsm)) y.(y_rf) y.(y_reader)
    (<[8 := CReturned (ErrWrongLeader, VInt (-1))]> y.(y_calls)) y.(y_done) in
  ystep y y' ∧ ∀ y'', rtc ystep y' y'' → abandoned 9 y''.
Proof.
  intros y. refine (submit_end_drops_other_call (mkRSM 0 (-1) NewStore ∅ 0) (Runs.leader 1 []) y 8 9 2
    (ErrWrongLeader, VInt (-1)) (mkPending 9 3 9) _ _ [] _ _ _ _ _ _ _ _ _).
  - reflexivity.
  - apply (yplay_steps Runs.reused Runs.start). vm_compute. eexists. reflexivity.
  - vm_compute. intros [].
  - intros closed. vm_compute. discriminate.
  - vm_compute. reflexivity.
  - vm_compute. reflexivity.
  - vm_compute. reflexivity.
  - reflexivity.
  - apply run_Submit_end.
Defined.
