(* ===== verification/System.v ===== *)
(** * The replicated system

    A cluster of [Cluster.v] with a replicated state machine of [Rsm.v] on every
    node: each node has its consensus engine, its RSM, the apply channel from
    the one to the other, and the reader goroutine that empties it.  Client
    calls and the reader use the engine through its interface; everything else
    the engines do is a step of the cluster.

    The apply channel has no buffer, but the applier moves [lastApplied] for a
    whole batch before it sends the first message of it; the messages it still
    has to send are the queue [sy_chan].  The parts of the reader between two
    points where it can stop are separate steps, so the engine goes on between
    applying an operation, each answer to a call and taking the snapshot.  The
    channels of the calls have no buffer either: a send is a step of its own
    that the reader and the receiving call take together, and when the call is
    no longer in its [select] the reader waits with the mutex held, for ever
    ([RsmThreads.v] has such a run).  The apply channel is not closed here and no
    engine is killed: a node goes down by crashing.

    A crash loses the RSM, the channel, the calls and the engine's volatile
    state.  [Save] writes two files one after the other; the parameter of the
    step relation says whether a crash can come between them.  With [Atomic] a
    node restarts from a completed save, with [TwoFiles] also from a torn one:
    the state of the new save with the snapshot of the old one ([Persist.v]
    shows that these are all the cases, and what a torn save does). *)

From stdpp Require Import functions.
From S2P Require Import Prelude Api Raft Cluster Store Rsm.

Local Open Scope Z_scope.

(** Where the reader of a node is: receiving from the apply channel; about to
    execute an operation; holding the mutex with these messages to send, then
    going on as said. *)
Inductive readerAt :=
  | AtReceive
  | AtApply (index id : Z) (req : any)
  | AtSend (es : list (Z * result)) (next : afterSends).

(** Where a call that logged an operation is: receiving from its channel, which
    is named by its id; or past the [select], about to lock the mutex. *)
Inductive callAt :=
  | InSelect (id index : Z)
  | Leaving (index : Z).

(** Whether a crash can come between the two files of a save. *)
Inductive saving := Atomic | TwoFiles.

(** What clients can observe: an operation was logged by a call, a call received
    a message from its channel.  Most recent first. *)
Inductive hevent :=
  | HSubmit (n id : Z) (req : any) (index : Z)
  | HAnswer (n ch : Z) (r : result).

Record System (S : Type) := mkSystem {
  sy_world : World;
  sy_rsm : Z → RSM S;
  sy_chan : Z → list ApplyMsg;
  sy_reader : Z → readerAt;
  sy_calls : Z → list callAt;
  sy_hist : list hevent
}.
Arguments mkSystem {S}.
Arguments sy_world {S}.
Arguments sy_rsm {S}.
Arguments sy_chan {S}.
Arguments sy_reader {S}.
Arguments sy_calls {S}.
Arguments sy_hist {S}.

(** Events of the engine that do not come from its RSM. *)
Definition internal (ev : event) : bool :=
  match ev with EvStart _ | EvSnapshot _ _ => false | _ => true end.

Section system.
Context {S : Type} `{StateMachine S}.
(** what a crash can do to a save, the number of nodes, the size of an encoding, [NewStore()], [maxRaftState] *)
Context (sv : saving) (N : Z) (size : bytes → Z) (s0 : S) (maxState : Z).

#[local] Instance engine : RaftApi Raft Effect := Raft_Api size.

Definition sinit : System S :=
  mkSystem (winit N) (λ n, mkRSM n maxState s0 ∅ 0) (λ _, []) (λ _, AtReceive) (λ _, []) [].

(** The engine's effects of a call into it. *)
Definition engineEffects (effs : list (RsmEffect Effect)) : list Effect :=
  omap (λ e, match e with RRaft e => Some e | _ => None end) effs.

(** The world after a call into the engine of node [n]. *)
Definition called (w : World) (n : Z) (rf : Raft) (effs : list Effect) : World :=
  mkWorld (<[n := rf]> w.(w_node)) (<[n := w.(w_els) n]> w.(w_els)) w.(w_reqs) w.(w_reps)
    (((λ m, (n, m)) <$> appliedBy effs) ++ w.(w_applied)).

(** Whether the mutex of the RSM is free: the reader holds it while it sends. *)
Definition free (r : readerAt) : bool := match r with AtSend _ _ => false | _ => true end.

Definition logged (n id : Z) (req : any) (res : Z + Err * any) : list hevent :=
  match res with inl index => [HSubmit n id req index] | inr _ => [] end.

Definition waiting (id : Z) (res : Z + Err * any) : list callAt :=
  match res with inl index => [InSelect id index] | inr _ => [] end.

Definition admittedTo (index : Z) (a : option (Z * any)) : readerAt :=
  match a with Some (id, req) => AtApply index id req | None => AtReceive end.

(** The disks of completed saves a node can restart from: the current one, or
    one that was saved during an event. *)
Definition crashDisk (w : World) (n : Z) (d : Disk) : Prop :=
  d = (w.(w_node) n).(persister) ∨
  ∃ ev o, internal ev = true ∧ enabled N w n ev ∧
    exec ev (w.(w_node) n) (w.(w_els) n) = Some o ∧ ESave d ∈ o.(o_effs).

(** All disks a crash during an event or during the check of the snapshot can
    leave, torn ones included.  ([Start] saves with the same snapshot, which
    cannot be torn.) *)
Definition tornDisk (y : System S) (n : Z) (d : Disk) : Prop :=
  let rf := y.(sy_world).(w_node) n in
  (∃ ev o, internal ev = true ∧ enabled N y.(sy_world) n ev ∧
    exec ev rf (y.(sy_world).(w_els) n) = Some o ∧ d ∈ crashPoints rf.(persister) o.(o_effs)) ∨
  (∃ index r' rf' effs, y.(sy_reader) n = AtSend [] (ThenCheck index) ∧
    checkSnapshot index (y.(sy_rsm) n, rf) = Some (tt, (r', rf'), effs) ∧
    d ∈ crashPoints rf.(persister) (engineEffects effs)).

(** Node [n] restarts with the engine [rf] and the RSM [r]. *)
Definition rebooted (y : System S) (n : Z) (rf : Raft) (r : RSM S) : System S :=
  mkSystem (restart y.(sy_world) n rf) (<[n := r]> y.(sy_rsm)) (<[n := []]> y.(sy_chan))
    (<[n := AtReceive]> y.(sy_reader)) (<[n := []]> y.(sy_calls)) y.(sy_hist).

(** The reader of node [n] went on: its RSM, the queue and where it is now. *)
Definition readerMoved (y : System S) (n : Z) (r' : RSM S) (ms : list ApplyMsg) (rd : readerAt) : System S :=
  mkSystem y.(sy_world) (<[n := r']> y.(sy_rsm)) (<[n := ms]> y.(sy_chan))
    (<[n := rd]> y.(sy_reader)) y.(sy_calls) y.(sy_hist).

Inductive sstep (y : System S) : System S → Prop :=
| S_engine n ev o :
    isNode N n → internal ev = true → enabled N y.(sy_world) n ev →
    exec ev (y.(sy_world).(w_node) n) (y.(sy_world).(w_els) n) = Some o →
    sstep y (mkSystem (after y.(sy_world) n ev o) y.(sy_rsm)
      (<[n := y.(sy_chan) n ++ appliedBy o.(o_effs)]> y.(sy_chan)) y.(sy_reader) y.(sy_calls) y.(sy_hist))
(** a call: up to the [select], the timeout, the deferred removal *)
| S_submit n id req res r' rf' effs :
    isNode N n → free (y.(sy_reader) n) = true →
    Submit_begin id req (y.(sy_rsm) n, y.(sy_world).(w_node) n) = Some (res, (r', rf'), effs) →
    sstep y (mkSystem (called y.(sy_world) n rf' (engineEffects effs)) (<[n := r']> y.(sy_rsm))
      y.(sy_chan) y.(sy_reader) (<[n := y.(sy_calls) n ++ waiting id res]> y.(sy_calls))
      (logged n id req res ++ y.(sy_hist)))
| S_timeout n j id index :
    isNode N n → y.(sy_calls) n !! j = Some (InSelect id index) →
    sstep y (mkSystem y.(sy_world) y.(sy_rsm) y.(sy_chan) y.(sy_reader)
      (<[n := <[j := Leaving index]> (y.(sy_calls) n)]> y.(sy_calls)) y.(sy_hist))
| S_end n j index r' rf' effs :
    isNode N n → free (y.(sy_reader) n) = true → y.(sy_calls) n !! j = Some (Leaving index) →
    Submit_end (E:=Effect) index (y.(sy_rsm) n, y.(sy_world).(w_node) n) = Some (tt, (r', rf'), effs) →
    sstep y (mkSystem y.(sy_world) (<[n := r']> y.(sy_rsm)) y.(sy_chan) y.(sy_reader)
      (<[n := delete j (y.(sy_calls) n)]> y.(sy_calls)) y.(sy_hist))
(** the reader takes a message; the loops over the map send in any order *)
| S_snapshot n m ms r' rf' effs es :
    isNode N n → y.(sy_reader) n = AtReceive → y.(sy_chan) n = m :: ms →
    m.(SnapshotValid) = true →
    handleSnapshot m (y.(sy_rsm) n, y.(sy_world).(w_node) n) = Some (tt, (r', rf'), effs) →
    es ≡ₚ sends effs →
    sstep y (readerMoved y n r' ms (AtSend es ThenReceive))
| S_command n m ms r' rf' effs admitted :
    isNode N n → y.(sy_reader) n = AtReceive → y.(sy_chan) n = m :: ms →
    m.(SnapshotValid) = false → m.(CommandValid) = true →
    handleCommand_admit (E:=Effect) m (y.(sy_rsm) n, y.(sy_world).(w_node) n)
      = Some (admitted, (r', rf'), effs) →
    sstep y (readerMoved y n r' ms (admittedTo m.(CommandIndex) admitted))
| S_invalid n m ms :
    isNode N n → y.(sy_reader) n = AtReceive → y.(sy_chan) n = m :: ms →
    m.(SnapshotValid) = false → m.(CommandValid) = false →
    sstep y (readerMoved y n (y.(sy_rsm) n) ms AtReceive)
| S_apply n index id req val r' rf' effs :
    isNode N n → y.(sy_reader) n = AtApply index id req →
    applyOp index id req (y.(sy_rsm) n, y.(sy_world).(w_node) n) = Some (val, (r', rf'), effs) →
    sstep y (readerMoved y n r' (y.(sy_chan) n) (AtSend (sends effs) (ThenOutdated index)))
| S_outdated n index r' rf' effs es :
    isNode N n → y.(sy_reader) n = AtSend [] (ThenOutdated index) →
    notifyOutdated index (y.(sy_rsm) n, y.(sy_world).(w_node) n) = Some (tt, (r', rf'), effs) →
    es ≡ₚ sends effs →
    sstep y (readerMoved y n r' (y.(sy_chan) n) (AtSend es (ThenCheck index)))
| S_check n index r' rf' effs :
    isNode N n → y.(sy_reader) n = AtSend [] (ThenCheck index) →
    checkSnapshot index (y.(sy_rsm) n, y.(sy_world).(w_node) n) = Some (tt, (r', rf'), effs) →
    sstep y (mkSystem (called y.(sy_world) n rf' (engineEffects effs)) (<[n := r']> y.(sy_rsm))
      y.(sy_chan) (<[n := AtReceive]> y.(sy_reader)) y.(sy_calls) y.(sy_hist))
| S_unlock n :
    isNode N n → y.(sy_reader) n = AtSend [] ThenReceive →
    sstep y (readerMoved y n (y.(sy_rsm) n) (y.(sy_chan) n) AtReceive)
(** the reader sends and a call receives *)
| S_send n ch res es next j index :
    isNode N n → y.(sy_reader) n = AtSend ((ch, res) :: es) next →
    y.(sy_calls) n !! j = Some (InSelect ch index) →
    sstep y (mkSystem y.(sy_world) y.(sy_rsm) y.(sy_chan) (<[n := AtSend es next]> y.(sy_reader))
      (<[n := <[j := Leaving index]> (y.(sy_calls) n)]> y.(sy_calls)) (HAnswer n ch res :: y.(sy_hist)))
(** crashes *)
| S_crash n d rf r :
    isNode N n → crashDisk y.(sy_world) n d →
    Make N n d = Some rf → MakeRSM n maxState s0 d.(d_snapshot) = Some r →
    sstep y (rebooted y n rf r)
| S_torn n d rf r :
    sv = TwoFiles → isNode N n → tornDisk y n d →
    Make N n d = Some rf → MakeRSM n maxState s0 d.(d_snapshot) = Some r →
    sstep y (rebooted y n rf r).

Definition sreachable (y : System S) : Prop := rtc sstep sinit y.
End system.
