(* ===== verification/SystemFacts.v ===== *)
(** * The invariant of the replicated system

    Every replica is at a position of the committed log, its state is the one
    the log determines there, what is queued for it continues the log, and every
    snapshot, on a disk, in a message or queued, is of the state its index
    determines.  Operations in the logs were submitted, and answers are results
    of operations at their place in the committed log. *)

From stdpp Require Import functions.
From S2P Require Import Prelude Api Raft Protocol RaftFacts Cluster ClusterSim ClusterLocal Frames Store Rsm RsmFacts System.

Local Open Scope Z_scope.

(** ** Streams of messages *)

Section streams.
Context {S : Type} `{StateMachine S} (s0 : S).
Implicit Types (p q : list Entry).

Lemma stateAt_prefix p q i : p `prefix_of` q → (i ≤ length p)%nat → stateAt s0 p i = stateAt s0 q i.
Proof. intros Hpq Hi. unfold stateAt. by rewrite (prefix_take_of p q). Qed.

Lemma stream_prefix p q i ms j : p `prefix_of` q → stream s0 p i ms j → stream s0 q i ms j.
Proof.
  intros Hpq. induction 1 as [i|i e m ms j He ? ? ? ? _ IH|i k m ms j Hk ? ? Hs _ IH].
  - constructor.
  - eapply stream_cmd; [by eapply prefix_lookup_Some|done..].
  - pose proof (prefix_length _ _ Hpq). eapply stream_snap; [|done|done| |done]; [lia|].
    rewrite <-Hs. f_equal. symmetry. apply stateAt_prefix; [done|lia].
Qed.

Lemma stream_app p i ms j ms' k : stream s0 p i ms j → stream s0 p j ms' k → stream s0 p i (ms ++ ms') k.
Proof. induction 1; intros; simpl; [done|eapply stream_cmd; eauto|eapply stream_snap; eauto]. Qed.

Lemma stream_bound p i ms j : stream s0 p i ms j → (i ≤ length p)%nat → (i ≤ j ≤ length p)%nat.
Proof.
  induction 1 as [|i e m ms j He ? ? ? ? _ IH|i k m ms j Hk ? ? Hs _ IH]; intros; [lia| |lia].
  pose proof (lookup_lt_Some _ _ _ He). lia.
Qed.

(** The commands the applier sends continue the log. *)
Lemma stream_entries p i j :
  indexed p → (i ≤ j ≤ length p)%nat →
  stream s0 p i (commandMsg <$> entriesBetween p (Z.of_nat i) (Z.of_nat j)) j.
Proof.
  intros HI. remember (j - i)%nat as n eqn:Hn. revert i Hn.
  induction n as [|n IH]; intros i Hn Hij.
  - replace j with i by lia. unfold entriesBetween. rewrite Z.sub_diag. simpl. constructor.
  - destruct (lookup_lt_is_Some_2 p i) as [e He]; [lia|].
    assert (entriesBetween p (Z.of_nat i) (Z.of_nat j)
      = e :: entriesBetween p (Z.of_nat (Datatypes.S i)) (Z.of_nat j)) as ->.
    { unfold entriesBetween. rewrite !Nat2Z.id, (drop_S _ _ _ He).
      replace (Z.to_nat (Z.of_nat j - Z.of_nat i)) with (Datatypes.S n) by lia.
      replace (Z.to_nat (Z.of_nat j - Z.of_nat (Datatypes.S i))) with n by lia. done. }
    simpl. eapply stream_cmd; [exact He|done|done|by apply HI|done|]. apply IH; lia.
Qed.
End streams.

(** ** The invariant *)

(** The operation of an entry was submitted for its index. *)
Definition submitted (h : list hevent) (e : Entry) : Prop :=
  ∃ n id req, e.(Command) = VOp n id req ∧ HSubmit n id req e.(Index) ∈ h.

Lemma submitted_mono h h' e : h ⊆ h' → submitted h e → submitted h' e.
Proof. intros Hh (n & id & req & ? & ?). exists n, id, req. split; [done|by apply Hh]. Qed.

Section inv.
Context {S : Type} `{StateMachineLaws S}.
Context (N : Z) (N_pos : 0 < N) (size : bytes → Z) (s0 : S) (maxState : Z).
Implicit Types (a : AState) (y : System S) (p : list Entry).

#[local] Hint Extern 0 (RaftApi Raft Effect) => exact (engine size) : typeclass_instances.

(** [data] is the snapshot of the state after [i] committed entries. *)
Definition goodSnap a (i : Z) (data : bytes) : Prop :=
  ∃ T p, committed N a T p ∧ zlen p = i ∧
    (data = [] ∧ p = [] ∨ Snapshot (stateAt s0 p (length p)) = Some data).

(** The reader has dealt with the first [i] entries of [p], up to what is left
    of the current one. *)
Definition readerPos (rd : readerAt) (r : RSM S) p (i : nat) : Prop :=
  r.(rsm_lastApplied) ≤ Z.of_nat i ∧
  match rd with
  | AtReceive => r.(rsm_sm) = stateAt s0 p i
  | AtSend _ next => r.(rsm_sm) = stateAt s0 p i ∧
      match next with ThenOutdated index | ThenCheck index => index = Z.of_nat i | ThenReceive => True end
  | AtApply index id req => ∃ k e m, i = Datatypes.S k ∧ p !! k = Some e ∧
      e.(Command) = VOp m id req ∧ index = Z.of_nat i ∧ r.(rsm_sm) = stateAt s0 p k
  end.

Definition following a (rf : Raft) (r : RSM S) (ch : list ApplyMsg) (rd : readerAt) : Prop :=
  ∃ T p i, committed N a T p ∧ (i ≤ length p)%nat ∧ readerPos rd r p i ∧
    stream s0 p i ch (Z.to_nat rf.(lastApplied)).

(** The channel [ch] at node [n] belongs to a call that logged an operation. *)
Definition called_at (h : list hevent) (n ch : Z) : Prop := ∃ req k, HSubmit n ch req k ∈ h.

(** A message for the channel of a call, [h] having happened before it: unless it
    is the retry marker, it is the result of the call's operation. *)
Definition answer_ok a (h : list hevent) (n ch : Z) (r : result) : Prop :=
  called_at h n ch ∧
  (r.(res_id) = ch → ch ≠ -1 →
  ∃ T p i e m req, committed N a T p ∧ p !! i = Some e ∧ e.(Command) = VOp m ch req ∧
    r.(res_val) = (DoOp req (stateAt s0 p i)).1 ∧ ∀ e', e' ∈ p → submitted h e').

Definition sends_ok a (h : list hevent) (n : Z) (rd : readerAt) : Prop :=
  match rd with AtSend es _ => ∀ ch r, (ch, r) ∈ es → answer_ok a h n ch r | _ => True end.

Record replica_ok a (h : list hevent) (n : Z) (rf : Raft) (r : RSM S) (ch : list ApplyMsg)
    (rd : readerAt) : Prop := {
  rp_snap : goodSnap a rf.(lastIncludedIndex) rf.(persister).(d_snapshot);
  rp_following : following a rf r ch rd;
  rp_me : r.(rsm_me) = n;
  rp_pending k e : r.(pending) !! k = Some e → e.(pe_ch) = e.(pe_id) ∧ called_at h n e.(pe_ch);
  rp_sends : sends_ok a h n rd
}.

Record sys_inv y a : Prop := {
  si_sim : sim N y.(sy_world) a;
  si_replica n : isNode N n →
    replica_ok a y.(sy_hist) n (y.(sy_world).(w_node) n) (y.(sy_rsm) n) (y.(sy_chan) n)
      (y.(sy_reader) n);
  si_reqs src dst args : (src, dst, InstallSnapshotReq args) ∈ y.(sy_world).(w_reqs) →
    goodSnap a args.(isa_LastIncludedIndex) args.(isa_Data);
  si_known e : known a e → submitted y.(sy_hist) e;
  si_answers h2 n ch r h1 : y.(sy_hist) = h2 ++ HAnswer n ch r :: h1 → answer_ok a h1 n ch r
}.

(** *** Monotonicity *)

Lemma goodSnap_mono a a' i data : gext a a' → goodSnap a i data → goodSnap a' i data.
Proof.
  intros [X _ _] (T & p & Hp & ?). exists T, p. split; [by eapply ext_committed|done].
Qed.

Lemma called_at_mono h h' n ch : h ⊆ h' → called_at h n ch → called_at h' n ch.
Proof. intros Hh (req & k & ?). exists req, k. by apply Hh. Qed.

Lemma answer_ok_mono a a' h n ch r : gext a a' → answer_ok a h n ch r → answer_ok a' h n ch r.
Proof.
  intros [X _ _] [Hc Ha]. split; [done|]. intros Hr Hch.
  destruct (Ha Hr Hch) as (T & p & i & e & m & req & Hp & ?).
  exists T, p, i, e, m, req. split; [by eapply ext_committed|done].
Qed.

Lemma answer_ok_later a h h' n ch r : h ⊆ h' → answer_ok a h n ch r → answer_ok a h' n ch r.
Proof.
  intros Hh [Hc Ha]. split; [by eapply called_at_mono|]. intros Hr Hch.
  destruct (Ha Hr Hch) as (T & p & i & e & m & req & ? & ? & ? & ? & Hall).
  exists T, p, i, e, m, req. repeat (split; [done|]). intros e' He'.
  eapply submitted_mono; [done|auto].
Qed.

Lemma replica_mono a a' h h' n rf r ch rd :
  gext a a' → h ⊆ h' → replica_ok a h n rf r ch rd → replica_ok a' h' n rf r ch rd.
Proof.
  intros X Hh [Hs (T & p & i & Hp & ?) ? Hpend Hsend]. split; [by eapply goodSnap_mono| |done|..].
  - exists T, p, i. split; [eapply ext_committed; [by apply X|done]|done].
  - intros k e Hk. destruct (Hpend k e Hk). split; [done|by eapply called_at_mono].
  - destruct rd as [| |es next]; [done..|]. intros c x Hin.
    eapply answer_ok_later; [done|]. eapply answer_ok_mono; [done|by apply Hsend].
Qed.

Lemma goodSnap_pos a i data : goodSnap a i data → 0 ≤ i.
Proof. intros (T & p & _ & <- & _). lia. Qed.

(** Two committed logs are prefixes of one. *)
Lemma committed_join a T1 p1 T2 p2 : AInv N a → committed N a T1 p1 → committed N a T2 p2 →
  ∃ T p, committed N a T p ∧ p1 `prefix_of` p ∧ p2 `prefix_of` p.
Proof.
  intros I H1 H2. destruct (committed_comparable N N_pos a I _ _ _ _ H1 H2); eauto 10.
Qed.

Lemma committed_indexed a T p : AInv N a → committed N a T p → indexed p.
Proof.
  intros I [->|(t & _ & [[[c el] Q] He] & k & Q' & _ & _ & _ & _ & Hp)] i e Hi; [done|].
  destruct (inv_tlog _ _ I _ _ _ _ He) as (_ & [Hw _] & _). apply Hw.
  eapply prefix_lookup_Some; [exact Hi|]. trans (take k (a.(g_tlog) t)); [done|apply prefix_take].
Qed.

(** Both a replica's log and another committed log, in one. *)
Lemma following_join a rf r ch rd T q : AInv N a → committed N a T q → following a rf r ch rd →
  ∃ T' p i, committed N a T' p ∧ q `prefix_of` p ∧ (i ≤ length p)%nat ∧ readerPos rd r p i ∧
    stream s0 p i ch (Z.to_nat rf.(lastApplied)).
Proof.
  intros I Hq (T1 & p1 & i & Hp1 & Hi & Hr & Hst).
  destruct (committed_join a _ _ _ _ I Hp1 Hq) as (T' & p & Hp & H1 & H2).
  pose proof (prefix_length _ _ H1). exists T', p, i. split; [done|]. split; [done|]. split; [lia|].
  split; [|eapply stream_prefix; [exact H1|exact Hst]]. destruct Hr as [? Hr]. split; [done|]. revert Hr.
  destruct rd as [|index id req|es next].
  - intros ->. by apply stateAt_prefix.
  - intros (k & e & m & -> & He & ? & ? & ->). exists k, e, m. split; [done|].
    split; [by eapply prefix_lookup_Some|]. split; [done|]. split; [done|].
    apply stateAt_prefix; [done|lia].
  - intros [-> ?]. split; [by apply stateAt_prefix|done].
Qed.
(** *** A step of one node *)

(** The parts of a system that belong to node [m]. *)
Definition same_at (m : Z) y y' : Prop :=
  y'.(sy_world).(w_node) m = y.(sy_world).(w_node) m ∧ y'.(sy_rsm) m = y.(sy_rsm) m ∧
  y'.(sy_chan) m = y.(sy_chan) m ∧ y'.(sy_reader) m = y.(sy_reader) m.

Lemma sys_inv_node y y' a a' n hs :
  sys_inv y a → gext a a' → sim N y'.(sy_world) a' → y'.(sy_hist) = hs ++ y.(sy_hist) →
  (∀ m, m ≠ n → same_at m y y') →
  replica_ok a' y'.(sy_hist) n (y'.(sy_world).(w_node) n) (y'.(sy_rsm) n) (y'.(sy_chan) n)
    (y'.(sy_reader) n) →
  (∀ src dst args, (src, dst, InstallSnapshotReq args) ∈ y'.(sy_world).(w_reqs) →
     (src, dst, InstallSnapshotReq args) ∈ y.(sy_world).(w_reqs) ∨
     goodSnap a args.(isa_LastIncludedIndex) args.(isa_Data)) →
  (∀ e, known a' e → known a e ∨ submitted hs e) →
  (∀ h2 m ch r h1, hs = h2 ++ HAnswer m ch r :: h1 → answer_ok a' (h1 ++ y.(sy_hist)) m ch r) →
  sys_inv y' a'.
Proof.
  intros [Hsim Hrep Hreq Hkn Hans] X Hsim' Hh Hsame Hn Hreq' Hkn' Hans'. split; [done|..].
  - intros m Hm. destruct (decide (m = n)) as [->|Hne]; [done|].
    destruct (Hsame m Hne) as (-> & -> & -> & ->). eapply replica_mono; [done| |by apply Hrep].
    rewrite Hh. set_solver.
  - intros src dst args Hin. eapply goodSnap_mono; [done|].
    destruct (Hreq' _ _ _ Hin); [by eapply Hreq|done].
  - intros e He. rewrite Hh. destruct (Hkn' e He) as [Hk|Hs].
    + eapply submitted_mono; [|by apply Hkn]. set_solver.
    + eapply submitted_mono; [|done]. set_solver.
  - intros h2 m ch r h1. rewrite Hh. intros [(k & Hk1 & Hk2)|(k & Hk1 & Hk2)]%app_eq_inv.
    + destruct k as [|x k]; simpl in Hk2.
      * eapply answer_ok_mono; [done|]. by apply (Hans [] m ch r h1).
      * injection Hk2 as <- ->. by apply (Hans' h2 m ch r k).
    + eapply answer_ok_mono; [done|]. by eapply (Hans k m ch r h1).
Qed.

(** Inside the domain of the functions that describe a node. *)
Ltac at_node := simpl; rewrite ?fn_lookup_insert; done.
Ltac elsewhere := intros ? ?; repeat split; simpl; by rewrite ?fn_lookup_insert_ne.

(** The reader took one more message or none; the node is where it was. *)
Lemma following_held a rf rf' r ch rd i data :
  held i data rf.(lastApplied) rf' → following a rf r ch rd → following a rf' r ch rd.
Proof. intros (_ & _ & E). unfold following. by rewrite E. Qed.

(** An event of the engine other than the applier's. *)
Lemma replica_framed a h n ev rf r ch rd o :
  replica_ok a h n rf r ch rd →
  framed ev rf.(lastIncludedIndex) rf.(persister).(d_snapshot) rf.(lastApplied) o →
  (∀ x, offered ev = Some x → goodSnap a x.1 x.2) →
  replica_ok a h n o.(o_node) r ch rd.
Proof.
  intros R F Hoff. destruct R as [Hs Hf ? ? ?], (framed_held _ _ _ _ _ F) as (x & Hx & Hh).
  split; [|by eapply following_held|done..].
  destruct Hh as (-> & -> & _). destruct Hx as [->|Hx]; [done|by apply Hoff].
Qed.

(** The applier: what it sends continues what is queued. *)
Lemma following_applied a n rf els r ch rd o :
  AInv N a → node_sim N a n rf els → goodSnap a rf.(lastIncludedIndex) rf.(persister).(d_snapshot) →
  following a rf r ch rd → exec EvApply rf els = Some o →
  following a o.(o_node) r (ch ++ appliedBy o.(o_effs)) rd ∧
  held rf.(lastIncludedIndex) rf.(persister).(d_snapshot) o.(o_node).(lastApplied) o.(o_node) ∧
  o.(o_out) = [] ∧ ∀ d, ESave d ∉ o.(o_effs).
Proof.
  intros I Sn (T1 & q & Hq & Hlen & Hsnap) Hf Hex. simpl in Hex.
  pose proof (commit_bounds N a I n rf els Sn) as [[? ?] ?]. pose proof (ns_applied _ _ _ _ _ Sn).
  destruct (decide (rf.(commitIndex) ≤ rf.(lastApplied))) as [Hw|Hw].
  { rewrite run_applier_wait in Hex by done. injection Hex as <-. simpl.
    rewrite app_nil_r. split; [done|]. split; [done|]. split; [done|]. by intros d ?%not_elem_of_nil. }
  destruct (decide (rf.(lastApplied) < rf.(lastIncludedIndex))) as [Hs|Hs].
  - rewrite run_applier_snapshot in Hex by lia. injection Hex as <-. simpl.
    split; [|split; [done|split; [done|intros d Hd; set_solver]]].
    destruct (following_join a rf r ch rd _ _ I Hq Hf) as (T & p & i & Hp & Hqp & Hi & Hr & Hst).
    exists T, p, i. split; [done|]. split; [done|]. split; [done|]. simpl.
    eapply stream_app; [exact Hst|]. pose proof (prefix_length _ _ Hqp).
    eapply (stream_snap _ _ _ (length q)); [lia|done|simpl; lia| |].
    + rewrite <-(stateAt_prefix s0 q p) by done. destruct Hsnap as [[_ ->]|Hsnap]; [simpl in *; lia|done].
    + rewrite <-Hlen, Nat2Z.id. constructor.
  - destruct (inv_commit _ _ I n) as [Hcl Hcom]. pose proof (ns_commit _ _ _ _ _ Sn) as HK.
    rewrite (run_applier_entries rf (a.(a_log) n)) in Hex by (apply Sn || lia). injection Hex as <-.
    simpl. rewrite appliedBy_commands. split; [|split; [done|split; [done|]]].
    2:{ intros d Hd. apply list_elem_of_fmap in Hd as (? & [=] & _). }
    destruct (following_join a rf r ch rd _ _ I Hcom Hf) as (T & p & i & Hp & Hqp & Hi & Hr & Hst).
    exists T, p, i. split; [done|]. split; [done|]. split; [done|]. simpl.
    eapply stream_app; [exact Hst|]. eapply stream_prefix; [exact Hqp|].
    set (q' := take _ _) in *. assert (length q' = a.(a_commit) n) by (by apply length_take_le).
    replace (entriesBetween (a.(a_log) n) rf.(lastApplied) rf.(commitIndex))
      with (entriesBetween q' (Z.of_nat (Z.to_nat rf.(lastApplied))) (Z.of_nat (Z.to_nat rf.(commitIndex)))).
    + apply stream_entries; [by eapply committed_indexed|lia].
    + unfold entriesBetween, q'. rewrite !Z2Nat.id by lia. rewrite skipn_firstn_comm, take_take.
      f_equal. lia.
Qed.
(** *** Steps of the engine *)

Lemma internal_writes ev a n e : internal ev = true → newEntry ev a n e → False.
Proof. by destruct ev. Qed.

Lemma internal_offered y a n ev x :
  sys_inv y a → internal ev = true → enabled N y.(sy_world) n ev → offered ev = Some x →
  goodSnap a x.1 x.2.
Proof.
  intros Hy Hi Hen Hx. destruct ev as [| | |src [| |args]| | | | | |]; try done.
  injection Hx as <-. by eapply (si_reqs _ _ Hy).
Qed.

Lemma after_reqs w n ev o src dst req :
  (src, dst, req) ∈ (after w n ev o).(w_reqs) →
  (src, dst, req) ∈ w.(w_reqs) ∨ (dst, req) ∈ o.(o_out).
Proof.
  simpl. intros [Hin|Hin]%elem_of_app; [right|by left].
  by apply list_elem_of_fmap in Hin as ([p q] & [= -> -> ->] & Hin).
Qed.

(** What an event of the engine leaves: the replica, the snapshots it sends, the
    disks it saves. *)
Lemma engine_outcome y a n ev o :
  sys_inv y a → isNode N n → internal ev = true → enabled N y.(sy_world) n ev →
  exec ev (y.(sy_world).(w_node) n) (y.(sy_world).(w_els) n) = Some o →
  replica_ok a y.(sy_hist) n o.(o_node) (y.(sy_rsm) n) (y.(sy_chan) n ++ appliedBy o.(o_effs))
    (y.(sy_reader) n) ∧
  (∀ peer args, (peer, InstallSnapshotReq args) ∈ o.(o_out) →
     goodSnap a args.(isa_LastIncludedIndex) args.(isa_Data)) ∧
  (∀ d, ESave d ∈ o.(o_effs) → ∃ x, goodSnap a x.1 x.2 ∧ disk_of x.1 x.2 d).
Proof.
  intros Hy Hn Hi Hen Hex. pose proof (si_sim _ _ Hy) as Hsim.
  pose proof (si_replica _ _ Hy n Hn) as R.
  assert (ev = EvApply ∨ ev ≠ EvApply) as [->|Hne] by (destruct ev; auto).
  - destruct (following_applied a n _ _ (y.(sy_rsm) n) (y.(sy_chan) n) (y.(sy_reader) n) o
      (sim_inv _ _ _ Hsim) (sim_node _ _ _ Hsim n Hn)) as (Hf & (E1 & E2 & _) & Ho & Hd); [apply R..|done|].
    split; [|split].
    + split; [|done|apply R|apply R|apply R]. rewrite E1, E2. apply R.
    + rewrite Ho. by intros ?? ?%not_elem_of_nil.
    + intros d []%Hd.
  - pose proof (exec_framed _ _ _ ev _ _ o Hne (conj eq_refl (conj eq_refl eq_refl)) Hex) as F.
    assert (∀ x, offered ev = Some x → goodSnap a x.1 x.2) as Hoff
      by (intros x; by eapply internal_offered).
    split; [|split].
    + rewrite (framed_applied _ _ _ _ _ F), app_nil_r. by eapply replica_framed.
    + intros peer args Hin. destruct (framed_out _ _ _ _ _ F _ _ Hin) as [-> ->]. apply R.
    + intros d Hd. destruct (framed_saves _ _ _ _ _ F d Hd) as (x & Hx & Hdisk).
      exists x. split; [|done]. destruct Hx as [->|Hx]; [apply R|auto].
Qed.

Lemma step_engine y a n ev o :
  sys_inv y a → isNode N n → internal ev = true → enabled N y.(sy_world) n ev →
  exec ev (y.(sy_world).(w_node) n) (y.(sy_world).(w_els) n) = Some o →
  ∃ a', sys_inv (mkSystem (after y.(sy_world) n ev o) y.(sy_rsm)
      (<[n := y.(sy_chan) n ++ appliedBy o.(o_effs)]> y.(sy_chan)) y.(sy_reader) y.(sy_calls)
      y.(sy_hist)) a'.
Proof.
  intros Hy Hn Hi Hen Hex.
  destruct (event_sim N N_pos _ a n ev o (si_sim _ _ Hy) Hn Hen Hex) as (a' & M & Hsim').
  destruct (engine_outcome y a n ev o Hy Hn Hi Hen Hex) as (R & Hout & _).
  pose proof (move_gext _ _ _ _ M) as X. exists a'. eapply (sys_inv_node y _ a a' n []); try done.
  - elsewhere.
  - simpl. rewrite !fn_lookup_insert. by eapply replica_mono; [| |exact R].
  - intros src dst args [Hin|Hin]%after_reqs; [by left|right; by eapply Hout].
  - intros e He. destruct (move_known _ _ _ _ M e He) as [?|Hw]; [by left|].
    exfalso. by eapply internal_writes.
  - by intros [].
Qed.

(** *** Calls into the engine *)

Lemma engineEffects_fmap effs : engineEffects (RRaft <$> effs) = effs.
Proof. unfold engineEffects. induction effs as [|e effs IH]; [done|]. cbn. by f_equal. Qed.

(** [Submit] up to its select is one client call of the engine. *)
Lemma engine_Submit_begin id req (r : RSM S) rf res r' rf' effs :
  Submit_begin id req (r, rf) = Some (res, (r', rf'), effs) →
  ∃ x, Start (VOp r.(rsm_me) id req) rf = Some (x, rf', engineEffects effs) ∧
    ((res = inl x.1.1 ∧ x.2 = true ∧
      r' = set_pending (<[x.1.1 := mkPending id x.1.2 id]> r.(pending)) r) ∨
     ((∃ e, res = inr e) ∧ x.2 = false ∧ r' = r)).
Proof.
  unfold Submit_begin. rewrite bind_get. simpl. unfold mbind at 1, M_bind, liftRaft. simpl.
  destruct (Start _ rf) as [[[[[index term] isL] rf1] effs1]|] eqn:Hs; [|done].
  unfold modify_rsm. destruct isL; cbn; intros [= <- <- <- <-];
    eexists; rewrite ?app_nil_r, engineEffects_fmap; (split; [done|]); [by left|right; eauto].
Qed.

Lemma step_submit y a n id req res r' rf' effs cs :
  sys_inv y a → isNode N n →
  Submit_begin id req (y.(sy_rsm) n, y.(sy_world).(w_node) n) = Some (res, (r', rf'), effs) →
  ∃ a', sys_inv (mkSystem (called y.(sy_world) n rf' (engineEffects effs)) (<[n := r']> y.(sy_rsm))
      y.(sy_chan) y.(sy_reader) cs (logged n id req res ++ y.(sy_hist))) a'.
Proof.
  intros Hy Hn Hrun. pose proof (si_sim _ _ Hy) as Hsim. pose proof (si_replica _ _ Hy n Hn) as R.
  apply engine_Submit_begin in Hrun as (x & Hst & Hres). rewrite (rp_me _ _ _ _ _ _ _ R) in Hst.
  set (c := VOp n id req) in *. set (o := mkOutcome rf' (engineEffects effs) (y.(sy_world).(w_els) n) [] None).
  assert (exec (EvStart c) (y.(sy_world).(w_node) n) (y.(sy_world).(w_els) n) = Some o) as Hex
    by (simpl; by rewrite Hst).
  destruct (event_sim N N_pos _ a n (EvStart c) o Hsim Hn Logic.I Hex) as (a' & M & Hsim').
  pose proof (move_gext _ _ _ _ M) as X.
  pose proof (exec_framed _ _ _ (EvStart c) _ _ o ltac:(done) (conj eq_refl (conj eq_refl eq_refl)) Hex) as F.
  exists a'. eapply (sys_inv_node y _ a a' n (logged n id req res)); try done.
  - elsewhere.
  - simpl. rewrite !fn_lookup_insert.
    assert (replica_ok a y.(sy_hist) n rf' (y.(sy_rsm) n) (y.(sy_chan) n) (y.(sy_reader) n)) as R'
      by (eapply (replica_framed _ _ _ _ _ _ _ _ o); [exact R|exact F|done]).
    apply (replica_mono _ a' _ (logged n id req res ++ y.(sy_hist))) in R'; [|exact X|set_solver].
    destruct Hres as [(-> & _ & ->)|(_ & _ & ->)]; [|done].
    destruct R' as [? (T & p & i & Hp & Hi & Hr & Hst') ? Hpend ?]. split; [done| |done| |done].
    + exists T, p, i. split; [done|]. split; [done|]. split; [|done]. exact Hr.
    + intros k e. simpl. rewrite lookup_insert_Some. intros [[_ <-]|[_ Hk]]; [|by apply (Hpend k)].
      split; [done|]. exists req, x.1.1. set_solver.
  - by left.
  - intros e He. destruct (move_known _ _ _ _ M e He) as [?|[Hl ->]]; [by left|right].
    pose proof (sim_node _ _ _ Hsim n Hn) as Sn. rewrite <-(ns_role _ _ _ _ _ Sn) in Hl.
    destruct (run_Start c _ _ (ns_dead _ _ _ _ _ Sn) (ns_log _ _ _ _ _ Sn) Hl) as (effs' & Hrun & _).
    rewrite Hst in Hrun. injection Hrun as -> _ _.
    destruct Hres as [(-> & _ & _)|(_ & [=] & _)]. exists n, id, req. split; [done|]. simpl.
    by apply list_elem_of_singleton.
  - intros h2 m ch r h1 Hh. by destruct res, h2 as [|? []].
Qed.
(** The check of the snapshot is a client's snapshot of the engine, of index 0
    when none is taken. *)
Lemma run_check index (r : RSM S) rf r' rf' effs :
  checkSnapshot index (r, rf) = Some (tt, (r', rf'), effs) →
  r' = r ∧
  ((rf' = rf ∧ engineEffects effs = []) ∨
   ∃ data, Snapshot r.(rsm_sm) = Some data ∧
     Raft.Snapshot index data rf = Some (tt, rf', engineEffects effs)).
Proof.
  unfold checkSnapshot. rewrite bind_get. simpl. destruct (_ && _).
  - destruct (Snapshot r.(rsm_sm)) as [data|]; [|done]. rewrite bind_try. unfold liftRaft. simpl.
    destruct (Raft.Snapshot index data rf) as [[[[] rf1] effs1]|] eqn:Hs; [|done].
    intros [= <- <- <-]. split; [done|]. right. exists data. by rewrite engineEffects_fmap.
  - intros [= <- <- <-]. split; [done|]. by left.
Qed.

Lemma step_check y a n index r' rf' effs :
  sys_inv y a → isNode N n → y.(sy_reader) n = AtSend [] (ThenCheck index) →
  checkSnapshot index (y.(sy_rsm) n, y.(sy_world).(w_node) n) = Some (tt, (r', rf'), effs) →
  ∃ a', sys_inv (mkSystem (called y.(sy_world) n rf' (engineEffects effs)) (<[n := r']> y.(sy_rsm))
      y.(sy_chan) (<[n := AtReceive]> y.(sy_reader)) y.(sy_calls) y.(sy_hist)) a'.
Proof.
  intros Hy Hn Hrd Hrun. pose proof (si_sim _ _ Hy) as Hsim. pose proof (si_replica _ _ Hy n Hn) as R.
  rewrite Hrd in R. apply run_check in Hrun as [-> Hrun].
  set (rf := y.(sy_world).(w_node) n) in *. set (els := y.(sy_world).(w_els) n).
  set (o := mkOutcome rf' (engineEffects effs) els [] None).
  pose proof (rp_following _ _ _ _ _ _ _ R) as (T & p & i & Hp & Hi & (Hla & Hsm & ->) & Hst).
  assert (∃ k data, exec (EvSnapshot k data) rf els = Some o ∧
    (∀ x, offered (EvSnapshot k data) = Some x → held x.1 x.2 rf.(lastApplied) rf' → goodSnap a x.1 x.2))
    as (k & data & Hex & Hoff).
  { destruct Hrun as [[-> He]|(data & Hdata & Hrun)].
    - exists 0, []. simpl. rewrite run_Snapshot_skip; [|left; exact (ns_lii0 _ _ _ _ _ (sim_node _ _ _ Hsim n Hn))].
      unfold o. rewrite He. split; [done|]. intros x [= <-] (E1 & E2 & _). simpl in *.
      rewrite <-E1, <-E2. apply R.
    - exists (Z.of_nat i), data. simpl. rewrite Hrun. split; [done|]. intros x [= <-] _. simpl.
      exists T, (take i p). split; [eapply committed_prefix; [done|apply prefix_take]|].
      rewrite length_take_le by done. split; [done|]. right. rewrite <-Hdata, Hsm. f_equal.
      apply stateAt_prefix; [apply prefix_take|]. rewrite length_take_le; done. }
  destruct (event_sim N N_pos _ a n (EvSnapshot k data) o Hsim Hn Logic.I Hex) as (a' & M & Hsim').
  pose proof (move_gext _ _ _ _ M) as X.
  destruct (framed_held _ _ _ _ _ (exec_framed _ _ _ (EvSnapshot k data) _ _ o ltac:(done)
    (conj eq_refl (conj eq_refl eq_refl)) Hex)) as (x & Hx & Hh).
  change (held x.1 x.2 rf.(lastApplied) rf') in Hh.
  exists a'. eapply (sys_inv_node y _ a a' n []); try done.
  - elsewhere.
  - simpl. rewrite !fn_lookup_insert. apply (replica_mono _ _ _ _ _ _ _ _ _ X (reflexivity _)). split.
    + destruct Hx as [->|Hx]; [destruct Hh as (E1 & E2 & _); simpl in *; rewrite E1, E2; apply R|].
      pose proof (Hoff _ Hx Hh). destruct Hh as (-> & -> & _). done.
    + exists T, p, i. split; [done|]. split; [done|]. split; [by split|].
      destruct Hh as (_ & _ & E). simpl in E. by rewrite E.
    + apply R.
    + apply R.
    + done.
  - by left.
  - intros e He. destruct (move_known _ _ _ _ M e He) as [?|[]]. by left.
  - by intros [].
Qed.
(** *** Steps of the reader *)

(** The world stays; node [n] has a new RSM, queue and reader. *)
Lemma sys_inv_reader y y' a n :
  sys_inv y a → isNode N n → y'.(sy_world) = y.(sy_world) → y'.(sy_hist) = y.(sy_hist) →
  (∀ m, m ≠ n → same_at m y y') →
  replica_ok a y.(sy_hist) n (y.(sy_world).(w_node) n) (y'.(sy_rsm) n) (y'.(sy_chan) n)
    (y'.(sy_reader) n) →
  sys_inv y' a.
Proof.
  intros Hy Hn Hw Hh Hsame R.
  eapply (sys_inv_node y _ a a n []); rewrite ?Hw, ?Hh; try done.
  - apply Hy.
  - by left.
  - by left.
  - by intros [].
Qed.

Lemma sys_inv_moved y a n r' ms rd :
  sys_inv y a → isNode N n →
  replica_ok a y.(sy_hist) n (y.(sy_world).(w_node) n) r' ms rd →
  sys_inv (readerMoved y n r' ms rd) a.
Proof.
  intros Hy Hn R. apply (sys_inv_reader y _ a n Hy Hn); [done..|elsewhere|].
  simpl. by rewrite !fn_lookup_insert.
Qed.

Lemma retry_ok a h n ch : called_at h n ch → answer_ok a h n ch retry.
Proof. intros Hc. split; [done|]. intros Hr Hch. by rewrite <-Hr in Hch. Qed.

(** Some call waits on channel [c]. *)
Definition waiting_on (r : RSM S) (c : Z) : Prop := ∃ k e, r.(pending) !! k = Some e ∧ e.(pe_ch) = c.

(** What an answered message did to the waiting calls. *)
Definition fewer (r r' : RSM S) : Prop :=
  ∀ k e, r'.(pending) !! k = Some e → r.(pending) !! k = Some e.

(** What an answered message did to the waiting calls, with [es] to send. *)
Definition retriesTo (r r' : RSM S) (es : list (Z * result)) : Prop :=
  fewer r r' ∧ ∀ c x, (c, x) ∈ es → x = retry ∧ waiting_on r c.

Lemma notifyOutdated_inv index (r r' : RSM S) (rf rf' : Raft) (effs : list (RsmEffect Effect)) :
  notifyOutdated index (r, rf) = Some (tt, (r', rf'), effs) →
  r'.(rsm_sm) = r.(rsm_sm) ∧ r'.(rsm_lastApplied) = r.(rsm_lastApplied) ∧ r'.(rsm_me) = r.(rsm_me) ∧
  retriesTo r r' (sends effs).
Proof.
  pose proof (run_notifyOutdated (E:=Effect) index r rf) as Hr. simpl in Hr. rewrite Hr.
  intros [= <- <- <-]. simpl. repeat (split; [done|]). split.
  - intros k e Hk. by apply lookup_dropOutdated in Hk as [? _].
  - intros c x Hin%elem_of_sends. apply elem_of_retries in Hin as (k & e & Hk & _ & [= -> ->]).
    split; [done|]. apply elem_of_map_to_list in Hk. by exists k, e.
Qed.

Lemma handleSnapshot_inv m (r r' : RSM S) (rf rf' : Raft) (effs : list (RsmEffect Effect)) :
  handleSnapshot m (r, rf) = Some (tt, (r', rf'), effs) →
  Restore m.(am_Snapshot) r.(rsm_sm) = Some r'.(rsm_sm) ∧
  r'.(rsm_lastApplied) = m.(SnapshotIndex) ∧ r'.(rsm_me) = r.(rsm_me) ∧ retriesTo r r' (sends effs).
Proof.
  unfold handleSnapshot. rewrite bind_get. simpl.
  destruct (Restore _ _) as [s'|]; [|done]. unfold modify_rsm. run. simpl.
  by intros (-> & -> & -> & ?)%notifyOutdated_inv.
Qed.

(** What is sent after that is all right. *)
Lemma retries_ok a h n rf (r r' : RSM S) ch rd es es' next :
  replica_ok a h n rf r ch rd → retriesTo r r' es → es' ≡ₚ es → sends_ok a h n (AtSend es' next).
Proof.
  intros R [_ Hs] Hes c x Hin. rewrite Hes in Hin. destruct (Hs c x Hin) as [-> (k & e & Hk & <-)].
  apply retry_ok. by apply (rp_pending _ _ _ _ _ _ _ R k).
Qed.

Lemma step_end y a n index r' rf' effs cs :
  sys_inv y a → isNode N n →
  Submit_end (E:=Effect) index (y.(sy_rsm) n, y.(sy_world).(w_node) n) = Some (tt, (r', rf'), effs) →
  sys_inv (mkSystem y.(sy_world) (<[n := r']> y.(sy_rsm)) y.(sy_chan) y.(sy_reader) cs y.(sy_hist)) a.
Proof.
  intros Hy Hn [= <- <- <-]. eapply (sys_inv_reader y _ a n); [done..|elsewhere|].
  destruct (si_replica _ _ Hy n Hn) as [? ? ? Hp ?]. simpl. rewrite fn_lookup_insert.
  split; [done|done|done| |done]. simpl. intros k e [_ Hk]%lookup_delete_Some. eauto.
Qed.

Lemma step_timeout y a cs :
  sys_inv y a →
  sys_inv (mkSystem y.(sy_world) y.(sy_rsm) y.(sy_chan) y.(sy_reader) cs y.(sy_hist)) a.
Proof. by intros [? ? ? ? ?]. Qed.

Lemma step_snapshot y a n m ms r' rf' effs es :
  sys_inv y a → isNode N n → y.(sy_reader) n = AtReceive → y.(sy_chan) n = m :: ms →
  m.(SnapshotValid) = true →
  handleSnapshot (E:=Effect) m (y.(sy_rsm) n, y.(sy_world).(w_node) n) = Some (tt, (r', rf'), effs) →
  es ≡ₚ sends effs →
  sys_inv (readerMoved y n r' ms (AtSend es ThenReceive)) a.
Proof.
  intros Hy Hn Hrd Hch Hv Hrun Hes. pose proof (si_replica _ _ Hy n Hn) as R.
  apply handleSnapshot_inv in Hrun as (Hres & Hla & Hme & Hret). apply sys_inv_moved; [done..|].
  pose proof (retries_ok _ _ _ _ _ _ _ _ _ _ ThenReceive R Hret Hes) as Hsend.
  destruct R as [Hs (T & p & i & Hp & Hi & [_ Hsm] & Hst) Hm Hpend _], Hret as [Hfew _].
  rewrite Hrd, Hch in *. split; [done| |congruence|eauto|done].
  inversion Hst as [|? e ? ? ? ? ? ? ? ? ?|? k ? ? ? Hk _ Hidx Hsnap Hst']; subst; [congruence|].
  destruct (stateAt_later s0 p i k) as [reqs Hreqs]; [lia|].
  exists T, p, k. split; [done|]. split; [lia|]. split; [|done]. split; [lia|]. split; [|done].
  rewrite Hsm, Hreqs in *. rewrite (restore_later _ reqs) in Hres by done. by injection Hres as <-.
Qed.

Lemma step_command y a n m ms r' rf' effs admitted :
  sys_inv y a → isNode N n → y.(sy_reader) n = AtReceive → y.(sy_chan) n = m :: ms →
  m.(SnapshotValid) = false →
  handleCommand_admit (E:=Effect) m (y.(sy_rsm) n, y.(sy_world).(w_node) n)
    = Some (admitted, (r', rf'), effs) →
  sys_inv (readerMoved y n r' ms (admittedTo m.(CommandIndex) admitted)) a.
Proof.
  intros Hy Hn Hrd Hch Hv Hrun. pose proof (si_replica _ _ Hy n Hn) as R. apply sys_inv_moved; [done..|].
  destruct R as [Hs (T & p & i & Hp & Hi & [Hla Hsm] & Hst) Hm Hpend _]. rewrite Hrd, Hch in *.
  inversion Hst as [|? e ? ? ? He _ _ Hidx Hcmd Hst'|]; subst; [|congruence].
  pose proof (lookup_lt_Some _ _ _ He). unfold handleCommand_admit in Hrun.
  pose proof (stateAt_S s0 p i e He) as HS. rewrite <-Hcmd in HS.
  destruct m.(am_Command) as [| | | | | | |m' id req] eqn:Hc; simpl in HS.
  8:{ rewrite bind_get in Hrun. simpl in Hrun. rewrite bool_decide_false in Hrun by lia.
      injection Hrun as <- <- <- <-. split; [done| |done|done|done].
      exists T, p, (Datatypes.S i). split; [done|]. split; [lia|]. split; [|done]. split; [simpl; lia|].
      exists i, e, m'. rewrite <-Hcmd. repeat (split; [done|]). split; [lia|done]. }
  all: injection Hrun as <- <- <- <-; split; [done| |done|done|done];
    exists T, p, (Datatypes.S i); split; [done|]; split; [lia|]; split; [|done]; split; [lia|];
    by rewrite HS.
Qed.

Lemma step_invalid y a n m ms :
  sys_inv y a → isNode N n → y.(sy_chan) n = m :: ms →
  m.(SnapshotValid) = false → m.(CommandValid) = false → False.
Proof.
  intros Hy Hn Hch Hs Hc. destruct (si_replica _ _ Hy n Hn) as [_ (T & p & i & _ & _ & _ & Hst) _ _ _].
  rewrite Hch in Hst. inversion Hst; congruence.
Qed.

Lemma step_apply y a n index id req val r' rf' effs :
  sys_inv y a → isNode N n → y.(sy_reader) n = AtApply index id req →
  applyOp (E:=Effect) index id req (y.(sy_rsm) n, y.(sy_world).(w_node) n) = Some (val, (r', rf'), effs) →
  sys_inv (readerMoved y n r' (y.(sy_chan) n) (AtSend (sends effs) (ThenOutdated index))) a.
Proof.
  intros Hy Hn Hrd Hrun. pose proof (si_replica _ _ Hy n Hn) as R. rewrite Hrd in R.
  pose proof (run_applyOp (E:=Effect) index id req (y.(sy_rsm) n) (y.(sy_world).(w_node) n)) as Hr.
  destruct R as [Hs (T & p & i & Hp & Hi & [Hla Hpos] & Hst) Hm Hpend _].
  destruct Hpos as (k & e & m & -> & He & Hcmd & Hidx & Hsm). rewrite Hsm in Hr.
  pose proof (stateAt_S s0 p k e He) as HS. rewrite Hcmd in HS. simpl in HS.
  destruct (DoOp req (stateAt s0 p k)) as [v s'] eqn:Hdo. rewrite Hr in Hrun.
  injection Hrun as <- <- <- <-. apply sys_inv_moved; [done..|]. split; [done| |done|..].
  - exists T, p, (Datatypes.S k). split; [done|]. split; [done|]. split; [|done]. simpl.
    split; [done|]. split; [by rewrite HS|done].
  - simpl. intros k' e' [_ Hk]%lookup_delete_Some. eauto.
  - intros c x Hin%elem_of_sends. apply elem_of_answer in Hin as (e1 & He1 & <- & Hx).
    destruct (Hpend _ _ He1) as [Hid Hcall]. destruct Hx as [->|[-> Hid']]; [by apply retry_ok|].
    split; [done|]. intros _ _. rewrite Hid, Hid'.
    exists T, p, k, e, m, req. rewrite Hdo. repeat (split; [done|]).
    intros e2 He2. apply (si_known _ _ Hy). by eapply committed_known.
Qed.

Lemma step_outdated y a n index r' rf' effs es :
  sys_inv y a → isNode N n → y.(sy_reader) n = AtSend [] (ThenOutdated index) →
  notifyOutdated (E:=Effect) index (y.(sy_rsm) n, y.(sy_world).(w_node) n) = Some (tt, (r', rf'), effs) →
  es ≡ₚ sends effs →
  sys_inv (readerMoved y n r' (y.(sy_chan) n) (AtSend es (ThenCheck index))) a.
Proof.
  intros Hy Hn Hrd Hrun Hes. pose proof (si_replica _ _ Hy n Hn) as R.
  apply notifyOutdated_inv in Hrun as (Hsm & Hla & Hme & Hret). apply sys_inv_moved; [done..|].
  pose proof (retries_ok _ _ _ _ _ _ _ _ _ _ (ThenCheck index) R Hret Hes) as Hsend.
  destruct R as [Hs (T & p & i & Hp & Hi & [? Hpos] & Hst) Hm Hpend _], Hret as [Hfew _].
  rewrite Hrd in Hpos. split; [done| |congruence|eauto|done].
  exists T, p, i. split; [done|]. split; [done|]. split; [|done]. split; [lia|]. by rewrite Hsm.
Qed.

Lemma step_unlock y a n :
  sys_inv y a → isNode N n → y.(sy_reader) n = AtSend [] ThenReceive →
  sys_inv (readerMoved y n (y.(sy_rsm) n) (y.(sy_chan) n) AtReceive) a.
Proof.
  intros Hy Hn Hrd. apply sys_inv_moved; [done..|]. pose proof (si_replica _ _ Hy n Hn) as R.
  rewrite Hrd in R. destruct R as [Hs (T & p & i & Hp & Hi & [? [? _]] & Hst) Hm Hpend _].
  split; [done| |done|done|done]. by exists T, p, i.
Qed.

Lemma step_send y a n ch res es next cs :
  sys_inv y a → isNode N n → y.(sy_reader) n = AtSend ((ch, res) :: es) next →
  sys_inv (mkSystem y.(sy_world) y.(sy_rsm) y.(sy_chan) (<[n := AtSend es next]> y.(sy_reader)) cs
    (HAnswer n ch res :: y.(sy_hist))) a.
Proof.
  intros Hy Hn Hrd. pose proof (si_replica _ _ Hy n Hn) as R. rewrite Hrd in R.
  pose proof (rp_sends _ _ _ _ _ _ _ R) as Hsend. simpl in Hsend.
  eapply (sys_inv_node y _ a a n [HAnswer n ch res]); try done.
  - apply Hy.
  - elsewhere.
  - simpl. rewrite fn_lookup_insert.
    apply (replica_mono a a y.(sy_hist) (HAnswer n ch res :: y.(sy_hist))); [done|set_solver|].
    destruct R as [? (T & p & i & ?) ? ? _]. split; [done|by exists T, p, i|done|done|].
    intros c x Hin. apply Hsend. set_solver.
  - by left.
  - by left.
  - intros h2 m c x h1 Hh. destruct h2 as [|? [|? ?]]; [|done..]. injection Hh as <- <- <- <-.
    apply Hsend. set_solver.
Qed.
(** *** Restarts *)

(** A replica can be made from a good snapshot, and has its state. *)
Lemma MakeRSM_good a n i data : goodSnap a i data →
  ∃ r T p, MakeRSM n maxState s0 data = Some r ∧ committed N a T p ∧ zlen p = i ∧
    r.(rsm_sm) = stateAt s0 p (length p).
Proof.
  intros (T & p & Hp & Hlen & Hd). unfold MakeRSM. destruct Hd as [[-> ->]|Hd].
  - rewrite bool_decide_false by tauto. by eexists _, T, [].
  - destruct (snapshot_total (stateAt s0 p (length p))) as (data' & Hd' & Hne).
    rewrite Hd in Hd'. injection Hd' as <-. rewrite bool_decide_true by done.
    unfold stateAt in *. rewrite (restore_later _ _ _ Hd). by eexists _, T, p.
Qed.

(** A replica made from a good snapshot is where the snapshot is. *)
Lemma MakeRSM_following a n i data rf r :
  goodSnap a i data → rf.(lastApplied) = i → MakeRSM n maxState s0 data = Some r →
  following a rf r [] AtReceive ∧ r.(rsm_me) = n ∧ r.(pending) = ∅.
Proof.
  intros (T & p & Hp & Hlen & Hd) Ha HM.
  assert (r.(rsm_sm) = stateAt s0 p (length p) ∧ r.(rsm_lastApplied) = 0 ∧ r.(rsm_me) = n ∧ r.(pending) = ∅)
    as (Hsm & Hla & ? & ?).
  { unfold MakeRSM in HM. destruct Hd as [[-> ->]|Hd].
    - rewrite bool_decide_false in HM by tauto. injection HM as <-. done.
    - destruct (snapshot_total (stateAt s0 p (length p))) as (data' & Hd' & Hne).
      rewrite Hd in Hd'. injection Hd' as <-. rewrite bool_decide_true in HM by done.
      unfold stateAt in *. rewrite (restore_later _ _ _ Hd) in HM. injection HM as <-. done. }
  split; [|done]. exists T, p, (length p). split; [done|]. split; [done|]. split; [split; [lia|done]|].
  rewrite Ha, <-Hlen, Nat2Z.id. constructor.
Qed.

(** The node a good disk restarts as, and the protocol's side of it. *)
Lemma crash_outcome y a n d rf :
  sys_inv y a → isNode N n → crashDisk N y.(sy_world) n d → Make N n d = Some rf →
  ∃ a', move N n a a' ∧ sim N (restart y.(sy_world) n rf) a' ∧
    ∃ i, goodSnap a i d.(d_snapshot) ∧ held i d.(d_snapshot) i rf.
Proof.
  intros Hy Hn [->|(ev & o & Hi & Hen & Hex & Hd)] HM; pose proof (si_sim _ _ Hy) as Hsim.
  - destruct (crash_sim N N_pos _ a n rf Hsim Hn HM) as (a' & M & ?). exists a'. split; [done|]. split; [done|].
    pose proof (sim_node _ _ _ Hsim n Hn) as Sn. pose proof (ns_sync _ _ _ _ _ Sn) as Hsync.
    unfold disk_sync in Hsync. rewrite (ns_peers _ _ _ _ _ Sn), (ns_me _ _ _ _ _ Sn), HM in Hsync.
    injection Hsync as ->. eexists. split; [apply (si_replica _ _ Hy n Hn)|]. done.
  - destruct (crash_during_sim N N_pos _ a n ev o d rf Hsim Hn Hen Hex) as (a' & M & ?);
      [by apply saved_crashPoint|done|].
    exists a'. split; [|split; [done|]].
    + eapply moves_mono; [|exact M]. intros e. by apply internal_writes.
    + destruct (engine_outcome y a n ev o Hy Hn Hi Hen Hex) as (_ & _ & Hs).
      destruct (Hs d Hd) as (x & Hg & Hdisk). exists x.1.
      pose proof (goodSnap_pos _ _ _ Hg). pose proof (disk_of_Make N n _ _ d rf Hdisk ltac:(done) HM).
      by destruct Hdisk as [-> _].
Qed.

Lemma step_crash y a n d rf r :
  sys_inv y a → isNode N n → crashDisk N y.(sy_world) n d →
  Make N n d = Some rf → MakeRSM n maxState s0 d.(d_snapshot) = Some r →
  ∃ a', sys_inv (rebooted y n rf r) a'.
Proof.
  intros Hy Hn Hd HM HR.
  destruct (crash_outcome y a n d rf Hy Hn Hd HM) as (a' & M & Hsim' & i & Hg & (E1 & E2 & E3)).
  pose proof (move_gext _ _ _ _ M) as X. exists a'. eapply (sys_inv_node y _ a a' n []); try done.
  - elsewhere.
  - simpl. rewrite !fn_lookup_insert. apply (replica_mono _ _ _ _ _ _ _ _ _ X (reflexivity _)).
    destruct (MakeRSM_following a n i _ rf r Hg E3 HR) as (? & ? & Hp). split; [|done|done| |done].
    + by rewrite E1, E2.
    + intros k e. by rewrite Hp.
  - by left.
  - intros e He. destruct (move_known _ _ _ _ M e He) as [?|[]]. by left.
  - by intros [].
Qed.

(** ** Every reachable system *)

Lemma sinit_inv : sys_inv (sinit N s0 maxState) ainit.
Proof.
  split; simpl.
  - by apply winit_sim.
  - intros n Hn. split; simpl; [|exists 0, [], 0%nat|done|done|done].
    + exists 0, []. split; [by left|]. split; [done|]. by left.
    + split; [by left|]. split; [done|]. split; [by split|constructor].
  - set_solver.
  - intros e [[m He]|[t He]]; by apply not_elem_of_nil in He.
  - by intros [].
Qed.

Lemma sstep_inv y y' a : sys_inv y a → sstep Atomic N size s0 maxState y y' → ∃ a', sys_inv y' a'.
Proof.
  intros Hy [].
  - by eapply step_engine.
  - by eapply step_submit.
  - exists a. by apply step_timeout.
  - exists a. by eapply step_end.
  - exists a. by eapply step_snapshot.
  - exists a. by eapply step_command.
  - exfalso. by eapply step_invalid.
  - exists a. by eapply step_apply.
  - exists a. by eapply step_outdated.
  - by eapply step_check.
  - exists a. by apply step_unlock.
  - exists a. by eapply step_send.
  - by eapply step_crash.
  - done.
Qed.

Lemma sreachable_inv y : sreachable Atomic N size s0 maxState y → ∃ a, sys_inv y a.
Proof.
  apply (rtc_ind_r (λ y, ∃ a, sys_inv y a)).
  - exists ainit. apply sinit_inv.
  - intros y1 y2 _ Hs [a Ha]. by eapply sstep_inv.
Qed.
End inv.
