(* ===== verification/SystemRun.v ===== *)
(** * Runs of the replicated system

    Schedules for [System.v] as in [Schedule.v]: what a schedule computes is
    reachable.  Then a concrete run of three replicas of the store. *)

From stdpp Require Import functions.
From S2P Require Import Prelude Api Raft Cluster Schedule Store Rsm System.

Local Open Scope Z_scope.

(** An engine's event chosen as in [Schedule.v]; a call, its timeout and its
    end, the last two for the call at a place of the list; the next step of a
    reader, a message to the call at a place of the list; a crash with restart. *)
Inductive saction :=
  | SEngine (x : action)
  | SSubmit (n id : Z) (req : any)
  | STimeout (n : Z) (j : nat)
  | SEnd (n : Z) (j : nat)
  | SRead (n : Z)
  | SSend (n : Z) (j : nat)
  | SCrash (n : Z).

Section run.
Context {S : Type} `{StateMachine S}.
Context (sv : saving) (N : Z) (size : bytes → Z) (s0 : S) (maxState : Z).
Implicit Types (y : System S).

#[local] Hint Extern 0 (RaftApi Raft Effect) => exact (engine size) : typeclass_instances.

(** The node and event a scheduler's choice stands for. *)
Definition chosen (w : World) (x : action) : option (Z * event) :=
  match x with
  | Do n ev => Some (n, ev)
  | Deliver i => '(src, dst, req) ← w.(w_reqs) !! i; Some (dst, EvDeliver src req)
  | Receive i =>
      '(callee, caller, req, rep) ← w.(w_reps) !! i;
      ev ← replyEvent callee req rep; Some (caller, ev)
  | _ => None
  end.

Definition readStep y (n : Z) : option (System S) :=
  let s := (y.(sy_rsm) n, y.(sy_world).(w_node) n) in
  match y.(sy_reader) n with
  | AtReceive =>
      match y.(sy_chan) n with
      | [] => None
      | m :: ms =>
          if m.(SnapshotValid) then
            '(_, (r', _), effs) ← handleSnapshot (E:=Effect) m s;
            Some (readerMoved y n r' ms (AtSend (sends effs) ThenReceive))
          else if m.(CommandValid) then
            '(admitted, (r', _), _) ← handleCommand_admit (E:=Effect) m s;
            Some (readerMoved y n r' ms (admittedTo m.(CommandIndex) admitted))
          else Some (readerMoved y n (y.(sy_rsm) n) ms AtReceive)
      end
  | AtApply index id req =>
      '(_, (r', _), effs) ← applyOp (E:=Effect) index id req s;
      Some (readerMoved y n r' (y.(sy_chan) n) (AtSend (sends effs) (ThenOutdated index)))
  | AtSend [] (ThenOutdated index) =>
      '(_, (r', _), effs) ← notifyOutdated (E:=Effect) index s;
      Some (readerMoved y n r' (y.(sy_chan) n) (AtSend (sends effs) (ThenCheck index)))
  | AtSend [] (ThenCheck index) =>
      '(_, (r', rf'), effs) ← checkSnapshot (E:=Effect) index s;
      Some (mkSystem (called y.(sy_world) n rf' (engineEffects effs)) (<[n := r']> y.(sy_rsm))
        y.(sy_chan) (<[n := AtReceive]> y.(sy_reader)) y.(sy_calls) y.(sy_hist))
  | AtSend [] ThenReceive => Some (readerMoved y n (y.(sy_rsm) n) (y.(sy_chan) n) AtReceive)
  | AtSend (_ :: _) _ => None
  end.

Definition sendStep y (n : Z) (j : nat) : option (System S) :=
  match y.(sy_reader) n, y.(sy_calls) n !! j with
  | AtSend ((ch, res) :: es) next, Some (InSelect id index) =>
      if decide (id = ch) then
        Some (mkSystem y.(sy_world) y.(sy_rsm) y.(sy_chan) (<[n := AtSend es next]> y.(sy_reader))
          (<[n := <[j := Leaving index]> (y.(sy_calls) n)]> y.(sy_calls)) (HAnswer n ch res :: y.(sy_hist)))
      else None
  | _, _ => None
  end.

Definition sact y (x : saction) : option (System S) :=
  match x with
  | SEngine x =>
      '(n, ev) ← chosen y.(sy_world) x;
      if internal ev then
        o ← doEvent N y.(sy_world) n ev;
        Some (mkSystem (after y.(sy_world) n ev o) y.(sy_rsm)
          (<[n := y.(sy_chan) n ++ appliedBy o.(o_effs)]> y.(sy_chan)) y.(sy_reader) y.(sy_calls)
          y.(sy_hist))
      else None
  | SSubmit n id req =>
      if decide (isNode N n) then
        if free (y.(sy_reader) n) then
          '(res, (r', rf'), effs) ← Submit_begin id req (y.(sy_rsm) n, y.(sy_world).(w_node) n);
          Some (mkSystem (called y.(sy_world) n rf' (engineEffects effs)) (<[n := r']> y.(sy_rsm))
            y.(sy_chan) y.(sy_reader) (<[n := y.(sy_calls) n ++ waiting id res]> y.(sy_calls))
            (logged n id req res ++ y.(sy_hist)))
        else None
      else None
  | STimeout n j =>
      if decide (isNode N n) then
        match y.(sy_calls) n !! j with
        | Some (InSelect id index) =>
            Some (mkSystem y.(sy_world) y.(sy_rsm) y.(sy_chan) y.(sy_reader)
              (<[n := <[j := Leaving index]> (y.(sy_calls) n)]> y.(sy_calls)) y.(sy_hist))
        | _ => None
        end
      else None
  | SEnd n j =>
      if decide (isNode N n) then
        match free (y.(sy_reader) n), y.(sy_calls) n !! j with
        | true, Some (Leaving index) =>
            '(_, (r', _), _) ← Submit_end (E:=Effect) index (y.(sy_rsm) n, y.(sy_world).(w_node) n);
            Some (mkSystem y.(sy_world) (<[n := r']> y.(sy_rsm)) y.(sy_chan) y.(sy_reader)
              (<[n := delete j (y.(sy_calls) n)]> y.(sy_calls)) y.(sy_hist))
        | _, _ => None
        end
      else None
  | SRead n => if decide (isNode N n) then readStep y n else None
  | SSend n j => if decide (isNode N n) then sendStep y n j else None
  | SCrash n =>
      if decide (isNode N n) then
        let d := (y.(sy_world).(w_node) n).(persister) in
        rf ← Make N n d;
        r ← MakeRSM n maxState s0 d.(d_snapshot);
        Some (rebooted y n rf r)
      else None
  end.

Fixpoint splay y (xs : list saction) : option (System S) :=
  match xs with
  | [] => Some y
  | x :: xs' => y' ← sact y x; splay y' xs'
  end.

Abbreviation step := (sstep sv N size s0 maxState).

Lemma readStep_step y n y' : isNode N n → readStep y n = Some y' → step y y'.
Proof.
  intros Hn. unfold readStep.
  destruct (y.(sy_reader) n) as [|index id req|[|? ?] [index|index|]] eqn:Hrd; try done.
  - destruct (y.(sy_chan) n) as [|m ms] eqn:Hch; [done|].
    destruct m.(SnapshotValid) eqn:Hs; [|destruct m.(CommandValid) eqn:Hc].
    + intros ([[[] [r' rf']] effs] & Hr & [= <-])%bind_Some. by eapply S_snapshot.
    + intros ([[ad [r' rf']] effs] & Hr & [= <-])%bind_Some. by eapply S_command.
    + intros [= <-]. by eapply S_invalid.
  - intros ([[val [r' rf']] effs] & Hr & [= <-])%bind_Some. by eapply S_apply.
  - intros ([[[] [r' rf']] effs] & Hr & [= <-])%bind_Some. by eapply S_outdated.
  - intros ([[[] [r' rf']] effs] & Hr & [= <-])%bind_Some. by eapply S_check.
  - intros [= <-]. by apply S_unlock.
Qed.

Lemma sendStep_step y n j y' : isNode N n → sendStep y n j = Some y' → step y y'.
Proof.
  intros Hn. unfold sendStep. destruct (y.(sy_reader) n) as [| |[|[ch res] es] next] eqn:Hrd; try done.
  destruct (y.(sy_calls) n !! j) as [[id index|]|] eqn:Hj; try done.
  case_decide as Hid; [|done]. subst id. intros [= <-]. by eapply S_send.
Qed.

Lemma sact_step y x y' : sact y x = Some y' → step y y'.
Proof.
  destruct x as [x|n id req|n j|n j|n|n j|n]; cbn [sact].
  - intros ([n ev] & _ & Hr)%bind_Some. destruct (internal ev) eqn:Hi; [|done].
    apply bind_Some in Hr as (o & Ho & [= <-]). apply doEvent_Some in Ho as (? & ? & ?).
    by apply S_engine.
  - case_decide; [|done]. destruct (free _) eqn:Hf; [|done].
    intros ([[res [r' rf']] effs] & Hr & [= <-])%bind_Some. by apply S_submit.
  - case_decide; [|done]. destruct (y.(sy_calls) n !! j) as [[id index|]|] eqn:Hj; try done.
    intros [= <-]. by eapply S_timeout.
  - case_decide; [|done]. destruct (free _) eqn:Hf; [|done].
    destruct (y.(sy_calls) n !! j) as [[|index]|] eqn:Hj; try done.
    intros ([[[] [r' rf']] effs] & Hr & [= <-])%bind_Some. by eapply S_end.
  - case_decide; [|done]. by apply readStep_step.
  - case_decide; [|done]. by apply sendStep_step.
  - case_decide; [|done]. intros (rf & HM & (r & HR & [= <-])%bind_Some)%bind_Some.
    eapply S_crash; [done| |done|done]. by left.
Qed.

Lemma splay_reachable xs y : splay (sinit N s0 maxState) xs = Some y → sreachable sv N size s0 maxState y.
Proof.
  unfold sreachable. generalize (sinit N s0 maxState). induction xs as [|x xs IH]; intros y0 Hp.
  - injection Hp as ->. done.
  - apply bind_Some in Hp as (y1 & H1 & H2). eapply rtc_l; [by eapply sact_step|auto].
Qed.
End run.

(** ** Three replicas

    Node 0 is elected, a put and a later get of the same key go through it, the
    replicas of nodes 0 and 1 apply both; snapshots are taken after every
    operation (the threshold is 1); node 1 then restarts from its snapshot. *)
Module Run.
Definition size : bytes → Z := λ d, zlen d.
Definition put : any := VPutArgs {| pa_Key := "k"; pa_Value := "v"; pa_Version := 0 |}.
Definition get : any := VGetArgs {| ga_Key := "k" |}.
(** receive, apply, answer the call, retry the others, check the snapshot *)
Definition answer (n : Z) : list saction := [SRead n; SRead n; SSend n 0; SRead n; SRead n].
(** the same without a call to answer *)
Definition readAll (n : Z) : list saction := [SRead n; SRead n; SRead n; SRead n].
Definition eng (xs : list action) : list saction := SEngine <$> xs.

Definition elect : list saction := eng [Do 0 EvElectionTimeout; Deliver 0; Receive 0].
(** replicate to node 1, learn that it has the entry, commit and apply at 0 *)
Definition commit : list saction :=
  eng [Do 0 (EvReplicate 1); Deliver 0; Receive 0; Do 0 EvApply] ++ answer 0.
(** tell node 1 and apply there *)
Definition follow : list saction :=
  eng [Do 0 (EvReplicate 1); Deliver 0; Do 1 EvApply].

Definition schedule : list saction :=
  elect ++ [SSubmit 0 7 put] ++ commit ++ [SEnd 0 0] ++
  [SSubmit 0 8 get] ++ commit ++ follow ++ readAll 1 ++ [SRead 1; SCrash 1].

Definition system_after (xs : list saction) : System Store :=
  default (sinit 3 NewStore 1) (splay 3 size NewStore 1 (sinit 3 NewStore 1) xs).

Definition system : System Store := system_after schedule.

(** node 0 has applied the put and is about to take its first snapshot *)
Definition before_snapshot : list saction :=
  elect ++ [SSubmit 0 7 put] ++
  eng [Do 0 (EvReplicate 1); Deliver 0; Receive 0; Do 0 EvApply] ++
  [SRead 0; SRead 0; SSend 0 0; SRead 0].
End Run.
