(* ===== verification/Linear.v ===== *)
(** * Linearizability of the replicated system

    What the invariant of [SystemFacts.v] gives for every reachable system: the
    replicas are copies of one state machine, the answers of completed calls
    are those of one sequential execution of the submitted operations in an
    order that agrees with real time, and no replica ever stops with a fatal
    error. *)

From stdpp Require Import functions.
From S2P Require Import Prelude Api Raft Protocol RaftFacts Cluster ClusterSim ClusterLocal Frames Store Rsm RsmFacts System SystemFacts SystemRun.

Local Open Scope Z_scope.

(** ** Histories *)

(** The ids of the calls that logged an operation. *)
Definition callIds (h : list hevent) : list Z :=
  omap (λ x, match x with HSubmit _ id _ _ => Some id | _ => None end) h.

(** The id of the call an entry of the log belongs to. *)
Definition entryId (e : Entry) : option Z :=
  match e.(Command) with VOp _ id _ => Some id | _ => None end.

(** The sequence of operations [L] explains the history [h]: *)
Record linearization {S} `{StateMachine S} (s0 : S) (h : list hevent) (L : list Entry) : Prop := {
  (** it has only operations that were submitted, *)
  lin_submitted i e : L !! i = Some e → submitted h e ∧ e.(Index) = Z.of_nat i + 1;
  (** each of them once; *)
  lin_once i j e e' : L !! i = Some e → L !! j = Some e' → entryId e = entryId e' → i = j;
  (** an answered call's operation is in it, and the answer is what it returns
      when all of [L] before it has been executed; *)
  lin_answer n id val : HAnswer n id (mkResult id val) ∈ h →
    ∃ i e req, L !! i = Some e ∧ e.(Command) = VOp n id req ∧
      val = (DoOp req (stateAt s0 L i)).1;
  (** and when a call was answered before another one began, and the operation of
      the other one is in it (whether that call was answered or not), then the
      operation of the answered call comes before. *)
  lin_order h1 h2 h3 n id val n' id' req' k' j e' :
    h = h3 ++ HSubmit n' id' req' k' :: h2 ++ HAnswer n id (mkResult id val) :: h1 →
    L !! j = Some e' → entryId e' = Some id' →
    ∃ i e, (i < j)%nat ∧ L !! i = Some e ∧ entryId e = Some id
}.

Lemma elem_of_callIds h n id req k : HSubmit n id req k ∈ h → id ∈ callIds h.
Proof. intros Hin. apply list_elem_of_omap. by exists (HSubmit n id req k). Qed.

Lemma callIds_app h1 h2 : callIds (h1 ++ h2) = callIds h1 ++ callIds h2.
Proof. apply omap_app. Qed.

(** Calls with distinct ids: an id stands for one call. *)
Lemma call_unique h n id req k n' req' k' :
  NoDup (callIds h) → HSubmit n id req k ∈ h → HSubmit n' id req' k' ∈ h →
  n = n' ∧ req = req' ∧ k = k'.
Proof.
  intros Hnd H1 H2. apply list_elem_of_split in H1 as (h1 & h2 & ->).
  rewrite callIds_app in Hnd. simpl in Hnd. apply NoDup_app in Hnd as (_ & Hd & Hc).
  apply NoDup_cons in Hc as [Hc _].
  apply elem_of_app in H2 as [H2|[[= -> -> ->]|H2]%elem_of_cons]; [|done|].
  - apply elem_of_callIds in H2. exfalso. apply (Hd _ H2). apply elem_of_cons. by left.
  - apply elem_of_callIds in H2. done.
Qed.

Section linear.
Context {S : Type} `{StateMachineLaws S}.
Context (N : Z) (N_pos : 0 < N) (size : bytes → Z) (s0 : S) (maxState : Z).
Implicit Types (a : AState) (y : System S) (p L : list Entry).

(** ** One log for finitely many committed ones *)
Lemma committed_join_all {X} a (l : list X) (Q : X → list Entry → Prop) :
  AInv N a → (∀ x, x ∈ l → ∃ T p, committed N a T p ∧ Q x p) →
  ∃ T L, committed N a T L ∧ ∀ x, x ∈ l → ∃ p, p `prefix_of` L ∧ Q x p.
Proof.
  intros I. induction l as [|x l IH]; intros Hall.
  - exists 0, []. split; [by left|]. by intros x ?%not_elem_of_nil.
  - destruct IH as (T & L & HL & Hl); [intros; apply Hall; set_solver|].
    destruct (Hall x) as (T' & p & Hp & Hx); [set_solver|].
    destruct (committed_join N N_pos a _ _ _ _ I HL Hp) as (T2 & L2 & HL2 & H1 & H2).
    exists T2, L2. split; [done|]. intros z [->|Hz]%elem_of_cons; [eauto|].
    destruct (Hl z Hz) as (q & Hq & ?). exists q. split; [by trans L|done].
Qed.

(** ** Answers *)

(** [p] explains the answer at position [k] of the history, with operations that
    were all submitted before it. *)
Definition explains (h : list hevent) (k : nat) p : Prop :=
  ∀ n id val, h !! k = Some (HAnswer n id (mkResult id val)) →
  ∃ i e req, p !! i = Some e ∧ e.(Command) = VOp n id req ∧
    val = (DoOp req (stateAt s0 p i)).1 ∧ ∀ e', e' ∈ p → submitted (drop (Datatypes.S k) h) e'.

#[local] Instance answered_dec (h : list hevent) k :
  Decision (∃ n id val, h !! k = Some (HAnswer n id (mkResult id val))).
Proof.
  destruct (h !! k) as [[|n id [id' val]]|] eqn:Hk; [right; naive_solver| |right; naive_solver].
  destruct (decide (id' = id)) as [->|]; [left; eauto|right; naive_solver].
Defined.

Lemma answer_explained y a k :
  sys_inv N s0 y a → NoDup (callIds y.(sy_hist)) → -1 ∉ callIds y.(sy_hist) →
  ∃ T p, committed N a T p ∧ explains y.(sy_hist) k p.
Proof.
  intros Hy Hnd H1. set (h := y.(sy_hist)) in *.
  destruct (decide (∃ n id val, h !! k = Some (HAnswer n id (mkResult id val))))
    as [(n & id & val & Hk)|Hno].
  2:{ exists 0, []. split; [by left|]. intros n id val Hk. exfalso. eauto. }
  destruct (si_answers _ _ _ _ Hy (take k h) n id (mkResult id val) (drop (Datatypes.S k) h))
    as [(req2 & k2 & Hcall) Hans]; [by rewrite take_drop_middle|].
  assert (∀ x, x ∈ drop (Datatypes.S k) h → x ∈ h) as Hsub
    by (intros x Hx; rewrite <-(take_drop (Datatypes.S k) h); set_solver).
  destruct Hans as (T & p & i & e & m & req & Hp & He & Hc & Hv & Hall); [done| |].
  { intros ->. apply H1. by eapply elem_of_callIds, Hsub. }
  exists T, p. split; [done|]. intros n0 id0 val0 Hk'. rewrite Hk in Hk'. simplify_eq.
  destruct (Hall e) as (m' & id' & req' & Hc' & Hin); [by eapply list_elem_of_lookup_2|].
  rewrite Hc in Hc'. injection Hc' as <- <- <-.
  destruct (call_unique h m id0 req e.(Index) n0 req2 k2) as (-> & _ & _); [done|auto..|].
  exists i, e, req. done.
Qed.

(** A log that explains every answer. *)
Lemma explained y a :
  sys_inv N s0 y a → NoDup (callIds y.(sy_hist)) → -1 ∉ callIds y.(sy_hist) →
  ∃ T L, committed N a T L ∧ ∀ k, ∃ p, p `prefix_of` L ∧ explains y.(sy_hist) k p.
Proof.
  intros Hy Hnd H1.
  destruct (committed_join_all a (seq 0 (length y.(sy_hist))) (explains y.(sy_hist)))
    as (T & L & HL & Hall).
  - apply (si_sim _ _ _ _ Hy).
  - intros k _. by apply answer_explained.
  - exists T, L. split; [done|]. intros k. destruct (decide (k < length y.(sy_hist))%nat) as [Hk|Hk].
    + apply Hall, elem_of_seq. lia.
    + exists []. split; [apply prefix_nil|]. intros n id val Hx%lookup_lt_Some. lia.
Qed.

(** The answer at position [k] seen from a longer log. *)
Lemma explains_at h k p L n id val :
  explains h k p → p `prefix_of` L → h !! k = Some (HAnswer n id (mkResult id val)) →
  ∃ i e req, p !! i = Some e ∧ L !! i = Some e ∧ e.(Command) = VOp n id req ∧
    val = (DoOp req (stateAt s0 L i)).1 ∧ ∀ e', e' ∈ p → submitted (drop (Datatypes.S k) h) e'.
Proof.
  intros Hx Hp Hk. destruct (Hx _ _ _ Hk) as (i & e & req & He & Hc & Hv & Hall).
  pose proof (lookup_lt_Some _ _ _ He). exists i, e, req. split; [done|].
  split; [by eapply prefix_lookup_Some|]. split; [done|]. split; [|done].
  by rewrite <-(stateAt_prefix s0 p L) by (done || lia).
Qed.

(** An operation submitted after an answer is behind all that explains it. *)
Lemma explained_order h1 h2 h3 n' id' req' k' p L i j e' :
  NoDup (callIds (h3 ++ HSubmit n' id' req' k' :: h2 ++ h1)) →
  (∀ e, e ∈ p → submitted h1 e) → p `prefix_of` L → (i < length p)%nat →
  L !! j = Some e' → entryId e' = Some id' → (i < j)%nat.
Proof.
  intros Hnd Hall Hp Hi Hj Hid. destruct (decide (i < j)%nat) as [|Hle]; [done|exfalso].
  rewrite (prefix_lookup_lt p L) in Hj by (done || lia).
  destruct (Hall e') as (m & id & req & Hc & Hin); [by eapply list_elem_of_lookup_2|].
  unfold entryId in Hid. rewrite Hc in Hid. injection Hid as ->.
  rewrite callIds_app in Hnd. simpl in Hnd. apply NoDup_app in Hnd as (_ & _ & [Hnin _]%NoDup_cons).
  apply Hnin. rewrite callIds_app. apply elem_of_app. right. by eapply elem_of_callIds.
Qed.

Lemma linearizable y a :
  sys_inv N s0 y a → NoDup (callIds y.(sy_hist)) → -1 ∉ callIds y.(sy_hist) →
  ∃ L, linearization s0 y.(sy_hist) L.
Proof.
  intros Hy Hnd H1. destruct (explained y a Hy Hnd H1) as (T & L & HL & Hex). exists L.
  assert (∀ i e, L !! i = Some e → submitted y.(sy_hist) e ∧ e.(Index) = Z.of_nat i + 1) as Hsub.
  { intros i e He. split; [|by apply (committed_indexed N a T L (sim_inv _ _ _ (si_sim _ _ _ _ Hy)) HL)].
    apply (si_known _ _ _ _ Hy). eapply committed_known; [done|by eapply list_elem_of_lookup_2]. }
  assert (∀ n id val, HAnswer n id (mkResult id val) ∈ y.(sy_hist) →
    ∃ i e req, L !! i = Some e ∧ e.(Command) = VOp n id req ∧ val = (DoOp req (stateAt s0 L i)).1) as Hans.
  { intros n id val [k Hk]%list_elem_of_lookup. destruct (Hex k) as (p & Hp & Hx).
    destruct (explains_at _ _ _ _ _ _ _ Hx Hp Hk) as (i & e & req & _ & ? & ? & ? & _). eauto 10. }
  split; [done| |done|].
  - intros i j e e' He He' Hid. destruct (Hsub _ _ He) as [(n & id & req & Hc & Hin) Hi].
    destruct (Hsub _ _ He') as [(n' & id' & req' & Hc' & Hin') Hj].
    unfold entryId in Hid. rewrite Hc, Hc' in Hid. injection Hid as <-.
    destruct (call_unique _ _ _ _ _ _ _ _ Hnd Hin Hin') as (_ & _ & ?). lia.
  - intros h1 h2 h3 n id val n' id' req' k' j e' Hh Hj Hid'.
    set (x := HAnswer n id (mkResult id val)) in *. set (h4 := h3 ++ HSubmit n' id' req' k' :: h2).
    assert (y.(sy_hist) = h4 ++ x :: h1) as Hh4 by (unfold h4; by rewrite <-app_assoc).
    destruct (Hex (length h4)) as (p & Hp & Hx).
    destruct (explains_at _ _ _ L n id val Hx Hp) as (i & e & req & Hpi & Hi & Hc & _ & Hall).
    { rewrite Hh4. by apply list_lookup_middle. }
    exists i, e. split; [|split; [done|unfold entryId; by rewrite Hc]].
    eapply (explained_order (x :: h1) h2 h3); [by rewrite <-Hh|..|done|by eapply lookup_lt_Some|done|done].
    intros e2 He2. eapply submitted_mono; [|by apply Hall]. rewrite Hh4.
    replace (drop (Datatypes.S (length h4)) (h4 ++ x :: h1)) with h1; [set_solver|].
    rewrite drop_app_ge by lia. by replace (Datatypes.S (length h4) - length h4)%nat with 1%nat by lia.
Qed.
End linear.

(** ** The replicas *)

Section replicas.
Context {S : Type} `{StateMachineLaws S}.
Context (N : Z) (N_pos : 0 < N) (size : bytes → Z) (s0 : S) (maxState : Z).
Implicit Types (a : AState) (y : System S) (p L : list Entry).

#[local] Hint Extern 0 (RaftApi Raft Effect) => exact (engine size) : typeclass_instances.

(** The state of replica [n] is the one after the first [i] entries of [L]; the
    engine is not behind, and not ahead when nothing is queued. *)
Definition at_position y L (n : Z) (i : nat) : Prop :=
  (i ≤ length L)%nat ∧ (y.(sy_rsm) n).(rsm_sm) = stateAt s0 L i ∧
  Z.of_nat i ≤ (y.(sy_world).(w_node) n).(lastApplied) ∧
  (y.(sy_reader) n = AtReceive → y.(sy_chan) n = [] →
   Z.of_nat i = (y.(sy_world).(w_node) n).(lastApplied)).

Lemma following_position y a n T p i :
  sys_inv N s0 y a → isNode N n → committed N a T p → (i ≤ length p)%nat →
  readerPos s0 (y.(sy_reader) n) (y.(sy_rsm) n) p i →
  stream s0 p i (y.(sy_chan) n) (Z.to_nat (y.(sy_world).(w_node) n).(lastApplied)) →
  ∃ k, at_position y p n k.
Proof.
  intros Hy Hn Hp Hi [_ Hr] Hst. destruct (stream_bound _ _ _ _ _ Hst Hi).
  pose proof (ns_applied _ _ _ _ _ (sim_node _ _ _ (si_sim _ _ _ _ Hy) n Hn)).
  unfold at_position. destruct (y.(sy_reader) n) as [|index id req|es next].
  - exists i. split; [done|]. split; [done|]. split; [lia|]. intros _ Hc. rewrite Hc in Hst.
    inversion Hst as [j Hj|? ? ? ? ? ? ? ? ? ? ? Hm|? ? ? ? ? ? ? ? ? ? Hm]. lia.
  - destruct Hr as (k & e & m & -> & He & _ & _ & Hsm). exists k.
    split; [lia|]. split; [done|]. split; [lia|]. by intros [=].
  - destruct Hr as [Hsm _]. exists i. split; [done|]. split; [done|]. split; [lia|]. by intros [=].
Qed.

Lemma at_position_prefix y p L n k : p `prefix_of` L → at_position y p n k → at_position y L n k.
Proof.
  intros Hp (Hk & Hsm & ?). pose proof (prefix_length _ _ Hp). split; [lia|]. split; [|done].
  rewrite Hsm. by apply stateAt_prefix.
Qed.

Lemma replica_positions y a : sys_inv N s0 y a →
  ∃ T L, committed N a T L ∧ ∀ n, isNode N n → ∃ i, at_position y L n i.
Proof.
  intros Hy. destruct (committed_join_all N N_pos a (seqZ 0 N) (λ n p, ∃ i, at_position y p n i))
    as (T & L & HL & Hall).
  - apply (si_sim _ _ _ _ Hy).
  - intros n Hn. apply elem_of_seqZ in Hn. assert (isNode N n) as Hn' by (split; lia).
    destruct (rp_following _ _ _ _ _ _ _ _ _ (si_replica _ _ _ _ Hy n Hn'))
      as (T & p & i & Hp & Hi & Hr & Hst).
    exists T, p. split; [done|]. by eapply following_position.
  - exists T, L. split; [done|]. intros n [? ?].
    destruct (Hall n) as (p & Hp & i & Hi); [apply elem_of_seqZ; lia|].
    exists i. by eapply at_position_prefix.
Qed.

(** ** No fatal error *)

(** What the reader does next works, and when it is at a send, the channel is one
    that a call of this node made. *)
Definition reader_works y (n : Z) : Prop :=
  let s := (y.(sy_rsm) n, y.(sy_world).(w_node) n) in
  match y.(sy_reader) n with
  | AtReceive => ∀ m ms, y.(sy_chan) n = m :: ms →
      m.(SnapshotValid) = true ∧ is_Some (handleSnapshot (E:=Effect) m s) ∨
      m.(SnapshotValid) = false ∧ m.(CommandValid) = true ∧ is_Some (handleCommand_admit (E:=Effect) m s)
  | AtApply index id req => is_Some (applyOp (E:=Effect) index id req s)
  | AtSend [] (ThenOutdated index) => is_Some (notifyOutdated (E:=Effect) index s)
  | AtSend [] (ThenCheck index) => is_Some (checkSnapshot (E:=Effect) index s)
  | AtSend [] ThenReceive => True
  | AtSend ((ch, _) :: _) _ => called_at y.(sy_hist) n ch
  end.

Lemma admit_total m (r : RSM S) (rf : Raft) : is_Some (handleCommand_admit (E:=Effect) m (r, rf)).
Proof.
  unfold handleCommand_admit. destruct m.(am_Command); try by eexists.
  rewrite bind_get. case_bool_decide; by eexists.
Qed.

Lemma applyOp_total index id req (r : RSM S) (rf : Raft) : is_Some (applyOp (E:=Effect) index id req (r, rf)).
Proof.
  pose proof (run_applyOp (E:=Effect) index id req r rf) as Hr. destruct (DoOp req r.(rsm_sm)).
  rewrite Hr. by eexists.
Qed.

Lemma notifyOutdated_total index (r : RSM S) (rf : Raft) : is_Some (notifyOutdated (E:=Effect) index (r, rf)).
Proof.
  pose proof (run_notifyOutdated (E:=Effect) index r rf) as Hr. simpl in Hr. rewrite Hr. by eexists.
Qed.

Lemma reader_total y a n : sys_inv N s0 y a → isNode N n → reader_works y n.
Proof.
  intros Hy Hn. unfold reader_works. pose proof (si_replica _ _ _ _ Hy n Hn) as R.
  pose proof (si_sim _ _ _ _ Hy) as Hsim.
  destruct (y.(sy_reader) n) as [|index id req|[|[ch x] es] [index|index|]];
    [|apply applyOp_total|apply notifyOutdated_total| |done|..].
  - intros m ms Hch. rewrite Hch in R.
    destruct R as [_ (T & p & i & Hp & Hi & [_ Hsm] & Hst) _ _ _].
    inversion Hst as [|? e ? ? ? ? Hc Hs _ _ _|? k ? ? ? Hk Hs _ Hsnap _]; subst.
    + right. split; [done|]. split; [done|]. apply admit_total.
    + left. split; [done|]. destruct (stateAt_later s0 p i k) as [reqs Hreqs]; [lia|].
      destruct (run_handleSnapshot (E:=Effect) m (y.(sy_rsm) n) (y.(sy_world).(w_node) n) (stateAt s0 p k))
        as (q & effs & Hrun); [|by rewrite Hrun].
      rewrite Hsm, Hreqs. apply restore_later. by rewrite <-Hreqs.
  - destruct (run_checkSnapshot (E:=Effect) index (y.(sy_rsm) n) (y.(sy_world).(w_node) n))
      as (rf' & effs & Hrun & _); [|by rewrite Hrun].
    intros k data. destruct (exec_good N N_pos _ a n (EvSnapshot k data) Hsim Hn Logic.I) as (o & Ho & _).
    simpl in Ho. apply bind_Some in Ho as ([[[] rf'] effs] & Hr & _). by exists rf', effs.
  - apply (rp_sends _ _ _ _ _ _ _ _ _ R ch x). set_solver.
  - apply (rp_sends _ _ _ _ _ _ _ _ _ R ch x). set_solver.
  - apply (rp_sends _ _ _ _ _ _ _ _ _ R ch x). set_solver.
Qed.

Lemma restart_total y a n d :
  sys_inv N s0 y a → isNode N n → crashDisk N y.(sy_world) n d →
  ∃ rf r, Make N n d = Some rf ∧ MakeRSM n maxState s0 d.(d_snapshot) = Some r.
Proof.
  intros Hy Hn Hd. pose proof (si_sim _ _ _ _ Hy) as Hsim.
  assert (∃ rf, Make N n d = Some rf) as [rf HM].
  { destruct Hd as [->|(ev & o & _ & Hen & Hex & Hin)].
    - destruct (node_sim_disk _ _ _ _ _ (sim_node _ _ _ Hsim n Hn)) as (rf & ? & _). eauto.
    - destruct (exec_good N N_pos _ a n ev Hsim Hn Hen) as (o' & Ho' & Hg).
      rewrite Hex in Ho'. injection Ho' as <-.
      destruct Hg as [_ Hsv]. destruct (Hsv d Hin) as (a' & _ & rf & ? & _). eauto. }
  destruct (crash_outcome N N_pos s0 y a n d rf Hy Hn Hd HM) as (_ & _ & _ & i & Hg & _).
  destruct (MakeRSM_good N s0 maxState a n i _ Hg) as (r & _ & _ & ? & _). eauto.
Qed.

(** ** The cluster underneath *)
Lemma sstep_csteps y a y' : sys_inv N s0 y a → sstep Atomic N size s0 maxState y y' →
  rtc (cstep N) y.(sy_world) y'.(sy_world).
Proof.
  intros Hy Hs. destruct Hs as [n ev o Hn Hi Hen Hex|n id req res r' rf' effs Hn _ Hr| | | | | | |
    |n index r' rf' effs Hn _ Hr| | |n d rf r Hn Hd HM _|]; try done; simpl; apply rtc_once.
  - by apply C_event.
  - apply engine_Submit_begin in Hr as (x & Hst & _).
    apply (C_event _ _ n (EvStart (VOp (y.(sy_rsm) n).(rsm_me) id req))
      (mkOutcome rf' (engineEffects effs) (y.(sy_world).(w_els) n) [] None)); [done|done|].
    simpl. by rewrite Hst.
  - apply run_check in Hr as [_ Hr].
    assert (∃ k data, exec (EvSnapshot k data) (y.(sy_world).(w_node) n) (y.(sy_world).(w_els) n)
      = Some (mkOutcome rf' (engineEffects effs) (y.(sy_world).(w_els) n) [] None)) as (k & data & Hex).
    { destruct Hr as [[-> ->]|(data & _ & Hr)]; [exists 0, []|exists index, data]; simpl.
      - rewrite run_Snapshot_skip; [done|]. left.
        exact (ns_lii0 _ _ _ _ _ (sim_node _ _ _ (si_sim _ _ _ _ Hy) n Hn)).
      - by rewrite Hr. }
    by apply (C_event _ _ n (EvSnapshot k data) _ Hn Logic.I Hex).
  - destruct Hd as [->|(ev & o & _ & Hen & Hex & Hin)]; [by apply C_crash|].
    eapply C_crash_during; [done..| |done]. by apply saved_crashPoint.
Qed.

Lemma ssteps_csteps y : sreachable Atomic N size s0 maxState y → reachable N y.(sy_world).
Proof.
  intros Hr. assert (reachable N y.(sy_world) ∧ ∃ a, sys_inv N s0 y a) as [? _]; [|done].
  revert y Hr. apply rtc_ind_r.
  - split; [apply rtc_refl|]. exists ainit. by apply sinit_inv.
  - intros y1 y2 _ Hs [Hr [a Ha]]. split; [|by eapply sstep_inv].
    unfold reachable in *. etrans; [exact Hr|]. by eapply sstep_csteps.
Qed.
End replicas.

(** ** The store's history *)

(** The operations of a log with the replies of the store, in order. *)
Definition storeHistory (L : list Entry) : list (any * any) :=
  history (omap (opReq ∘ Command) L) NewStore.

Lemma history_lookup reqs (s : Store) i req :
  reqs !! i = Some req → history reqs s !! i = Some (req, (DoOp req (applyAll (take i reqs) s)).1).
Proof.
  revert s i. induction reqs as [|r reqs IH]; intros s i Hi; [done|].
  destruct i as [|i]; [by injection Hi as ->|]. simpl in *. by rewrite IH.
Qed.

(** When all entries are operations, positions in the log are positions in the
    history. *)
Lemma ops_take (L : list Entry) i :
  (∀ e, e ∈ L → is_Some (opReq e.(Command))) →
  omap (opReq ∘ Command) (take i L) = take i (omap (opReq ∘ Command) L).
Proof.
  revert i. induction L as [|e L IH]; intros i Hall; [by destruct i|].
  destruct i as [|i]; [done|]. destruct (Hall e) as [req Hr]; [set_solver|]. simpl. rewrite Hr.
  simpl. f_equal. apply IH. set_solver.
Qed.

Lemma ops_lookup (L : list Entry) i e req :
  (∀ e, e ∈ L → is_Some (opReq e.(Command))) → L !! i = Some e → opReq e.(Command) = Some req →
  omap (opReq ∘ Command) L !! i = Some req.
Proof.
  revert i. induction L as [|e' L IH]; intros i Hall Hi Hr; [done|].
  destruct (Hall e') as [req' Hr']; [set_solver|]. simpl. rewrite Hr'.
  destruct i as [|i]; simpl in *; [congruence|]. apply IH; [set_solver|done..].
Qed.

Lemma history_ops (L : list Entry) (s : Store) :
  (∀ e, e ∈ L → is_Some (opReq e.(Command))) →
  Forall2 (λ e x, opReq e.(Command) = Some x.1) L (history (omap (opReq ∘ Command) L) s).
Proof.
  revert s. induction L as [|e L IH]; intros s Hall; [constructor|].
  destruct (Hall e) as [req Hr]; [set_solver|]. simpl. rewrite Hr. simpl.
  constructor; [done|]. apply IH. set_solver.
Qed.

Lemma linearization_ops h L e : linearization NewStore h L → e ∈ L → is_Some (opReq e.(Command)).
Proof.
  intros Hlin [j Hj]%list_elem_of_lookup.
  destruct (lin_submitted _ _ _ Hlin j e Hj) as [(? & ? & ? & -> & _) _]. by eexists.
Qed.

Lemma store_answer h L n id val :
  linearization NewStore h L → HAnswer n id (mkResult id val) ∈ h →
  ∃ i e req, L !! i = Some e ∧ e.(Command) = VOp n id req ∧ storeHistory L !! i = Some (req, val).
Proof.
  intros Hlin Hin. destruct (lin_answer _ _ _ Hlin n id val Hin) as (i & e & req & Hi & Hc & Hv).
  assert (∀ e, e ∈ L → is_Some (opReq e.(Command))) as Hops by (intros; by eapply linearization_ops).
  exists i, e, req. split; [done|]. split; [done|]. unfold storeHistory.
  rewrite (history_lookup _ _ i req) by (eapply ops_lookup; [done..|by rewrite Hc]).
  rewrite Hv. unfold stateAt. by rewrite ops_take.
Qed.

(** ** Theorems *)

(** C1: linearizability.  Take any run of the whole system (elections, calls at
    any nodes, timeouts, lost, delayed, duplicated and reordered messages,
    snapshots, crashes and restarts, except restarts from a save that a crash
    has torn between its two files) in which no two calls drew the same random
    id and none drew -1.  There is one sequence of the submitted operations,
    each at most once, such that every answer a call received is what the state
    machine returns at the operation's place in it.  An operation whose call
    began after another call was answered comes after the operation of that
    call, whether its own call was answered or not. *)
Theorem submit_linearizable {S} `{StateMachineLaws S} N size (s0 : S) maxState y :
  0 < N → sreachable Atomic N size s0 maxState y →
  NoDup (callIds y.(sy_hist)) → -1 ∉ callIds y.(sy_hist) →
  ∃ L, linearization s0 y.(sy_hist) L.
Proof.
  intros HN Hr Hnd H1. destruct (sreachable_inv N HN size s0 maxState y Hr) as [a Ha].
  by apply (linearizable N HN s0 y a).
Qed.

Lemma submit_linearizable_witness :
  callIds Run.system.(sy_hist) = [8; 7] ∧ ∃ L, linearization NewStore Run.system.(sy_hist) L.
Proof.
  assert (callIds Run.system.(sy_hist) = [8; 7]) as E by (vm_compute; reflexivity).
  split; [exact E|]. apply (submit_linearizable 3 Run.size NewStore 1).
  - lia.
  - apply (splay_reachable Atomic 3 Run.size NewStore 1 Run.schedule). vm_compute. reflexivity.
  - rewrite E. apply (bool_decide_unpack _). vm_compute. exact Logic.I.
  - rewrite E. apply (bool_decide_unpack _). vm_compute. exact Logic.I.
Defined.

(** C2: the history of the store passes the check of the linearizability tests.
    For a system of stores, under the conditions of the theorem before (distinct
    ids, none -1, no restart from a torn save), there are a linearization of
    the history and a list of the requests in that order with their replies,
    where the reply of an answered call is the one the call received, and the
    tests' sequential specification [KvModel] accepts that list key by key. *)
Theorem kv_linearizable N size maxState (y : System Store) :
  0 < N → sreachable Atomic N size NewStore maxState y →
  NoDup (callIds y.(sy_hist)) → -1 ∉ callIds y.(sy_hist) →
  ∃ L ops, linearization NewStore y.(sy_hist) L ∧
    Forall2 (λ e x, opReq e.(Command) = Some x.1) L ops ∧
    (∀ n id val, HAnswer n id (mkResult id val) ∈ y.(sy_hist) →
       ∃ i e req, L !! i = Some e ∧ e.(Command) = VOp n id req ∧ ops !! i = Some (req, val)) ∧
    ∀ k, (checkKey k ops KvModel_Init).1 = true.
Proof.
  intros HN Hr Hnd H1. destruct (sreachable_inv N HN size NewStore maxState y Hr) as [a Ha].
  destruct (linearizable N HN NewStore y a Ha Hnd H1) as [L HL]. exists L, (storeHistory L).
  split; [done|]. split; [|split].
  - apply history_ops. intros e. by apply (linearization_ops y.(sy_hist)).
  - intros n id val. by apply store_answer.
  - intros k. unfold storeHistory. change KvModel_Init with (keyState NewStore k).
    by rewrite checkKey_history.
Qed.

Lemma kv_linearizable_witness :
  ∃ L ops, linearization NewStore Run.system.(sy_hist) L ∧
    Forall2 (λ e x, opReq e.(Command) = Some x.1) L ops ∧
    (∀ n id val, HAnswer n id (mkResult id val) ∈ Run.system.(sy_hist) →
       ∃ i e req, L !! i = Some e ∧ e.(Command) = VOp n id req ∧ ops !! i = Some (req, val)) ∧
    ∀ k, (checkKey k ops KvModel_Init).1 = true.
Proof.
  assert (callIds Run.system.(sy_hist) = [8; 7]) as E by (vm_compute; reflexivity).
  apply (kv_linearizable 3 Run.size 1).
  - lia.
  - apply (splay_reachable Atomic 3 Run.size NewStore 1 Run.schedule). vm_compute. reflexivity.
  - rewrite E. apply (bool_decide_unpack _). vm_compute. exact Logic.I.
  - rewrite E. apply (bool_decide_unpack _). vm_compute. exact Logic.I.
Defined.

(** C3: the replicas are copies of one state machine.  In every system reachable
    without a restart from a torn save there is one log of submitted operations
    such that the state of each replica is the one after a prefix of it; and
    when a replica has nothing left to read, the prefix is as long as its
    engine's [lastApplied] says. *)
Theorem replicas_agree {S} `{StateMachineLaws S} N size (s0 : S) maxState y :
  0 < N → sreachable Atomic N size s0 maxState y →
  ∃ L, (∀ e, e ∈ L → submitted y.(sy_hist) e) ∧
    ∀ n, isNode N n → ∃ i, at_position s0 y L n i.
Proof.
  intros HN Hr. destruct (sreachable_inv N HN size s0 maxState y Hr) as [a Ha].
  destruct (replica_positions N HN s0 y a Ha) as (T & L & HL & Hall). exists L. split; [|done].
  intros e He. apply (si_known _ _ _ _ Ha). by eapply committed_known.
Qed.

Lemma replicas_agree_witness :
  ∃ L, (∀ e, e ∈ L → submitted Run.system.(sy_hist) e) ∧
    ∀ n, isNode 3 n → ∃ i, at_position NewStore Run.system L n i.
Proof.
  apply (replicas_agree 3 Run.size NewStore 1); [lia|].
  apply (splay_reachable Atomic 3 Run.size NewStore 1 Run.schedule). vm_compute. reflexivity.
Defined.

(** C10: no replica ends with an error.  In every system reachable without a
    restart from a torn save, whatever part of the reader comes next on a node
    neither panics nor ends the process with a fatal error: snapshots restore,
    the engine does not panic, messages are valid, and a message is for a call
    of this node (whether that call still receives it is another matter: the
    reader may wait for ever at a send).  From every completely saved disk a
    crash can leave, the engine and the replica start again. *)
Theorem system_never_fatal {S} `{StateMachineLaws S} N size (s0 : S) maxState y n :
  0 < N → sreachable Atomic N size s0 maxState y → isNode N n →
  reader_works size y n ∧
  ∀ d, crashDisk N y.(sy_world) n d →
    ∃ rf r, Make N n d = Some rf ∧ MakeRSM n maxState s0 d.(d_snapshot) = Some r.
Proof.
  intros HN Hr Hn. destruct (sreachable_inv N HN size s0 maxState y Hr) as [a Ha]. split.
  - by apply (reader_total N HN size s0 y a).
  - intros d Hd. by apply (restart_total N HN s0 maxState y a).
Qed.

Lemma system_never_fatal_witness :
  reader_works Run.size Run.system 1 ∧
  ∀ d, crashDisk 3 Run.system.(sy_world) 1 d →
    ∃ rf r, Make 3 1 d = Some rf ∧ MakeRSM 1 1 NewStore d.(d_snapshot) = Some r.
Proof.
  apply (system_never_fatal 3 Run.size NewStore 1); [lia| |split; lia].
  apply (splay_reachable Atomic 3 Run.size NewStore 1 Run.schedule). vm_compute. reflexivity.
Defined.

(** The engines of a reachable system are a reachable cluster, so everything
    shown of clusters holds of them. *)
Theorem system_refines_cluster {S} `{StateMachineLaws S} N size (s0 : S) maxState y :
  0 < N → sreachable Atomic N size s0 maxState y → reachable N y.(sy_world).
Proof. intros HN. by apply ssteps_csteps. Qed.

Lemma system_refines_cluster_witness : reachable 3 Run.system.(sy_world).
Proof.
  apply (system_refines_cluster 3 Run.size NewStore 1); [lia|].
  apply (splay_reachable Atomic 3 Run.size NewStore 1 Run.schedule). vm_compute. reflexivity.
Defined.
