(* ===== verification/Persist.v ===== *)
(** * Persisters ([internal/raft/disk_persister.go], [internal/testutils/persister.go])

    The interface [raft.Persister] and its two implementations: the one on
    files, over a model of the file system in which every system call can fail
    or be the last one before a crash, and the one in memory the tests use.
    The disks a crash during [Save] can leave behind are those the cluster of
    [Cluster.v] restarts from. *)

From stdpp Require Import functions.
From S2P Require Import Prelude Api Raft Protocol RaftFacts Cluster ClusterSim ClusterLocal Store Rsm RsmFacts System SystemFacts SystemRun.

Local Open Scope Z_scope.

(** ** [raft.Persister]

    A read error is not modelled: a missing file reads as empty. *)
Class Persister (P : Type) := {
  ReadRaftState : P → bytes;
  ReadSnapshot : P → bytes;
  RaftStateSize : (bytes → Z) → P → Z;
  SnapshotSize : (bytes → Z) → P → Z;
  Save : bytes → bytes → P → option P
}.

Class PersisterLaws (P : Type) `{Persister P} := {
  read_saved p st snap p' : Save st snap p = Some p' →
    ReadRaftState p' = st ∧ ReadSnapshot p' = snap;
  save_total p st snap : is_Some (Save st snap p)
}.

(** What a node finds when it starts. *)
Definition diskOf {P} `{Persister P} (p : P) : Disk := mkDisk (ReadRaftState p) (ReadSnapshot p).

(** ** Files *)

(** The directory [ps.dir]: file names and contents. *)
Abbreviation FS := (gmap string bytes).

Inductive fsop :=
  | OpenTrunc (path : string)
  | WriteFile (path : string) (data : bytes)
  | SyncFile (path : string)
  | CloseFile (path : string)
  | RenameFile (from to : string).

Definition fs_apply (op : fsop) (fs : FS) : option FS :=
  match op with
  | OpenTrunc p => Some (<[p := []]> fs)
  | WriteFile p data => Some (<[p := data]> fs)
  | SyncFile p | CloseFile p => Some fs
  | RenameFile p q => data ← fs !! p; Some (<[q := data]> (delete p fs))
  end.

Fixpoint fs_run (ops : list fsop) (fs : FS) : option FS :=
  match ops with
  | [] => Some fs
  | op :: ops' => fs' ← fs_apply op fs; fs_run ops' fs'
  end.

(** The system calls of [atomicWrite] and of [Save].  Every error returns at
    once, so a failing call ends the sequence like a crash does. *)
Definition tempPath (filename : string) : string := filename +:+ ".tmp".

Definition atomicWrite (filename : string) (data : bytes) : list fsop :=
  [OpenTrunc (tempPath filename); WriteFile (tempPath filename) data;
   SyncFile (tempPath filename); CloseFile (tempPath filename);
   RenameFile (tempPath filename) filename].

Definition Save_ops (raftState snapshot : bytes) : list fsop :=
  atomicWrite "raft-state" raftState ++ atomicWrite "snapshot" snapshot.

(** What an interrupted sequence of calls leaves: some calls were done, and a
    write may have put anything into the file it writes to. *)
Inductive interrupted : list fsop → FS → FS → Prop :=
  | int_here ops fs : interrupted ops fs fs
  | int_partial p data ops fs junk : interrupted (WriteFile p data :: ops) fs (<[p := junk]> fs)
  | int_step op ops fs fs1 fs2 :
      fs_apply op fs = Some fs1 → interrupted ops fs1 fs2 → interrupted (op :: ops) fs fs2.

Definition readFile (fs : FS) (p : string) : bytes :=
  match fs !! p with Some data => data | None => [] end.

#[export] Instance FilePersister : Persister (gmap string bytes) := {
  ReadRaftState fs := readFile fs "raft-state";
  ReadSnapshot fs := readFile fs "snapshot";
  RaftStateSize size fs := match fs !! "raft-state" with Some d => size d | None => 0 end;
  SnapshotSize size fs := match fs !! "snapshot" with Some d => size d | None => 0 end;
  Save st snap fs := fs_run (Save_ops st snap) fs
}.

(** ** In memory *)

Record MockPersister := mkMock { mp_raftState : bytes; mp_snapshot : bytes }.

Definition NewMockPersister : MockPersister := mkMock [] [].

(** [clone] makes the stored strings independent of the caller's. *)
#[export] Instance MockPersister_Persister : Persister MockPersister := {
  ReadRaftState p := p.(mp_raftState);
  ReadSnapshot p := p.(mp_snapshot);
  RaftStateSize size p := size p.(mp_raftState);
  SnapshotSize size p := size p.(mp_snapshot);
  Save st snap p := Some (mkMock st snap)
}.

(** ** Lemmas *)

Lemma fs_run_atomicWrite f data fs :
  f ≠ tempPath f → fs_run (atomicWrite f data) fs = Some (<[f := data]> (delete (tempPath f) fs)).
Proof.
  intros Hf. unfold atomicWrite. simpl. rewrite insert_insert_eq, lookup_insert_eq. simpl.
  by rewrite delete_insert_eq.
Qed.

Lemma fs_run_app ops1 ops2 fs : fs_run (ops1 ++ ops2) fs = fs_run ops1 fs ≫= fs_run ops2.
Proof.
  revert fs. induction ops1 as [|op ops IH]; intros fs; simpl; [done|].
  destruct (fs_apply op fs); simpl; [apply IH|done].
Qed.

Lemma fs_run_Save st snap fs :
  ∃ fs', fs_run (Save_ops st snap) fs = Some fs' ∧
    fs' !! "raft-state" = Some st ∧ fs' !! "snapshot" = Some snap.
Proof.
  unfold Save_ops. rewrite fs_run_app, fs_run_atomicWrite by done.
  cbn [mbind option_bind]. rewrite fs_run_atomicWrite by done. eexists. split; [done|]. split.
  - rewrite lookup_insert_ne by done. rewrite lookup_delete_ne by done. by rewrite lookup_insert_eq.
  - by rewrite lookup_insert_eq.
Qed.

Lemma interrupted_app ops1 ops2 fs fs' :
  interrupted (ops1 ++ ops2) fs fs' →
  interrupted ops1 fs fs' ∨ ∃ fs1, fs_run ops1 fs = Some fs1 ∧ interrupted ops2 fs1 fs'.
Proof.
  revert fs. induction ops1 as [|op ops IH]; intros fs Hi; simpl in *; [eauto|].
  inversion Hi as [|p data ops' fs0 junk E1 E2|op' ops' fs0 fs1 fs2 Ha Hr]; subst.
  - left. constructor.
  - left. constructor.
  - rewrite Ha. simpl. destruct (IH _ Hr) as [?|(fs3 & ? & ?)]; [left; by econstructor|eauto].
Qed.

Lemma readFile_Some fs p d : fs !! p = Some d → readFile fs p = d.
Proof. unfold readFile. by intros ->. Qed.

Lemma readFile_same fs fs' p : fs' !! p = fs !! p → readFile fs' p = readFile fs p.
Proof. unfold readFile. by intros ->. Qed.

Lemma diskOf_files (fs : gmap string bytes) :
  diskOf fs = mkDisk (readFile fs "raft-state") (readFile fs "snapshot").
Proof. done. Qed.

(** Calls that touch no file but [t]. *)
Definition only (t : string) (op : fsop) : Prop :=
  match op with
  | OpenTrunc p | WriteFile p _ | SyncFile p | CloseFile p => p = t
  | RenameFile _ _ => False
  end.

Lemma interrupted_only t ops fs fs' :
  Forall (only t) ops → interrupted ops fs fs' → ∀ g, g ≠ t → fs' !! g = fs !! g.
Proof.
  intros Hops Hi g Hg. induction Hi as [| |op ops fs fs1 fs2 Ha _ IH]; [done| |].
  - apply Forall_cons in Hops as [Hp _]. simpl in Hp. subst. by rewrite lookup_insert_ne.
  - apply Forall_cons in Hops as [Hp Hops]. rewrite IH by done.
    destruct op; simpl in *; simplify_eq; by rewrite ?lookup_insert_ne.
Qed.

(** An interrupted [atomicWrite] leaves every file but its temporary one alone,
    or has replaced the target. *)
Lemma interrupted_atomicWrite f data fs fs' :
  interrupted (atomicWrite f data) fs fs' →
  (∀ g, g ≠ tempPath f → fs' !! g = fs !! g) ∨
  (fs' !! f = Some data ∧ ∀ g, g ≠ f → g ≠ tempPath f → fs' !! g = fs !! g).
Proof.
  change (atomicWrite f data) with ([OpenTrunc (tempPath f); WriteFile (tempPath f) data;
    SyncFile (tempPath f); CloseFile (tempPath f)] ++ [RenameFile (tempPath f) f]).
  intros [Hi|(fs1 & Hrun & Hi)]%interrupted_app.
  - left. eapply interrupted_only; [|exact Hi]. by repeat constructor.
  - cbn in Hrun. injection Hrun as <-.
    inversion Hi as [| |op ops fs0 fs1 fs2 Ha Hr]; subst.
    + left. intros g Hg. by rewrite !lookup_insert_ne.
    + right. simpl in Ha. rewrite lookup_insert_eq in Ha. injection Ha as <-. inversion Hr; subst.
      split; [by rewrite lookup_insert_eq|]. intros g Hg Ht.
      by rewrite lookup_insert_ne, lookup_delete_ne, !lookup_insert_ne by done.
Qed.

#[export] Instance FilePersister_laws : PersisterLaws (gmap string bytes).
Proof.
  split.
  - intros fs st snap fs' Hs. destruct (fs_run_Save st snap fs) as (fs1 & H1 & H2 & H3).
    change (fs_run (Save_ops st snap) fs = Some fs') in Hs. rewrite H1 in Hs. injection Hs as <-.
    split; by apply readFile_Some.
  - intros fs st snap. destruct (fs_run_Save st snap fs) as (fs1 & H1 & _). by exists fs1.
Qed.

#[export] Instance MockPersister_laws : PersisterLaws MockPersister.
Proof.
  split.
  - by intros p st snap p' [= <-].
  - intros p st snap. by eexists.
Qed.

(** ** Theorems *)

(** C29: saving to files is atomic per file.  Whatever system call of [Save]
    fails or is the last before a crash, and whatever a partial write left in
    the temporary file, a reader afterwards finds the old state with the old
    snapshot, the new state with the old snapshot, or the new state with the
    new snapshot: the disks the cluster's crashes are defined by. *)
Theorem save_crash_points st snap (fs fs' : gmap string bytes) :
  interrupted (Save_ops st snap) fs fs' →
  diskOf fs' ∈ diskOf fs :: crashPoints (diskOf fs) [ESave (mkDisk st snap)].
Proof.
  intros [Hi|(fs1 & Hrun & Hi)]%interrupted_app.
  - apply interrupted_atomicWrite in Hi as [Hsame|[Hst Hother]].
    + assert (diskOf fs' = diskOf fs) as ->; [|set_solver].
      rewrite !diskOf_files. f_equal; apply readFile_same; by apply Hsame.
    + assert (diskOf fs' = mkDisk st (diskOf fs).(d_snapshot)) as ->; [|set_solver].
      rewrite !diskOf_files. f_equal; [by apply readFile_Some|by apply readFile_same, Hother].
  - rewrite fs_run_atomicWrite in Hrun by done. injection Hrun as <-.
    set (fs1 := <["raft-state" := st]> _) in *.
    assert (fs1 !! "raft-state" = Some st) as H1 by apply lookup_insert_eq.
    assert (fs1 !! "snapshot" = fs !! "snapshot") as H2.
    { unfold fs1. by rewrite lookup_insert_ne, lookup_delete_ne by done. }
    apply interrupted_atomicWrite in Hi as [Hsame|[Hsn Hother]].
    + assert (diskOf fs' = mkDisk st (diskOf fs).(d_snapshot)) as ->; [|set_solver].
      rewrite !diskOf_files. f_equal; [apply readFile_Some|apply readFile_same]; by rewrite Hsame.
    + assert (diskOf fs' = mkDisk st snap) as ->; [|set_solver].
      rewrite !diskOf_files. f_equal; apply readFile_Some; [by rewrite Hother|done].
Qed.

Lemma save_crash_points_witness :
  let fs : gmap string bytes := ∅ in
  diskOf (<["raft-state.tmp" := [GInt 9]]> (<["raft-state.tmp" := []]> fs)) ∈
    diskOf fs :: crashPoints (diskOf fs) [ESave (mkDisk [GInt 1] [])].
Proof.
  intros fs. apply (save_crash_points [GInt 1] [] fs).
  eapply int_step; [reflexivity|]. apply (int_partial "raft-state.tmp" [GInt 1] _ _ [GInt 9]).
Defined.

(** ** A torn save *)

Section torn.
Context {S : Type} `{StateMachineLaws S}.
Context (N : Z) (N_pos : 0 < N) (size : bytes → Z) (s0 : S) (maxState : Z).
Implicit Types (y : System S).

#[local] Hint Extern 0 (RaftApi Raft Effect) => exact (engine size) : typeclass_instances.

(** Torn saves only add steps. *)
Lemma sstep_two_files y y' :
  sstep Atomic N size s0 maxState y y' → sstep TwoFiles N size s0 maxState y y'.
Proof.
  intros [].
  - by eapply S_engine.
  - by eapply S_submit.
  - by eapply S_timeout.
  - by eapply S_end.
  - by eapply S_snapshot.
  - by eapply S_command.
  - by eapply S_invalid.
  - by eapply S_apply.
  - by eapply S_outdated.
  - by eapply S_check.
  - by eapply S_unlock.
  - by eapply S_send.
  - by eapply S_crash.
  - done.
Qed.

Lemma sreachable_two_files y :
  sreachable Atomic N size s0 maxState y → sreachable TwoFiles N size s0 maxState y.
Proof. intros Hr. eapply (rtc_subrel _ _ _ _ sstep_two_files), Hr. Qed.

(** The save of a snapshot: of the current state, for a later index. *)
Lemma check_saves a n rf els index (r r' : RSM S) rf' effs d :
  AInv N a → node_sim N a n rf els →
  checkSnapshot (E:=Effect) index (r, rf) = Some (tt, (r', rf'), effs) → ESave d ∈ engineEffects effs →
  rf.(lastIncludedIndex) < index ∧ engineEffects effs = [ESave d] ∧
  ∃ rf1, d.(d_raftState) = encodeState rf1 ∧ rf1.(lastIncludedIndex) = index.
Proof.
  intros I Sn [_ Hrun]%run_check Hd. destruct (commit_bounds N a I n rf els Sn) as [[? ?] ?].
  destruct Hrun as [[_ E]|(data & _ & Hrun)]; [rewrite E in Hd; set_solver|].
  destruct (decide (index ≤ rf.(lastIncludedIndex) ∨ rf.(commitIndex) < index)) as [Hs|Hs].
  { rewrite run_Snapshot_skip in Hrun by done. injection Hrun as _ E. rewrite <-E in Hd. set_solver. }
  destruct (run_Snapshot index data rf _ (ns_log _ _ _ _ _ Sn)) as (lg & Hr & _); [lia..|].
  rewrite Hr in Hrun. injection Hrun as _ E. rewrite <-E in *.
  apply list_elem_of_singleton in Hd as [= ->]. split; [lia|]. split; [done|]. by eexists.
Qed.

(** The engine that starts from a state file with index [index]. *)
Lemma Make_torn n st rf1 index snap :
  st = encodeState rf1 → rf1.(lastIncludedIndex) = index → 0 ≤ index →
  ∃ rf, Make N n (mkDisk st snap) = Some rf ∧ rf.(lastApplied) = index ∧
    rf.(lastIncludedIndex) = index ∧ ∀ k, k < index → getLog rf k = None.
Proof.
  intros -> <- Hpos. eexists. split; [by apply (Make_encoded N n _ rf1)|]. split; [done|]. split; [done|].
  intros k Hk. unfold getLog, getPhysicalIndex, slice_get. simpl. by rewrite bool_decide_false by lia.
Qed.
End torn.

(** C37: a crash between the two files of a save loses applied commands.  Take
    any reachable system in which the check of the snapshot at [index] saves,
    and let the node crash after the state file is renamed and before the
    snapshot file is.  The node restarts; its engine counts everything up to
    [index] as applied and has dropped it from its log, but its state machine,
    which had the state after the first [index] operations of the committed
    log, is back at the index of the snapshot before, which is lower, and the
    operations between the two never reach it. *)
Theorem torn_save_loses_commands {S} `{StateMachineLaws S} N size (s0 : S) maxState y n index r' rf' effs d :
  0 < N → sreachable Atomic N size s0 maxState y → isNode N n →
  y.(sy_reader) n = AtSend [] (ThenCheck index) →
  checkSnapshot (H0:=engine size) index (y.(sy_rsm) n, y.(sy_world).(w_node) n)
    = Some (tt, (r', rf'), effs) →
  ESave d ∈ engineEffects effs →
  let old := y.(sy_world).(w_node) n in
  let torn := mkDisk d.(d_raftState) old.(persister).(d_snapshot) in
  ∃ rf r L,
    Make N n torn = Some rf ∧ MakeRSM n maxState s0 torn.(d_snapshot) = Some r ∧
    sreachable TwoFiles N size s0 maxState (rebooted y n rf r) ∧
    rf.(lastApplied) = index ∧ (∀ k, k < index → getLog rf k = None) ∧
    (∀ e, e ∈ L → submitted y.(sy_hist) e) ∧ old.(lastIncludedIndex) < index ≤ zlen L ∧
    (y.(sy_rsm) n).(rsm_sm) = stateAt s0 L (Z.to_nat index) ∧
    r.(rsm_sm) = stateAt s0 L (Z.to_nat old.(lastIncludedIndex)).
Proof.
  intros HN Hr Hn Hrd Hrun Hd old torn. destruct (sreachable_inv N HN size s0 maxState y Hr) as [a Ha].
  pose proof (si_sim _ _ _ _ Ha) as Hsim. pose proof (sim_inv _ _ _ Hsim) as I.
  pose proof (si_replica _ _ _ _ Ha n Hn) as R. rewrite Hrd in R.
  destruct (check_saves N HN size a n old _ index _ _ _ effs d I (sim_node _ _ _ Hsim n Hn) Hrun Hd)
    as (Hlt & Heffs & rf1 & Hst & Hi).
  destruct (MakeRSM_good N s0 maxState a n _ _ (rp_snap _ _ _ _ _ _ _ _ _ R))
    as (r & T1 & q & HR & Hq & Hlen & Hsm).
  destruct (Make_torn N n _ rf1 index old.(persister).(d_snapshot) Hst Hi) as (rf & HM & Hla & _ & Hlog); [unfold old in *; lia|].
  destruct (rp_following _ _ _ _ _ _ _ _ _ R) as (T2 & p & i & Hp & Hip & (_ & Hsm' & Hidx) & _).
  destruct (committed_join N HN a _ _ _ _ I Hp Hq) as (T & L & HL & Hpl & Hql).
  pose proof (prefix_length _ _ Hpl). pose proof (prefix_length _ _ Hql).
  exists rf, r, L. split; [done|]. split; [done|]. split.
  { eapply rtc_r; [by apply sreachable_two_files|]. eapply (S_torn _ _ _ _ _ _ n torn); [done|done| |done|done].
    right. do 4 eexists. split; [done|]. split; [done|]. rewrite Heffs. simpl. set_solver. }
  split; [done|]. split; [done|]. split.
  { intros e He. apply (si_known _ _ _ _ Ha). by eapply committed_known. }
  split; [unfold old in *; lia|]. split.
  - rewrite Hsm', Hidx, Nat2Z.id. by apply stateAt_prefix.
  - rewrite Hsm. unfold old. rewrite <-Hlen, Nat2Z.id. by apply stateAt_prefix.
Qed.

(** Node 0 of [Run] has applied its first put and crashes while it saves its
    first snapshot: the key is gone, and the engine will not send it again. *)
Lemma torn_save_loses_commands_witness :
  let y := Run.system_after Run.before_snapshot in
  ∃ rf r L, sreachable TwoFiles 3 Run.size NewStore 1 (rebooted y 0 rf r) ∧
    rf.(lastApplied) = 1 ∧ (y.(sy_rsm) 0).(rsm_sm) = stateAt NewStore L 1 ∧
    r.(rsm_sm) = NewStore ∧ r.(rsm_sm) ≠ (y.(sy_rsm) 0).(rsm_sm).
Proof.
  intros y. edestruct (torn_save_loses_commands 3 Run.size NewStore 1 y 0 1)
    as (rf & r & L & _ & _ & Hreach & Hla & _ & _ & _ & Hbefore & Hafter).
  - lia.
  - apply (splay_reachable Atomic 3 Run.size NewStore 1 Run.before_snapshot). vm_compute. reflexivity.
  - split; lia.
  - vm_compute. reflexivity.
  - vm_compute. reflexivity.
  - apply list_elem_of_lookup_2 with 0%nat. vm_compute. reflexivity.
  - exists rf, r, L. split; [exact Hreach|]. split; [exact Hla|]. split; [exact Hbefore|].
    assert (r.(rsm_sm) = NewStore) as E by (rewrite Hafter; vm_compute; reflexivity).
    split; [exact E|]. rewrite E. vm_compute. discriminate.
Defined.
