(* ===== verification/Doubles.v ===== *)
(** * The test doubles of the interfaces ([internal/testutils])

    A consensus layer without a cluster ([mock_raft.go]) and a state machine that
    records what it is given ([mock_sm.go]): further instances of [RaftApi] and
    [StateMachine].  The double of the consensus layer keeps the contract of the
    apply channel, so what is shown of replicas over the interfaces holds of the
    tests' replicas too. *)

From S2P Require Import Prelude Api Raft RaftFacts Store Rsm RsmFacts Persist.

Local Open Scope Z_scope.

(** ** [MockStateMachine] *)

Record MockStateMachine := mkMockSM { applied : list any }.

Definition NewMockStateMachine : MockStateMachine := mkMockSM [].

Definition MockSM_DoOp (req : any) (m : MockStateMachine) : any * MockStateMachine :=
  (req, mkMockSM (m.(applied) ++ [req])).

Definition MockSM_Snapshot (m : MockStateMachine) : option bytes := Some [GAnys m.(applied)].

Definition MockSM_Restore (data : bytes) (m : MockStateMachine) : option MockStateMachine :=
  if bool_decide (data = []) then Some (mkMockSM [])
  else '(vs, _) ← decode_anys data; Some (mkMockSM vs).

Definition GetAppliedCount (m : MockStateMachine) : Z := zlen m.(applied).

#[export] Instance MockSM_StateMachine : StateMachine MockStateMachine := {
  DoOp := MockSM_DoOp; Snapshot := MockSM_Snapshot; Restore := MockSM_Restore
}.

#[export] Instance MockSM_laws : StateMachineLaws MockStateMachine.
Proof.
  split.
  - intros m. by eexists.
  - intros m reqs data [= <-]. simpl. by destruct (applyAll reqs m).
Qed.

(** ** [MockRaft] *)

Record MockRaft (P : Type) := mkMockRaft {
  mr_me : Z;
  mr_currentTerm : Z;
  mr_isLeader : bool;
  mr_currentLeader : Z;
  mr_nextIndex : Z;
  mr_persister : P;
  (** the buffered channel [msgQueue], oldest first *)
  mr_queue : list ApplyMsg
}.
Arguments mkMockRaft {P}.
Arguments mr_me {P}.
Arguments mr_currentTerm {P}.
Arguments mr_isLeader {P}.
Arguments mr_currentLeader {P}.
Arguments mr_nextIndex {P}.
Arguments mr_persister {P}.
Arguments mr_queue {P}.

Section mock.
Context {P : Type} `{Persister P}.
(** the size of an encoding; the bytes of ["mock_raft_state"] *)
Context (size : bytes → Z) (mockState : bytes).
Implicit Types (m : MockRaft P).

Definition NewMockRaft (myself : Z) (p : P) : MockRaft P := mkMockRaft myself 1 true myself 1 p [].

(** The capacity of [msgQueue]. *)
Definition queueCap : Z := 1000.

Definition MockRaft_State m : Z * bool := (m.(mr_currentTerm), m.(mr_isLeader)).
Definition MockRaft_Leader m : Z := m.(mr_currentLeader).
Definition MockRaft_PersistBytes m : Z := RaftStateSize size m.(mr_persister).

(** The message [Start] puts into the queue. *)
Definition startMsg (command : any) (index : Z) : ApplyMsg :=
  {| CommandValid := true; am_Command := command; CommandIndex := index;
     SnapshotValid := false; am_Snapshot := []; SnapshotTerm := 0; SnapshotIndex := 0 |}.

(** A full queue blocks the call, with the mutex held: [None]. *)
Definition MockRaft_Start (command : any) : M (MockRaft P) unit (Z * Z * bool) :=
  m ← get;
  if negb m.(mr_isLeader) then mret (-1, -1, false) else
  let index := m.(mr_nextIndex) in
  let term := m.(mr_currentTerm) in
  if bool_decide (zlen m.(mr_queue) < queueCap) then
    modify (λ m, mkMockRaft m.(mr_me) m.(mr_currentTerm) m.(mr_isLeader) m.(mr_currentLeader)
      (m.(mr_nextIndex) + 1) m.(mr_persister) (m.(mr_queue) ++ [startMsg command index])) ;;
    mret (index, term, true)
  else try None.

(** An error of [Save] is ignored. *)
Definition MockRaft_Snapshot (index : Z) (snapshot : bytes) : M (MockRaft P) unit unit :=
  modify (λ m, mkMockRaft m.(mr_me) m.(mr_currentTerm) m.(mr_isLeader) m.(mr_currentLeader)
    m.(mr_nextIndex)
    match Save mockState snapshot m.(mr_persister) with Some p => p | None => m.(mr_persister) end
    m.(mr_queue)).

Definition SetLeader (isLeader : bool) (currentLeader : Z) m : MockRaft P :=
  mkMockRaft m.(mr_me) (m.(mr_currentTerm) + 1) isLeader currentLeader m.(mr_nextIndex)
    m.(mr_persister) m.(mr_queue).

(** One iteration of [processQueue]: the messages it sends on [applyCh], none when
    the double was made without that channel. *)
Definition processQueue (applyCh : bool) m : option (list ApplyMsg * MockRaft P) :=
  match m.(mr_queue) with
  | [] => None
  | msg :: q => Some (if applyCh then [msg] else [],
                      mkMockRaft m.(mr_me) m.(mr_currentTerm) m.(mr_isLeader)
                        m.(mr_currentLeader) m.(mr_nextIndex) m.(mr_persister) q)
  end.

#[export] Instance MockRaft_Api : RaftApi (MockRaft P) unit := {
  rf_State := MockRaft_State;
  rf_Leader := MockRaft_Leader;
  rf_PersistBytes := MockRaft_PersistBytes;
  rf_Start := MockRaft_Start;
  rf_Snapshot := MockRaft_Snapshot
}.

(** ** What it delivers *)

(** The double of a replica, which has an apply channel, with the commands it
    accepted and the messages it sent on that channel. *)
Inductive mockRun (p : P) (myself : Z) : MockRaft P → list Entry → list ApplyMsg → Prop :=
  | mock_new : mockRun p myself (NewMockRaft myself p) [] []
  | mock_start m log out command index term m' effs :
      mockRun p myself m log out →
      MockRaft_Start command m = Some ((index, term, true), m', effs) →
      mockRun p myself m' (log ++ [mkEntry index term command]) out
  | mock_refused m log out command x m' effs :
      mockRun p myself m log out →
      MockRaft_Start command m = Some (x, m', effs) → x.2 = false →
      mockRun p myself m' log out
  | mock_snapshot m log out index data m' effs :
      mockRun p myself m log out →
      MockRaft_Snapshot index data m = Some (tt, m', effs) →
      mockRun p myself m' log out
  | mock_leader m log out b l :
      mockRun p myself m log out → mockRun p myself (SetLeader b l m) log out
  | mock_send m log out sent m' :
      mockRun p myself m log out → processQueue true m = Some (sent, m') →
      mockRun p myself m' log (out ++ sent).

(** What was sent and what is queued are the accepted commands, in order. *)
Lemma mockRun_queue p myself m log out : mockRun p myself m log out →
  m.(mr_nextIndex) = zlen log + 1 ∧ indexed log ∧ out ++ m.(mr_queue) = commandMsg <$> log.
Proof.
  induction 1 as [|m log out command index term m' effs _ (Hi & Hx & Hq) Hs
    |m log out command x m' effs _ IH Hs Hr|m log out index data m' effs _ IH Hs|m log out b l _ IH
    |m log out msg m' _ (Hi & Hx & Hq) Hs].
  - done.
  - unfold MockRaft_Start in Hs. run_in Hs. destruct (m.(mr_isLeader)); [|done]. simpl in Hs.
    destruct (bool_decide _); [|done]. injection Hs as <- <- <- _. simpl.
    split; [rewrite length_app; simpl; lia|]. split.
    + intros i e [[? He]|[-> <-]]%lookup_snoc_Some; [by apply Hx|]. simpl. lia.
    + rewrite app_assoc, Hq, fmap_app. done.
  - unfold MockRaft_Start in Hs. run_in Hs. destruct (m.(mr_isLeader)); simpl in Hs.
    + destruct (bool_decide _); [|done]. injection Hs as <- _ _. done.
    + injection Hs as <- <- _. done.
  - injection Hs as <- _. done.
  - done.
  - unfold processQueue in Hs. destruct m.(mr_queue) as [|msg' q]; [done|]. injection Hs as <- <-.
    simpl. split; [done|]. split; [done|]. by rewrite <-app_assoc.
Qed.

(** The first messages for a log are a stream of it. *)
Lemma commands_stream {S} `{StateMachine S} (s0 : S) log out rest i :
  indexed log → drop i (commandMsg <$> log) = out ++ rest → (i ≤ length log)%nat →
  stream s0 log i out (i + length out).
Proof.
  intros Hx. revert i. induction out as [|m out IH]; intros i Hd Hi; simpl.
  - rewrite Nat.add_0_r. constructor.
  - destruct (log !! i) as [e|] eqn:He.
    + assert (commandMsg <$> log !! i = Some (commandMsg e)) as Hm by (by rewrite He).
      rewrite <-list_lookup_fmap in Hm. rewrite (drop_S _ _ _ Hm) in Hd. injection Hd as <- Hd.
      pose proof (lookup_lt_Some _ _ _ He). rewrite <-plus_n_Sm.
      eapply stream_cmd; [exact He|done|done|by apply Hx|done|]. apply IH; [done|lia].
    + apply lookup_ge_None in He. rewrite drop_ge in Hd by (rewrite length_fmap; lia). done.
Qed.

Lemma mockRun_stream {S} `{StateMachine S} (s0 : S) p myself m log out :
  mockRun p myself m log out → stream s0 log 0 out (length out).
Proof.
  intros (_ & Hx & Hq)%mockRun_queue. apply (commands_stream s0 log out m.(mr_queue) 0); [done| |lia].
  by rewrite drop_0.
Qed.

Lemma mock_snapshot_safe m : snapshot_safe m.
Proof. intros index data. by do 2 eexists. Qed.
End mock.

(** ** Theorems *)

(** C34: a replica over the double of the consensus layer follows the commands
    the double accepted: given the messages it sent so far, in whatever
    interleaving with calls, changes of leadership and snapshots, the state
    machine has executed exactly the first of those commands, in order. *)
Theorem mock_replica_follows {S} `{StateMachineLaws S} {P} `{Persister P} size mockState
    (s0 : S) (p : P) myself m log (ms : list (ApplyMsg * (gmap Z pendingEntry * MockRaft P))) maxState :
  mockRun mockState p myself m log ms.*1 →
  ∃ r0 r', MakeRSM myself maxState s0 [] = Some r0 ∧
    reader_run (H0:=MockRaft_Api size mockState) ms r0 = Some r' ∧
    r'.(rsm_sm) = stateAt s0 log (length ms).
Proof.
  intros Hrun. exists (mkRSM myself maxState s0 ∅ 0).
  destruct (reader_run_stream (H0:=MockRaft_Api size mockState) s0 log 0 ms (length ms)
    (mkRSM myself maxState s0 ∅ 0)) as (r' & Hr & Hs & _); [| |done|done|].
  - rewrite <-(length_fmap fst). by eapply mockRun_stream.
  - intros x _. apply mock_snapshot_safe.
  - exists r'. done.
Qed.

(** A run of the double: two commands, one already sent, a snapshot, a change of
    leadership. *)
Definition mockExample : MockRaft MockPersister :=
  mkMockRaft 0 2 false 1 3 (mkMock [GInt 0] [GAny VNil]) [startMsg (VOp 0 8 (VInt 6)) 2].

Definition mockLog : list Entry :=
  [mkEntry 1 1 (VOp 0 7 (VInt 5)); mkEntry 2 1 (VOp 0 8 (VInt 6))].

Lemma mockExample_run :
  mockRun [GInt 0] NewMockPersister 0 mockExample mockLog [commandMsg (mkEntry 1 1 (VOp 0 7 (VInt 5)))].
Proof.
  set (q1 := startMsg (VOp 0 7 (VInt 5)) 1). set (q2 := startMsg (VOp 0 8 (VInt 6)) 2).
  apply (mock_leader _ _ _ (mkMockRaft 0 1 true 0 3 (mkMock [GInt 0] [GAny VNil]) [q2]) _ _ false 1).
  apply (mock_snapshot _ _ _ (mkMockRaft 0 1 true 0 3 NewMockPersister [q2]) _ _ 1 [GAny VNil] _ []);
    [|done].
  apply (mock_send _ _ _ (mkMockRaft 0 1 true 0 3 NewMockPersister [q1; q2]) _ [] [q1]); [|done].
  apply (mock_start _ _ _ (mkMockRaft 0 1 true 0 2 NewMockPersister [q1])
    [mkEntry 1 1 (VOp 0 7 (VInt 5))] [] (VOp 0 8 (VInt 6)) 2 1 _ []); [|done].
  by apply (mock_start _ _ _ (NewMockRaft 0 NewMockPersister) [] [] (VOp 0 7 (VInt 5)) 1 1 _ []);
    [constructor|].
Qed.

Lemma mock_replica_follows_witness : ∃ r0 r', MakeRSM 0 (-1) NewMockStateMachine [] = Some r0 ∧
  reader_run (H0:=MockRaft_Api (λ _, 0) [GInt 0])
    [(commandMsg (mkEntry 1 1 (VOp 0 7 (VInt 5))), (∅, mockExample))] r0 = Some r' ∧
  r'.(rsm_sm) = mkMockSM [VInt 5].
Proof.
  destruct (mock_replica_follows (λ _, 0) [GInt 0] NewMockStateMachine NewMockPersister 0 mockExample
    mockLog [(commandMsg (mkEntry 1 1 (VOp 0 7 (VInt 5))), (∅, mockExample))] (-1))
    as (r0 & r' & H1 & H2 & H3); [apply mockExample_run|].
  exists r0, r'. split; [exact H1|]. split; [exact H2|]. rewrite H3. by vm_compute.
Defined.
