(* ===== verification/Network.v ===== *)
(** * The network of the tests ([internal/testutils/network.go])

    An in-memory network between the nodes of a test: who is registered, which
    links are up, how often a server was called, and the call itself, which
    copies the arguments through gob and finds the method by its name.  [Call]
    consults the tables with the mutex held and runs the callee's handler after
    releasing it, so it is two definitions; between them the tables may change.

    The theorems: a call is either nothing or one delivery of the network of
    [Cluster.v], so what is shown of clusters holds of the clusters under test;
    and links cut by a test stay cut, whatever else it does, until it connects
    them or adds one of their ends again. *)

From stdpp Require Import functions.
From Stdlib Require Import QArith.
From S2P Require Import Prelude Api Raft RaftFacts Cluster ClusterSim ClusterLocal Schedule Safety.

Local Open Scope Z_scope.

(** ** The tables

    A server is a pointer to a node; the node behind it is in the cluster.  The
    counters of calls are cells of their own: adding a server again gives it a
    new one, and a call under way still counts in the old one.  Rates and the
    random numbers compared with them are rationals. *)
Record Network (H : Type) := mkNetwork {
  servers : gmap Z H;
  connections : gmap Z (gmap Z bool);
  dropRate : Q;
  delayRate : Q;
  maxDelayMs : Z;
  isReliable : bool;
  rpcCounts : gmap Z positive;
  cells : gmap positive Z
}.
Arguments mkNetwork {H}.
Arguments servers {H}.
Arguments connections {H}.
Arguments dropRate {H}.
Arguments delayRate {H}.
Arguments maxDelayMs {H}.
Arguments isReliable {H}.
Arguments rpcCounts {H}.
Arguments cells {H}.

Section network.
Context {H : Type}.
Implicit Types (n : Network H).

Definition NewNetwork : Network H := mkNetwork ∅ ∅ 0 0 0 true ∅ ∅.

Definition SetReliability (reliable : bool) n : Network H :=
  if reliable then
    mkNetwork n.(servers) n.(connections) n.(dropRate) n.(delayRate) n.(maxDelayMs) reliable
      n.(rpcCounts) n.(cells)
  else
    mkNetwork n.(servers) n.(connections) (1 # 10) (1 # 10) 200 reliable n.(rpcCounts) n.(cells).

Definition GetRPCCount (id : Z) n : Z :=
  match n.(rpcCounts) !! id with
  | Some count => default 0 (n.(cells) !! count)
  | None => 0
  end.

Definition with_cells (cs : gmap positive Z) n : Network H :=
  mkNetwork n.(servers) n.(connections) n.(dropRate) n.(delayRate) n.(maxDelayMs) n.(isReliable)
    n.(rpcCounts) cs.

(** The cells some server uses become zero. *)
Definition ResetRPCCounts n : Network H :=
  with_cells (map_fold (λ _ count cs, <[count := 0]> cs) n.(cells) n.(rpcCounts)) n.

Definition with_connections (cs : gmap Z (gmap Z bool)) n : Network H :=
  mkNetwork n.(servers) cs n.(dropRate) n.(delayRate) n.(maxDelayMs) n.(isReliable)
    n.(rpcCounts) n.(cells).

(** [n.connections[from][to] = up]: a panic when [from] has no inner map. *)
Definition setLink (from to : Z) (up : bool) (cs : gmap Z (gmap Z bool))
    : option (gmap Z (gmap Z bool)) :=
  inner ← cs !! from; Some (<[from := <[to := up]> inner]> cs).

Definition Connect (from to : Z) n : option (Network H) :=
  cs ← setLink from to true n.(connections); Some (with_connections cs n).

Definition Disconnect (from to : Z) n : option (Network H) :=
  cs ← setLink from to false n.(connections); Some (with_connections cs n).

(** The loop of [AddServer] over the servers. *)
Fixpoint linkAll (id : Z) (others : list Z) (cs : gmap Z (gmap Z bool))
    : option (gmap Z (gmap Z bool)) :=
  match others with
  | [] => Some cs
  | otherId :: others' =>
      if bool_decide (id ≠ otherId) then
        cs1 ← setLink id otherId true cs;
        cs2 ← setLink otherId id true cs1;
        linkAll id others' cs2
      else linkAll id others' cs
  end.

Definition AddServer (id : Z) (server : H) n : option (Network H) :=
  let count := fresh (dom n.(cells)) in
  cs ← linkAll id (map_to_list (<[id := server]> n.(servers))).*1 (<[id := ∅]> n.(connections));
  Some (mkNetwork (<[id := server]> n.(servers)) cs n.(dropRate) n.(delayRate) n.(maxDelayMs)
    n.(isReliable) (<[id := count]> n.(rpcCounts)) (<[count := 0]> n.(cells))).

(** [n.connections[from][to]]: a missing entry, or a missing inner map, is
    false. *)
Definition up (cs : gmap Z (gmap Z bool)) (from to : Z) : bool :=
  match cs !! from with Some inner => default false (inner !! to) | None => false end.

Definition linkUp (from to : Z) n : bool := up n.(connections) from to.

(** *** [Call] up to the release of the mutex

    [r1] and [r2] are the two values of [rand.Float64].  What is left to do, or
    [None] when the call returns false. *)
Record ticket := mkTicket {
  tk_server : H;
  tk_count : option positive;
  (** the bound of the random delay *)
  tk_delay : option Z
}.

Definition below (r rate : Q) : bool := negb (Qle_bool rate r).

Definition Call_begin (from to : Z) (r1 r2 : Q) n : option ticket :=
  let connected := linkUp from to n && linkUp to from n in
  let drop := negb n.(isReliable) && below r1 n.(dropRate) in
  let delay := negb n.(isReliable) && below r2 n.(delayRate) in
  match n.(servers) !! to with
  | Some server =>
      if connected && negb drop then
        Some (mkTicket server (n.(rpcCounts) !! to) (if delay then Some n.(maxDelayMs) else None))
      else None
  | None => None
  end.

(** [atomic.AddInt64(countPtr, 1)] *)
Definition Call_count (t : ticket) n : Network H :=
  match t.(tk_count) with
  | Some count => with_cells (<[count := int64 (default 0 (n.(cells) !! count) + 1)]> n.(cells)) n
  | None => n
  end.

(** [rand.Intn(maxDelay)] panics unless its argument is positive. *)
Definition Call_sleep (t : ticket) : option unit :=
  match t.(tk_delay) with
  | Some maxDelay => if bool_decide (0 < maxDelay) then Some tt else None
  | None => Some tt
  end.
End network.
Arguments ticket : clear implicits.
Arguments mkTicket {H}.

(** ** The call itself *)

(** The names under which gob knows the types of commands; [None] is a nil
    interface, which needs none. *)
Definition typeName (v : any) : option string :=
  match v with
  | VNil => None
  | VInt _ => Some "int"
  | VString _ => Some "string"
  | VGetArgs _ => Some "kvraft/api.GetArgs"
  | VPutArgs _ => Some "kvraft/api.PutArgs"
  | VGetReply _ => Some "kvraft/api.GetReply"
  | VPutReply _ => Some "kvraft/api.PutReply"
  | VOp _ _ _ => Some "kvraft/sm.Op"
  end.

(** The basic types are registered by gob itself; [RegisterRaftGobTypes] adds
    those of the service. *)
Definition basicTypes : gset string := {["int"; "string"]}.

Definition RegisterRaftGobTypes (registry : gset string) : gset string :=
  registry ∪ {["kvraft/sm.Op"; "kvraft/api.GetArgs"; "kvraft/api.PutArgs";
               "kvraft/api.GetReply"; "kvraft/api.PutReply"; "int"]}.

Section call.
Context (registry : gset string).

(** A value of an interface type is encoded with the name of its type, and so is
    the request inside an [Op]. *)
Fixpoint encodable (v : any) : bool :=
  match typeName v with None => true | Some name => bool_decide (name ∈ registry) end &&
  match v with VOp _ _ req => encodable req | _ => true end.

(** [Encode(args)] and [Decode(newArgs)] on one buffer: an error of the encoder
    when a command has an unknown type, otherwise a copy. *)
Definition gobCopy (req : Request) : option Request :=
  match req with
  | AppendEntriesReq a =>
      if forallb (λ e, encodable e.(Command)) a.(aea_Entries) then Some req else None
  | _ => Some req
  end.

(** [strings.LastIndex(method, ".")] and the slice after it. *)
Fixpoint afterLastDot (rest : string) (s : string) : string :=
  match s with
  | EmptyString => rest
  | String c s' => afterLastDot (if bool_decide (Ascii.nat_of_ascii c = 46%nat) then s' else rest) s'
  end.
Definition methodName (method : string) : string := afterLastDot method method.

(** [MethodByName] on a pointer to a node, with two arguments supplied: [None]
    when it has no such method.  Calling one of the wrong number or types of
    arguments panics. *)
Definition MethodByName (name : string) : option (Request → RaftM Reply) :=
  if bool_decide (name = "RequestVote") then
    Some (λ req, match req with RequestVoteReq _ => handle req | _ => try None end)
  else if bool_decide (name = "AppendEntries") then
    Some (λ req, match req with AppendEntriesReq _ => handle req | _ => try None end)
  else if bool_decide (name = "InstallSnapshot") then
    Some (λ req, match req with InstallSnapshotReq _ => handle req | _ => try None end)
  else if bool_decide (name ∈ ["State"; "Leader"; "Start"; "PersistBytes"; "Snapshot"; "Kill"]) then
    Some (λ _, try None)
  else None.

(** [Call] from the encoding to the return: the reply, or [None] for false. *)
Definition Call_finish (method : string) (req : Request) : RaftM (option Reply) :=
  match gobCopy req with
  | None => mret None
  | Some newArgs =>
      match MethodByName (methodName method) with
      | None => mret None
      | Some m => r ← m newArgs; mret (Some r)
      end
  end.
End call.

(** The method of a request, as the engine calls it. *)
Definition methodOf (req : Request) : string :=
  match req with
  | RequestVoteReq _ => "Raft.RequestVote"
  | AppendEntriesReq _ => "Raft.AppendEntries"
  | InstallSnapshotReq _ => "Raft.InstallSnapshot"
  end.

(** [MockTransport]: the end of a link a node calls. *)
Record MockTransport := mkMockTransport { mt_me : Z; mt_peer : Z }.

Definition MockTransport_begin {H} (t : MockTransport) (r1 r2 : Q) (n : Network H)
    : option (ticket H) := Call_begin t.(mt_me) t.(mt_peer) r1 r2 n.

Definition MakeMockTransports (me : Z) (numServers : nat) : list MockTransport :=
  (λ i : nat, mkMockTransport me (Z.of_nat i)) <$> seq 0 numServers.

(** ** The operations of a test *)

Inductive netop (H : Type) :=
  | OAdd (id : Z) (server : H)
  | OConnect (from to : Z)
  | ODisconnect (from to : Z)
  | OReliability (reliable : bool)
  | OReset
  | OCount (t : ticket H).
Arguments OAdd {H}.
Arguments OConnect {H}.
Arguments ODisconnect {H}.
Arguments OReliability {H}.
Arguments OReset {H}.
Arguments OCount {H}.

Definition netApply {H} (op : netop H) (n : Network H) : option (Network H) :=
  match op with
  | OAdd id server => AddServer id server n
  | OConnect from to => Connect from to n
  | ODisconnect from to => Disconnect from to n
  | OReliability r => Some (SetReliability r n)
  | OReset => Some (ResetRPCCounts n)
  | OCount t => Some (Call_count t n)
  end.

Fixpoint netRun {H} (ops : list (netop H)) (n : Network H) : option (Network H) :=
  match ops with
  | [] => Some n
  | op :: ops' => n' ← netApply op n; netRun ops' n'
  end.

(** ** Links *)

Lemma setLink_Some f t b cs cs' : setLink f t b cs = Some cs' →
  dom cs' = dom cs ∧
  ∀ x y, up cs' x y = if bool_decide (x = f ∧ y = t) then b else up cs x y.
Proof.
  unfold setLink. destruct (cs !! f) as [inner|] eqn:Hf; simpl; [|done]. intros [= <-].
  split; [rewrite dom_insert_lookup_L; by eauto|]. intros x y. unfold up.
  destruct (decide (x = f)) as [->|Hx]; simplify_map_eq.
  - destruct (decide (y = t)) as [->|Hy]; [rewrite bool_decide_true by done|
      rewrite bool_decide_false by naive_solver]; by simplify_map_eq.
  - by rewrite bool_decide_false by naive_solver.
Qed.

Lemma setLink_is_Some f t b cs : is_Some (setLink f t b cs) ↔ f ∈ dom cs.
Proof.
  unfold setLink. rewrite elem_of_dom. destruct (cs !! f); simpl; [by split; eauto|].
  by split; intros [? ?].
Qed.

(** Both directions between [id] and every other server of the loop. *)
Lemma linkAll_spec id others cs :
  id ∈ dom cs → (∀ o, o ∈ others → o ∈ dom cs) →
  ∃ cs', linkAll id others cs = Some cs' ∧ dom cs' = dom cs ∧
    ∀ x y, up cs' x y =
      bool_decide (x = id ∧ y ∈ others ∧ y ≠ id ∨ y = id ∧ x ∈ others ∧ x ≠ id) || up cs x y.
Proof.
  revert cs. induction others as [|o others IH]; intros cs Hid Ho; simpl.
  - exists cs. split; [done|]. split; [done|]. intros x y.
    rewrite bool_decide_false by set_solver. done.
  - case_bool_decide as Hne.
    + destruct (proj2 (setLink_is_Some id o true cs) Hid) as [cs1 H1]. rewrite H1. simpl.
      destruct (setLink_Some _ _ _ _ _ H1) as [Hd1 Hu1].
      destruct (proj2 (setLink_is_Some o id true cs1)) as [cs2 H2]; [set_solver|]. rewrite H2. simpl.
      destruct (setLink_Some _ _ _ _ _ H2) as [Hd2 Hu2].
      destruct (IH cs2) as (cs' & Hl & Hd & Hu); [set_solver|set_solver|].
      exists cs'. split; [done|]. split; [congruence|]. intros x y. rewrite Hu, Hu2, Hu1.
      repeat case_bool_decide; simpl; try done; set_solver.
    + subst o. destruct (IH cs) as (cs' & Hl & Hd & Hu); [done|set_solver|].
      exists cs'. split; [done|]. split; [done|]. intros x y. rewrite Hu. f_equal.
      apply bool_decide_ext. set_solver.
Qed.

(** ** What the tables mean

    A test sees the network as the set of servers added so far and the directed
    links that are up. *)
Record topology := mkTopology { present : gset Z; reaches : Z → Z → bool }.

Definition topoApply {H} (op : netop H) (t : topology) : topology :=
  match op with
  | OAdd id _ =>
      mkTopology ({[id]} ∪ t.(present)) (λ x y,
        if bool_decide (x = id) then bool_decide (y ∈ t.(present) ∧ y ≠ id)
        else if bool_decide (y = id) then bool_decide (x ∈ t.(present)) || t.(reaches) x y
        else t.(reaches) x y)
  | OConnect from to =>
      mkTopology t.(present) (λ x y, if bool_decide (x = from ∧ y = to) then true else t.(reaches) x y)
  | ODisconnect from to =>
      mkTopology t.(present) (λ x y, if bool_decide (x = from ∧ y = to) then false else t.(reaches) x y)
  | _ => t
  end.

Definition topoRun {H} (ops : list (netop H)) (t : topology) : topology :=
  foldl (λ t op, topoApply op t) t ops.

Definition topoInit : topology := mkTopology ∅ (λ _ _, false).

(** The one use the code makes of a map without the key: a link from a server
    that was never added. *)
Definition allowed {H} (op : netop H) (t : topology) : Prop :=
  match op with
  | OConnect from _ | ODisconnect from _ => from ∈ t.(present)
  | _ => True
  end.

#[export] Instance allowed_dec {H} (op : netop H) t : Decision (allowed op t).
Proof. destruct op; simpl; apply _. Defined.

Fixpoint allowedAll {H} (ops : list (netop H)) (t : topology) : Prop :=
  match ops with
  | [] => True
  | op :: ops' => allowed op t ∧ allowedAll ops' (topoApply op t)
  end.

#[export] Instance allowedAll_dec {H} (ops : list (netop H)) t : Decision (allowedAll ops t).
Proof. revert t. induction ops as [|op ops IH]; intros t; simpl; [apply _|]. apply and_dec; apply _. Defined.

Section topology.
Context {H : Type}.
Implicit Types (n : Network H) (t : topology).

Record shows n t : Prop := {
  shows_servers : dom n.(servers) = t.(present);
  shows_keys : dom n.(connections) = t.(present);
  shows_links x y : linkUp x y n = t.(reaches) x y;
  shows_delay : n.(isReliable) = false → 0 < n.(maxDelayMs)
}.

Lemma shows_init : shows NewNetwork topoInit.
Proof. split; simpl; [set_solver|set_solver|done|done]. Qed.

Lemma shows_setLink n t f to b :
  shows n t →
  (f ∈ t.(present) ↔ is_Some (setLink f to b n.(connections))) ∧
  ∀ cs, setLink f to b n.(connections) = Some cs →
    shows (with_connections cs n) (mkTopology t.(present)
      (λ x y, if bool_decide (x = f ∧ y = to) then b else t.(reaches) x y)).
Proof.
  intros [H1 H2 H3 H4]. split; [by rewrite setLink_is_Some, H2|].
  intros cs [Hd Hu]%setLink_Some. split; simpl; [done|congruence| |done].
  intros x y. unfold linkUp. simpl. rewrite Hu. by rewrite <-H3.
Qed.

Lemma elem_of_keys (m : gmap Z H) o : o ∈ (map_to_list m).*1 ↔ o ∈ dom m.
Proof.
  rewrite elem_of_dom, list_elem_of_fmap. split.
  - intros ((k & v) & -> & Hk%elem_of_map_to_list). by eexists.
  - intros [v Hv]. exists (o, v). split; [done|by apply elem_of_map_to_list].
Qed.

Lemma shows_AddServer n t id server : shows n t →
  ∃ n', AddServer id server n = Some n' ∧ shows n' (topoApply (OAdd id server) t).
Proof.
  intros [H1 H2 H3 H4]. unfold AddServer.
  assert (∀ o, o ∈ (map_to_list (<[id:=server]> n.(servers))).*1 ↔ o ∈ ({[id]} ∪ t.(present) : gset Z))
    as Hl by (intros o; rewrite elem_of_keys, dom_insert_L, H1; done).
  destruct (linkAll_spec id (map_to_list (<[id:=server]> n.(servers))).*1 (<[id:=∅]> n.(connections)))
    as (cs & -> & Hd & Hu); [set_solver|set_solver|].
  eexists. split; [done|]. split; simpl.
  - set_solver.
  - rewrite Hd. set_solver.
  - intros x y. unfold linkUp. simpl. rewrite Hu. clear Hu.
    destruct (decide (x = id)) as [->|Hx].
    + rewrite (bool_decide_true (id = id)) by done. unfold up. rewrite lookup_insert_eq, lookup_empty.
      simpl. rewrite orb_false_r. apply bool_decide_ext. rewrite !Hl. set_solver.
    + rewrite (bool_decide_false (x = id)) by done.
      replace (up (<[id:=∅]> n.(connections)) x y) with (linkUp x y n)
        by (unfold linkUp, up; by rewrite lookup_insert_ne).
      rewrite H3. destruct (decide (y = id)) as [->|Hy].
      * rewrite (bool_decide_true (id = id)) by done. f_equal. apply bool_decide_ext.
        rewrite !Hl. set_solver.
      * rewrite (bool_decide_false (y = id)) by done. rewrite bool_decide_false by naive_solver. done.
  - done.
Qed.

(** Every operation of a test does to the tables what it does to the topology,
    and panics just where the topology forbids it. *)
Lemma shows_apply n t op : shows n t →
  (allowed op t → ∃ n', netApply op n = Some n' ∧ shows n' (topoApply op t)) ∧
  (¬ allowed op t → netApply op n = None).
Proof.
  intros Hs. destruct op as [id server|f to|f to|[] | |tk]; simpl.
  - split; [|done]. intros _. by apply shows_AddServer.
  - unfold Connect. destruct (shows_setLink n t f to true Hs) as [Hp Hl].
    destruct (setLink f to true _) as [cs|]; simpl; split; try naive_solver.
  - unfold Disconnect. destruct (shows_setLink n t f to false Hs) as [Hp Hl].
    destruct (setLink f to false _) as [cs|]; simpl; split; try naive_solver.
  - split; [|done]. intros _. eexists. split; [done|]. by destruct Hs; split.
  - split; [|done]. intros _. eexists. split; [done|]. by destruct Hs; split.
  - split; [|done]. intros _. eexists. split; [done|]. by destruct Hs; split.
  - split; [|done]. intros _. eexists. split; [done|]. unfold Call_count.
    destruct (tk_count tk); [|done]. by destruct Hs; split.
Qed.

Lemma shows_run ops n t : shows n t →
  if decide (allowedAll ops t) then ∃ n', netRun ops n = Some n' ∧ shows n' (topoRun ops t)
  else netRun ops n = None.
Proof.
  revert n t. induction ops as [|op ops IH]; intros n t Hs; simpl; [by eauto|].
  destruct (shows_apply n t op Hs) as [Hy Hn]. destruct (decide (allowed op t)) as [Hp|Hp].
  - destruct (Hy Hp) as (n1 & -> & H1). specialize (IH n1 _ H1). simpl.
    destruct (decide (allowedAll ops _)), (decide (allowed op t ∧ _)); naive_solver.
  - rewrite (Hn Hp). destruct (decide (allowed op t ∧ _)); naive_solver.
Qed.

Lemma shows_run_Some ops n n' t : shows n t → netRun ops n = Some n' → shows n' (topoRun ops t).
Proof. intros Hs%(shows_run ops) Hr. rewrite Hr in Hs. case_decide; naive_solver. Qed.

(** A call gets through when the callee was added, both directions of the link
    are up and the random draw does not lose it. *)
Lemma Call_begin_spec n t from to r1 r2 : shows n t →
  is_Some (Call_begin from to r1 r2 n) ↔
  to ∈ t.(present) ∧ t.(reaches) from to ∧ t.(reaches) to from ∧
    (n.(isReliable) = true ∨ (n.(dropRate) <= r1)%Q).
Proof.
  intros [H1 _ H3 _]. unfold Call_begin, below. rewrite !H3, <-H1, elem_of_dom, <-Qle_bool_iff.
  destruct (servers n !! to) as [sv|]; [|by split; [intros [? ?]|intros [[? ?] ?]]].
  destruct (reaches t from to), (reaches t to from), (isReliable n), (Qle_bool (dropRate n) r1); simpl;
    split; (by intros [? ?]) || naive_solver.
Qed.
End topology.

(** ** A cut *)

(** Disconnecting every member of one group from every member of another, one
    direction only. *)
Definition cut {H} (A B : list Z) : list (netop H) := a ← A; b ← B; [ODisconnect a b].

(** The operations that bring a link between [a] and [b] back. *)
Definition restores {H} (a b : Z) (op : netop H) : Prop :=
  match op with
  | OAdd id _ => id = a ∨ id = b
  | OConnect from to => from = a ∧ to = b
  | _ => False
  end.

#[export] Instance restores_dec {H} a b (op : netop H) : Decision (restores a b op).
Proof. destruct op; simpl; apply _. Defined.

Lemma stays_cut {H} a b (ops : list (netop H)) t :
  t.(reaches) a b = false → Forall (λ op, ¬ restores a b op) ops →
  (topoRun ops t).(reaches) a b = false.
Proof.
  intros Ht Hops. revert t Ht. induction Hops as [|op ops Hop _ IH]; intros t Ht; simpl; [done|].
  apply IH. destruct op as [id sv|f to|f to| | |]; simpl in *; try done.
  - rewrite !bool_decide_false by naive_solver. done.
  - rewrite bool_decide_false by naive_solver. done.
  - by case_bool_decide.
Qed.

Lemma topoRun_app {H} (ops1 ops2 : list (netop H)) t :
  topoRun (ops1 ++ ops2) t = topoRun ops2 (topoRun ops1 t).
Proof. apply foldl_app. Qed.

Lemma cut_cuts {H} A B a b t : a ∈ A → b ∈ B → (topoRun (cut (H:=H) A B) t).(reaches) a b = false.
Proof.
  intros Ha Hb. assert (ODisconnect a b ∈ cut (H:=H) A B) as Hin by (unfold cut; set_solver).
  apply list_elem_of_split in Hin as (l1 & l2 & Hl). rewrite Hl, topoRun_app. simpl.
  apply stays_cut; simpl; [by rewrite bool_decide_true|].
  assert (Forall (λ op, ¬ restores a b op) (cut (H:=H) A B)) as Hall.
  { apply Forall_forall. intros op Hop. unfold cut in Hop.
    apply list_elem_of_bind in Hop as (x & Hop & _). apply list_elem_of_bind in Hop as (y & Hop & _).
    apply list_elem_of_singleton in Hop as ->. intros []. }
  rewrite Hl in Hall. by apply Forall_app in Hall as [_ [_ ?]%Forall_cons].
Qed.

(** ** Theorems *)

(** The handler a request's method name finds is its own. *)
Lemma MethodByName_own req : ∃ m, MethodByName (methodName (methodOf req)) = Some m ∧ m req = handle req.
Proof. by destruct req; eexists. Qed.

(** C22: a call through the tests' network is a delivery of the cluster's network
    or nothing at all.  In every reachable cluster, the call of a request that
    was sent completes without a panic; when it returns true the callee ran
    exactly its handler and the cluster is again a reachable one, and when it
    returns false the callee is unchanged, which only happens because a command
    has a type gob does not know. *)
Theorem network_call_is_delivery registry N w from to req :
  0 < N → reachable N w → isNode N to → (from, to, req) ∈ w.(w_reqs) →
  ∃ rep rf' effs,
    Call_finish registry (methodOf req) req (w.(w_node) to) = Some (rep, rf', effs) ∧
    match rep with
    | Some r => reachable N (after w to (EvDeliver from req)
                  (mkOutcome rf' effs (w.(w_els) to) [] (Some r)))
    | None => rf' = w.(w_node) to ∧ effs = [] ∧ gobCopy registry req = None
    end.
Proof.
  intros HN Hr Hto Hreq. unfold Call_finish. destruct (MethodByName_own req) as (m & Hm & Hh).
  destruct (gobCopy registry req) as [req'|] eqn:Hc.
  - assert (req' = req) as -> by (unfold gobCopy in Hc; by destruct req; repeat case_match; simplify_eq).
    rewrite Hm. destruct (reachable_sim N HN w Hr) as (a & _ & Hsim).
    destruct (exec_good N HN w a to (EvDeliver from req) Hsim Hto Hreq) as (o & Ho & _).
    pose proof Ho as Ho'. simpl in Ho. destruct (handle req (w_node w to)) as [[[r rf'] effs]|] eqn:Hrun;
      [|done]. simplify_eq/=. exists (Some r), rf', effs. split.
    + unfold mbind, M_bind. rewrite Hh, Hrun. unfold mret, M_ret. by rewrite app_nil_r.
    + eapply rtc_r; [exact Hr|]. by apply C_event.
  - by exists None, (w_node w to), [].
Qed.

Definition exampleRequest : Request :=
  RequestVoteReq {| rva_Term := 1; rva_CandidateId := 0; rva_LastLogTerm := 0; rva_LastLogIndex := 0 |}.

Lemma network_call_is_delivery_witness :
  let w := Demo.world Demo.elect in
  ∃ rep rf' effs,
    Call_finish basicTypes "Raft.RequestVote" exampleRequest (w.(w_node) 1) = Some (rep, rf', effs) ∧
    match rep with
    | Some r => reachable 3 (after w 1 (EvDeliver 0 exampleRequest)
                  (mkOutcome rf' effs (w.(w_els) 1) [] (Some r)))
    | None => rf' = w.(w_node) 1 ∧ effs = [] ∧ gobCopy basicTypes exampleRequest = None
    end.
Proof.
  apply (network_call_is_delivery basicTypes 3 (Demo.world Demo.elect) 0 1 exampleRequest);
    [lia|apply Demo.world_reachable; vm_compute; reflexivity|split; lia|].
  apply list_elem_of_lookup_2 with 0%nat. vm_compute. reflexivity.
Defined.

(** C23: the tables of the tests' network mean what a test intends.  A sequence of
    operations panics exactly when it connects or disconnects from a server that
    was not added; otherwise, afterwards, a call gets through exactly when the
    callee was added, both directions of the link are up (by the last operation
    on each) and, on an unreliable network, the draw does not lose it; and the
    delay of a call that gets through never panics. *)
Theorem network_refines_topology {H} (ops : list (netop H)) :
  let t := topoRun ops topoInit in
  if decide (allowedAll ops topoInit) then
    ∃ n, netRun ops NewNetwork = Some n ∧ ∀ from to r1 r2,
      (is_Some (Call_begin from to r1 r2 n) ↔
        to ∈ t.(present) ∧ t.(reaches) from to ∧ t.(reaches) to from ∧
          (n.(isReliable) = true ∨ (n.(dropRate) <= r1)%Q)) ∧
      ∀ tk, Call_begin from to r1 r2 n = Some tk → Call_sleep tk = Some ()
  else netRun ops NewNetwork = None.
Proof.
  intros t. pose proof (shows_run ops NewNetwork topoInit shows_init) as Hrun.
  case_decide; [|done]. destruct Hrun as (n & Hrun & Hs). exists n. split; [done|].
  intros from to r1 r2. split; [by apply Call_begin_spec|]. intros tk. unfold Call_begin, Call_sleep.
  pose proof (shows_delay n _ Hs). repeat case_match; intros; simplify_eq/=; try done.
  - destruct (isReliable n); [done|]. case_bool_decide; [done|lia].
Qed.

(** Three servers, one of them cut off, an unreliable network. *)
Definition exampleOps : list (netop Z) :=
  [OAdd 0 0; OAdd 1 1; OAdd 2 2] ++ cut [0] [1; 2] ++ [OReliability false; OConnect 2 0].

Definition exampleNet : Network Z := default NewNetwork (netRun exampleOps NewNetwork).

Example exampleNet_calls :
  bool_decide (allowedAll exampleOps topoInit) = true ∧
  is_Some (Call_begin 1 2 (1 # 2) (1 # 20) exampleNet) ∧
  Call_begin 1 2 (1 # 20) (1 # 20) exampleNet = None ∧
  netRun (exampleOps ++ [ODisconnect 7 0]) NewNetwork = None.
Proof. split; [by vm_compute|]. split; [by eexists; vm_compute|]. by split; vm_compute. Qed.

(** A partition holds.  After the links from every member of one group to
    every member of another were cut (in that direction only), no call between
    the groups gets through in either direction, whatever the test did before
    and whatever it does later, short of connecting such a link or adding one of
    the servers again. *)
Theorem partition_holds {H} (ops1 ops2 : list (netop H)) A B n a b r1 r2 :
  netRun (ops1 ++ cut A B ++ ops2) NewNetwork = Some n →
  a ∈ A → b ∈ B → Forall (λ op, ¬ restores a b op) ops2 →
  Call_begin a b r1 r2 n = None ∧ Call_begin b a r1 r2 n = None.
Proof.
  intros Hrun Ha Hb Hops. pose proof (shows_run_Some _ _ _ _ shows_init Hrun) as Hs.
  assert (reaches (topoRun (ops1 ++ cut A B ++ ops2) topoInit) a b = false) as Hcut.
  { rewrite !topoRun_app. apply stays_cut; [by apply cut_cuts|done]. }
  pose proof (Call_begin_spec n _ a b r1 r2 Hs) as H1. pose proof (Call_begin_spec n _ b a r1 r2 Hs) as H2.
  rewrite Hcut in H1, H2.
  split; apply eq_None_not_Some; [intros (_ & Hx & _)%H1|intros (_ & _ & Hx & _)%H2]; done.
Qed.

Lemma partition_holds_witness :
  Call_begin 0 2 (1 # 2) (1 # 2) exampleNet = None ∧ Call_begin 2 0 (1 # 2) (1 # 2) exampleNet = None.
Proof.
  apply (partition_holds [OAdd 0 0; OAdd 1 1; OAdd 2 2] [OReliability false; OConnect 2 0] [0] [1; 2]
    exampleNet 0 2 (1 # 2) (1 # 2)); [by vm_compute|set_solver|set_solver|].
  repeat constructor; simpl; [tauto|lia].
Defined.
