(* ===== verification/Transport.v ===== *)
(** * Calls between nodes ([raftransport])

    A call of the consensus layer goes through [GRPCClient.Call], a protobuf
    message with 32-bit integers, and the [RaftService] of the callee.  The
    network of [Cluster.v] delivers the arguments themselves; the theorems here
    say when that is what the wire does: as long as every number fits in 32
    bits, a remote call is the handler. *)

From S2P Require Import Prelude Api Raft RaftFacts Cluster.

Local Open Scope Z_scope.

(** ** 32-bit integers *)

(** The conversion [int32(x)] of an [int]; [int(y)] of an [int32] is [y]. *)
Definition int32 (x : Z) : Z := (x + 2 ^ 31) mod 2 ^ 32 - 2 ^ 31.

Definition fits32 (x : Z) : Prop := - 2 ^ 31 ≤ x < 2 ^ 31.

#[export] Instance fits32_dec x : Decision (fits32 x).
Proof. unfold fits32. apply _. Defined.

(** ** Messages ([proto/raft.proto]) *)

Record LogEntry := { le_Index : Z; le_Term : Z; le_Command : bytes }.

Record PbRequestVoteArgs := {
  pva_Term : Z; pva_CandidateId : Z; pva_LastLogTerm : Z; pva_LastLogIndex : Z }.
Record PbRequestVoteReply := { pvr_Term : Z; pvr_VoteGranted : bool }.
Record PbAppendEntriesArgs := {
  pea_Term : Z; pea_LeaderId : Z; pea_PrevLogIndex : Z; pea_PrevLogTerm : Z;
  pea_Entries : list LogEntry; pea_LeaderCommit : Z }.
Record PbAppendEntriesReply := {
  per_Term : Z; per_Success : bool; per_ConflictIndex : Z; per_ConflictTerm : Z }.
Record PbInstallSnapshotArgs := {
  psa_Term : Z; psa_LeaderId : Z; psa_LastIncludedIndex : Z;
  psa_LastIncludedTerm : Z; psa_Data : bytes }.
Record PbInstallSnapshotReply := { psr_Term : Z }.

(** ** [codec.go] *)

(** Every type a command can have is registered ([RegisterRaftGobTypes]), so
    encoding does not fail; the error branch is there for the shape. *)
Definition encodeCommand (c : any) : option bytes := Some [GAny c].

Fixpoint entriesToProto (entries : list Entry) : option (list LogEntry) :=
  match entries with
  | [] => Some []
  | e :: entries' =>
      buf ← encodeCommand e.(Command);
      rest ← entriesToProto entries';
      Some ({| le_Index := int32 e.(Index); le_Term := int32 e.(Term); le_Command := buf |} :: rest)
  end.

Fixpoint entriesFromProto (entries : list LogEntry) : option (list Entry) :=
  match entries with
  | [] => Some []
  | e :: entries' =>
      '(cmd, _) ← decode_any e.(le_Command);
      rest ← entriesFromProto entries';
      Some (mkEntry e.(le_Index) e.(le_Term) cmd :: rest)
  end.

(** ** [service.go] *)

Definition serve_RequestVote (req : PbRequestVoteArgs) : RaftM PbRequestVoteReply :=
  reply ← RequestVote {| rva_Term := req.(pva_Term); rva_CandidateId := req.(pva_CandidateId);
                         rva_LastLogTerm := req.(pva_LastLogTerm);
                         rva_LastLogIndex := req.(pva_LastLogIndex) |};
  mret {| pvr_Term := int32 reply.(rvr_Term); pvr_VoteGranted := reply.(rvr_VoteGranted) |}.

Definition serve_AppendEntries (req : PbAppendEntriesArgs) : RaftM PbAppendEntriesReply :=
  match entriesFromProto req.(pea_Entries) with
  | None =>
      rf ← get;
      mret {| per_Term := int32 (State rf).1; per_Success := false;
              per_ConflictIndex := 0; per_ConflictTerm := 0 |}
  | Some entries =>
      reply ← AppendEntries {| aea_Term := req.(pea_Term); aea_LeaderId := req.(pea_LeaderId);
                               aea_PrevLogIndex := req.(pea_PrevLogIndex);
                               aea_PrevLogTerm := req.(pea_PrevLogTerm);
                               aea_Entries := entries;
                               aea_LeaderCommit := req.(pea_LeaderCommit) |};
      mret {| per_Term := int32 reply.(aer_Term); per_Success := reply.(aer_Success);
              per_ConflictIndex := int32 reply.(aer_ConflictIndex);
              per_ConflictTerm := int32 reply.(aer_ConflictTerm) |}
  end.

Definition serve_InstallSnapshot (req : PbInstallSnapshotArgs) : RaftM PbInstallSnapshotReply :=
  reply ← InstallSnapshot {| isa_Term := req.(psa_Term); isa_LeaderId := req.(psa_LeaderId);
                             isa_LastIncludedIndex := req.(psa_LastIncludedIndex);
                             isa_LastIncludedTerm := req.(psa_LastIncludedTerm);
                             isa_Data := req.(psa_Data) |};
  mret {| psr_Term := int32 reply.(isr_Term) |}.

(** ** [client.go]

    [Call] with the callee's service at the other end; [None] is the result
    false.  A call that fails on the way (no connection, the deadline) is a
    request or a reply the network of [Cluster.v] loses. *)
Definition Call (req : Request) : RaftM (option Reply) :=
  match req with
  | RequestVoteReq a =>
      res ← serve_RequestVote
        {| pva_Term := int32 a.(rva_Term); pva_CandidateId := int32 a.(rva_CandidateId);
           pva_LastLogTerm := int32 a.(rva_LastLogTerm);
           pva_LastLogIndex := int32 a.(rva_LastLogIndex) |};
      mret (Some (RequestVoteRep {| rvr_Term := res.(pvr_Term);
                                    rvr_VoteGranted := res.(pvr_VoteGranted) |}))
  | AppendEntriesReq a =>
      match entriesToProto a.(aea_Entries) with
      | None => mret None
      | Some entries =>
          res ← serve_AppendEntries
            {| pea_Term := int32 a.(aea_Term); pea_LeaderId := int32 a.(aea_LeaderId);
               pea_PrevLogIndex := int32 a.(aea_PrevLogIndex);
               pea_PrevLogTerm := int32 a.(aea_PrevLogTerm);
               pea_Entries := entries; pea_LeaderCommit := int32 a.(aea_LeaderCommit) |};
          mret (Some (AppendEntriesRep
            {| aer_Term := res.(per_Term); aer_Success := res.(per_Success);
               aer_ConflictIndex := res.(per_ConflictIndex);
               aer_ConflictTerm := res.(per_ConflictTerm) |}))
      end
  | InstallSnapshotReq a =>
      res ← serve_InstallSnapshot
        {| psa_Term := int32 a.(isa_Term); psa_LeaderId := int32 a.(isa_LeaderId);
           psa_LastIncludedIndex := int32 a.(isa_LastIncludedIndex);
           psa_LastIncludedTerm := int32 a.(isa_LastIncludedTerm); psa_Data := a.(isa_Data) |};
      mret (Some (InstallSnapshotRep {| isr_Term := res.(psr_Term) |}))
  end.

(** The transport of a node to itself ([noop.go]). *)
Definition Noop_Call (req : Request) : option Reply := None.

(** ** What fits on the wire *)

Definition entry_fits (e : Entry) : Prop := fits32 e.(Index) ∧ fits32 e.(Term).

Definition request_fits (req : Request) : Prop :=
  match req with
  | RequestVoteReq a => fits32 a.(rva_Term) ∧ fits32 a.(rva_CandidateId) ∧
      fits32 a.(rva_LastLogTerm) ∧ fits32 a.(rva_LastLogIndex)
  | AppendEntriesReq a => fits32 a.(aea_Term) ∧ fits32 a.(aea_LeaderId) ∧
      fits32 a.(aea_PrevLogIndex) ∧ fits32 a.(aea_PrevLogTerm) ∧
      Forall entry_fits a.(aea_Entries) ∧ fits32 a.(aea_LeaderCommit)
  | InstallSnapshotReq a => fits32 a.(isa_Term) ∧ fits32 a.(isa_LeaderId) ∧
      fits32 a.(isa_LastIncludedIndex) ∧ fits32 a.(isa_LastIncludedTerm)
  end.

Definition reply_fits (rep : Reply) : Prop :=
  match rep with
  | RequestVoteRep r => fits32 r.(rvr_Term)
  | AppendEntriesRep r => fits32 r.(aer_Term) ∧ fits32 r.(aer_ConflictIndex) ∧
      fits32 r.(aer_ConflictTerm)
  | InstallSnapshotRep r => fits32 r.(isr_Term)
  end.

(** ** Lemmas *)

Lemma int32_fits x : fits32 x → int32 x = x.
Proof. unfold fits32, int32. intros H. rewrite Z.mod_small; lia. Qed.

Lemma fits32_int32 x : fits32 (int32 x).
Proof. unfold fits32, int32. pose proof (Z.mod_pos_bound (x + 2 ^ 31) (2 ^ 32)). lia. Qed.

Lemma int32_id_iff x : int32 x = x ↔ fits32 x.
Proof. split; [intros <-; apply fits32_int32|apply int32_fits]. Qed.

Lemma entries_wire es : Forall entry_fits es →
  ∃ ps, entriesToProto es = Some ps ∧ entriesFromProto ps = Some es.
Proof.
  induction 1 as [|e es [Hi Ht] _ (ps & H1 & H2)]; [by eexists|]. simpl. rewrite H1. simpl.
  eexists. split; [done|]. simpl. rewrite H2. simpl. rewrite !int32_fits by done. by destruct e.
Qed.

(** ** Theorems *)

(** C30: the wire is transparent while numbers fit in 32 bits.  A remote call
    with such arguments runs the callee's handler on exactly these arguments,
    and the caller sees exactly its reply if that fits too. *)
Theorem remote_call_is_handler req rf rep rf' effs :
  request_fits req → handle req rf = Some (rep, rf', effs) → reply_fits rep →
  Call req rf = Some (Some rep, rf', effs).
Proof.
  destruct req as [a|a|a]; simpl.
  - intros (H1 & H2 & H3 & H4). rewrite !int32_fits by done.
    unfold serve_RequestVote, mbind, M_bind. simpl. destruct a.
    destruct (RequestVote _ rf) as [[[r rf1] e1]|]; [|done]. simpl. rewrite !app_nil_r.
    intros [= <- <- <-] Hr. simpl in Hr. rewrite int32_fits by done. by destruct r.
  - intros (H1 & H2 & H3 & H4 & H5 & H6). destruct (entries_wire _ H5) as (ps & -> & Hps).
    rewrite !int32_fits by done. unfold serve_AppendEntries. simpl. rewrite Hps.
    unfold mbind, M_bind. simpl. destruct a.
    destruct (AppendEntries _ rf) as [[[r rf1] e1]|]; [|done]. simpl. rewrite !app_nil_r.
    intros [= <- <- <-] (R1 & R2 & R3). rewrite !int32_fits by done. by destruct r.
  - intros (H1 & H2 & H3 & H4). rewrite !int32_fits by done.
    unfold serve_InstallSnapshot, mbind, M_bind. simpl. destruct a.
    destruct (InstallSnapshot _ rf) as [[[r rf1] e1]|]; [|done]. simpl. rewrite !app_nil_r.
    intros [= <- <- <-] Hr. simpl in Hr. rewrite int32_fits by done. by destruct r.
Qed.

Lemma remote_call_is_handler_witness :
  ∃ rep rf' effs, Call (RequestVoteReq (Build_RequestVoteArgs 1 0 0 0))
    (Make_fresh 3 1 (mkDisk [] [])) = Some (Some rep, rf', effs) ∧
    rep = RequestVoteRep {| rvr_Term := 0; rvr_VoteGranted := true |}.
Proof.
  do 3 eexists. split; [|reflexivity].
  eapply remote_call_is_handler; [|vm_compute; reflexivity|];
    repeat split; vm_compute; (reflexivity || discriminate).
Defined.

(** C31: the bound is exact.  An entry survives the wire if and only if its index
    and term fit in 32 bits, although the code keeps them in [int]. *)
Theorem entry_wire_exact e :
  (∃ ps, entriesToProto [e] = Some ps ∧ entriesFromProto ps = Some [e]) ↔ entry_fits e.
Proof.
  split.
  - intros (ps & [= <-] & H). simpl in H. injection H as H. destruct e as [i t c]. simpl in *.
    injection H as Hi Ht. split; simpl; by apply int32_id_iff.
  - intros He. apply entries_wire. by constructor.
Qed.
