(* ===== verification/Clerk.v ===== *)
(** * The service and its client ([internal/kvserver/grpc.go], [pkg/clerk/clerk.go])

    The gRPC service turns a request into a [Submit] and its result into a
    status; the clerk retries a request at one server after another until a
    server answers.  The clerk's loops are functions of the sequence of
    responses they get. *)

From S2P Require Import Prelude Api Raft Store Rsm Transport.

Local Open Scope Z_scope.

(** ** [proto/kv.proto] *)

Inductive Status :=
  | Status_STATUS_UNSPECIFIED
  | Status_OK
  | Status_ERR_NO_KEY
  | Status_ERR_VERSION
  | Status_ERR_WRONG_LEADER
  | Status_ERR_MAYBE.

#[export] Instance Status_eq_dec : EqDecision Status.
Proof. solve_decision. Defined.

Record GetResponse := {
  gp_Status : Status; gp_Value : string; gp_Version : Z; gp_LeaderHint : Z }.
Record PutResponse := { pp_Status : Status; pp_LeaderHint : Z }.

(** ** [grpc.go] *)

Definition errToStatus (e : Err) : Status :=
  match e with
  | OK => Status_OK
  | ErrNoKey => Status_ERR_NO_KEY
  | ErrVersion => Status_ERR_VERSION
  | ErrWrongLeader => Status_ERR_WRONG_LEADER
  | ErrMaybe => Status_ERR_MAYBE
  | ErrOther _ => Status_STATUS_UNSPECIFIED
  end.

Definition leaderHint (val : any) : Z :=
  match val with VInt leader => int32 leader | _ => -1 end.

(** The handlers, given what [Submit] returned for the request they made. *)
Definition KVService_Get (submitted : Err * any) : GetResponse :=
  let '(code, val) := submitted in
  if bool_decide (code = ErrWrongLeader) then
    {| gp_Status := errToStatus code; gp_Value := ""; gp_Version := 0;
       gp_LeaderHint := leaderHint val |}
  else
    match val with
    | VGetReply gr => {| gp_Status := errToStatus gr.(gr_Err); gp_Value := gr.(gr_Value);
                         gp_Version := uint64 gr.(gr_Version); gp_LeaderHint := 0 |}
    | _ => {| gp_Status := Status_ERR_WRONG_LEADER; gp_Value := ""; gp_Version := 0;
              gp_LeaderHint := 0 |}
    end.

Definition KVService_Put (submitted : Err * any) : PutResponse :=
  let '(code, val) := submitted in
  if bool_decide (code = ErrWrongLeader) then
    {| pp_Status := errToStatus code; pp_LeaderHint := leaderHint val |}
  else
    match val with
    | VPutReply pr => {| pp_Status := errToStatus pr.(pr_Err); pp_LeaderHint := 0 |}
    | _ => {| pp_Status := Status_ERR_WRONG_LEADER; pp_LeaderHint := 0 |}
    end.

(** ** [clerk.go] *)

Definition pbStatusToErr (s : Status) : Err :=
  match s with
  | Status_OK => OK
  | Status_ERR_NO_KEY => ErrNoKey
  | Status_ERR_VERSION => ErrVersion
  | Status_ERR_WRONG_LEADER => ErrWrongLeader
  | Status_ERR_MAYBE => ErrMaybe
  | Status_STATUS_UNSPECIFIED => ErrWrongLeader
  end.

(** The next server: the hint of a response if it names another server,
    otherwise the next one in turn.  [n] is the number of clients. *)
Definition nextServer (n srv : Z) (hint : option Z) : Z :=
  match hint with
  | Some h => if bool_decide (0 ≤ h) && bool_decide (h < n) && bool_decide (h ≠ srv) then h
              else (srv + 1) `rem` n
  | None => (srv + 1) `rem` n
  end.

(** The loop of [Get] over the responses it gets ([None] is a failed call): the
    result, the new [lastLeader] and the servers asked; [None] when the loop is
    still going after them. *)
Fixpoint Get_loop (n srv : Z) (resps : list (option GetResponse))
    : option (string * Z * Err * Z) * list Z :=
  match resps with
  | [] => (None, [])
  | r :: resps' =>
      match r with
      | Some resp =>
          if bool_decide (resp.(gp_Status) ≠ Status_ERR_WRONG_LEADER) then
            (Some (resp.(gp_Value), resp.(gp_Version), pbStatusToErr resp.(gp_Status), srv), [srv])
          else
            let '(o, asked) := Get_loop n (nextServer n srv (Some resp.(gp_LeaderHint))) resps' in
            (o, srv :: asked)
      | None =>
          let '(o, asked) := Get_loop n (nextServer n srv None) resps' in (o, srv :: asked)
      end
  end.

(** The loop of [Put] with its [firstAttempt] flag. *)
Fixpoint Put_loop (n srv : Z) (firstAttempt : bool) (resps : list (option PutResponse))
    : option (Err * Z) * list Z :=
  match resps with
  | [] => (None, [])
  | r :: resps' =>
      match r with
      | Some resp =>
          let next := nextServer n srv (Some resp.(pp_LeaderHint)) in
          match pbStatusToErr resp.(pp_Status) with
          | OK => (Some (OK, srv), [srv])
          | ErrVersion => (Some (if firstAttempt then ErrVersion else ErrMaybe, srv), [srv])
          | ErrWrongLeader =>
              let '(o, asked) := Put_loop n next firstAttempt resps' in (o, srv :: asked)
          | _ => let '(o, asked) := Put_loop n next false resps' in (o, srv :: asked)
          end
      | None =>
          let '(o, asked) := Put_loop n (nextServer n srv None) false resps' in (o, srv :: asked)
      end
  end.

(** ** Lemmas *)

Lemma nextServer_range n srv hint : 0 < n → 0 ≤ srv < n → 0 ≤ nextServer n srv hint < n.
Proof.
  intros Hn Hs. assert (0 ≤ (srv + 1) `rem` n < n) by (apply Z.rem_bound_pos; lia).
  unfold nextServer. destruct hint as [h|]; [|done]. destruct (_ && _) eqn:Hb; [|done].
  apply andb_true_iff in Hb as [[?%bool_decide_eq_true ?%bool_decide_eq_true]%andb_true_iff _]. lia.
Qed.

Lemma Put_loop_range n srv first resps :
  0 < n → 0 ≤ srv < n → Forall (λ s, 0 ≤ s < n) (Put_loop n srv first resps).2.
Proof.
  intros Hn. revert srv first. induction resps as [|r resps IH]; intros srv first Hs; simpl; [done|].
  pose proof (λ h f, IH (nextServer n srv h) f (nextServer_range n srv h Hn Hs)) as Hnext.
  destruct r as [resp|].
  - specialize (Hnext (Some resp.(pp_LeaderHint))).
    destruct (pbStatusToErr resp.(pp_Status)); try (by apply Forall_singleton);
      match goal with |- context [Put_loop n _ ?f resps] => specialize (Hnext f) end;
      destruct (Put_loop _ _ _ _); by constructor.
  - specialize (Hnext None false). destruct (Put_loop _ _ false _). by constructor.
Qed.

Lemma Get_loop_range n srv resps :
  0 < n → 0 ≤ srv < n → Forall (λ s, 0 ≤ s < n) (Get_loop n srv resps).2.
Proof.
  intros Hn. revert srv. induction resps as [|r resps IH]; intros srv Hs; simpl; [done|].
  pose proof (λ h, IH (nextServer n srv h) (nextServer_range n srv h Hn Hs)) as Hnext.
  destruct r as [resp|].
  - case_bool_decide; [by apply Forall_singleton|]. specialize (Hnext (Some resp.(gp_LeaderHint))).
    destruct (Get_loop _ _ _). by constructor.
  - specialize (Hnext None). destruct (Get_loop _ _ _). by constructor.
Qed.

(** An attempt that leaves the clerk certain its request did not count. *)
Definition refused (r : option PutResponse) : Prop :=
  ∃ resp, r = Some resp ∧ pbStatusToErr resp.(pp_Status) = ErrWrongLeader.

(** An attempt that does not end the loop. *)
Definition inconclusive (r : option PutResponse) : Prop :=
  match r with
  | None => True
  | Some resp => pbStatusToErr resp.(pp_Status) ≠ OK ∧ pbStatusToErr resp.(pp_Status) ≠ ErrVersion
  end.

Lemma Put_loop_result n srv first resps e srv' :
  (Put_loop n srv first resps).1 = Some (e, srv') →
  ∃ pre resp post, resps = pre ++ Some resp :: post ∧ Forall inconclusive pre ∧
    ((e = OK ∧ pbStatusToErr resp.(pp_Status) = OK) ∨
     (pbStatusToErr resp.(pp_Status) = ErrVersion ∧
      (e = ErrVersion ∧ first = true ∧ Forall refused pre ∨
       e = ErrMaybe ∧ ¬ (first = true ∧ Forall refused pre)))).
Proof.
  revert srv first. induction resps as [|r resps IH]; intros srv first; simpl; [done|].
  assert (∀ s f, (f = true → first = true ∧ refused r) → (f = false → ¬ (first = true ∧ refused r)) →
    inconclusive r → (Put_loop n s f resps).1 = Some (e, srv') →
    ∃ pre resp post, r :: resps = pre ++ Some resp :: post ∧ Forall inconclusive pre ∧
    ((e = OK ∧ pbStatusToErr resp.(pp_Status) = OK) ∨
     (pbStatusToErr resp.(pp_Status) = ErrVersion ∧
      (e = ErrVersion ∧ first = true ∧ Forall refused pre ∨
       e = ErrMaybe ∧ ¬ (first = true ∧ Forall refused pre))))) as Hrec.
  { intros s f Ht Hf Hr Hl. destruct (IH s f Hl) as (pre & resp & post & -> & Hpre & Hcase).
    exists (r :: pre), resp, post. split; [done|]. split; [by constructor|].
    destruct Hcase as [?|[Hv Hcase]]; [by left|right]. split; [done|].
    rewrite Forall_cons. destruct f; [destruct (Ht eq_refl) as [-> Hrf]|specialize (Hf eq_refl)]; tauto. }
  destruct r as [resp|].
  - assert (∀ x, pbStatusToErr resp.(pp_Status) = x → x ≠ ErrWrongLeader → ¬ refused (Some resp)) as Hnr.
    { intros x <- Hx (resp' & [= <-] & Hrf). done. }
    destruct (pbStatusToErr resp.(pp_Status)) eqn:Hst.
    + intros [= <- <-]. exists [], resp, resps. eauto 10.
    + destruct (Put_loop _ _ false _) eqn:E. intros Hl. eapply Hrec; try (by rewrite E); try done.
      * intros _ [_ Hrf]. by apply (Hnr _ eq_refl).
      * simpl. by rewrite Hst.
    + intros [= <- <-]. exists [], resp, resps. split; [done|]. split; [done|]. right.
      split; [done|]. destruct first; [left|right]; (split; [done|]); [done|]. by intros [? _].
    + destruct (Put_loop _ _ false _) eqn:E. intros Hl. eapply Hrec; try (by rewrite E); try done.
      * intros _ [_ Hrf]. by apply (Hnr _ eq_refl).
      * simpl. by rewrite Hst.
    + destruct (Put_loop _ _ first _) eqn:E. intros Hl. eapply Hrec; try (by rewrite E).
      * intros ->. split; [done|]. by exists resp.
      * by intros -> [? _].
      * simpl. by rewrite Hst.
    + destruct (Put_loop _ _ false _) eqn:E. intros Hl. eapply Hrec; try (by rewrite E); try done.
      * intros _ [_ Hrf]. by apply (Hnr _ eq_refl).
      * simpl. by rewrite Hst.
  - destruct (Put_loop _ _ false _) eqn:E. intros Hl. eapply Hrec; try (by rewrite E); try done.
    intros _ [_ (resp & ? & _)]. done.
Qed.

Lemma asked_in_turn n srv (m : nat) :
  0 < n → 0 ≤ srv < n →
  (Get_loop n srv (replicate m None)).2 = (λ i, (srv + i) `rem` n) <$> seqZ 0 (Z.of_nat m).
Proof.
  intros Hn. revert srv. induction m as [|m IH]; intros srv Hs; [done|].
  assert (0 ≤ (srv + 1) `rem` n < n) as Hr by (apply Z.rem_bound_pos; lia).
  simpl. rewrite (surjective_pairing (Get_loop _ _ _)). simpl.
  rewrite (IH _ Hr). rewrite Nat2Z.inj_succ, (seqZ_cons 0 (Z.succ (Z.of_nat m))) by lia. simpl. f_equal.
  - rewrite Z.add_0_r. by rewrite Z.rem_small.
  - replace (Z.pred (Z.succ (Z.of_nat m))) with (Z.of_nat m) by lia.
    replace (Z.succ 0) with (1 + 0) by lia.
    rewrite <-(fmap_add_seqZ 1 0 (Z.of_nat m)), <-list_fmap_compose.
    apply list_fmap_ext. intros i x Hx. apply lookup_seqZ in Hx as [-> _]. simpl.
    rewrite !Z.rem_mod_nonneg by lia. rewrite Z.add_mod_idemp_l by lia. f_equal. lia.
Qed.

(** ** Theorems *)

(** What a result of [Put] means.  [OK] is an [OK] of some server after
    attempts that decided nothing; [ErrVersion] is a version error after
    attempts that were all refused with a wrong-leader status; [ErrMaybe] is a
    version error after some attempt of unknown outcome. *)
Theorem clerk_put_result n srv resps e srv' :
  (Put_loop n srv true resps).1 = Some (e, srv') →
  ∃ pre resp post, resps = pre ++ Some resp :: post ∧ Forall inconclusive pre ∧
    match e with
    | OK => pbStatusToErr resp.(pp_Status) = OK
    | ErrVersion => pbStatusToErr resp.(pp_Status) = ErrVersion ∧ Forall refused pre
    | ErrMaybe => pbStatusToErr resp.(pp_Status) = ErrVersion ∧ ¬ Forall refused pre
    | _ => False
    end.
Proof.
  intros H. destruct (Put_loop_result _ _ _ _ _ _ H) as (pre & resp & post & -> & Hpre & Hcase).
  exists pre, resp, post. split; [done|]. split; [done|].
  destruct Hcase as [[-> Hok]|[Hv [(-> & _ & Hr)|(-> & Hr)]]]; [done|done|]. split; [done|]. tauto.
Qed.

Lemma clerk_put_result_witness :
  ∃ pre resp post,
    [None; Some {| pp_Status := Status_ERR_VERSION; pp_LeaderHint := 0 |}]
      = pre ++ Some resp :: post ∧ Forall inconclusive pre ∧
    pbStatusToErr resp.(pp_Status) = ErrVersion ∧ ¬ Forall refused pre.
Proof.
  apply (clerk_put_result 3 0 [None; Some {| pp_Status := Status_ERR_VERSION; pp_LeaderHint := 0 |}]
           ErrMaybe 1). reflexivity.
Defined.

(** The clerk finds every server.  Whatever the responses, it asks only
    servers it has; and while calls fail it asks all of them in turn, starting
    with the last known leader. *)
Theorem clerk_asks_servers n srv (m : nat) putResps getResps first :
  0 < n → 0 ≤ srv < n →
  Forall (λ s, 0 ≤ s < n) (Put_loop n srv first putResps).2 ∧
  Forall (λ s, 0 ≤ s < n) (Get_loop n srv getResps).2 ∧
  (Get_loop n srv (replicate m None)).2 = (λ i, (srv + i) `rem` n) <$> seqZ 0 (Z.of_nat m).
Proof.
  intros Hn Hs. split; [by apply Put_loop_range|]. split; [by apply Get_loop_range|].
  by apply asked_in_turn.
Qed.

Lemma clerk_asks_servers_witness :
  (Get_loop 3 1 (replicate 3 None)).2 = (λ i, (1 + i) `rem` 3) <$> seqZ 0 3.
Proof. apply (clerk_asks_servers 3 1 3 [] [] true); lia. Defined.

(** A [Get] that a server answers returns what the store holds: value,
    version and error of the key come through the service, the wire and the
    clerk unchanged. *)
Theorem get_end_to_end n srv s k rest :
  0 ≤ versionOf s k < 2 ^ 64 →
  (Get_loop n srv (Some (KVService_Get (OK, (Store_DoOp (VGetArgs {| ga_Key := k |}) s).1)) :: rest)).1
  = Some (match s.(kv) !! k with
          | Some (v, ver) => (v, ver, OK, srv)
          | None => ("", 0, ErrNoKey, srv)
          end).
Proof.
  unfold versionOf, keyState. simpl. destruct (s.(kv) !! k) as [[v ver]|]; simpl; [|done].
  intros Hv. unfold uint64. by rewrite Z.mod_small.
Qed.

Lemma get_end_to_end_witness :
  (Get_loop 3 0 (Some (KVService_Get (OK, (Store_DoOp (VGetArgs {| ga_Key := "k" |})
     (mkStore {["k" := ("v", 1)]})).1)) :: [])).1 = Some ("v", 1, OK, 0).
Proof.
  etransitivity; [apply (get_end_to_end 3 0 (mkStore {["k" := ("v", 1)]}) "k" [])|reflexivity].
  vm_compute. split; [discriminate|reflexivity].
Defined.

(** C38: the clerk may report a version error for its own write.  A wrong-leader
    status keeps [firstAttempt], but the operation it answers may be in the log
    and be applied after all ([Submit] gives that status when the leader
    changed or the wait timed out).  The retry then fails on the version the
    write itself made, and the clerk returns [ErrVersion], which the sequential
    specification excludes. *)
Theorem clerk_put_own_version_error {R E} `{RaftApi R E} (rf : R) n srv s s' x id :
  Store_DoOp (VPutArgs x) s = (VPutReply {| pr_Err := OK |}, s') →
  0 ≤ x.(pa_Version) < 2 ^ 64 - 1 →
  let resp1 := KVService_Put (Submit_reply id rf None) in
  let resp2 := KVService_Put (OK, (Store_DoOp (VPutArgs x) s').1) in
  (∃ srv', (Put_loop n srv true [Some resp1; Some resp2]).1 = Some (ErrVersion, srv')) ∧
  keyState s' x.(pa_Key) = mkKvState x.(pa_Value) (x.(pa_Version) + 1) ∧
  (KvModel_Step (keyState s x.(pa_Key))
     {| ki_Op := 1; ki_Key := x.(pa_Key); ki_Value := x.(pa_Value); ki_Version := x.(pa_Version) |}
     {| ko_Value := ""; ko_Version := 0; ko_Err := ErrVersion |}).1 = false.
Proof.
  intros Hput Hb resp1 resp2. destruct (put_ok_version s s' x Hput) as [Hv Hv'].
  unfold uint64 in Hv'. rewrite Z.mod_small in Hv' by lia.
  assert (resp2 = {| pp_Status := Status_ERR_VERSION; pp_LeaderHint := 0 |}) as ->.
  { unfold resp2. by rewrite put_version_mismatch by lia. }
  split; [by eexists|]. split.
  - pose proof (DoOp_step s (VPutArgs x)) as Hst. rewrite Hput in Hst.
    destruct Hst as (out & [= <-] & Hstep & _). unfold versionOf in *. revert Hstep.
    unfold KvModel_Step. simpl. case_bool_decide; [|done]. intros [= <-]. rewrite Hv.
    unfold uint64. by rewrite Z.mod_small by lia.
  - unfold versionOf in Hv. unfold KvModel_Step. simpl. rewrite Hv. by rewrite bool_decide_false by tauto.
Qed.

Lemma clerk_put_own_version_error_witness :
  ∃ srv', (Put_loop 3 0 true
    [Some (KVService_Put (Submit_reply (H0:=Raft_Api (λ d, zlen d)) 7 (Make_fresh 3 0 (mkDisk [] [])) None));
     Some (KVService_Put (OK, (Store_DoOp (VPutArgs {| pa_Key := "k"; pa_Value := "v"; pa_Version := 0 |})
             (mkStore {["k" := ("v", 1)]})).1))]).1 = Some (ErrVersion, srv').
Proof.
  apply (clerk_put_own_version_error (H:=Raft_Api (λ d, zlen d)) (Make_fresh 3 0 (mkDisk [] [])) 3 0
    NewStore (mkStore {["k" := ("v", 1)]}) {| pa_Key := "k"; pa_Value := "v"; pa_Version := 0 |} 7);
    [reflexivity|vm_compute; split; [discriminate|reflexivity]].
Defined.
