(* ===== verification/Config.v ===== *)
(** * Configuration ([config/config.go], start of [internal/kvserver/node.go])

    Reading the cluster file and the environment, and the index a node takes in
    the cluster.  The environment is a function; reading the file and decoding
    its JSON are parameters: what they returned. *)

From stdpp Require Import sorting.
From S2P Require Import Prelude Api Raft Cluster.

Local Open Scope Z_scope.

Record Node := mkNode { ID : Z; Addr : string }.

Record Config := mkConfig {
  Nodes : list Node;
  ElectionTimeoutMin : Z;
  ElectionTimeoutRand : Z;
  HeartbeatTimeout : Z;
  SubmitTimeout : Z;
  BaseDelay : Z;
  MaxDelay : Z;
  MinConnectTimeout : Z;
  MetricsPortBase : Z
}.

(** ** [strconv] *)

(** Decimal digits, at least one. *)
Fixpoint digits (s : string) (acc : Z) : option Z :=
  match s with
  | EmptyString => Some acc
  | String c s' =>
      let d := Z.of_nat (Ascii.nat_of_ascii c) - 48 in
      if bool_decide (0 ≤ d ≤ 9) then digits s' (10 * acc + d) else None
  end.

Definition magnitude (s : string) : option Z :=
  match s with EmptyString => None | _ => digits s 0 end.

Definition inInt64 (z : Z) : option Z :=
  if bool_decide (- 2 ^ 63 ≤ z < 2 ^ 63) then Some z else None.

(** [strconv.Atoi]: an optional sign, digits, the range of [int]. *)
Definition Atoi (s : string) : option Z :=
  match s with
  | EmptyString => None
  | String c s' =>
      (* the codes of '-' and '+' *)
      if bool_decide (Ascii.nat_of_ascii c = 45%nat) then z ← magnitude s'; inInt64 (- z)
      else if bool_decide (Ascii.nat_of_ascii c = 43%nat) then z ← magnitude s'; inInt64 z
      else z ← magnitude s; inInt64 z
  end.

Example Atoi_signs : Atoi "-42" = Some (-42) ∧ Atoi "+7" = Some 7 ∧ Atoi "1x" = None ∧ Atoi "" = None.
Proof. repeat split. Qed.

(** [strconv.ParseBool] *)
Definition ParseBool (s : string) : option bool :=
  if bool_decide (s ∈ ["1"; "t"; "T"; "true"; "TRUE"; "True"]) then Some true
  else if bool_decide (s ∈ ["0"; "f"; "F"; "false"; "FALSE"; "False"]) then Some false
  else None.

Section env.
(** [os.LookupEnv] *)
Context (env : string → option string).

Definition GetEnv (key fallback : string) : string :=
  match env key with Some v => v | None => fallback end.

Definition GetEnvInt (key : string) (fallback : Z) : Z :=
  match env key with
  | Some v => match Atoi v with Some i => i | None => fallback end
  | None => fallback
  end.

Definition GetEnvBool (key : string) (fallback : bool) : bool :=
  match env key with
  | Some v => match ParseBool v with Some b => b | None => fallback end
  | None => fallback
  end.

Definition PopulateDefaults (cfg : Config) : Config :=
  mkConfig cfg.(Nodes) 600 400 100 10 100 3 2 8080.

(** [if v, ok := os.LookupEnv(key); ok { if i, err := strconv.Atoi(v); err == nil
    { cfg.F = i } }]: the override of a field with current value [cur]. *)
Definition override (key : string) (cur : Z) : Z :=
  match env key with
  | Some v => match Atoi v with Some i => i | None => cur end
  | None => cur
  end.

Definition overrides (cfg : Config) : Config :=
  mkConfig cfg.(Nodes)
    (override "RAFT_ELECTION_TIMEOUT_MIN" cfg.(ElectionTimeoutMin))
    (override "RAFT_ELECTION_TIMEOUT_RAND" cfg.(ElectionTimeoutRand))
    (override "RAFT_HEARTBEAT_TIMEOUT" cfg.(HeartbeatTimeout))
    (override "RSM_SUBMIT_TIMEOUT" cfg.(SubmitTimeout))
    (override "GRPC_BASE_DELAY" cfg.(BaseDelay))
    (override "GRPC_MAX_DELAY" cfg.(MaxDelay))
    (override "GRPC_MIN_CONNECT_TIMEOUT" cfg.(MinConnectTimeout))
    (override "METRICS_PORT_BASE" cfg.(MetricsPortBase)).

(** [sort.Slice] by id; with distinct ids every sort gives this list. *)
Definition byID (a b : Node) : Prop := a.(ID) ≤ b.(ID).

#[export] Instance byID_dec a b : Decision (byID a b).
Proof. unfold byID. apply _. Defined.

Definition sortNodes (ns : list Node) : list Node := merge_sort byID ns.

(** [Load]: [read] is what reading and decoding the file gave; [None] is an
    error. *)
Definition Load (read : option (list Node)) : option Config :=
  ns ← read;
  let cfg := overrides (PopulateDefaults (mkConfig ns 0 0 0 0 0 0 0 0)) in
  if bool_decide (zlen cfg.(Nodes) < 3) then None
  else if bool_decide (zlen cfg.(Nodes) `rem` 2 = 0) then None
  else Some (mkConfig (sortNodes cfg.(Nodes)) cfg.(ElectionTimeoutMin) cfg.(ElectionTimeoutRand)
    cfg.(HeartbeatTimeout) cfg.(SubmitTimeout) cfg.(BaseDelay) cfg.(MaxDelay)
    cfg.(MinConnectTimeout) cfg.(MetricsPortBase)).
End env.

(** ** [StartNode]: the index of a node id; [None] is the error. *)
Fixpoint findMe (nodeID : Z) (i : Z) (ns : list Node) : option Z :=
  match ns with
  | [] => None
  | n :: ns' => if bool_decide (n.(ID) = nodeID) then Some i else findMe nodeID (i + 1) ns'
  end.

Definition StartNode_me (cfg : Config) (nodeID : Z) : option Z := findMe nodeID 0 cfg.(Nodes).

(** ** Lemmas *)

Lemma findMe_Some nodeID i ns j :
  findMe nodeID i ns = Some j →
  i ≤ j < i + zlen ns ∧ ∃ n, ns !! Z.to_nat (j - i) = Some n ∧ n.(ID) = nodeID.
Proof.
  revert i. induction ns as [|n ns IH]; intros i; simpl; [done|]. case_bool_decide as Hid.
  - intros [= <-]. split; [lia|]. rewrite Z.sub_diag. eauto.
  - intros Hj. destruct (IH _ Hj) as (Hb & n' & Hn & Hid'). split; [lia|].
    exists n'. split; [|done]. replace (Z.to_nat (j - i)) with (S (Z.to_nat (j - (i + 1)))) by lia. done.
Qed.

Lemma findMe_total nodeID i ns : (∃ n, n ∈ ns ∧ n.(ID) = nodeID) → is_Some (findMe nodeID i ns).
Proof.
  intros (n & Hn & Hid). revert i. induction Hn as [|n m ns Hn IH]; intros i; simpl.
  - rewrite bool_decide_true by done. by eexists.
  - case_bool_decide; [by eexists|]. by apply IH.
Qed.

#[export] Instance byID_trans : Transitive byID.
Proof. intros a b c. unfold byID. lia. Qed.
#[export] Instance byID_total : Total byID.
Proof. intros a b. unfold byID. lia. Qed.

Lemma Load_Some env read cfg :
  Load env read = Some cfg →
  ∃ ns, read = Some ns ∧ cfg.(Nodes) = sortNodes ns ∧ 3 ≤ zlen ns ∧ zlen ns `rem` 2 ≠ 0.
Proof.
  unfold Load. intros (ns & -> & H)%bind_Some. simpl in H.
  case_bool_decide as H3; [done|]. case_bool_decide as H2; [done|]. injection H as <-.
  exists ns. repeat (split; [done|]). split; [lia|done].
Qed.

(** ** Theorems *)

(** A configuration that loads is a cluster the consensus layer is correct
    for: it has the nodes of the file, sorted by id, at least three and an odd
    number; so quorums of [N/2 + 1] exist and [Cluster.v] applies. *)
Theorem load_valid_cluster env read cfg :
  Load env read = Some cfg →
  (∃ ns, read = Some ns ∧ cfg.(Nodes) ≡ₚ ns) ∧ Sorted byID cfg.(Nodes) ∧
  3 ≤ zlen cfg.(Nodes) ∧ ∃ k, zlen cfg.(Nodes) = 2 * k + 1 ∧ zlen cfg.(Nodes) `quot` 2 = k.
Proof.
  intros (ns & -> & Hns & H3 & H2)%Load_Some. rewrite Hns.
  assert (sortNodes ns ≡ₚ ns) as Hp by apply merge_sort_Permutation.
  split; [by exists ns|]. split; [apply Sorted_merge_sort; apply _|].
  rewrite (Permutation_length Hp). split; [done|].
  rewrite Z.rem_mod_nonneg in H2 by lia. exists (zlen ns / 2).
  rewrite Z.quot_div_nonneg by lia. split; [|done].
  pose proof (Z.div_mod (zlen ns) 2). pose proof (Z.mod_pos_bound (zlen ns) 2). lia.
Qed.

Lemma load_valid_cluster_witness :
  3 ≤ zlen (sortNodes [mkNode 2 "c"; mkNode 0 "a"; mkNode 1 "b"]).
Proof.
  apply (load_valid_cluster (λ _, None) (Some [mkNode 2 "c"; mkNode 0 "a"; mkNode 1 "b"])
    (mkConfig (sortNodes [mkNode 2 "c"; mkNode 0 "a"; mkNode 1 "b"]) 600 400 100 10 100 3 2 8080)).
  vm_compute. reflexivity.
Defined.

(** Every node id of a configuration gets an index of the cluster, and
    no two node ids get the same one, so the nodes agree on who is who. *)
Theorem node_indices_agree cfg nodeID :
  (∃ n, n ∈ cfg.(Nodes) ∧ n.(ID) = nodeID) →
  ∃ me, StartNode_me cfg nodeID = Some me ∧ isNode (zlen cfg.(Nodes)) me ∧
    ∀ nodeID', StartNode_me cfg nodeID' = Some me → nodeID' = nodeID.
Proof.
  intros Hn. destruct (findMe_total nodeID 0 cfg.(Nodes) Hn) as [j Hj]. exists j.
  split; [done|]. destruct (findMe_Some _ _ _ _ Hj) as (Hb & n & Hln & Hid).
  split; [unfold isNode; lia|]. intros nodeID' Hj'.
  destruct (findMe_Some _ _ _ _ Hj') as (_ & n' & Hln' & Hid'). congruence.
Qed.

Lemma node_indices_agree_witness :
  ∃ me, StartNode_me (mkConfig (sortNodes [mkNode 2 "c"; mkNode 0 "a"; mkNode 1 "b"])
          600 400 100 10 100 3 2 8080) 2 = Some me ∧ isNode 3 me ∧
    ∀ nodeID', StartNode_me (mkConfig (sortNodes [mkNode 2 "c"; mkNode 0 "a"; mkNode 1 "b"])
          600 400 100 10 100 3 2 8080) nodeID' = Some me → nodeID' = 2.
Proof.
  apply node_indices_agree. exists (mkNode 2 "c"). split; [|reflexivity].
  apply list_elem_of_lookup_2 with 2%nat. vm_compute. reflexivity.
Defined.

(** A setting is the environment's value when that is an integer in range
    and the default otherwise; text that is not a number never fails the load. *)
Theorem load_settings env ns cfg :
  Load env (Some ns) = Some cfg →
  cfg.(ElectionTimeoutMin) = GetEnvInt env "RAFT_ELECTION_TIMEOUT_MIN" 600 ∧
  cfg.(ElectionTimeoutRand) = GetEnvInt env "RAFT_ELECTION_TIMEOUT_RAND" 400 ∧
  cfg.(HeartbeatTimeout) = GetEnvInt env "RAFT_HEARTBEAT_TIMEOUT" 100 ∧
  cfg.(SubmitTimeout) = GetEnvInt env "RSM_SUBMIT_TIMEOUT" 10 ∧
  cfg.(BaseDelay) = GetEnvInt env "GRPC_BASE_DELAY" 100 ∧
  cfg.(MaxDelay) = GetEnvInt env "GRPC_MAX_DELAY" 3 ∧
  cfg.(MinConnectTimeout) = GetEnvInt env "GRPC_MIN_CONNECT_TIMEOUT" 2 ∧
  cfg.(MetricsPortBase) = GetEnvInt env "METRICS_PORT_BASE" 8080.
Proof.
  unfold Load. simpl. case_bool_decide; [done|]. case_bool_decide; [done|]. by intros [= <-].
Qed.

Lemma load_settings_witness :
  250 = GetEnvInt (λ k, if bool_decide (k = "RAFT_HEARTBEAT_TIMEOUT") then Some "250" else None)
          "RAFT_HEARTBEAT_TIMEOUT" 100.
Proof.
  apply (load_settings
    (λ k, if bool_decide (k = "RAFT_HEARTBEAT_TIMEOUT") then Some "250" else None)
    [mkNode 2 "c"; mkNode 0 "a"; mkNode 1 "b"]
    (mkConfig (sortNodes [mkNode 2 "c"; mkNode 0 "a"; mkNode 1 "b"]) 600 400 250 10 100 3 2 8080)).
  vm_compute. reflexivity.
Defined.
