(* ===== verification/Node.v ===== *)
(** * A node of the cluster ([internal/kvserver/node.go], [cmd/kvserver/main.go])

    Putting a node together: its index in the configuration, its persister, the
    connections to its peers, the engine with its timers, the replicated store,
    the listener and the servers; and taking it down.  What the process holds is
    explicit state ([Proc]), so that the theorems can say what is released on
    every error path and by [Stop].  The answers of the operating system and of
    gRPC are parameters. *)

From S2P Require Import Prelude Api Raft Cluster Store Rsm System SystemFacts SystemRun Linear Persist Config.

Local Open Scope Z_scope.

(** ** Timers ([internal/raft/raft.go]) *)

(** [time.Duration(x) * time.Millisecond] in nanoseconds, and [Milliseconds]. *)
Definition millisecond : Z := 1000000.
Definition fromMs (x : Z) : Z := int64 (x * millisecond).
Definition toMs (d : Z) : Z := d `quot` millisecond.

(** [draw] is the value of [rand.Int63]; dividing by zero panics. *)
Definition randomizedElectionTimeout (electionTimeoutMin electionTimeoutRand draw : Z) : option Z :=
  if bool_decide (toMs electionTimeoutRand = 0) then None
  else Some (fromMs (int64 (toMs electionTimeoutMin + draw `rem` toMs electionTimeoutRand))).

Definition stableHeartbeatTimeout (heartbeatTimeout : Z) : Z := heartbeatTimeout.

(** ** What a process holds *)

(** The transport of a peer: none for the node itself, a client on a connection
    for the others ([raftransport]). *)
Inductive transport :=
  | Noop
  | GRPCClient (conn : nat).

(** An engine whose goroutines run, with its transports. *)
Record Engine := mkEngine { en_raft : Raft; en_peers : list transport }.

Record Proc := mkProc {
  (** the open connections and where they lead *)
  openConns : gmap nat string;
  nextConn : nat;
  engineOf : option Engine;
  (** the address of the open listener *)
  listening : option string;
  (** the gRPC server accepts on the listener *)
  serving : bool;
  (** the port of the metrics server *)
  metricsPort : option Z
}.

Definition procInit : Proc := mkProc ∅ 0 None None false None.

Abbreviation ProcM := (M Proc unit).

Definition set_conns (cs : gmap nat string) (next : nat) (p : Proc) : Proc :=
  mkProc cs next p.(engineOf) p.(listening) p.(serving) p.(metricsPort).
Definition set_engine (e : option Engine) (p : Proc) : Proc :=
  mkProc p.(openConns) p.(nextConn) e p.(listening) p.(serving) p.(metricsPort).
Definition set_listening (a : option string) (p : Proc) : Proc :=
  mkProc p.(openConns) p.(nextConn) p.(engineOf) a p.(serving) p.(metricsPort).
Definition set_serving (b : bool) (p : Proc) : Proc :=
  mkProc p.(openConns) p.(nextConn) p.(engineOf) p.(listening) b p.(metricsPort).
Definition set_metrics (port : option Z) (p : Proc) : Proc :=
  mkProc p.(openConns) p.(nextConn) p.(engineOf) p.(listening) p.(serving) port.

(** [grpc.NewClient], when it succeeds: a new connection. *)
Definition openConn (addr : string) : ProcM nat :=
  p ← get;
  modify (set_conns (<[p.(nextConn) := addr]> p.(openConns)) (S p.(nextConn))) ;;
  mret p.(nextConn).

(** [conn.Close] *)
Definition closeConn (c : nat) : ProcM unit :=
  modify (λ p, set_conns (delete c p.(openConns)) p.(nextConn) p).

(** ** [node.go] *)

Inductive startError :=
  | ErrUnknownNode
  | ErrPersister
  | ErrPeer (i : Z)
  | ErrListen.

Record KVNode := mkKVNode {
  nd_me : Z;
  nd_lis : string;
  nd_rsm : RSM Store;
  nd_connections : list nat
}.

Section start.
(** Whether [os.MkdirAll], the [i]-th [grpc.NewClient] and [net.Listen]
    succeed; the files of the data directory; the random numbers. *)
Context (mkdirOk : bool) (dialOk : Z → bool) (listenOk : bool) (disk : Disk) (draw : Z).

(** The loop over the peers, from index [i] on. *)
Fixpoint dialPeers (me i : Z) (ns : list Node) (transports : list transport) (connections : list nat)
    : ProcM (startError + list transport * list nat) :=
  match ns with
  | [] => mret (inr (transports, connections))
  | n :: ns' =>
      if bool_decide (i = me) then dialPeers me (i + 1) ns' (transports ++ [Noop]) connections
      else if dialOk i then
        conn ← openConn n.(Addr);
        dialPeers me (i + 1) ns' (transports ++ [GRPCClient conn]) (connections ++ [conn])
      else
        for_each connections closeConn ;;
        mret (inl (ErrPeer i))
  end.

(** [rsm.MakeRSM] with [raftimpl.Make]: the engine's first election timeout, the
    state from the disk, the goroutines; then the store. *)
Definition makeReplica (cfg : Config) (me maxState : Z) (transports : list transport)
    : ProcM (RSM Store) :=
  try (randomizedElectionTimeout (fromMs cfg.(ElectionTimeoutMin)) (fromMs cfg.(ElectionTimeoutRand))
    draw) ;;
  rf ← try (Make (zlen transports) me disk);
  modify (set_engine (Some (mkEngine rf transports))) ;;
  try (MakeRSM me maxState NewStore disk.(d_snapshot)).

(** The assertion that the engine has the methods of [RaftRPC] cannot fail for the
    engine that [Make] returns; its error path, which would leave the listener and
    the connections open, is left out. *)
Definition StartNode (cfg : Config) (nodeID maxState : Z) : ProcM (startError + KVNode) :=
  match StartNode_me cfg nodeID with
  | None => mret (inl ErrUnknownNode)
  | Some me =>
      if negb mkdirOk then mret (inl ErrPersister) else
      dialled ← dialPeers me 0 cfg.(Nodes) [] [];
      match dialled with
      | inl e => mret (inl e)
      | inr (transports, connections) =>
          rsm ← makeReplica cfg me maxState transports;
          addr ← try (Addr <$> cfg.(Nodes) !! Z.to_nat me);
          if negb listenOk then
            for_each connections closeConn ;;
            mret (inl ErrListen)
          else
            modify (set_listening (Some addr)) ;;
            modify (set_serving true) ;;
            modify (set_metrics (Some (cfg.(MetricsPortBase) + nodeID))) ;;
            mret (inr (mkKVNode me addr rsm connections))
      end
  end.
End start.

(** [GracefulStop] ends the server and closes its listener. *)
Definition Stop (n : KVNode) : ProcM unit :=
  modify (set_serving false) ;;
  modify (set_listening None) ;;
  modify (set_listening None) ;;
  for_each n.(nd_connections) closeConn ;;
  modify (λ p, set_engine ((λ e, mkEngine (default e.(en_raft) (run_st (Kill e.(en_raft)))) e.(en_peers))
    <$> p.(engineOf)) p).

(** ** [cmd/kvserver/main.go]

    The flags that were given; those that were not come from the environment.
    The exit code, 0 after a signal stopped the node; a panic or a fatal log
    entry is [None]. *)
Record flags := mkFlags {
  fl_id : option Z;
  fl_datadir : option string;
  fl_maxraftstate : option Z
}.

Definition server_main (mkdirOk : bool) (dialOk : Z → bool) (listenOk : bool) (disk : Disk) (draw : Z)
    (env : string → option string) (read : option (list Node)) (fl : flags) : ProcM Z :=
  let id := default (GetEnvInt env "NODE_ID" (-1)) fl.(fl_id) in
  let dataDir := default (GetEnv env "DATA_DIR" "") fl.(fl_datadir) in
  let maxState := default (GetEnvInt env "MAX_RAFT_STATE" (-1)) fl.(fl_maxraftstate) in
  if bool_decide (id < 0) || bool_decide (dataDir = "") then mret 2
  else
    match Load env read with
    | None => mret 1
    | Some cfg =>
        started ← StartNode mkdirOk dialOk listenOk disk draw cfg id maxState;
        match started with
        | inl _ => mret 1
        | inr node => Stop node ;; mret 0
        end
    end.

(** ** Lemmas *)

(** Connection numbers are not reused. *)
Definition fresh_conns (p : Proc) : Prop := ∀ c, (p.(nextConn) ≤ c)%nat → p.(openConns) !! c = None.

(** Two processes that differ in their connections only. *)
Definition same_but_conns (p p' : Proc) : Prop :=
  p'.(engineOf) = p.(engineOf) ∧ p'.(listening) = p.(listening) ∧ p'.(serving) = p.(serving) ∧
  p'.(metricsPort) = p.(metricsPort).

(** The transport of the peer [n] at index [j]. *)
Definition peer_at (me : Z) (ts : list transport) (conns : gmap nat string) (j : nat) (n : Node) : Prop :=
  if bool_decide (Z.of_nat j = me) then ts !! j = Some Noop
  else ∃ c, ts !! j = Some (GRPCClient c) ∧ conns !! c = Some n.(Addr).

(** The loop over the peers after those in [dialled], begun in [p0]. *)
Record dialling (p0 : Proc) (me : Z) (dialled : list Node) (ts : list transport) (cs : list nat)
    (p : Proc) : Prop := {
  dl_fresh : fresh_conns p;
  dl_others c : c ∉ cs → p.(openConns) !! c = p0.(openConns) !! c;
  dl_own c : c ∈ cs → p0.(openConns) !! c = None ∧ (c < p.(nextConn))%nat;
  dl_length : length ts = length dialled;
  dl_peers j n : dialled !! j = Some n → peer_at me ts p.(openConns) j n;
  dl_same : same_but_conns p0 p
}.

Lemma dialling_start p me : fresh_conns p → dialling p me [] [] [] p.
Proof. intros Hf. split; [done|done|set_solver|done|done|done]. Qed.

Lemma dialling_self p0 me dialled ts cs p n :
  dialling p0 me dialled ts cs p → zlen dialled = me →
  dialling p0 me (dialled ++ [n]) (ts ++ [Noop]) cs p.
Proof.
  intros [H1 H2 H3 H4 H5 H6] Hme. split; [done..| | |done].
  - rewrite !length_app. simpl. lia.
  - intros j m [[? Hj]|[-> <-]]%lookup_snoc_Some.
    + specialize (H5 j m Hj). unfold peer_at in *.
      rewrite lookup_app_l by (apply lookup_lt_Some in Hj; lia). done.
    + unfold peer_at. rewrite bool_decide_true by lia. rewrite <-H4. by apply list_lookup_middle.
Qed.

Lemma dialling_conn p0 me dialled ts cs p n :
  dialling p0 me dialled ts cs p → zlen dialled ≠ me →
  let c := p.(nextConn) in
  dialling p0 me (dialled ++ [n]) (ts ++ [GRPCClient c]) (cs ++ [c])
    (set_conns (<[c := n.(Addr)]> p.(openConns)) (S c) p).
Proof.
  intros [H1 H2 H3 H4 H5 H6] Hme c. split; simpl.
  - intros k Hk. simpl in *. rewrite lookup_insert_ne by lia. apply H1. lia.
  - intros k Hk. rewrite lookup_insert_ne by set_solver. apply H2. set_solver.
  - intros k [Hk| ->%list_elem_of_singleton]%elem_of_app; [destruct (H3 k Hk); split; [done|lia]|].
    split; [|lia]. destruct (decide (c ∈ cs)) as [Hc|Hc]; [by apply H3|].
    rewrite <-(H2 c Hc). by apply H1.
  - rewrite !length_app. simpl. lia.
  - intros j m [[? Hj]|[-> <-]]%lookup_snoc_Some; unfold peer_at in *.
    + specialize (H5 j m Hj). rewrite lookup_app_l by (apply lookup_lt_Some in Hj; lia).
      case_bool_decide; [done|]. destruct H5 as (k & Hk & Ha). exists k. split; [done|].
      rewrite lookup_insert_ne; [done|]. intros <-. rewrite (H1 c) in Ha by lia. done.
    + rewrite bool_decide_false by done. exists c. split; [rewrite <-H4; by apply list_lookup_middle|].
      by simplify_map_eq.
  - done.
Qed.

Lemma closeAll_run cs p : ∃ p', for_each cs closeConn p = Some (tt, p', []) ∧
  same_but_conns p p' ∧ (∀ c, p'.(openConns) !! c = if bool_decide (c ∈ cs) then None else p.(openConns) !! c).
Proof.
  revert p. induction cs as [|c cs IH]; intros p; simpl.
  - exists p. split; [done|]. split; [done|]. done.
  - destruct (IH (set_conns (delete c p.(openConns)) p.(nextConn) p)) as (p' & Hr & Hs & Hc).
    exists p'. unfold closeConn. rewrite bind_modify. split; [done|]. split; [done|]. intros k. rewrite Hc.
    simpl. destruct (decide (k = c)) as [->|Hk].
    + rewrite lookup_delete_eq. rewrite (bool_decide_true (c ∈ c :: cs)) by set_solver. by case_bool_decide.
    + rewrite lookup_delete_ne by done. repeat case_bool_decide; try done; set_solver.
Qed.

(** Closing the connections of the loop leaves those from before. *)
Lemma dialling_close p0 me dialled ts cs p p1 : dialling p0 me dialled ts cs p →
  p1.(openConns) = p.(openConns) →
  ∃ p', for_each cs closeConn p1 = Some (tt, p', []) ∧ same_but_conns p1 p' ∧
    p'.(openConns) = p0.(openConns).
Proof.
  intros [H1 H2 H3 H4 H5 H6] Hp. destruct (closeAll_run cs p1) as (p' & Hr & Hs & Hc).
  exists p'. split; [done|]. split; [done|]. apply map_eq. intros c. rewrite Hc, Hp.
  case_bool_decide as Hin; [symmetry; by apply H3|by apply H2].
Qed.

Lemma dialPeers_run dialOk p0 me dialled ns ts cs p : dialling p0 me dialled ts cs p →
  ∃ r p', dialPeers dialOk me (zlen dialled) ns ts cs p = Some (r, p', []) ∧
    match r with
    | inr (ts', cs') => dialling p0 me (dialled ++ ns) ts' cs' p'
    | inl e => (∃ i, e = ErrPeer i ∧ i ≠ me ∧ dialOk i = false) ∧ same_but_conns p0 p' ∧
               p'.(openConns) = p0.(openConns)
    end.
Proof.
  revert dialled ts cs p. induction ns as [|n ns IH]; intros dialled ts cs p Hd; simpl.
  - exists (inr (ts, cs)), p. split; [done|]. by rewrite app_nil_r.
  - replace (zlen dialled + 1) with (zlen (dialled ++ [n])) by (rewrite length_app; simpl; lia).
    case_bool_decide as Hme; [|destruct (dialOk (zlen dialled)) eqn:Hok].
    + destruct (IH _ _ _ _ (dialling_self _ _ _ _ _ _ n Hd Hme)) as (r & p' & Hr & Hp).
      exists r, p'. by rewrite <-app_assoc in Hp.
    + destruct (IH _ _ _ _ (dialling_conn _ _ _ _ _ _ n Hd Hme)) as (r & p' & Hr & Hp).
      exists r, p'. rewrite <-app_assoc in Hp. split; [|done].
      unfold openConn. rewrite bind_assoc, bind_get, bind_assoc, bind_modify, bind_ret. done.
    + destruct (dialling_close _ _ _ _ _ _ p Hd eq_refl) as (p' & Hr & Hs & Hc).
      exists (inl (ErrPeer (zlen dialled))), p'. split.
      * unfold mbind, M_bind. rewrite Hr. done.
      * split; [by eexists|]. split; [|done]. destruct (dl_same _ _ _ _ _ _ Hd) as (?&?&?&?), Hs as (?&?&?&?).
        repeat split; congruence.
Qed.

Lemma dialPeers_total dialOk p0 me ns p :
  (∀ i, i ≠ me → dialOk i = true) → dialling p0 me [] [] [] p →
  ∃ ts cs p', dialPeers dialOk me 0 ns [] [] p = Some (inr (ts, cs), p', []) ∧
    dialling p0 me ns ts cs p'.
Proof.
  intros Hok Hd. destruct (dialPeers_run dialOk p0 me [] ns [] [] p Hd) as (r & p' & Hr & Hp).
  destruct r as [e|[ts cs]]; [|by eauto]. destruct Hp as [(i & _ & Hi & Hf) _].
  rewrite Hok in Hf by done. done.
Qed.

Lemma makeReplica_run disk draw cfg me maxState ts p :
  makeReplica disk draw cfg me maxState ts p =
    t ← randomizedElectionTimeout (fromMs cfg.(ElectionTimeoutMin)) (fromMs cfg.(ElectionTimeoutRand)) draw;
    rf ← Make (zlen ts) me disk;
    r ← MakeRSM me maxState NewStore disk.(d_snapshot);
    Some (r, set_engine (Some (mkEngine rf ts)) p, []).
Proof.
  unfold makeReplica. destruct (randomizedElectionTimeout _ _ _) as [t|]; [|done].
  rewrite bind_try. simpl. destruct (Make _ _ _) as [rf|]; [|done]. rewrite bind_try, bind_modify. simpl.
  by destruct (MakeRSM _ _ _ _).
Qed.

Section facts.
Context (mkdirOk : bool) (dialOk : Z → bool) (listenOk : bool) (disk : Disk) (draw : Z).
Context (cfg : Config) (nodeID maxState : Z).
Implicit Types (p : Proc).

Abbreviation start := (StartNode mkdirOk dialOk listenOk disk draw cfg nodeID maxState).

(** The process after the node was put together. *)
Record running p (node : KVNode) p' : Prop := {
  rn_me : StartNode_me cfg nodeID = Some node.(nd_me);
  rn_addr : Addr <$> cfg.(Nodes) !! Z.to_nat node.(nd_me) = Some node.(nd_lis);
  rn_rsm : MakeRSM node.(nd_me) maxState NewStore disk.(d_snapshot) = Some node.(nd_rsm);
  rn_engine : ∃ rf ts pd, Make (zlen cfg.(Nodes)) node.(nd_me) disk = Some rf ∧
    dialling p node.(nd_me) cfg.(Nodes) ts node.(nd_connections) pd ∧
    p' = mkProc pd.(openConns) pd.(nextConn) (Some (mkEngine rf ts)) (Some node.(nd_lis)) true
           (Some (cfg.(MetricsPortBase) + nodeID))
}.

(** The process after a failed start. *)
Definition failed p (e : startError) p' : Prop :=
  p'.(openConns) = p.(openConns) ∧ p'.(listening) = p.(listening) ∧ p'.(serving) = p.(serving) ∧
  p'.(metricsPort) = p.(metricsPort) ∧
  match e with
  | ErrListen => ∃ me rf ts, StartNode_me cfg nodeID = Some me ∧
      Make (zlen cfg.(Nodes)) me disk = Some rf ∧ p'.(engineOf) = Some (mkEngine rf ts)
  | _ => p'.(engineOf) = p.(engineOf)
  end.

(** [StartNode] once the peers are dialled. *)
Lemma StartNode_dialled p me ts cs pd : StartNode_me cfg nodeID = Some me → mkdirOk = true →
  dialPeers dialOk me 0 cfg.(Nodes) [] [] p = Some (inr (ts, cs), pd, []) → zlen ts = zlen cfg.(Nodes) →
  start p =
    t ← randomizedElectionTimeout (fromMs cfg.(ElectionTimeoutMin)) (fromMs cfg.(ElectionTimeoutRand)) draw;
    rf ← Make (zlen cfg.(Nodes)) me disk;
    r ← MakeRSM me maxState NewStore disk.(d_snapshot);
    addr ← Addr <$> cfg.(Nodes) !! Z.to_nat me;
    let p1 := set_engine (Some (mkEngine rf ts)) pd in
    if listenOk then
      Some (inr (mkKVNode me addr r cs), mkProc pd.(openConns) pd.(nextConn) (Some (mkEngine rf ts))
        (Some addr) true (Some (cfg.(MetricsPortBase) + nodeID)), [])
    else '(_, p2, _) ← for_each cs closeConn p1; Some (inl ErrListen, p2, []).
Proof.
  intros Hme Hmk Hd Hts. unfold StartNode. rewrite Hme, Hmk. simpl.
  rewrite (bind_run _ _ _ _ _ _ Hd). simpl.
  pose proof (makeReplica_run disk draw cfg me maxState ts pd) as Hr. rewrite Hts in Hr.
  destruct (randomizedElectionTimeout _ _ _); simpl in *; [|by rewrite bind_panic].
  destruct (Make _ _ _) as [rf|]; simpl in *; [|by rewrite bind_panic].
  destruct (MakeRSM _ _ _ _) as [r|]; simpl in *; [|by rewrite bind_panic].
  rewrite (bind_run _ _ _ _ _ _ Hr). destruct (Addr <$> _) as [addr|]; [|done].
  rewrite bind_try. simpl. destruct listenOk; simpl; [done|].
  destruct (closeAll_run cs (set_engine (Some (mkEngine rf ts)) pd)) as (p2 & Hc & _ & _).
  rewrite (bind_run _ _ _ _ _ _ Hc), Hc. done.
Qed.

(** What [StartNode] does in a process: it panics, fails, or the node runs. *)
Lemma StartNode_run p : fresh_conns p → ∀ res p' effs, start p = Some (res, p', effs) →
  match res with inl e => failed p e p' | inr node => running p node p' end.
Proof.
  intros Hf res p' effs. destruct (StartNode_me cfg nodeID) as [me|] eqn:Hme.
  2: { unfold StartNode. rewrite Hme. intros [= <- <- _]. by repeat split. }
  destruct mkdirOk eqn:Hmk.
  2: { unfold StartNode. rewrite Hme. intros [= <- <- _]. by repeat split. }
  destruct (dialPeers_run dialOk p me [] cfg.(Nodes) [] [] p (dialling_start p me Hf)) as (r & pd & Hr & Hp).
  change (zlen []) with 0 in Hr. destruct r as [e|[ts cs]].
  - unfold StartNode. rewrite Hme. simpl. rewrite (bind_run _ _ _ _ _ _ Hr). intros [= <- <- _].
    destruct Hp as [(i & -> & _) [(? & ? & ? & ?) ?]]. by repeat split.
  - simpl in Hp. pose proof (dl_length _ _ _ _ _ _ Hp) as Hts. rewrite <-Hmk.
    rewrite (StartNode_dialled p me ts cs pd Hme Hmk Hr) by lia.
    intros (t & Ht & (rf & HM & (rs & HR & (addr & Ha & Hrest)%bind_Some)%bind_Some)%bind_Some)%bind_Some.
    destruct listenOk.
    + injection Hrest as <- <- _. split; [done..|]. simpl. by exists rf, ts, pd.
    + destruct (dialling_close _ _ _ _ _ _ (set_engine (Some (mkEngine rf ts)) pd) Hp eq_refl)
        as (p2 & Hc & (E1 & E2 & E3 & E4) & Ho). cbv zeta in Hrest. rewrite Hc in Hrest. injection Hrest as <- <- _.
      destruct (dl_same _ _ _ _ _ _ Hp) as (F1 & F2 & F3 & F4). simpl in *.
      repeat split; [congruence..|]. by exists me, rf, ts.
Qed.
End facts.

Lemma StartNode_total dialOk disk draw cfg nodeID maxState me rf r p :
  fresh_conns p → StartNode_me cfg nodeID = Some me → (∀ i, i ≠ me → dialOk i = true) →
  toMs (fromMs cfg.(ElectionTimeoutRand)) ≠ 0 →
  Make (zlen cfg.(Nodes)) me disk = Some rf → MakeRSM me maxState NewStore disk.(d_snapshot) = Some r →
  ∃ node p', StartNode true dialOk true disk draw cfg nodeID maxState p = Some (inr node, p', []).
Proof.
  intros Hf Hme Hok Hrand HM HR.
  destruct (dialPeers_total dialOk p me cfg.(Nodes) p Hok (dialling_start p me Hf)) as (ts & cs & pd & Hd & Hp).
  rewrite (StartNode_dialled _ _ _ _ _ _ _ _ p me ts cs pd Hme eq_refl Hd)
    by (rewrite (dl_length _ _ _ _ _ _ Hp); done).
  unfold randomizedElectionTimeout. rewrite bool_decide_false by done. rewrite HM, HR. simpl.
  destruct (findMe_Some _ _ _ _ Hme) as [_ (n & Hn & _)]. rewrite Z.sub_0_r in Hn. rewrite Hn. simpl.
  by do 2 eexists.
Qed.

Lemma fresh_init : fresh_conns procInit.
Proof. intros c _. apply lookup_empty. Qed.

(** [time.Duration(x) * time.Millisecond] and back, for [x] that is not
    astronomical. *)
Definition msRange (x : Z) : Prop := 0 ≤ x < 2 ^ 63 / millisecond.

Lemma int64_small z : - 2 ^ 63 ≤ z < 2 ^ 63 → int64 z = z.
Proof. intros Hz. unfold int64. rewrite Z.mod_small; lia. Qed.

Lemma toMs_fromMs x : msRange x → toMs (fromMs x) = x.
Proof.
  unfold msRange, toMs, fromMs, millisecond. intros Hx.
  assert (2 ^ 63 / 1000000 = 9223372036854) as E by done. rewrite E in Hx.
  rewrite int64_small by lia. apply Z.quot_mul. lia.
Qed.

Lemma Make_dead n myself d rf : Make n myself d = Some rf → rf.(dead) = false.
Proof.
  unfold Make, readPersist. case_bool_decide; [by intros [= <-]|].
  destruct (decode_int (d_raftState d)) as [[ct d1]|]; [|done]. rewrite bind_try.
  destruct (decode_int d1) as [[vf d2]|]; [|done]. rewrite bind_try.
  destruct (decode_entries d2) as [[ls d3]|]; [|done]. rewrite bind_try.
  destruct (decode_int d3) as [[lii d4]|]; [|done]. rewrite bind_try.
  destruct (decode_int d4) as [[lit d5]|]; [|done]. rewrite bind_try. run.
  intros [= <-]. repeat case_bool_decide; done.
Qed.

(** Three nodes with the default settings. *)
Module Three.
Definition nodes : list Node := [mkNode 10 "a"; mkNode 11 "b"; mkNode 12 "c"].
Definition cfg : Config := mkConfig nodes 600 400 100 10 100 3 2 8080.
Definition disk : Disk := (Run.system.(sy_world).(w_node) 1).(persister).
Abbreviation started listenOk := (StartNode true (λ _, true) listenOk disk 7 cfg 11 1 procInit).
Definition proc (listenOk : bool) : Proc := default procInit (run_st (started listenOk)).
Definition node : KVNode :=
  match run_val (started true) with
  | Some (inr n) => n
  | _ => mkKVNode 0 "" (mkRSM 0 0 NewStore ∅ 0) []
  end.

Example loaded : Load (λ _, None) (Some nodes) = Some cfg.
Proof. by vm_compute. Qed.
End Three.

(** ** Theorems *)

(** C21: a node starts again from what a crash left, when nothing fails.  Take a
    system reachable without a restart from a torn save, a disk that a crash of
    one of its nodes can leave with its last save complete, and a configuration
    of that cluster in which the random part of the election timeout is not
    zero.  If the directory can be made, every peer can be dialled and the
    address can be listened on, [StartNode] completes; its engine and replica
    are those of the restarted node, so the system with them is reachable again;
    every peer is reached through a connection to its own address and the node
    itself through none. *)
Theorem node_restarts N size maxState y cfg nodeID me d dialOk draw p :
  0 < N → sreachable Atomic N size NewStore maxState y → zlen cfg.(Nodes) = N →
  StartNode_me cfg nodeID = Some me → crashDisk N y.(sy_world) me d →
  (∀ i, i ≠ me → dialOk i = true) → toMs (fromMs cfg.(ElectionTimeoutRand)) ≠ 0 → fresh_conns p →
  ∃ node p' rf ts,
    StartNode true dialOk true d draw cfg nodeID maxState p = Some (inr node, p', []) ∧
    p'.(engineOf) = Some (mkEngine rf ts) ∧ p'.(listening) = Some node.(nd_lis) ∧
    sreachable Atomic N size NewStore maxState (rebooted y me rf node.(nd_rsm)) ∧
    (∀ j n, cfg.(Nodes) !! j = Some n → peer_at me ts p'.(openConns) j n).
Proof.
  intros HN Hy HNs Hme Hd Hok Hrand Hf.
  assert (isNode N me) as Hn by (destruct (findMe_Some _ _ _ _ Hme); split; lia).
  destruct (sreachable_inv N HN size NewStore maxState y Hy) as [a Ha].
  destruct (restart_total N HN NewStore maxState y a me d Ha Hn Hd) as (rf & r & HM & HR).
  destruct (StartNode_total dialOk d draw cfg nodeID maxState me rf r p) as (node & p' & Hs);
    [done..|by rewrite HNs|done|].
  destruct (StartNode_run _ _ _ _ _ _ _ _ p Hf _ _ _ Hs) as [R1 R2 R3 (rf' & ts & pd & HM' & Hdl & ->)].
  assert (node.(nd_me) = me) as Eme by congruence. rewrite Eme in *.
  exists node, (mkProc pd.(openConns) pd.(nextConn) (Some (mkEngine rf' ts)) (Some node.(nd_lis)) true
    (Some (cfg.(MetricsPortBase) + nodeID))), rf', ts.
  split; [done|]. split; [done|]. split; [done|]. split; [|apply (dl_peers _ _ _ _ _ _ Hdl)].
  eapply rtc_r; [exact Hy|]. rewrite HNs in HM'. by eapply S_crash.
Qed.

Lemma node_restarts_witness :
  ∃ node p' rf ts,
    Three.started true = Some (inr node, p', []) ∧
    p'.(engineOf) = Some (mkEngine rf ts) ∧ p'.(listening) = Some node.(nd_lis) ∧
    sreachable Atomic 3 Run.size NewStore 1 (rebooted Run.system 1 rf node.(nd_rsm)) ∧
    (∀ j n, Three.nodes !! j = Some n → peer_at 1 ts p'.(openConns) j n).
Proof.
  apply (node_restarts 3 Run.size 1 Run.system Three.cfg 11 1 Three.disk (λ _, true) 7 procInit);
    [lia| |done|done|by left|done|by vm_compute|apply fresh_init].
  apply (splay_reachable Atomic 3 Run.size NewStore 1 Run.schedule). vm_compute. reflexivity.
Defined.

(** C35: a failed start gives back what it took: whatever fails, the connections
    are those from before, nothing listens or serves that did not before, and no
    engine was started, unless it is the listener that failed: then the engine of
    the node is left running, with its connections closed and nobody to stop it. *)
Theorem failed_start_releases mkdirOk dialOk listenOk d draw cfg nodeID maxState p e p' effs :
  fresh_conns p → StartNode mkdirOk dialOk listenOk d draw cfg nodeID maxState p = Some (inl e, p', effs) →
  p'.(openConns) = p.(openConns) ∧ p'.(listening) = p.(listening) ∧ p'.(serving) = p.(serving) ∧
  match e with
  | ErrListen => ∃ rf ts, p'.(engineOf) = Some (mkEngine rf ts) ∧ rf.(dead) = false
  | _ => p'.(engineOf) = p.(engineOf)
  end.
Proof.
  intros Hf Hs. destruct (StartNode_run _ _ _ _ _ _ _ _ p Hf _ _ _ Hs) as (H1 & H2 & H3 & _ & H5).
  split; [done|]. split; [done|]. split; [done|]. destruct e; try done.
  destruct H5 as (me & rf & ts & _ & HM & He). exists rf, ts. split; [done|]. by eapply Make_dead.
Qed.

Lemma failed_start_releases_witness :
  ∃ p', Three.started false = Some (inl ErrListen, p', []) ∧ p'.(openConns) = ∅ ∧
    p'.(listening) = None ∧ p'.(serving) = false ∧
    ∃ rf ts, p'.(engineOf) = Some (mkEngine rf ts) ∧ rf.(dead) = false.
Proof.
  assert (∃ p', Three.started false = Some (inl ErrListen, p', [])) as [p' Hs]
    by (exists (Three.proc false); by vm_compute).
  exists p'. split; [exact Hs|].
  exact (failed_start_releases true (λ _, true) false Three.disk 7 Three.cfg 11 1 procInit ErrListen
    p' [] fresh_init Hs).
Defined.

(** C33: stopping a node ends it: the connections it opened are closed and only
    those, nothing listens or serves, and the engine is killed; only the metrics
    server stays. *)
Theorem stop_releases mkdirOk dialOk listenOk d draw cfg nodeID maxState p node p1 effs :
  fresh_conns p →
  StartNode mkdirOk dialOk listenOk d draw cfg nodeID maxState p = Some (inr node, p1, effs) →
  ∃ p2, Stop node p1 = Some ((), p2, []) ∧ p2.(openConns) = p.(openConns) ∧
    p2.(listening) = None ∧ p2.(serving) = false ∧
    (∃ rf ts, p2.(engineOf) = Some (mkEngine rf ts) ∧ rf.(dead) = true) ∧
    p2.(metricsPort) = Some (cfg.(MetricsPortBase) + nodeID).
Proof.
  intros Hf Hs.
  destruct (StartNode_run _ _ _ _ _ _ _ _ p Hf _ _ _ Hs) as [_ _ _ (rf & ts & pd & _ & Hdl & ->)].
  unfold Stop. rewrite !bind_modify. simpl.
  edestruct (dialling_close _ _ _ _ _ _ (set_listening None (set_serving false (mkProc pd.(openConns)
    pd.(nextConn) (Some (mkEngine rf ts)) (Some node.(nd_lis)) true
    (Some (cfg.(MetricsPortBase) + nodeID))))) Hdl eq_refl) as (p2 & Hc & (E1 & E2 & E3 & E4) & Ho).
  simpl in *. eexists. split; [rewrite (bind_run _ _ _ _ _ _ Hc), prepend_nil; apply run_modify|].
  simpl. rewrite E1, E2, E3, E4, Ho. repeat split. simpl. by do 2 eexists.
Qed.

Lemma stop_releases_witness :
  ∃ node p1 p2, Three.started true = Some (inr node, p1, []) ∧ Stop node p1 = Some ((), p2, []) ∧
    p2.(openConns) = ∅ ∧ p2.(listening) = None ∧ p2.(serving) = false ∧
    (∃ rf ts, p2.(engineOf) = Some (mkEngine rf ts) ∧ rf.(dead) = true) ∧
    p2.(metricsPort) = Some 8091.
Proof.
  assert (∃ node p1, Three.started true = Some (inr node, p1, [])) as (node & p1 & Hs)
    by (exists Three.node, (Three.proc true); by vm_compute).
  destruct (stop_releases true (λ _, true) true Three.disk 7 Three.cfg 11 1 procInit node p1 []
    fresh_init Hs) as (p2 & Hp).
  exists node, p1, p2. split; [exact Hs|exact Hp].
Defined.

(** The election timeout lies in the configured range, for settings whose
    sum in nanoseconds is a [time.Duration], whatever number is drawn. *)
Theorem election_timeout_range cfg draw :
  msRange cfg.(ElectionTimeoutMin) → 0 < cfg.(ElectionTimeoutRand) →
  msRange (cfg.(ElectionTimeoutMin) + cfg.(ElectionTimeoutRand)) → 0 ≤ draw →
  ∃ t, randomizedElectionTimeout (fromMs cfg.(ElectionTimeoutMin)) (fromMs cfg.(ElectionTimeoutRand)) draw
      = Some t ∧
    millisecond * cfg.(ElectionTimeoutMin) ≤ t <
      millisecond * (cfg.(ElectionTimeoutMin) + cfg.(ElectionTimeoutRand)).
Proof.
  intros H1 H2 H3 H4. assert (msRange cfg.(ElectionTimeoutRand)) as H5 by (unfold msRange in *; lia).
  unfold randomizedElectionTimeout. rewrite !toMs_fromMs by done. rewrite bool_decide_false by lia.
  pose proof (Z.rem_bound_pos draw (ElectionTimeoutRand cfg) H4 H2).
  unfold msRange, fromMs, millisecond in *. assert (2 ^ 63 / 1000000 = 9223372036854) as E by done.
  rewrite E in *. eexists. split; [done|]. rewrite !int64_small by (rewrite ?int64_small; lia). lia.
Qed.

Lemma election_timeout_range_witness :
  ∃ t, randomizedElectionTimeout (fromMs 600) (fromMs 400) 12345678 = Some t ∧
    millisecond * 600 ≤ t < millisecond * (600 + 400).
Proof.
  exact (election_timeout_range Three.cfg 12345678 ltac:(done) ltac:(done) ltac:(done) ltac:(done)).
Defined.

(** C40: a random part of zero is accepted by the configuration and stops the
    process: with [RAFT_ELECTION_TIMEOUT_RAND=0] in the environment, a valid
    cluster file and every port and address available, starting a node divides
    by zero. *)
Theorem zero_rand_panics env read cfg nodeID me dialOk listenOk d draw maxState p :
  Load env read = Some cfg → env "RAFT_ELECTION_TIMEOUT_RAND" = Some "0" →
  StartNode_me cfg nodeID = Some me → (∀ i, i ≠ me → dialOk i = true) → fresh_conns p →
  StartNode true dialOk listenOk d draw cfg nodeID maxState p = None.
Proof.
  intros HL Henv Hme Hok Hf.
  assert (cfg.(ElectionTimeoutRand) = 0) as Hz.
  { unfold Load in HL. apply bind_Some in HL as (ns & _ & HL). simpl in HL. repeat case_match; [done..|].
    injection HL as <-. simpl. unfold override. by rewrite Henv. }
  destruct (dialPeers_total dialOk p me cfg.(Nodes) p Hok (dialling_start p me Hf)) as (ts & cs & pd & Hd & Hp).
  rewrite (StartNode_dialled _ _ _ _ _ _ _ _ p me ts cs pd Hme eq_refl Hd)
    by (rewrite (dl_length _ _ _ _ _ _ Hp); done).
  by rewrite Hz.
Qed.

Definition zeroRand (key : string) : option string :=
  if bool_decide (key = "RAFT_ELECTION_TIMEOUT_RAND") then Some "0" else None.

Lemma zero_rand_panics_witness :
  StartNode true (λ _, true) true Three.disk 7 (mkConfig Three.nodes 600 0 100 10 100 3 2 8080) 11 1 procInit
  = None.
Proof.
  apply (zero_rand_panics zeroRand (Some Three.nodes) (mkConfig Three.nodes 600 0 100 10 100 3 2 8080) 11 1
    (λ _, true)); [by vm_compute|done|done|done|apply fresh_init].
Defined.
