(* ===== verification/Cli.v ===== *)
(** * The command line client ([cmd/cli/main.go], [NewClerk] and [Close] of [pkg/clerk/clerk.go])

    Making a clerk, with the connections it opens, and the client that performs
    one request with it: how the arguments are read, the calls it makes, its exit
    status.  The responses of the servers are given, as in [Clerk.v]. *)

From stdpp Require Import pretty.
From S2P Require Import Prelude Api Raft Store Rsm Transport Clerk Config System SystemRun Node.

Local Open Scope Z_scope.

(** ** [NewClerk] and [Close] *)

Record ClerkConfig := mkClerk {
  ck_addresses : list string;
  ck_lastLeader : Z;
  (** a nil connection is [None] *)
  ck_connections : list (option nat);
  ck_rpcTimeout : Z;
  ck_retrySleep : Z
}.

Definition second : Z := 1000 * millisecond.

Definition closeUnlessNil (c : option nat) : ProcM unit :=
  match c with Some c => closeConn c | None => mret () end.

Section clerk.
Context (env : string → option string) (dialOk : nat → bool).

(** The loop over the addresses, from index [i] on; [None] is the error. *)
Fixpoint clerkDial (i : nat) (addrs : list string) (connections : list (option nat))
    : ProcM (option (list (option nat))) :=
  match addrs with
  | [] => mret (Some connections)
  | a :: addrs' =>
      if dialOk i then
        conn ← openConn a;
        clerkDial (S i) addrs' (<[i := Some conn]> connections)
      else
        for_each connections closeUnlessNil ;;
        mret None
  end.

Definition NewClerk (addresses : list string) : ProcM (option ClerkConfig) :=
  o ← clerkDial 0 addresses (replicate (length addresses) None);
  match o with
  | None => mret None
  | Some connections =>
      mret (Some (mkClerk addresses 0 connections
        (int64 (GetEnvInt env "CLERK_RPC_TIMEOUT" 5 * second))
        (int64 (GetEnvInt env "CLERK_RETRY_SLEEP" 20 * millisecond))))
  end.
End clerk.

Definition Close (ck : ClerkConfig) : ProcM unit := for_each ck.(ck_connections) closeUnlessNil.

(** ** [fmt.Sscanf(s, "%d", &u)] for [u] a [uint64]

    White space, at least one digit, the range of [uint64]; what follows the
    digits is not looked at.  A newline before the digits is an error.  Spaces
    outside ASCII do not occur. *)
Definition code (c : Ascii.ascii) : Z := Z.of_nat (Ascii.nat_of_ascii c).

Fixpoint skipSpace (s : string) : option string :=
  match s with
  | EmptyString => Some s
  | String c s' =>
      if bool_decide (code c = 10) then None
      else if bool_decide (code c = 32 ∨ 9 ≤ code c ≤ 13) then skipSpace s'
      else Some s
  end.

(** The longest prefix of digits as a number, after [acc]; how many there are. *)
Fixpoint scanDigits (s : string) (acc : Z) (n : nat) : Z * nat :=
  match s with
  | EmptyString => (acc, n)
  | String c s' =>
      let d := code c - 48 in
      if bool_decide (0 ≤ d ≤ 9) then scanDigits s' (10 * acc + d) (S n) else (acc, n)
  end.

Definition Sscanf_uint64 (s : string) : option Z :=
  s' ← skipSpace s;
  let '(u, n) := scanDigits s' 0 0 in
  if bool_decide (n = 0%nat) then None
  else if bool_decide (u < 2 ^ 64) then Some u else None.

Example Sscanf_cases :
  Sscanf_uint64 "42" = Some 42 ∧ Sscanf_uint64 " 7" = Some 7 ∧ Sscanf_uint64 "-1" = None ∧
  Sscanf_uint64 "" = None ∧ Sscanf_uint64 "18446744073709551616" = None.
Proof. by vm_compute. Qed.

(** ** [main] *)

(** The request the arguments ask for. *)
Inductive cliRequest :=
  | CliGet (key : string)
  | CliPut (key value : string) (version : Z).

(** The checks of the arguments once the clerk is there; [None] is an exit with
    status 2. *)
Definition parseArgs (args : list string) : option cliRequest :=
  match args with
  | cmd :: rest =>
      if bool_decide (cmd = "get") then
        match rest with [key] => Some (CliGet key) | _ => None end
      else if bool_decide (cmd = "put") then
        match rest with
        | [key; value] => Some (CliPut key value 0)
        | [key; value; v] => u ← Sscanf_uint64 v; Some (CliPut key value u)
        | _ => None
        end
      else None
  | [] => None
  end.




(** ** Lemmas *)

Lemma closeUnlessNil_run conns p :
  for_each conns closeUnlessNil p = for_each (omap id conns) closeConn p.
Proof.
  revert p. induction conns as [|[c|] conns IH]; intros p; simpl; [done| |].
  - unfold closeConn at 1 3. rewrite !bind_modify. apply IH.
  - rewrite bind_ret. apply IH.
Qed.

(** The loop of [NewClerk] before index [i], begun in [p0]. *)
Record clerkDialling (p0 : Proc) (addrs : list string) (i : nat) (conns : list (option nat)) (p : Proc)
    : Prop := {
  cd_fresh : fresh_conns p;
  cd_length : length conns = length addrs;
  cd_done j a : addrs !! j = Some a → (j < i)%nat →
    ∃ c, conns !! j = Some (Some c) ∧ p.(openConns) !! c = Some a;
  cd_others c : Some c ∉ conns → p.(openConns) !! c = p0.(openConns) !! c;
  cd_own c : Some c ∈ conns → p0.(openConns) !! c = None;
  cd_todo j : (i ≤ j < length addrs)%nat → conns !! j = Some None
}.

Lemma clerkDialling_start p addrs : fresh_conns p →
  clerkDialling p addrs 0 (replicate (length addrs) None) p.
Proof.
  intros Hf. split; [done|apply length_replicate|lia|done| |].
  - intros c Hc. apply list_elem_of_lookup in Hc as [j Hj]. by apply lookup_replicate in Hj as [? _].
  - intros j Hj. apply lookup_replicate. split; [done|lia].
Qed.

Lemma clerkDialling_conn p0 addrs i conns p a : clerkDialling p0 addrs i conns p → addrs !! i = Some a →
  let c := p.(nextConn) in
  clerkDialling p0 addrs (S i) (<[i := Some c]> conns)
    (set_conns (<[c := a]> p.(openConns)) (S c) p).
Proof.
  intros [H1 H2 H3 H4 H5 H6] Ha c. pose proof (lookup_lt_Some _ _ _ Ha) as Hi.
  assert (∀ k, Some k ∈ <[i:=Some c]> conns → k = c ∨ Some k ∈ conns) as Hin.
  { intros k [j Hj]%list_elem_of_lookup. destruct (decide (i = j)) as [<-|Hne].
    - rewrite list_lookup_insert_eq in Hj by lia. left. congruence.
    - rewrite list_lookup_insert_ne in Hj by done. right. by eapply list_elem_of_lookup_2. }
  assert (∀ k, Some k ∈ conns → Some k ∈ <[i:=Some c]> conns) as Hin'.
  { intros k [j Hj]%list_elem_of_lookup. apply list_elem_of_lookup. exists j.
    rewrite list_lookup_insert_ne; [done|]. intros <-. rewrite H6 in Hj by lia. done. }
  assert (Some c ∈ <[i:=Some c]> conns) as Hc
    by (apply list_elem_of_lookup; exists i; apply list_lookup_insert_eq; lia).
  split; simpl.
  - intros k Hk. simpl in *. rewrite lookup_insert_ne by lia. apply H1. lia.
  - by rewrite length_insert.
  - intros j b Hb Hj. destruct (decide (i = j)) as [<-|Hne].
    + exists c. rewrite list_lookup_insert_eq by lia. split; [done|].
      rewrite lookup_insert_eq. congruence.
    + destruct (H3 j b Hb) as (k & Hk & Ho); [lia|]. exists k. rewrite list_lookup_insert_ne by done.
      split; [done|]. rewrite lookup_insert_ne; [done|]. intros <-. rewrite (H1 c) in Ho by lia. done.
  - intros k Hk. rewrite lookup_insert_ne by naive_solver. apply H4. naive_solver.
  - intros k [->|Hk]%Hin; [|by apply H5]. destruct (decide (Some c ∈ conns)) as [Hcc|Hcc]; [by apply H5|].
    rewrite <-(H4 c Hcc). by apply H1.
  - intros j Hj. rewrite list_lookup_insert_ne by lia. apply H6. lia.
Qed.

Lemma clerkDialling_close p0 addrs i conns p : clerkDialling p0 addrs i conns p →
  ∃ p', for_each conns closeUnlessNil p = Some ((), p', []) ∧ p'.(openConns) = p0.(openConns).
Proof.
  intros [H1 H2 H3 H4 H5 H6]. rewrite closeUnlessNil_run.
  destruct (closeAll_run (omap id conns) p) as (p' & Hr & _ & Hc). exists p'. split; [done|].
  apply map_eq. intros c. rewrite Hc.
  assert (c ∈ omap id conns ↔ Some c ∈ conns) as Hin.
  { rewrite list_elem_of_omap. split; [|by eauto]. intros (x & Hx & Hid). unfold id in Hid. by subst x. }
  case_bool_decide as Hd.
  - symmetry. by apply H5, Hin.
  - apply H4. by rewrite <-Hin.
Qed.

Lemma clerkDial_run dialOk p0 addrs i conns p : clerkDialling p0 addrs i conns p → (i ≤ length addrs)%nat →
  ∃ o p', clerkDial dialOk i (drop i addrs) conns p = Some (o, p', []) ∧
    match o with
    | None => p'.(openConns) = p0.(openConns) ∧ ∃ j, (i ≤ j < length addrs)%nat ∧ dialOk j = false
    | Some conns' => clerkDialling p0 addrs (length addrs) conns' p'
    end.
Proof.
  intros Hd Hi. remember (length addrs - i)%nat as m eqn:Hm. revert i conns p Hd Hi Hm.
  induction m as [|m IH]; intros i conns p Hd Hi Hm.
  - rewrite drop_ge by lia. simpl. exists (Some conns), p. split; [done|].
    by replace (length addrs) with i by lia.
  - destruct (lookup_lt_is_Some_2 addrs i) as [a Ha]; [lia|]. rewrite (drop_S _ _ _ Ha). simpl.
    destruct (dialOk i) eqn:Hok.
    + destruct (IH (S i) _ _ (clerkDialling_conn _ _ _ _ _ _ Hd Ha)) as (o & p' & Hr & Hp); [lia..|].
      exists o, p'. split.
      * unfold openConn. rewrite bind_assoc, bind_get, bind_assoc, bind_modify, bind_ret. done.
      * destruct o; [done|]. destruct Hp as [? (j & ? & ?)]. split; [done|]. exists j. split; [lia|done].
    + destruct (clerkDialling_close _ _ _ _ _ Hd) as (p' & Hr & Ho). exists None, p'. split.
      * rewrite (bind_run _ _ _ _ _ _ Hr). done.
      * split; [done|]. exists i. split; [lia|done].
Qed.


(** *** Reading back what was printed in decimal *)

Lemma code_digit (d : N) : (d < 10)%N → code (pretty_N_char d) = 48 + Z.of_N d.
Proof.
  intros Hd. assert (d = 0 ∨ d = 1 ∨ d = 2 ∨ d = 3 ∨ d = 4 ∨ d = 5 ∨ d = 6 ∨ d = 7 ∨ d = 8 ∨ d = 9)%N
    as Hc by lia. by repeat destruct Hc as [->|Hc]; subst.
Qed.

Definition startsDigit (s : string) : Prop :=
  match s with String c _ => 48 ≤ code c ≤ 57 | EmptyString => False end.

Lemma scan_pretty x : ∃ k, ((0 < x)%N → (0 < k)%nat) ∧ ∀ s rest,
  scanDigits (pretty_N_go x s +:+ rest) 0 0 = scanDigits (s +:+ rest) (Z.of_N x) k.
Proof.
  induction (N.lt_wf_0 x) as [x _ IH]. destruct (decide (0 < x)%N) as [Hx|Hx].
  - destruct (IH (x `div` 10)%N) as (k & _ & Hk); [apply N.div_lt; lia|]. exists (S k). split; [lia|].
    intros s rest. rewrite pretty_N_go_step by done. rewrite Hk. simpl.
    rewrite code_digit by (apply N.mod_lt; lia).
    pose proof (N.mod_lt x 10 ltac:(done)). pose proof (N.div_mod x 10 ltac:(done)).
    clear Hk IH. generalize dependent (x `mod` 10)%N. generalize dependent (x `div` 10)%N.
    intros q r Hr ->. rewrite bool_decide_true by lia. f_equal. lia.
  - assert (x = 0%N) as -> by lia. by exists 0%nat.
Qed.

Lemma pretty_go_startsDigit x s : (0 < x)%N ∨ startsDigit s → startsDigit (pretty_N_go x s).
Proof.
  revert s. induction (N.lt_wf_0 x) as [x _ IH]. intros s Hs. destruct (decide (0 < x)%N) as [Hx|Hx].
  - rewrite pretty_N_go_step by done. apply IH; [apply N.div_lt; lia|]. right. simpl.
    pose proof (N.mod_lt x 10 ltac:(done)) as Hr. revert Hr. generalize (x `mod` 10)%N. intros r Hr.
    rewrite code_digit by done. lia.
  - assert (x = 0%N) as -> by lia. destruct Hs; [lia|done].
Qed.

Lemma pretty_startsDigit (u : N) : startsDigit (pretty u).
Proof.
  unfold pretty, pretty_N. case_decide; [done|]. apply pretty_go_startsDigit. lia.
Qed.

Lemma scanDigits_stop s acc n : ¬ startsDigit s → scanDigits s acc n = (acc, n).
Proof. destruct s as [|c s]; simpl; [done|]. intros Hs. by rewrite bool_decide_false by lia. Qed.

Lemma Sscanf_pretty u rest : 0 ≤ u < 2 ^ 64 → ¬ startsDigit rest →
  Sscanf_uint64 (pretty (Z.to_N u) +:+ rest) = Some u.
Proof.
  intros Hu Hrest. assert (skipSpace (pretty (Z.to_N u) +:+ rest) = Some (pretty (Z.to_N u) +:+ rest)) as Hs.
  { pose proof (pretty_startsDigit (Z.to_N u)) as Hd. destruct (pretty (Z.to_N u)) as [|c s]; [done|].
    simpl in *. by rewrite !bool_decide_false by lia. }
  unfold Sscanf_uint64. rewrite Hs. simpl.
  assert (∃ k, scanDigits (pretty (Z.to_N u) +:+ rest) 0 0 = (u, S k)) as (k & ->).
  { unfold pretty, pretty_N. case_decide as H0.
    - assert (u = 0) as -> by lia. exists 0%nat. change (scanDigits rest 0 1 = (0, 1%nat)).
      by apply scanDigits_stop.
    - destruct (scan_pretty (Z.to_N u)) as (k & Hk & ->). simpl. rewrite scanDigits_stop by done.
      destruct k as [|k]; [lia|]. exists k. f_equal. lia. }
  rewrite bool_decide_false by done. by rewrite bool_decide_true by lia.
Qed.

Lemma NewClerk_run env dialOk addrs p : fresh_conns p →
  ∃ o p', NewClerk env dialOk addrs p = Some (o, p', []) ∧
    match o with
    | None => p'.(openConns) = p.(openConns) ∧ ∃ j, (j < length addrs)%nat ∧ dialOk j = false
    | Some ck => clerkDialling p addrs (length addrs) ck.(ck_connections) p' ∧ ck.(ck_lastLeader) = 0
    end.
Proof.
  intros Hf. destruct (clerkDial_run dialOk p addrs 0 _ p (clerkDialling_start p addrs Hf))
    as (o & p' & Hr & Hp); [lia|]. rewrite drop_0 in Hr. unfold NewClerk.
  rewrite (bind_run _ _ _ _ _ _ Hr). destruct o as [conns|].
  - eexists (Some _), p'. split; [done|]. by split.
  - exists None, p'. split; [done|]. destruct Hp as (? & j & ? & ?). split; [done|]. exists j. split; [lia|done].
Qed.


(** ** Theorems *)

(** A clerk owns its connections.  [NewClerk] either fails, because an
    address could not be dialled, and has closed what it had opened, or makes a
    clerk whose [i]-th connection leads to the [i]-th address; and closing that
    clerk closes those connections and no others. *)
Theorem clerk_connections env dialOk addrs p :
  fresh_conns p →
  ∃ o p', NewClerk env dialOk addrs p = Some (o, p', []) ∧
    match o with
    | None => p'.(openConns) = p.(openConns) ∧ ∃ j, (j < length addrs)%nat ∧ dialOk j = false
    | Some ck =>
        (∀ i a, addrs !! i = Some a →
           ∃ c, ck.(ck_connections) !! i = Some (Some c) ∧ p'.(openConns) !! c = Some a) ∧
        ∃ p2, Close ck p' = Some ((), p2, []) ∧ p2.(openConns) = p.(openConns)
    end.
Proof.
  intros Hf. destruct (NewClerk_run env dialOk addrs p Hf) as (o & p' & Hr & Hp).
  exists o, p'. split; [done|]. destruct o as [ck|]; [|done]. destruct Hp as [Hd _]. split.
  - intros i a Ha. apply (cd_done _ _ _ _ _ Hd i a Ha). by eapply lookup_lt_Some.
  - by eapply clerkDialling_close.
Qed.

Lemma clerk_connections_witness :
  ∃ o p', NewClerk (λ _, None) (λ i, bool_decide (i ≠ 2%nat)) ["a"; "b"; "c"] procInit = Some (o, p', []) ∧
    match o with
    | None => p'.(openConns) = ∅ ∧ ∃ j, (j < 3)%nat ∧ bool_decide (j ≠ 2%nat) = false
    | Some ck =>
        (∀ i a, ["a"; "b"; "c"] !! i = Some a →
           ∃ c, ck.(ck_connections) !! i = Some (Some c) ∧ p'.(openConns) !! c = Some a) ∧
        ∃ p2, Close ck p' = Some ((), p2, []) ∧ p2.(openConns) = ∅
    end.
Proof.
  exact (clerk_connections (λ _, None) (λ i, bool_decide (i ≠ 2%nat)) ["a"; "b"; "c"] procInit fresh_init).
Defined.

(** A version on the command line is the number it starts with: printed in
    decimal it is read back exactly, up to the largest [uint64], and whatever
    follows the digits is ignored, so [12abc] is version 12 and not a bad
    version. *)
Theorem version_argument key value u rest :
  0 ≤ u < 2 ^ 64 → ¬ startsDigit rest →
  parseArgs ["put"; key; value; pretty (Z.to_N u) +:+ rest] = Some (CliPut key value u).
Proof. intros Hu Hr. unfold parseArgs. simpl. by rewrite Sscanf_pretty. Qed.

Lemma version_argument_witness :
  parseArgs ["put"; "k"; "v"; "18446744073709551615abc"] = Some (CliPut "k" "v" 18446744073709551615).
Proof.
  apply (version_argument "k" "v" 18446744073709551615 "abc"); [lia|intros [_ Hc]; by vm_compute in Hc].
Defined.


